(* ===== verification/_CoqProject ===== *)
-Q . S2P
Prelude.v
GoInt.v
GoSlice.v
RingBuffer.v
RingLog.v
Contract.v
Anomalies.v
Workload.v
Harness.v
Threads.v
Concurrent.v
Safety.v
Flags.v
Consumers.v
Streams.v
Goroutines.v
Progress.v
Blocked.v
Output.v
Published.v
Drain.v
