(* ===== verification/Prelude.v ===== *)
(** * A verification development for the lmax ring buffer (src/lmax.go)

    ** The program

    [src/lmax.go] is a Disruptor-style broadcast ring: a fixed array of
    payload slots, a flag per slot, one write cursor shared by the
    producers and one read cursor per consumer.  Its parts are

    - the [RingBuffer] struct and its constructor [NewRingBuffer];
    - [Put], which claims [len(data)] sequence numbers with one
      fetch-and-add on [writeCursor] and then, per item, stores the payload
      in slot [seq % size] and sets the slot's [available] flag;
    - [Get], which starts at [readCursors[id] + 1] and, at most
      [batchSize] times, tests [nextRead <= writeCursor], the gate
      [nextRead - readBarrier < size] and the slot's flag, copies the
      payload and stores its cursor; a slot whose flag is not set makes it
      sleep and retry; afterwards it stores the minimum of all read
      cursors in [readBarrier];
    - the harness: [Producer], [Consumer] (a polling loop ended by a stop
      channel) and [main].

    The Go runtime supplies what the code calls: 64-bit integers that wrap,
    the truncated remainder [%] that panics on a zero divisor, slices whose
    indexing and [make] panic out of range, and the atomic loads, stores
    and additions.

    ** The files

    - [Prelude] (this file): the [outcome] type of a Go call (it returns,
      it panics, or it spins for ever on a flag nobody sets), its monad,
      the tactics and the hint database [lmax] of the development.
    - [GoInt]: [int64]/[int32] as [Z] with the wrap-around written out,
      Go's [%] ([rem64]), conversions.
    - [GoSlice]: [make], indexed load and store with their bounds checks,
      as [outcome]s.
    - [RingBuffer]: the struct as a Record, [NewRingBuffer], [Put] (the
      loop is [put_loop]), [Get] (its polling loop both as the literal
      loop with fuel, [get_poll], and as the structural [get_loop]; the
      barrier scan is [min_cursor]), the well-formedness invariant [wf]
      and its preservation, the frame and advancement lemmas.
    - [RingLog]: the abstract specification, a [Log] of everything
      published with one position per consumer and a gate; the
      representation relation [repr] between a ring and a log
      ([slots_hold]: the slots hold the last [size] entries); the
      refinement theorems: [NewRingBuffer], [Put] and [Get] implement
      [new_log], [publish] and [consume] on the calls the log admits, and
      so does every schedule of calls ([run_ring], [run_log]); what a
      consumer receives in such a schedule is a segment of the log.
    - [Contract]: the interface between the harness and the ring as a
      class of the three operations ([Ring]) and the class of its laws
      ([RingLaws]): a relation between rings and logs that
      [NewRingBuffer] establishes and [Put] and [Get] keep on the
      calls the log admits.  The ring of src/lmax.go is an instance,
      by the lemmas of [RingLog].
    - [Anomalies]: what the code does outside that regime: a lapped
      consumer is handed later entries, a consumer that has caught up
      with a filled ring is handed an old entry again, a consumer ahead
      of the slowest one is stopped by the gate, no flag is ever
      cleared, size 0 is accepted, and the write cursor wraps at 2^63.
      The scenarios A and B of the specification are evaluated there.
    - [Workload]: a condition checked by evaluation ([within]) under
      which the log admits a schedule: fewer items than slots are
      published and no [Get] asks for more than is published.  On such
      schedules every consumer receives a prefix of what was published.
    - [Harness]: [Producer], [Consumer] (its loop takes the number of
      turns before the stop channel is closed) and [main], written
      against the interface [Ring] and run in the order of a schedule
      of whole calls; [TestBasicFunctionality] of
      [src/lmax_test.go].
    - [Threads]: [Put] and [Get] cut at every access to the shared ring:
      a [thread] is the point a call has reached with its live locals,
      [thread_step] is one access.  A thread run alone ([solo]) answers
      what the call answers in [RingBuffer].
    - [Concurrent]: a pool of threads over one ring, each step a step of
      one thread or the start of a new call ([step_where], which takes
      the calls a thread may start, [step], [reachable]); the system
      carries two logs that the code does not read: the items claimed,
      in the order of the fetch-and-adds ([claimed]), and what the calls
      of [Get] have returned to every consumer ([delivered]).  The
      invariant of the first lap ([system_ok]) is proved by induction on
      the steps.
    - [Safety]: the invariant of every lap ([pool_safe]): the write
      cursor is the number of items claimed, no read cursor is past it,
      the locals of every call are within the bounds their accesses
      need; so no access panics.
    - [Flags]: the flags on every lap: a claimed sequence is flagged or
      still held by the call of [Put] that claimed it ([flags_ok]); no
      step clears a flag.
    - [Consumers]: the discipline of [main], where every consumer id is
      served by one goroutine: a step relation [step_own] that lets a
      thread call [Get] for its own consumer only, and the invariant
      that the cursor of a consumer is the sequence before the
      [nextRead] of its thread ([cursors_ok]).
    - [Streams]: under that discipline, what a consumer has been handed
      and what its call in progress has copied are the log up to its
      cursor ([streams_ok]).
    - [Goroutines]: the goroutines of [main] and of [TestConcurrency]
      and the benchmarks of [src/lmax_test.go]: every thread carries a
      [task], the code of its goroutine between two calls (the loop of
      [Producer] calls and [close(stopCh)], the [select] and the
      [Printf] of [Consumer], the loop of a test consumer that ends on
      an empty batch, [wg.Wait()]); [go_step] is one step of one
      goroutine, [go_run] a schedule of steps.
    - [Progress]: how many steps of its own a goroutine takes before it
      returns: a measure on the state of a producer
      ([producer_steps]) and of a consumer ([consumer_steps]) that the
      goroutine's own steps decrease and the steps of the others leave
      alone.
    - [Blocked]: the call of [Get] that waits for the flag of the first
      sequence nobody has claimed ([polling]), and the goroutine of
      [Consumer] that made it.
    - [Output]: what the goroutines print: the payloads a consumer has
      printed are those the calls of [Get] have returned to it
      ([printed_ok]).
    - [Published]: the invariant of every lap that the payload of a
      flagged slot, and every payload a call holds, is an item some
      [Put] has claimed ([system_known]), and where the claimed items
      come from ([sourced]).
    - [Drain]: the consumers of [TestConcurrency], which call [Get]
      until a batch is empty: the cursor of a consumer on every lap
      ([reachable_cursors_safe]), and a measure on the state of such a
      consumer that its own steps decrease once the producers have
      returned ([drain_steps]).

    ** Correspondence with the code

    A call is a function from the ring to an [outcome]: [Ret] with the
    result and the new ring, [Panic] with the runtime error that ends the
    process, [Spin] when the call polls a flag that only another goroutine
    can set.  In [RingBuffer] a call runs without interruption; in
    [Threads] and [Concurrent] it is cut at its accesses to the ring and
    the two are proved to agree for a thread alone.  Integers are kept
    at 64 bits: every addition and subtraction of the source is
    [add64]/[sub64], and the theorems say where no wrap occurs.  An
    [interface{}] is [option V], [None] being [nil].  The slice
    [results[:index]] that [Get] returns is the list of the payloads
    copied so far.

    ** The theorems

    - Invariant ([RingBuffer]): [wf] holds of the ring [NewRingBuffer]
      returns and is preserved by [Put] and [Get].
    - Functional behaviour ([RingBuffer]): [Put] is the reference loop
      [write_all] and never waits; [Get] returns exactly the lists of
      payloads readable after the caller's cursor, advances the cursor
      by their number, changes nothing else but the barrier, which
      becomes the least read cursor; the panics of a bad consumer id, a
      negative batch and a ring of size 0; when [Get] polls for ever.
    - Equivalence and termination ([RingBuffer]): the literal polling
      loop [get_poll] and the structural [get_loop] agree.
    - Refinement ([RingLog]): the ring implements the log, call by call
      and schedule by schedule.
    - Departures ([Anomalies]): the behaviours listed above, each as the
      value the code returns.
    - Workloads ([Workload], [Harness]): on every ring that has the
      laws of [Contract] the harness delivers every item in order to
      every consumer when fewer items than slots are published;
      [main]'s demonstration on the ring of src/lmax.go, which
      publishes twenty items into ten slots, prints two items twice
      and loses one.
    - Small steps ([Threads]): [solo] agrees with [Put] and [Get],
      with the number of steps that suffices, and never ends where
      [Get] polls for ever.
    - Interleavings ([Concurrent]): in the first lap, whatever the
      number of threads and the order of their steps, a slot whose flag
      is set holds the entry of its sequence and every [Get] returns a
      run of consecutive entries of the log; after the first lap a
      [Get] interleaved with a [Put] returns what no order of the two
      calls returns.
    - Memory safety ([Safety]): in every interleaving and on every
      lap no index is out of range while the calls of [Get] name
      consumers of the ring and fewer than 2^63 - 1 items are claimed.
    - Integrity ([Published]): in every interleaving, on every lap and
      for any calls, what a [Get] returns and what a consumer prints
      or logs are items of the [Producer] calls of the program: the
      flag of a slot is stored after the payload and tested before
      the copy.
    - One thread per consumer ([Consumers], [Streams]): in the first
      lap, in every interleaving, what the calls of [Get] have
      returned to a consumer and what its call in progress has copied
      are the first [cursor + 1] items claimed, each once and in
      order: the broadcast property of the specification.
    - Round trip ([RingLog]): a consumer that has read everything
      receives from [Get] the items of the [Put] before it.
    - Programs ([Goroutines]): a run of goroutines is a run of
      [Concurrent] in which every thread makes the calls of its task
      ([go_run_where]); the goroutines can claim no more items than
      their [Producer] calls hold ([go_run_claimed]), so they never
      panic; [TestConcurrency] passes under a schedule in which its
      consumers log 102 of the 300 items.
    - Output ([Output]): in every interleaving of the first lap, with
      one goroutine per consumer, what a consumer has printed and what
      its call in progress holds are the first [cursor + 1] items
      published: the broadcast property for the program as it runs.
    - Flags ([Flags]): in every interleaving and on every lap a claimed
      sequence is flagged or pending in its [Put]; after a complete
      lap, with no [Put] in progress, every flag is set.
    - Progress ([Progress]): a producer returns after four steps per
      call, two per item and one more, in every interleaving: [Put]
      waits for nothing, where the specification wants it to wait for
      the slowest consumer.  In a pool of producers and consumers with
      a lap of items, one of the producers closing the stop channel,
      every goroutine has returned once the producers have taken their
      steps and then every consumer [5 b + n + 7] steps; [main] is
      such a pool.
    - No progress ([Blocked]): in a pool with two items fewer than
      slots or less, once the producers have returned, a consumer
      whose [Get] has read every item and whose batch is not full
      tests the flag of the next slot and sleeps, in every
      interleaving, for ever: [Get] does not look at the stop channel
      and [Consumer] does not get to its [select].
      [BenchmarkSingleProducerSingleConsumer] with [b.N = 1] is such
      a pool.
    - The test ([Drain]): in a pool of producers, consumers that drain
      (one goroutine per consumer) and goroutines that wait for them,
      with a lap of items or more, every goroutine has returned once
      the producers have taken their steps, then the consumers
      [(5 b + n + 7) (items + 2)] steps each, then the waiting
      goroutines one: [TestConcurrency] ends in every such
      interleaving.

    ** Bounds and fuel

    [get_poll] takes the number of loop iterations as fuel because the
    source's loop does not advance [i] on a retry; [get_loop] needs none:
    it recurses on the items still to read and answers [Spin] where the
    source would retry in an unchanged state.  [get_poll_terminates] and
    [get_poll_never_returns] show that [batchSize - i + 1] iterations of
    fuel are enough for every call that returns and that no fuel is
    enough for one that spins.  [solo] takes the number of steps as
    fuel; [solo_Put_agrees] and [solo_Get_agrees] give the number that
    suffices ([2 * len data + 2] and [5 * batchSize + numConsumers + 5]).
    The theorems about [Put] ask for [writeCursor + len data < 2^63 - 1];
    [Put_past_int64_max] says what happens at that bound.  The theorems
    of the first lap ask for fewer items claimed than the ring has
    slots: with as many, the slot after the last published one is slot 0
    again and its flag is set.  [go_run] and [Concurrent.run] take a
    schedule, a list of the goroutines that move; a move that is not
    possible is skipped, so every list is a schedule.  The theorems of
    [Progress] ask of a schedule how often a goroutine occurs in it
    ([own_steps]); that is what fairness comes to for a finite
    schedule.  The counts are exact for a producer ([2 * len data + 4]
    steps per call and one to return; 57 for [main]) and an upper
    bound for a consumer ([5 * batchSize + numConsumers + 7]; 20 for
    [main]).  A consumer of [TestConcurrency] makes at most one call
    of [Get] per item and two more, each of at most that many steps
    with the step that starts it: 60 * 302 steps in the test.

    ** Not modelled

    [int] is taken to be 64 bits wide (amd64, arm64).  Allocation never
    fails for a non-negative length.  Wall-clock time ([time.Sleep]) and
    the bytes printed are not modelled: a sleep is a step that changes
    nothing, a [Printf] is an event.  Every access to the ring is one
    atomic step, also the plain reads of the barrier scan and of the
    buffer: the memory model of Go below sequential consistency is not
    modelled.  A panic ends the thread that panics, not the process,
    and the return of [main] does not end the other goroutines: a run
    of [main_pool] shows what they can do until then.  The benchmarks
    are given as pools of goroutines, [b.N] and the clock readings
    being arguments; their timing is not modelled.  In [Harness] the
    calls do not interleave and the [select] of [Consumer] is the
    number of turns its loop takes before the stop channel is closed;
    the [select] on the channel itself is in [Goroutines]
    ([serve_next]).  The two [Get]s of [TestBasicFunctionality] are
    whole calls.  The store of line 60 goes through the pointer taken
    at line 50; the model stores at the index again, which is in
    range whenever the load of line 50 was. *)

From stdpp Require Import prelude.

Declare Scope go_scope.
Delimit Scope go_scope with go.
#[global] Open Scope Z_scope.

(** ** Outcomes of a Go call *)

(** The runtime panics [src/lmax.go] can raise. *)
Inductive panic : Type :=
| DivideByZero
| IndexOutOfRange
| MakeSliceLen.

(** A call returns, panics (the process ends), or polls for ever. *)
Inductive outcome (A : Type) : Type :=
| Ret (a : A)
| Panic (p : panic)
| Spin.

Arguments Ret {A} a.
Arguments Panic {A} p.
Arguments Spin {A}.

#[export] Instance panic_eq_dec : EqDecision panic.
Proof. solve_decision. Defined.

#[export] Instance outcome_eq_dec {A} `{EqDecision A} : EqDecision (outcome A).
Proof. solve_decision. Defined.

#[export] Instance outcome_ret : MRet outcome := @Ret.

#[export] Instance outcome_bind : MBind outcome := λ A B f m,
  match m with
  | Ret a => f a
  | Panic p => Panic p
  | Spin => Spin
  end.

#[export] Instance outcome_fmap : FMap outcome := λ A B f m,
  match m with
  | Ret a => Ret (f a)
  | Panic p => Panic p
  | Spin => Spin
  end.

(** [returns m]: the call comes back with a value. *)
Definition returns {A} (m : outcome A) : Prop := ∃ a, m = Ret a.

(** [ensures m P]: the call returns and its result satisfies [P]. *)
Definition ensures {A} (m : outcome A) (P : A → Prop) : Prop :=
  ∃ a, m = Ret a ∧ P a.

(** [guard_or p b]: go on when [b] holds, panic with [p] otherwise. *)
Definition guard_or (p : panic) (b : bool) : outcome unit :=
  if b then Ret () else Panic p.

Create HintDb lmax discriminated.
Create Rewrite HintDb lmax.

(** ** The monad laws and the inversion lemmas *)

(** Closes the two directions of an inversion lemma once the outcome is
    a constructor. *)
Local Ltac solve_inv :=
  simpl; split;
  [ intros ?; first [ congruence | by eauto 6 | by (left; congruence) | by (right; eauto 6) ]
  | intros ?; repeat match goal with
      | H : _ ∨ _ |- _ => destruct H
      | H : ex _ |- _ => destruct H
      | H : _ ∧ _ |- _ => destruct H
      end; congruence ].

Section outcome_laws.
Context {A B C : Type}.
Implicit Types (m : outcome A) (f : A → outcome B) (g : B → outcome C).

Lemma bind_Ret_l (a : A) f : Ret a ≫= f = f a.
Proof. done. Qed.

Lemma bind_Ret_r m : m ≫= Ret = m.
Proof. by destruct m. Qed.

Lemma bind_assoc m f g : (m ≫= f) ≫= g = m ≫= (λ a, f a ≫= g).
Proof. by destruct m. Qed.

Lemma bind_Ret_inv m f (b : B) :
  m ≫= f = Ret b ↔ ∃ a, m = Ret a ∧ f a = Ret b.
Proof.
  destruct m as [a|p|]; solve_inv.
Qed.

Lemma bind_Panic_inv m f (p : panic) :
  m ≫= f = Panic p ↔ m = Panic p ∨ ∃ a, m = Ret a ∧ f a = Panic p.
Proof.
  destruct m as [a|q|]; solve_inv.
Qed.

Lemma bind_Spin_inv m f :
  m ≫= f = Spin ↔ m = Spin ∨ ∃ a, m = Ret a ∧ f a = Spin.
Proof.
  destruct m as [a|q|]; solve_inv.
Qed.

Lemma fmap_Ret_inv (h : A → B) m (b : B) :
  h <$> m = Ret b ↔ ∃ a, m = Ret a ∧ b = h a.
Proof.
  destruct m as [a|p|]; simpl; split; try congruence.
  - intros [= <-]. eauto.
  - intros (a' & [= <-] & ->). done.
  - intros (a' & [=] & _).
  - intros (a' & [=] & _).
Qed.

Lemma ensures_Ret (a : A) (P : A → Prop) : P a → ensures (Ret a) P.
Proof. intros; by exists a. Qed.

Lemma ensures_bind m f (P : A → Prop) (Q : B → Prop) :
  ensures m P → (∀ a, P a → ensures (f a) Q) → ensures (m ≫= f) Q.
Proof. intros (a & -> & Ha) Hf. by apply Hf. Qed.

Lemma ensures_mono m (P Q : A → Prop) :
  ensures m P → (∀ a, P a → Q a) → ensures m Q.
Proof. intros (a & -> & Ha) HPQ. exists a; auto. Qed.

Lemma ensures_returns m (P : A → Prop) : ensures m P → returns m.
Proof. intros (a & -> & _). by exists a. Qed.

End outcome_laws.

Lemma guard_or_Ret p b u : guard_or p b = Ret u ↔ b = true.
Proof. unfold guard_or; destruct b, u; intuition congruence. Qed.

Lemma guard_or_Panic p b q : guard_or p b = Panic q ↔ b = false ∧ q = p.
Proof. unfold guard_or; destruct b; intuition congruence. Qed.

Lemma guard_or_true p : guard_or p true = Ret ().
Proof. done. Qed.

Lemma guard_or_false p : guard_or p false = Panic p.
Proof. done. Qed.

#[export] Hint Rewrite @bind_Ret_l @bind_Ret_r guard_or_true guard_or_false : lmax.
#[export] Hint Resolve ensures_Ret : lmax.

(** ** Tactics *)

(** [go_step] runs the binds whose first operand is a constructor, and
    nothing else. *)
Tactic Notation "go_step" :=
  cbn [mbind mret fmap outcome_bind outcome_ret outcome_fmap].
Tactic Notation "go_step" "in" hyp(H) :=
  cbn [mbind mret fmap outcome_bind outcome_ret outcome_fmap] in H.

(** [inv_outcome] splits every hypothesis that says a bind returned. *)
Ltac inv_outcome :=
  repeat match goal with
  | H : Ret _ = Ret _ |- _ => injection H as H
  | H : Panic _ = Ret _ |- _ => discriminate H
  | H : Spin = Ret _ |- _ => discriminate H
  | H : mret _ = Ret _ |- _ => injection H as H
  | H : _ ≫= _ = Ret _ |- _ =>
      let a := fresh "a" in let Ha := fresh "Ha" in
      apply bind_Ret_inv in H as (a & Ha & H)
  | H : guard_or _ _ = Ret _ |- _ => apply guard_or_Ret in H
  | H : _ && _ = true |- _ => apply andb_prop in H as [? ?]
  end; simplify_eq.

(** [bool_lia] turns boolean comparisons on [Z] into facts and calls
    [lia]. *)
Ltac bool_to_Z :=
  repeat match goal with
  | H : (_ <=? _) = true |- _ => apply Z.leb_le in H
  | H : (_ <=? _) = false |- _ => apply Z.leb_gt in H
  | H : (_ <? _) = true |- _ => apply Z.ltb_lt in H
  | H : (_ <? _) = false |- _ => apply Z.ltb_ge in H
  | H : (_ =? _) = true |- _ => apply Z.eqb_eq in H
  | H : (_ =? _) = false |- _ => apply Z.eqb_neq in H
  | H : _ && _ = true |- _ => apply andb_prop in H as [? ?]
  | H : _ && _ = false |- _ => apply andb_false_iff in H as [?|?]
  end.

Ltac bool_lia := bool_to_Z; lia.
