(* ===== verification/GoInt.v ===== *)
(** * Go's fixed-width integers

    [int64] (and [int], taken to be 64 bits wide) as [Z] with the
    wrap-around of two's complement written out, the truncated remainder
    [%] with its panic on a zero divisor, and the lemmas that say when an
    operation of the source is the mathematical one. *)

From stdpp Require Import prelude.
From S2P Require Import Prelude.

(** ** Definitions *)

Definition int64_min : Z := - 2 ^ 63.
Definition int64_max : Z := 2 ^ 63 - 1.

(** The values an [int64] variable can hold. *)
Definition in_int64 (z : Z) : Prop := int64_min ≤ z ≤ int64_max.

(** The values an [int32] variable can hold (the [available] flags). *)
Definition in_int32 (z : Z) : Prop := - 2 ^ 31 ≤ z ≤ 2 ^ 31 - 1.

(** Reduction of a mathematical integer to its [int64] representative. *)
Definition wrap64 (z : Z) : Z := (z + 2 ^ 63) `mod` 2 ^ 64 - 2 ^ 63.

(** [a + b] and [a - b] on [int64] operands. *)
Definition add64 (a b : Z) : Z := wrap64 (a + b).
Definition sub64 (a b : Z) : Z := wrap64 (a - b).

(** [a % b] on [int64] operands: the remainder of the division that
    truncates toward zero (its sign is the dividend's); the runtime
    panics when [b] is zero. *)
Definition rem64 (a b : Z) : outcome Z :=
  if decide (b = 0) then Panic DivideByZero else Ret (a `rem` b).

(** [int64(x)] for [x] of type [int], and [len(s)] as an [int]. *)
Definition int64_of_int (z : Z) : Z := wrap64 z.
Definition len {A} (l : list A) : Z := Z.of_nat (length l).

#[export] Instance in_int64_dec z : Decision (in_int64 z).
Proof. unfold in_int64. apply _. Defined.

#[export] Instance in_int32_dec z : Decision (in_int32 z).
Proof. unfold in_int32. apply _. Defined.

Infix "+₆₄" := add64 (at level 50, left associativity) : go_scope.
Infix "-₆₄" := sub64 (at level 50, left associativity) : go_scope.
Infix "%₆₄" := rem64 (at level 40, left associativity) : go_scope.

(** ** Wrap-around *)

Lemma int64_bounds : int64_min = -9223372036854775808 ∧ int64_max = 9223372036854775807.
Proof. done. Qed.

Lemma two_pow_64 : 2 ^ 64 = 2 * 2 ^ 63.
Proof. done. Qed.

Lemma wrap64_range z : in_int64 (wrap64 z).
Proof.
  unfold in_int64, wrap64, int64_min, int64_max.
  pose proof (Z.mod_pos_bound (z + 2 ^ 63) (2 ^ 64) eq_refl). lia.
Qed.

Lemma wrap64_id z : in_int64 z → wrap64 z = z.
Proof.
  unfold in_int64, wrap64, int64_min, int64_max. intros Hz.
  rewrite Z.mod_small; lia.
Qed.

Lemma wrap64_idemp z : wrap64 (wrap64 z) = wrap64 z.
Proof. apply wrap64_id, wrap64_range. Qed.

(** Two integers have the same representative iff they differ by a
    multiple of 2^64. *)
Lemma wrap64_shift z k : wrap64 (z + k * 2 ^ 64) = wrap64 z.
Proof.
  unfold wrap64. f_equal.
  replace (z + k * 2 ^ 64 + 2 ^ 63) with (z + 2 ^ 63 + k * 2 ^ 64) by lia.
  apply Z.mod_add. done.
Qed.

Lemma wrap64_decompose z : ∃ k, wrap64 z = z + k * 2 ^ 64.
Proof.
  exists (- ((z + 2 ^ 63) `div` 2 ^ 64)). unfold wrap64.
  pose proof (Z.div_mod (z + 2 ^ 63) (2 ^ 64)). lia.
Qed.

Lemma wrap64_add_l a b : wrap64 (wrap64 a + b) = wrap64 (a + b).
Proof.
  destruct (wrap64_decompose a) as [k ->].
  replace (a + k * 2 ^ 64 + b) with (a + b + k * 2 ^ 64) by lia.
  apply wrap64_shift.
Qed.

Lemma wrap64_sub_l a b : wrap64 (wrap64 a - b) = wrap64 (a - b).
Proof. apply (wrap64_add_l a (- b)). Qed.

(** ** Addition and subtraction *)

Lemma add64_range a b : in_int64 (add64 a b).
Proof. apply wrap64_range. Qed.

Lemma sub64_range a b : in_int64 (sub64 a b).
Proof. apply wrap64_range. Qed.

Lemma add64_exact a b : in_int64 (a + b) → add64 a b = a + b.
Proof. apply wrap64_id. Qed.

Lemma sub64_exact a b : in_int64 (a - b) → sub64 a b = a - b.
Proof. apply wrap64_id. Qed.

Lemma add64_comm a b : add64 a b = add64 b a.
Proof. unfold add64. f_equal. lia. Qed.

(** Past the largest value the sum is negative. *)
Lemma add64_overflow a b :
  in_int64 a → in_int64 b → int64_max < a + b → add64 a b = a + b - 2 ^ 64.
Proof.
  unfold in_int64, int64_min, int64_max. intros Ha Hb Hab.
  unfold add64. rewrite <- (wrap64_shift (a + b) (-1)).
  apply wrap64_id. unfold in_int64, int64_min, int64_max. lia.
Qed.

Lemma add64_max_1 : add64 int64_max 1 = int64_min.
Proof. done. Qed.

(** The fetch-and-add idiom of [Put]: the new value minus the increment
    is the old value, whether or not the addition wrapped. *)
Lemma sub64_add64 a n : in_int64 a → sub64 (add64 a n) n = a.
Proof.
  intros Ha. unfold sub64, add64. rewrite wrap64_sub_l.
  replace (a + n - n) with a by lia. by apply wrap64_id.
Qed.

Lemma int64_of_int_id z : in_int64 z → int64_of_int z = z.
Proof. apply wrap64_id. Qed.

Lemma len_nonneg {A} (l : list A) : 0 ≤ len l.
Proof. unfold len. lia. Qed.

Lemma len_nil {A} : len (@nil A) = 0.
Proof. done. Qed.

Lemma len_cons {A} (x : A) l : len (x :: l) = 1 + len l.
Proof. unfold len. simpl. lia. Qed.

Lemma len_app {A} (l k : list A) : len (l ++ k) = len l + len k.
Proof. unfold len. rewrite length_app. lia. Qed.

(** ** Remainder *)

Lemma rem64_zero a : rem64 a 0 = Panic DivideByZero.
Proof. done. Qed.

Lemma rem64_nonzero a b : b ≠ 0 → rem64 a b = Ret (a `rem` b).
Proof. intros Hb. unfold rem64. by rewrite decide_False. Qed.

(** On a non-negative dividend and a positive divisor [%] is [mod]. *)
Lemma rem64_mod a b : 0 ≤ a → 0 < b → rem64 a b = Ret (a `mod` b).
Proof.
  intros Ha Hb. rewrite rem64_nonzero by lia. f_equal.
  by apply Z.rem_mod_nonneg.
Qed.

(** On a negative dividend the remainder is not positive: it is no
    index of a slice. *)
Lemma rem64_neg a b r : a < 0 → 0 < b → rem64 a b = Ret r → - b < r ≤ 0.
Proof.
  intros Ha Hb. rewrite rem64_nonzero by lia. intros [= <-].
  pose proof (Z.rem_bound_pos_neg a b). lia.
Qed.

Lemma rem64_not_Spin a b : rem64 a b ≠ Spin.
Proof. unfold rem64. by case_decide. Qed.

Lemma rem64_Ret_inv a b r : rem64 a b = Ret r → b ≠ 0 ∧ r = a `rem` b.
Proof. unfold rem64. case_decide; naive_solver. Qed.

Lemma rem64_range a b r : 0 ≤ a → 0 < b → rem64 a b = Ret r → 0 ≤ r < b.
Proof.
  intros Ha Hb. rewrite rem64_mod by done. intros [= <-].
  by apply Z.mod_pos_bound.
Qed.

(** ** Slots of a ring

    Sequence numbers less than the size apart fall into different
    slots. *)

Lemma mod_window_ne sz s t : 0 < sz → s < t < s + sz → s `mod` sz ≠ t `mod` sz.
Proof.
  intros Hsz Hst Heq.
  assert ((t - s) `mod` sz = 0) as H0.
  { rewrite Zminus_mod, Heq, Z.sub_diag. apply Z.mod_0_l. lia. }
  rewrite Z.mod_small in H0; lia.
Qed.

Lemma mod_slot_nat sz s : 0 < sz → 0 ≤ s `mod` sz < sz.
Proof. intros Hsz. by apply Z.mod_pos_bound. Qed.

(** ** Automation *)

(** Records [0 ≤ len l] for every list whose length the goal or a
    hypothesis mentions. *)
Ltac pose_len :=
  repeat match goal with
  | |- context [len ?l] =>
      lazymatch goal with
      | _ : 0 ≤ len l |- _ => fail
      | _ => pose proof (len_nonneg l)
      end
  | _ : context [len ?l] |- _ =>
      lazymatch goal with
      | _ : 0 ≤ len l |- _ => fail
      | _ => pose proof (len_nonneg l)
      end
  end.

(** Names every remainder, so that [lia] sees it as a variable. *)
Ltac name_mods :=
  repeat match goal with
  | |- context [?a `mod` ?b] =>
      let r := fresh "r" in set (r := a `mod` b) in *; clearbody r
  | _ : context [?a `mod` ?b] |- _ =>
      let r := fresh "r" in set (r := a `mod` b) in *; clearbody r
  end.

Ltac mod_lia := name_mods; lia.

(** Linear arithmetic over the bounds of [int64]. *)
Ltac int64_lia :=
  pose_len; unfold in_int64, in_int32, int64_min, int64_max in *; lia.

#[export] Hint Resolve wrap64_range add64_range sub64_range len_nonneg : lmax.
#[export] Hint Rewrite wrap64_idemp @len_nil @len_cons @len_app : lmax.
