(* ===== verification/GoSlice.v ===== *)
(** * Go slices

    A slice is a list; [make] allocates one filled with the zero value,
    [index] and [store] are [s[i]] as an operand and as the target of an
    assignment.  Each carries the runtime's check: a negative length or an
    index outside [0, len(s)) panics. *)

From stdpp Require Import prelude.
From S2P Require Import Prelude GoInt.

(** ** Definitions *)

Section slice_defs.
Context {A : Type}.

(** [0 <= i < len(s)]: the check the runtime makes before every access. *)
Definition in_bounds (l : list A) (i : Z) : Prop := 0 ≤ i < len l.

#[export] Instance in_bounds_dec l i : Decision (in_bounds l i).
Proof. unfold in_bounds. apply _. Defined.

(** [make([]A, n)]. *)
Definition make (zero : A) (n : Z) : outcome (list A) :=
  if decide (0 ≤ n) then Ret (replicate (Z.to_nat n) zero)
  else Panic MakeSliceLen.

(** [s[i]] read. *)
Definition index (l : list A) (i : Z) : outcome A :=
  if decide (in_bounds l i) then
    match l !! Z.to_nat i with
    | Some x => Ret x
    | None => Panic IndexOutOfRange
    end
  else Panic IndexOutOfRange.

(** [s[i] = x]. *)
Definition store (l : list A) (i : Z) (x : A) : outcome (list A) :=
  if decide (in_bounds l i) then Ret (<[Z.to_nat i := x]> l)
  else Panic IndexOutOfRange.

End slice_defs.

(** ** Lemmas *)

Section slice_lemmas.
Context {A : Type}.
Implicit Types (l : list A) (i j n : Z) (x y zero : A).

Lemma in_bounds_lookup l i : in_bounds l i → is_Some (l !! Z.to_nat i).
Proof. unfold in_bounds, len. intros Hi. apply lookup_lt_is_Some. lia. Qed.

Lemma lookup_in_bounds l (k : nat) x : l !! k = Some x → in_bounds l (Z.of_nat k).
Proof. intros H%lookup_lt_Some. unfold in_bounds, len. lia. Qed.

Lemma make_Ret zero n : 0 ≤ n → make zero n = Ret (replicate (Z.to_nat n) zero).
Proof. intros Hn. unfold make. by rewrite decide_True. Qed.

Lemma make_Panic zero n : n < 0 → make zero n = Panic MakeSliceLen.
Proof. intros Hn. unfold make. rewrite decide_False; [done|lia]. Qed.

Lemma make_Ret_inv zero n l :
  make zero n = Ret l → 0 ≤ n ∧ l = replicate (Z.to_nat n) zero.
Proof. unfold make. case_decide; naive_solver. Qed.

Lemma make_len zero n l : make zero n = Ret l → len l = n.
Proof.
  intros [Hn ->]%make_Ret_inv. unfold len. rewrite length_replicate. lia.
Qed.

Lemma index_Ret l i x : index l i = Ret x ↔ 0 ≤ i ∧ l !! Z.to_nat i = Some x.
Proof.
  unfold index. split.
  - case_decide as Hi; [|done]. destruct (l !! _) eqn:E; [|done].
    intros [= ->]. split; [apply Hi|done].
  - intros [Hi Hx]. rewrite decide_True.
    + by rewrite Hx.
    + apply lookup_lt_Some in Hx. unfold in_bounds, len. lia.
Qed.

Lemma index_in_bounds l i : in_bounds l i → returns (index l i).
Proof.
  intros Hi. destruct (in_bounds_lookup l i Hi) as [x Hx].
  exists x. apply index_Ret. split; [apply Hi|done].
Qed.

Lemma index_Panic l i : ¬ in_bounds l i → index l i = Panic IndexOutOfRange.
Proof. intros Hi. unfold index. by rewrite decide_False. Qed.

Lemma index_Ret_in_bounds l i x : index l i = Ret x → in_bounds l i.
Proof. unfold index. by case_decide. Qed.

Lemma index_not_Spin l i : index l i ≠ Spin.
Proof. unfold index. case_decide; [destruct (l !! _)|]; done. Qed.

Lemma store_not_Spin l i x : store l i x ≠ Spin.
Proof. unfold store. by case_decide. Qed.

Lemma make_not_Spin zero n : make zero n ≠ Spin.
Proof. unfold make. by case_decide. Qed.

Lemma store_Ret l i x : in_bounds l i → store l i x = Ret (<[Z.to_nat i := x]> l).
Proof. intros Hi. unfold store. by rewrite decide_True. Qed.

Lemma store_Panic l i x : ¬ in_bounds l i → store l i x = Panic IndexOutOfRange.
Proof. intros Hi. unfold store. by rewrite decide_False. Qed.

Lemma store_Ret_inv l i x l' :
  store l i x = Ret l' → in_bounds l i ∧ l' = <[Z.to_nat i := x]> l.
Proof. unfold store. case_decide; naive_solver. Qed.

Lemma store_len l i x l' : store l i x = Ret l' → len l' = len l.
Proof. intros [_ ->]%store_Ret_inv. unfold len. by rewrite length_insert. Qed.

(** Reading back the slot just written, and any other slot. *)
Lemma index_store_eq l i x l' : store l i x = Ret l' → index l' i = Ret x.
Proof.
  intros [Hi ->]%store_Ret_inv. apply index_Ret. split; [apply Hi|].
  apply list_lookup_insert_eq. unfold in_bounds, len in Hi. lia.
Qed.

Lemma index_store_ne l i j x l' :
  store l i x = Ret l' → i ≠ j → 0 ≤ j → index l' j = index l j.
Proof.
  intros [Hi ->]%store_Ret_inv Hij Hj.
  assert (Z.to_nat i ≠ Z.to_nat j) by (unfold in_bounds in Hi; lia).
  assert (in_bounds (<[Z.to_nat i := x]> l) j ↔ in_bounds l j) as Hb.
  { unfold in_bounds, len. by rewrite length_insert. }
  unfold index. rewrite list_lookup_insert_ne by done.
  do 2 case_decide; tauto.
Qed.

(** A list as long as [n] indexed below [n]. *)
Lemma in_bounds_len l i n : len l = n → 0 ≤ i < n → in_bounds l i.
Proof. unfold in_bounds. lia. Qed.

End slice_lemmas.

#[export] Hint Resolve in_bounds_len : lmax.
