(* ===== verification/RingBuffer.v ===== *)
(** * The ring buffer of src/lmax.go

    The struct [RingBuffer], its constructor and the two operations [Put]
    and [Get], each run without interruption: a call maps the ring to an
    [outcome].  The loops of the source are [init_loop], [put_loop] and
    the polling loop of [Get], whose body is [get_iter]; the polling loop
    is given twice, literally with fuel ([get_poll]) and by recursion on
    the items still to read ([get_loop]).  The scan that computes the
    gating barrier is [min_cursor].

    Then the invariant [wf], its preservation by every operation, the
    frame of each operation, and how far [Get] advances. *)

From stdpp Require Import prelude.
From S2P Require Import Prelude GoInt GoSlice.

(** ** The state *)

Section ring_defs.
Context {V : Type}.

(** An [interface{}] holding a payload: [None] is [nil]. *)
Local Abbreviation iface := (option V).

Record RingBuffer : Type := mkRingBuffer {
  size : Z;
  buffer : list iface;
  writeCursor : Z;
  readCursors : list Z;
  available : list Z;
  writeBarrier : Z;
  readBarrier : Z;
}.

(** Assignment to one field. *)
Definition set_buffer (b : list iface) (rb : RingBuffer) : RingBuffer :=
  mkRingBuffer (size rb) b (writeCursor rb) (readCursors rb) (available rb)
    (writeBarrier rb) (readBarrier rb).

Definition set_writeCursor (w : Z) (rb : RingBuffer) : RingBuffer :=
  mkRingBuffer (size rb) (buffer rb) w (readCursors rb) (available rb)
    (writeBarrier rb) (readBarrier rb).

Definition set_readCursors (c : list Z) (rb : RingBuffer) : RingBuffer :=
  mkRingBuffer (size rb) (buffer rb) (writeCursor rb) c (available rb)
    (writeBarrier rb) (readBarrier rb).

Definition set_available (a : list Z) (rb : RingBuffer) : RingBuffer :=
  mkRingBuffer (size rb) (buffer rb) (writeCursor rb) (readCursors rb) a
    (writeBarrier rb) (readBarrier rb).

Definition set_readBarrier (m : Z) (rb : RingBuffer) : RingBuffer :=
  mkRingBuffer (size rb) (buffer rb) (writeCursor rb) (readCursors rb)
    (available rb) (writeBarrier rb) m.

(** ** NewRingBuffer *)

(** [for i := range rb.readCursors { rb.readCursors[i] = -1 }], from
    index [i] on, [k] cursors left. *)
Fixpoint init_loop (k : nat) (i : Z) (cursors : list Z) : outcome (list Z) :=
  match k with
  | O => Ret cursors
  | S k' =>
      cursors' ← store cursors i (-1);
      init_loop k' (i + 1) cursors'
  end.

Definition NewRingBuffer (size numConsumers : Z) : outcome RingBuffer :=
  buf ← make (None : iface) size;
  cursors ← make 0 numConsumers;
  avail ← make 0 size;
  cursors' ← init_loop (length cursors) 0 cursors;
  Ret (mkRingBuffer size buf 0 cursors' avail 0 0).

(** ** Put *)

(** [for _, d := range data { ... }] with the local [nextWrite]. *)
Fixpoint put_loop (data : list iface) (nextWrite : Z) (rb : RingBuffer)
    : outcome RingBuffer :=
  match data with
  | [] => Ret rb
  | d :: data' =>
      i ← rem64 nextWrite (int64_of_int (size rb));
      buf ← store (buffer rb) i d;
      j ← rem64 nextWrite (int64_of_int (size rb));
      avail ← store (available rb) j 1;
      put_loop data' (add64 nextWrite 1) (set_available avail (set_buffer buf rb))
  end.

(** [atomic.AddInt64] returns the new value of the cursor; the first
    claimed sequence is that value minus the number of items. *)
Definition Put (data : list iface) (rb : RingBuffer) : outcome RingBuffer :=
  let n := int64_of_int (len data) in
  let cursor := add64 (writeCursor rb) n in
  let nextWrite := sub64 cursor n in
  put_loop data nextWrite (set_writeCursor cursor rb).

(** ** Get *)

(** The condition of the loop's [if]: the sequence is not past the write
    cursor and less than [size] ahead of the barrier. *)
Definition can_read (nextRead : Z) (rb : RingBuffer) : Prop :=
  nextRead ≤ writeCursor rb ∧
  sub64 nextRead (readBarrier rb) < int64_of_int (size rb).

#[export] Instance can_read_dec nextRead rb : Decision (can_read nextRead rb).
Proof. unfold can_read. apply _. Defined.

(** What one pass through the body of the polling loop does. *)
Inductive iter : Type :=
| Advance (v : iface) (rb : RingBuffer)
| Retry
| Break.

(** The body of the loop: the two guards, the flag, the copy and the
    store of the cursor.  [Retry] is the branch that sleeps. *)
Definition get_iter (consumerId nextRead : Z) (rb : RingBuffer) : outcome iter :=
  if decide (can_read nextRead rb) then
    i ← rem64 nextRead (int64_of_int (size rb));
    a ← index (available rb) i;
    if decide (a = 1) then
      j ← rem64 nextRead (int64_of_int (size rb));
      v ← index (buffer rb) j;
      cursors ← store (readCursors rb) consumerId nextRead;
      Ret (Advance v (set_readCursors cursors rb))
    else Ret Retry
  else Ret Break.

(** The loop as written: [i] advances only when an item was read, so the
    number of passes is not bounded by [batchSize]; [fuel] bounds it and
    [None] says the fuel ran out. *)
Fixpoint get_poll (fuel : nat) (batchSize i consumerId nextRead : Z)
    (results : list iface) (rb : RingBuffer)
    : option (outcome (list iface * RingBuffer)) :=
  match fuel with
  | O => None
  | S fuel' =>
      if decide (i < batchSize) then
        match get_iter consumerId nextRead rb with
        | Ret (Advance v rb') =>
            get_poll fuel' batchSize (i + 1) consumerId (add64 nextRead 1)
              (results ++ [v]) rb'
        | Ret Retry =>
            get_poll fuel' batchSize i consumerId nextRead results rb
        | Ret Break => Some (Ret (results, rb))
        | Panic p => Some (Panic p)
        | Spin => Some Spin
        end
      else Some (Ret (results, rb))
  end.

(** The same loop by recursion on the [k] items still to read.  A pass
    that must retry finds the ring as it was, so the call never returns:
    [Spin]. *)
Fixpoint get_loop (k : nat) (consumerId nextRead : Z)
    (results : list iface) (rb : RingBuffer)
    : outcome (list iface * RingBuffer) :=
  match k with
  | O => Ret (results, rb)
  | S k' =>
      it ← get_iter consumerId nextRead rb;
      match it with
      | Advance v rb' =>
          get_loop k' consumerId (add64 nextRead 1) (results ++ [v]) rb'
      | Retry => Spin
      | Break => Ret (results, rb)
      end
  end.

(** The scan for the smallest read cursor, starting from the caller's
    own. *)
Definition min_cursor (own : Z) (cursors : list Z) : Z :=
  foldl (λ m cursor, if decide (cursor < m) then cursor else m) own cursors.

Definition Get (batchSize consumerId : Z) (rb : RingBuffer)
    : outcome (list iface * RingBuffer) :=
  cursor ← index (readCursors rb) consumerId;
  let nextRead := add64 cursor 1 in
  _ ← make (None : iface) batchSize;
  '(results, rb1) ← get_loop (Z.to_nat batchSize) consumerId nextRead [] rb;
  own ← index (readCursors rb1) consumerId;
  let minReadCursor := min_cursor own (readCursors rb1) in
  Ret (results, set_readBarrier minReadCursor rb1).

End ring_defs.

Arguments RingBuffer V : clear implicits.

(** ** The invariant *)

Section ring_wf.
Context {V : Type}.

(** Before the first [Get]: the barrier has the zero value of its type
    and every cursor is before the first sequence. *)
Definition fresh (rb : RingBuffer V) : Prop :=
  readBarrier rb = 0 ∧ Forall (λ c, c = -1) (readCursors rb).

(** After a [Get]: the barrier is the least read cursor. *)
Definition barrier_least (rb : RingBuffer V) : Prop :=
  readBarrier rb ∈ readCursors rb ∧ Forall (λ c, readBarrier rb ≤ c) (readCursors rb).

(** What holds of every ring that [NewRingBuffer] made and that calls of
    [Put] and [Get], one after the other, changed, as long as the write
    cursor stays below 2^63 - 1: the slices keep the length [size], a flag
    is 0 or 1, no read cursor is past the write cursor, the field
    [writeBarrier] is never assigned, and the barrier is the least read
    cursor unless no [Get] has run yet. *)
Record wf (rb : RingBuffer V) : Prop := mk_wf {
  wf_size : 0 ≤ size rb ≤ int64_max;
  wf_buffer : len (buffer rb) = size rb;
  wf_available : len (available rb) = size rb;
  wf_flags : Forall (λ a, a = 0 ∨ a = 1) (available rb);
  wf_writeCursor : 0 ≤ writeCursor rb < int64_max;
  wf_readCursors : Forall (λ c, -1 ≤ c ≤ writeCursor rb) (readCursors rb);
  wf_writeBarrier : writeBarrier rb = 0;
  wf_readBarrier : fresh rb ∨ barrier_least rb;
}.

(** The sequence numbers published so far and still in the ring. *)
Definition in_window (rb : RingBuffer V) (s : Z) : Prop :=
  0 ≤ s < writeCursor rb ∧ writeCursor rb - size rb ≤ s.

#[export] Instance in_window_dec rb s : Decision (in_window rb s).
Proof. unfold in_window. apply _. Defined.

(** The slices are allocated and as long as [size] says: what the loops
    need to stay inside them. *)
Definition slots_ok (rb : RingBuffer V) : Prop :=
  0 < size rb ≤ int64_max ∧ len (buffer rb) = size rb ∧ len (available rb) = size rb.

(** One pass of [Put]'s loop with the arithmetic done in [Z]: payload
    and flag of the slot of sequence [s]. *)
Definition write_slot (s : Z) (d : option V) (rb : RingBuffer V) : RingBuffer V :=
  let i := Z.to_nat (s `mod` size rb) in
  set_available (<[i := 1]> (available rb)) (set_buffer (<[i := d]> (buffer rb)) rb).

(** [Put]'s loop with the arithmetic done in [Z]: the reference the
    loop of the source is compared with. *)
Fixpoint write_all (data : list (option V)) (s : Z) (rb : RingBuffer V) : RingBuffer V :=
  match data with
  | [] => rb
  | d :: data' => write_all data' (s + 1) (write_slot s d rb)
  end.

(** The cursor of consumer [id] set to [c]: what a pass of [Get]'s loop
    that reads leaves behind. *)
Definition set_cursor (id c : Z) (rb : RingBuffer V) : RingBuffer V :=
  set_readCursors (<[Z.to_nat id := c]> (readCursors rb)) rb.

(** The ring [Get] leaves when it read [n] items from cursor [c]: the
    cursor advanced by [n], the barrier recomputed. *)
Definition after_get (id c n : Z) (rb : RingBuffer V) : RingBuffer V :=
  let rb1 := set_cursor id (c + n) rb in
  set_readBarrier (min_cursor (c + n) (readCursors rb1)) rb1.

(** The slot of sequence [s] has its flag set and holds [v]: what a pass
    of [Get]'s loop finds when it reads. *)
Definition slot_read (rb : RingBuffer V) (s : Z) (v : option V) : Prop :=
  ∃ i, rem64 s (int64_of_int (size rb)) = Ret i ∧
       index (available rb) i = Ret 1 ∧ index (buffer rb) i = Ret v.

End ring_wf.

(** ** The barrier scan *)

Section min_cursor_lemmas.
Implicit Types (own m c : Z) (cs : list Z).

Lemma min_cursor_nil own : min_cursor own [] = own.
Proof. done. Qed.

Lemma min_cursor_cons own c cs :
  min_cursor own (c :: cs) = min_cursor (Z.min own c) cs.
Proof.
  unfold min_cursor. simpl. f_equal. case_decide; lia.
Qed.

Lemma min_cursor_le_own own cs : min_cursor own cs ≤ own.
Proof.
  revert own. induction cs as [|c cs IH]; intros own; [done|].
  rewrite min_cursor_cons. etrans; [apply IH|lia].
Qed.

Lemma min_cursor_le_elem own cs c : c ∈ cs → min_cursor own cs ≤ c.
Proof.
  revert own. induction cs as [|c' cs IH]; intros own Hc.
  - by apply elem_of_nil in Hc.
  - rewrite min_cursor_cons. apply elem_of_cons in Hc as [->|Hc]; [|by apply IH].
    etrans; [apply min_cursor_le_own|lia].
Qed.

Lemma min_cursor_elem own cs : min_cursor own cs = own ∨ min_cursor own cs ∈ cs.
Proof.
  revert own. induction cs as [|c cs IH]; intros own; [by left|].
  rewrite min_cursor_cons. destruct (IH (Z.min own c)) as [->|Hin].
  - destruct (Z.min_spec own c) as [[_ ->]|[_ ->]]; [by left|].
    right. apply elem_of_cons. by left.
  - right. apply elem_of_cons. by right.
Qed.

Lemma min_cursor_glb own cs b :
  b ≤ own → Forall (λ c, b ≤ c) cs → b ≤ min_cursor own cs.
Proof.
  intros Hown Hcs. destruct (min_cursor_elem own cs) as [->|Hin]; [done|].
  by apply (proj1 (Forall_forall _ _) Hcs).
Qed.

(** With the caller's own cursor among the cursors, the scan yields the
    least of them. *)
Lemma min_cursor_least own cs :
  own ∈ cs →
  min_cursor own cs ∈ cs ∧ Forall (λ c, min_cursor own cs ≤ c) cs.
Proof.
  intros Hown. split.
  - destruct (min_cursor_elem own cs) as [->|Hin]; done.
  - apply Forall_forall. intros c Hc. by apply min_cursor_le_elem.
Qed.

End min_cursor_lemmas.

(** ** NewRingBuffer *)

Section new_lemmas.
Context {V : Type}.
Implicit Types (rb : RingBuffer V) (cs : list Z) (i : Z) (k : nat).

(** The initialisation loop overwrites exactly the [k] cursors from
    index [i] on, and cannot fail inside the slice. *)
Lemma init_loop_Ret k i cs :
  0 ≤ i → i + Z.of_nat k ≤ len cs →
  ∃ cs', init_loop k i cs = Ret cs' ∧ length cs' = length cs ∧
    ∀ j : nat, cs' !! j =
      if decide (i ≤ Z.of_nat j < i + Z.of_nat k) then Some (-1) else cs !! j.
Proof.
  revert i cs. induction k as [|k IH]; intros i cs Hi Hlen.
  { exists cs. split_and!; [done..|]. intros j. rewrite decide_False; [done|lia]. }
  simpl. rewrite store_Ret by (unfold in_bounds; lia). simpl.
  destruct (IH (i + 1) (<[Z.to_nat i := -1]> cs)) as (cs' & -> & Hl & Hj).
  { lia. } { unfold len in *. rewrite length_insert. lia. }
  exists cs'. rewrite length_insert in Hl. split_and!; [done..|].
  intros j. rewrite Hj. unfold len in Hlen.
  destruct (decide (Z.of_nat j = i)) as [<-|Hne].
  - rewrite decide_False by lia. rewrite decide_True by lia.
    rewrite Nat2Z.id. apply list_lookup_insert_eq. lia.
  - rewrite list_lookup_insert_ne by lia.
    repeat case_decide; done || lia.
Qed.

Lemma init_loop_replicate n :
  init_loop n 0 (replicate n 0) = Ret (replicate n (-1)).
Proof.
  destruct (init_loop_Ret n 0 (replicate n 0)) as (cs' & -> & Hl & Hj).
  { done. } { unfold len. rewrite length_replicate. lia. }
  f_equal. rewrite length_replicate in Hl.
  apply list_eq. intros j. rewrite Hj.
  case_decide as Hd.
  - symmetry. apply lookup_replicate. split; [done|lia].
  - rewrite !lookup_ge_None_2; [done|rewrite length_replicate; lia..].
Qed.

(** The constructor returns for every non-negative size and number of
    consumers, with the buffer empty, the cursors before the first
    sequence and the barrier at 0. *)
Lemma NewRingBuffer_Ret (sz n : Z) :
  0 ≤ sz → 0 ≤ n →
  NewRingBuffer (V:=V) sz n =
    Ret (mkRingBuffer sz (replicate (Z.to_nat sz) None) 0
           (replicate (Z.to_nat n) (-1)) (replicate (Z.to_nat sz) 0) 0 0).
Proof.
  intros Hsz Hn. unfold NewRingBuffer.
  rewrite !make_Ret by done. simpl.
  rewrite length_replicate, init_loop_replicate. done.
Qed.

Lemma NewRingBuffer_Panic (sz n : Z) :
  sz < 0 ∨ n < 0 → NewRingBuffer (V:=V) sz n = Panic MakeSliceLen.
Proof.
  intros Hneg. unfold NewRingBuffer.
  destruct (decide (sz < 0)) as [Hsz|Hsz].
  - rewrite (make_Panic (None : option V) sz) by done. reflexivity.
  - rewrite (make_Ret (None : option V) sz) by lia. simpl.
    rewrite (make_Panic 0 n) by lia. reflexivity.
Qed.

Lemma NewRingBuffer_wf (sz n : Z) rb :
  in_int64 sz → NewRingBuffer sz n = Ret rb → wf rb.
Proof.
  intros [_ Hmax] Hnew.
  destruct (decide (sz < 0 ∨ n < 0)) as [Hneg|Hpos].
  { by rewrite NewRingBuffer_Panic in Hnew. }
  rewrite NewRingBuffer_Ret in Hnew by lia. injection Hnew as <-.
  split; simpl; unfold len; rewrite ?length_replicate; try lia.
  all: try (unfold int64_max; lia).
  - apply Forall_replicate. by left.
  - apply Forall_replicate. lia.
  - left. split; [done|]. by apply Forall_replicate.
Qed.

End new_lemmas.

(** ** Put *)

Section put_lemmas.
Context {V : Type}.
Implicit Types (rb : RingBuffer V) (data : list (option V)) (d : option V) (s : Z).

Lemma wf_slots_ok rb : wf rb → 0 < size rb → slots_ok rb.
Proof. intros [] Hpos. unfold slots_ok. lia. Qed.

Lemma wf_size_int64 rb : wf rb → int64_of_int (size rb) = size rb.
Proof.
  intros []. apply int64_of_int_id. int64_lia.
Qed.

Lemma slots_ok_size_int64 rb : slots_ok rb → int64_of_int (size rb) = size rb.
Proof.
  intros (Hsz & _). apply int64_of_int_id. int64_lia.
Qed.

Lemma slots_ok_slot rb s :
  slots_ok rb → 0 ≤ s →
  in_bounds (buffer rb) (s `mod` size rb) ∧ in_bounds (available rb) (s `mod` size rb).
Proof.
  intros (Hsz & Hb & Ha) Hs. unfold in_bounds. rewrite Hb, Ha.
  pose proof (Z.mod_pos_bound s (size rb)). lia.
Qed.

Lemma write_slot_slots_ok s d rb : slots_ok rb → slots_ok (write_slot s d rb).
Proof.
  unfold slots_ok, write_slot, len. simpl. by rewrite !length_insert.
Qed.

(** One pass of the loop is [write_slot] as soon as the sequence number
    is not negative. *)
Lemma put_loop_cons d data s rb :
  slots_ok rb → 0 ≤ s →
  put_loop (d :: data) s rb = put_loop data (add64 s 1) (write_slot s d rb).
Proof.
  intros Hok Hs. destruct (slots_ok_slot rb s Hok Hs) as [Hb Ha].
  simpl. rewrite (slots_ok_size_int64 rb Hok).
  rewrite rem64_mod by (destruct Hok; lia). simpl.
  rewrite (store_Ret (buffer rb)) by done. simpl.
  rewrite (store_Ret (available rb)) by done. done.
Qed.

(** [Put]'s loop returns when it starts at a non-negative sequence and
    does not run past the largest [int64]; it is then [write_all]. *)
Lemma put_loop_Ret data s rb :
  slots_ok rb → 0 ≤ s → s + len data ≤ int64_max →
  put_loop data s rb = Ret (write_all data s rb).
Proof.
  revert s rb. induction data as [|d data IH]; intros s rb Hok Hs; [done|].
  rewrite len_cons. intros Hmax. rewrite put_loop_cons by done.
  rewrite add64_exact by int64_lia.
  simpl. apply IH; [by apply write_slot_slots_ok|int64_lia..].
Qed.

(** What [write_all] leaves alone. *)
Lemma write_all_frame data s rb :
  size (write_all data s rb) = size rb ∧
  writeCursor (write_all data s rb) = writeCursor rb ∧
  readCursors (write_all data s rb) = readCursors rb ∧
  writeBarrier (write_all data s rb) = writeBarrier rb ∧
  readBarrier (write_all data s rb) = readBarrier rb.
Proof.
  revert s rb. induction data as [|d data IH]; intros s rb; [done|].
  simpl. destruct (IH (s + 1) (write_slot s d rb)) as (-> & -> & -> & -> & ->).
  done.
Qed.

Lemma write_all_slots_ok data s rb : slots_ok rb → slots_ok (write_all data s rb).
Proof.
  revert s rb. induction data as [|d data IH]; intros s rb Hok; [done|].
  simpl. by apply IH, write_slot_slots_ok.
Qed.

Lemma write_slot_flags s d rb :
  Forall (λ a, a = 0 ∨ a = 1) (available rb) →
  Forall (λ a, a = 0 ∨ a = 1) (available (write_slot s d rb)).
Proof. intros Hf. simpl. apply Forall_insert; [done|by right]. Qed.

Lemma write_all_flags data s rb :
  Forall (λ a, a = 0 ∨ a = 1) (available rb) →
  Forall (λ a, a = 0 ∨ a = 1) (available (write_all data s rb)).
Proof.
  revert s rb. induction data as [|d data IH]; intros s rb Hf; [done|].
  simpl. by apply IH, write_slot_flags.
Qed.

(** [Put] on a well-formed ring with room below 2^63 - 1: it returns,
    never waits, and is [write_all] from the old cursor with the cursor
    advanced by the number of items. *)
Lemma Put_Ret data rb :
  wf rb → 0 < size rb → writeCursor rb + len data < int64_max →
  Put data rb =
    Ret (write_all data (writeCursor rb)
           (set_writeCursor (writeCursor rb + len data) rb)).
Proof.
  intros Hwf Hpos Hmax. pose proof (wf_writeCursor _ Hwf) as Hw.
  pose proof (len_nonneg data) as Hn.
  unfold Put. rewrite int64_of_int_id by int64_lia.
  rewrite sub64_add64 by int64_lia.
  rewrite add64_exact by int64_lia.
  apply put_loop_Ret; [|int64_lia..].
  destruct (wf_slots_ok rb Hwf Hpos) as (? & ? & ?). done.
Qed.

Lemma Put_wf data rb rb' :
  wf rb → 0 < size rb → writeCursor rb + len data < int64_max →
  Put data rb = Ret rb' → wf rb'.
Proof.
  intros Hwf Hpos Hmax. rewrite Put_Ret by done. intros [= <-].
  pose proof (len_nonneg data) as Hn. destruct Hwf.
  set (rb0 := set_writeCursor _ rb).
  destruct (write_all_frame data (writeCursor rb) rb0) as (Hs & Hw & Hc & Hwb & Hrb).
  destruct (write_all_slots_ok data (writeCursor rb) rb0) as (? & ? & ?).
  { unfold slots_ok. simpl. lia. }
  rewrite Hs in *.
  split; rewrite ?Hs, ?Hw, ?Hc, ?Hwb, ?Hrb; simpl; try done; try lia.
  - by apply write_all_flags.
  - eapply Forall_impl; [done|]. simpl. lia.
  - unfold fresh, barrier_least in *. by rewrite Hc, Hrb.
Qed.

(** An empty [Put] changes nothing. *)
Lemma Put_nil rb : in_int64 (writeCursor rb) → Put [] rb = Ret rb.
Proof.
  intros Hw. unfold Put. simpl. change (int64_of_int (len [])) with 0.
  unfold add64. rewrite Z.add_0_r. rewrite wrap64_id by done. by destruct rb.
Qed.

(** A ring of size 0 is constructed without complaint, and the first
    item put into it divides by zero. *)
Lemma Put_size_0 d data rb : size rb = 0 → Put (d :: data) rb = Panic DivideByZero.
Proof. intros Hsz. unfold Put. simpl. by rewrite Hsz. Qed.

End put_lemmas.

(** ** Get: one pass of the polling loop *)

Section get_iter_lemmas.
Context {V : Type}.
Implicit Types (rb : RingBuffer V) (v : option V) (id nr i : Z).

Lemma get_iter_Break id nr rb : ¬ can_read nr rb → get_iter id nr rb = Ret Break.
Proof. intros Hc. unfold get_iter. by rewrite decide_False. Qed.

Lemma get_iter_Retry id nr rb i a :
  can_read nr rb → rem64 nr (int64_of_int (size rb)) = Ret i →
  index (available rb) i = Ret a → a ≠ 1 →
  get_iter id nr rb = Ret Retry.
Proof.
  intros Hc Hi Ha Hne. unfold get_iter. rewrite decide_True by done.
  rewrite Hi. go_step. rewrite Ha. go_step. by rewrite decide_False.
Qed.

Lemma get_iter_Advance id nr rb i v :
  can_read nr rb → rem64 nr (int64_of_int (size rb)) = Ret i →
  index (available rb) i = Ret 1 → index (buffer rb) i = Ret v →
  in_bounds (readCursors rb) id →
  get_iter id nr rb = Ret (Advance v (set_cursor id nr rb)).
Proof.
  intros Hc Hi Ha Hv Hid. unfold get_iter. rewrite decide_True by done.
  rewrite Hi. go_step. rewrite Ha. go_step. rewrite decide_True by done.
  go_step. rewrite Hv. go_step. by rewrite store_Ret.
Qed.

(** A pass that read did so through an open gate, from a slot whose
    flag was set, and stored the sequence it read as the cursor. *)
Lemma get_iter_Advance_inv id nr rb v rb' :
  get_iter id nr rb = Ret (Advance v rb') →
  can_read nr rb ∧ in_bounds (readCursors rb) id ∧ rb' = set_cursor id nr rb ∧
  slot_read rb nr v.
Proof.
  unfold get_iter. case_decide as Hc; [|done].
  destruct (rem64 _ _) as [i| |] eqn:Hi; [go_step|done..].
  destruct (index (available rb) i) as [a| |] eqn:Ha; [go_step|done..].
  case_decide as Ha1; [subst a|done].
  destruct (index (buffer rb) i) as [v'| |] eqn:Hv; [go_step|done..].
  destruct (store _ _ _) as [cs| |] eqn:Hs; [go_step|done..].
  apply store_Ret_inv in Hs as [Hid ->]. intros [= <- <-].
  split_and!; [done..|]. by exists i.
Qed.

Lemma get_iter_Break_inv id nr rb : get_iter id nr rb = Ret Break → ¬ can_read nr rb.
Proof.
  unfold get_iter. case_decide as Hc; [|done].
  destruct (rem64 _ _) as [i| |]; [go_step|done..].
  destruct (index (available rb) i) as [a| |]; [go_step|done..].
  case_decide; [go_step|done].
  destruct (index (buffer rb) _) as [v'| |]; [go_step|done..].
  by destruct (store _ _ _).
Qed.

Lemma get_iter_not_Spin id nr rb : get_iter id nr rb ≠ Spin.
Proof.
  unfold get_iter. case_decide as Hc; [|done].
  unfold rem64. case_decide; [done|go_step].
  destruct (index (available rb) _) as [a| |] eqn:Ha; [go_step|done|].
  2:{ by apply index_not_Spin in Ha. }
  case_decide; [go_step|done].
  destruct (index (buffer rb) _) as [v'| |] eqn:Hv; [go_step|done|].
  2:{ by apply index_not_Spin in Hv. }
  unfold store. by case_decide.
Qed.

End get_iter_lemmas.

(** ** Get: the polling loop *)

Section get_loop_lemmas.
Context {V : Type}.
Implicit Types (rb : RingBuffer V) (v : option V) (vs res : list (option V)).
Implicit Types (id nr c : Z) (k : nat).

Lemma set_cursor_set_cursor id c c' rb :
  set_cursor id c' (set_cursor id c rb) = set_cursor id c' rb.
Proof. unfold set_cursor, set_readCursors. simpl. by rewrite list_insert_insert_eq. Qed.

Lemma can_read_set_cursor nr id c rb : can_read nr (set_cursor id c rb) ↔ can_read nr rb.
Proof. done. Qed.

Lemma slot_read_set_cursor id c rb s v : slot_read (set_cursor id c rb) s v ↔ slot_read rb s v.
Proof. done. Qed.

Lemma in_bounds_set_cursor id c rb j :
  in_bounds (readCursors (set_cursor id c rb)) j ↔ in_bounds (readCursors rb) j.
Proof. unfold in_bounds, len. simpl. by rewrite length_insert. Qed.

(** The loop, when it returns: it appended the payloads [vs] of the
    sequences from [nr] on, each read through an open gate from a slot
    whose flag was set; it left the ring as it was but for the caller's
    cursor, now the last sequence read; and it stopped after [k] items or
    at a closed gate. *)
Lemma get_loop_Ret_inv k id nr res rb res' rb' :
  int64_min ≤ nr → writeCursor rb < int64_max →
  get_loop k id nr res rb = Ret (res', rb') →
  ∃ vs, res' = res ++ vs ∧ (length vs ≤ k)%nat ∧
    rb' = (if decide (vs = []) then rb else set_cursor id (nr + len vs - 1) rb) ∧
    (vs ≠ [] → in_bounds (readCursors rb) id) ∧
    (∀ (m : nat) v, vs !! m = Some v →
       can_read (nr + Z.of_nat m) rb ∧ slot_read rb (nr + Z.of_nat m) v) ∧
    (length vs = k ∨ ¬ can_read (nr + len vs) rb).
Proof.
  revert nr res rb res' rb'.
  induction k as [|k IH]; intros nr res rb res' rb' Hnr Hw; simpl.
  { intros [= <- <-]. exists []. rewrite app_nil_r. split_and!; try done. by left. }
  destruct (get_iter id nr rb) as [[v rb1| |]| |] eqn:Hit; go_step; try done.
  - apply get_iter_Advance_inv in Hit as (Hc & Hid & -> & Hv).
    assert (add64 nr 1 = nr + 1) as -> by (apply add64_exact; destruct Hc; int64_lia).
    intros (vs & -> & Hlen & -> & _ & Hvs & Hstop)%IH; [|lia|done].
    exists (v :: vs). rewrite len_cons. split_and!.
    + by rewrite <- app_assoc.
    + simpl. lia.
    + rewrite (decide_False (P := v :: vs = [])) by done. case_decide as Hnil.
      * subst vs. f_equal. rewrite len_nil. lia.
      * rewrite set_cursor_set_cursor. f_equal. lia.
    + done.
    + intros [|m] v'; simpl.
      * intros [= <-]. by rewrite Z.add_0_r.
      * intros Hm. apply Hvs in Hm.
        by replace (nr + Z.of_nat (S m)) with (nr + 1 + Z.of_nat m) by lia.
    + destruct Hstop as [<-|Hstop]; [by left|right].
      by replace (nr + (1 + len vs)) with (nr + 1 + len vs) by lia.
  - intros [= <- <-]. apply get_iter_Break_inv in Hit.
    exists []. rewrite app_nil_r, len_nil, Z.add_0_r.
    split_and!; try done; [simpl; lia|by right].
Qed.

(** Conversely: payloads readable from [nr] on, as many as asked for or
    up to a closed gate, are what the loop returns. *)
Lemma get_loop_Ret k id nr res rb vs :
  int64_min ≤ nr → writeCursor rb < int64_max →
  in_bounds (readCursors rb) id → (length vs ≤ k)%nat →
  (∀ (m : nat) v, vs !! m = Some v →
     can_read (nr + Z.of_nat m) rb ∧ slot_read rb (nr + Z.of_nat m) v) →
  length vs = k ∨ ¬ can_read (nr + len vs) rb →
  get_loop k id nr res rb =
    Ret (res ++ vs, if decide (vs = []) then rb else set_cursor id (nr + len vs - 1) rb).
Proof.
  revert nr res rb vs.
  induction k as [|k IH]; intros nr res rb vs Hnr Hw Hid Hlen Hvs Hstop; simpl.
  { destruct vs; [|simpl in Hlen; lia]. by rewrite app_nil_r. }
  destruct vs as [|v vs].
  { destruct Hstop as [?|Hstop]; [done|]. rewrite len_nil, Z.add_0_r in Hstop.
    rewrite get_iter_Break by done. go_step. by rewrite app_nil_r. }
  destruct (Hvs 0%nat v eq_refl) as [Hc (i & Hi & Ha & Hv)].
  rewrite Z.add_0_r in Hc, Hi.
  rewrite (get_iter_Advance id nr rb i v) by done. go_step.
  assert (add64 nr 1 = nr + 1) as -> by (apply add64_exact; destruct Hc; int64_lia).
  rewrite (IH (nr + 1) _ _ vs); try done.
  - rewrite <- app_assoc. change ([v] ++ vs) with (v :: vs). do 2 f_equal.
    rewrite len_cons.
    rewrite (decide_False (P := v :: vs = [])) by done. case_decide as Hnil.
    + subst vs. rewrite len_nil. f_equal. lia.
    + rewrite set_cursor_set_cursor. f_equal. lia.
  - lia.
  - by apply in_bounds_set_cursor.
  - simpl in Hlen. lia.
  - intros m v' Hm. specialize (Hvs (S m) v' Hm).
    by replace (nr + Z.of_nat (S m)) with (nr + 1 + Z.of_nat m) in Hvs by lia.
  - rewrite len_cons in Hstop. simpl in Hstop.
    destruct Hstop as [?|Hstop]; [left; lia|right].
    by replace (nr + (1 + len vs)) with (nr + 1 + len vs) in Hstop by lia.
Qed.

(** The loop spins exactly when, after some readable payloads and with
    items still to read, it finds an open gate and a flag that is not
    set. *)
Lemma get_loop_Spin k id nr res rb vs i a :
  int64_min ≤ nr → writeCursor rb < int64_max →
  in_bounds (readCursors rb) id → (length vs < k)%nat →
  (∀ (m : nat) v, vs !! m = Some v →
     can_read (nr + Z.of_nat m) rb ∧ slot_read rb (nr + Z.of_nat m) v) →
  can_read (nr + len vs) rb →
  rem64 (nr + len vs) (int64_of_int (size rb)) = Ret i →
  index (available rb) i = Ret a → a ≠ 1 →
  get_loop k id nr res rb = Spin.
Proof.
  revert nr res rb vs.
  induction k as [|k IH]; intros nr res rb vs Hnr Hw Hid Hlen Hvs Hc Hi Ha Hne; simpl.
  { lia. }
  destruct vs as [|v vs].
  { rewrite len_nil, Z.add_0_r in Hc, Hi.
    by rewrite (get_iter_Retry id nr rb i a). }
  destruct (Hvs 0%nat v eq_refl) as [Hc0 (i0 & Hi0 & Ha0 & Hv0)].
  rewrite Z.add_0_r in Hc0, Hi0.
  rewrite (get_iter_Advance id nr rb i0 v) by done. go_step.
  assert (add64 nr 1 = nr + 1) as -> by (apply add64_exact; destruct Hc0; int64_lia).
  rewrite len_cons in Hc, Hi.
  apply (IH (nr + 1) _ _ vs); try done.
  - lia.
  - by apply in_bounds_set_cursor.
  - simpl in Hlen. lia.
  - intros m v' Hm. specialize (Hvs (S m) v' Hm).
    by replace (nr + Z.of_nat (S m)) with (nr + 1 + Z.of_nat m) in Hvs by lia.
  - by replace (nr + 1 + len vs) with (nr + (1 + len vs)) by lia.
  - by replace (nr + 1 + len vs) with (nr + (1 + len vs)) by lia.
Qed.

End get_loop_lemmas.

(** ** Get *)

Section get_lemmas.
Context {V : Type}.
Implicit Types (rb : RingBuffer V) (v : option V) (vs res : list (option V)).
Implicit Types (id nr c b : Z) (k : nat).

Lemma set_cursor_same id c rb :
  readCursors rb !! Z.to_nat id = Some c → set_cursor id c rb = rb.
Proof.
  intros Hc. unfold set_cursor, set_readCursors.
  rewrite list_insert_id by done. by destruct rb.
Qed.

Lemma index_set_cursor id c rb :
  in_bounds (readCursors rb) id → index (readCursors (set_cursor id c rb)) id = Ret c.
Proof.
  intros Hid. apply index_Ret. split; [apply Hid|]. simpl.
  apply list_lookup_insert_eq. unfold in_bounds, len in Hid. lia.
Qed.

Lemma wf_cursor rb id c :
  wf rb → readCursors rb !! Z.to_nat id = Some c → -1 ≤ c ≤ writeCursor rb.
Proof.
  intros Hwf Hc. by apply (proj1 (Forall_lookup _ _) (wf_readCursors _ Hwf) _ _ Hc).
Qed.

(** The barrier is never below -1 and never more than one past a
    cursor. *)
Lemma wf_barrier_lower rb : wf rb → -1 ≤ readBarrier rb.
Proof.
  intros Hwf. destruct (wf_readBarrier _ Hwf) as [[-> _]|[Hin _]]; [lia|].
  by apply (proj1 (Forall_forall _ _) (wf_readCursors _ Hwf)) in Hin as [? _].
Qed.

Lemma wf_barrier_upper rb id c :
  wf rb → readCursors rb !! Z.to_nat id = Some c → readBarrier rb ≤ c + 1.
Proof.
  intros Hwf Hc. destruct (wf_readBarrier _ Hwf) as [[-> Hf]|[_ Hle]].
  - apply (proj1 (Forall_lookup _ _) Hf) in Hc. lia.
  - apply (proj1 (Forall_lookup _ _) Hle) in Hc. lia.
Qed.

(** The first two lines of [Get]: the index of the cursor and the
    allocation of the result. *)
Lemma Get_bad_id b id rb :
  ¬ in_bounds (readCursors rb) id → Get b id rb = Panic IndexOutOfRange.
Proof. intros Hid. unfold Get. by rewrite index_Panic. Qed.

Lemma Get_bad_batch b id rb :
  in_bounds (readCursors rb) id → b < 0 → Get b id rb = Panic MakeSliceLen.
Proof.
  intros Hid Hb. unfold Get. destruct (index_in_bounds _ _ Hid) as [c ->].
  go_step. by rewrite make_Panic.
Qed.

(** [Get] from the loop: whatever the loop returns, [Get] returns with
    the barrier recomputed. *)
Lemma Get_unfold b id rb c :
  0 ≤ id → readCursors rb !! Z.to_nat id = Some c → 0 ≤ b →
  Get b id rb =
    '(results, rb1) ← get_loop (Z.to_nat b) id (add64 c 1) [] rb;
    own ← index (readCursors rb1) id;
    Ret (results, set_readBarrier (min_cursor own (readCursors rb1)) rb1).
Proof.
  intros Hid Hc Hb. unfold Get.
  rewrite (proj2 (index_Ret _ _ _) (conj Hid Hc)). go_step.
  by rewrite make_Ret.
Qed.

(** [Get], when it returns: the result has at most [b] payloads, each
    read through an open gate from a flagged slot of the sequences after
    the caller's cursor; the cursor advanced by their number; the barrier
    is the scan over the new cursors; nothing else changed. *)
Lemma Get_Ret_inv b id rb res rb' :
  wf rb → Get b id rb = Ret (res, rb') →
  ∃ c, 0 ≤ id ∧ readCursors rb !! Z.to_nat id = Some c ∧ 0 ≤ b ∧ len res ≤ b ∧
    rb' = after_get id c (len res) rb ∧
    (∀ (m : nat) v, res !! m = Some v →
       can_read (c + 1 + Z.of_nat m) rb ∧ slot_read rb (c + 1 + Z.of_nat m) v) ∧
    (len res = b ∨ ¬ can_read (c + 1 + len res) rb).
Proof.
  intros Hwf HG.
  destruct (decide (in_bounds (readCursors rb) id)) as [Hid|Hid];
    [|by rewrite Get_bad_id in HG].
  destruct (decide (b < 0)) as [Hb|Hb]; [by rewrite Get_bad_batch in HG|].
  destruct (in_bounds_lookup _ _ Hid) as [c Hc]. exists c.
  pose proof (wf_cursor _ _ _ Hwf Hc) as Hcw.
  pose proof (wf_writeCursor _ Hwf) as Hw.
  rewrite (Get_unfold b id rb c) in HG by (done || apply Hid || lia).
  rewrite add64_exact in HG by int64_lia.
  destruct (get_loop _ _ _ _ _) as [[res1 rb1]| |] eqn:HL; [|done..].
  apply get_loop_Ret_inv in HL as (vs & -> & Hlen & -> & _ & Hvs & Hstop);
    [|int64_lia..].
  assert (rb_eq : (if decide (vs = []) then rb
                   else set_cursor id (c + 1 + len vs - 1) rb)
                  = set_cursor id (c + len vs) rb).
  { case_decide as Hnil.
    - subst vs. rewrite len_nil, Z.add_0_r. by rewrite set_cursor_same.
    - f_equal. lia. }
  rewrite rb_eq in HG. go_step in HG. rewrite index_set_cursor in HG by done.
  go_step in HG. injection HG as <- <-.
  split_and!; try done; unfold len in *; try lia.
  - apply Hid.
  - destruct Hstop as [?|?]; [left; lia|by right].
Qed.

(** The last payload of a result was read at or below the write
    cursor: the cursor never passes it. *)
Lemma reads_below_writeCursor rb c res :
  (∀ (m : nat) v, res !! m = Some v →
     can_read (c + 1 + Z.of_nat m) rb ∧ slot_read rb (c + 1 + Z.of_nat m) v) →
  c ≤ writeCursor rb → c + len res ≤ writeCursor rb.
Proof.
  intros Hres Hc. destruct res as [|v res _] using rev_ind.
  { rewrite len_nil. lia. }
  destruct (Hres (length res) v) as [[Hle _] _].
  { by rewrite lookup_app_r, Nat.sub_diag. }
  rewrite len_app, len_cons, len_nil. unfold len. lia.
Qed.

Lemma after_get_wf id c n rb :
  wf rb → readCursors rb !! Z.to_nat id = Some c →
  0 ≤ n → c + n ≤ writeCursor rb → wf (after_get id c n rb).
Proof.
  intros Hwf Hc Hn Hle. pose proof (wf_cursor _ _ _ Hwf Hc) as Hcw.
  destruct Hwf as [? ? ? ? ? Hcs ? _].
  split; simpl; try done.
  - apply Forall_insert; [done|lia].
  - right. apply min_cursor_least, list_elem_of_lookup.
    exists (Z.to_nat id). apply list_lookup_insert_eq. by apply lookup_lt_Some in Hc.
Qed.

Lemma Get_wf b id rb res rb' : wf rb → Get b id rb = Ret (res, rb') → wf rb'.
Proof.
  intros Hwf (c & _ & Hc & _ & _ & -> & Hres & _)%Get_Ret_inv; [|done].
  pose proof (wf_cursor _ _ _ Hwf Hc) as Hcw.
  apply after_get_wf; [done..|apply len_nonneg|].
  apply reads_below_writeCursor; [done|lia].
Qed.

(** Conversely, on a well-formed ring: payloads readable after the
    caller's cursor, as many as asked for or up to a closed gate, are
    what [Get] returns. *)
Lemma Get_Ret b id rb c res :
  wf rb → 0 ≤ id → readCursors rb !! Z.to_nat id = Some c → len res ≤ b →
  (∀ (m : nat) v, res !! m = Some v →
     can_read (c + 1 + Z.of_nat m) rb ∧ slot_read rb (c + 1 + Z.of_nat m) v) →
  len res = b ∨ ¬ can_read (c + 1 + len res) rb →
  Get b id rb = Ret (res, after_get id c (len res) rb).
Proof.
  intros Hwf Hid Hc Hb Hres Hstop.
  pose proof (wf_cursor _ _ _ Hwf Hc) as Hcw.
  pose proof (wf_writeCursor _ Hwf) as Hw.
  assert (in_bounds (readCursors rb) id) as Hin.
  { apply lookup_lt_Some in Hc. unfold in_bounds, len. lia. }
  rewrite (Get_unfold b id rb c) by (done || int64_lia).
  rewrite add64_exact by int64_lia.
  rewrite (get_loop_Ret _ _ _ _ _ res); [|int64_lia|int64_lia|done| |done|].
  - go_step.
    assert ((if decide (res = []) then rb
             else set_cursor id (c + 1 + len res - 1) rb)
            = set_cursor id (c + len res) rb) as ->.
    { case_decide as Hnil.
      - subst res. rewrite len_nil, Z.add_0_r. by rewrite set_cursor_same.
      - f_equal. lia. }
    rewrite index_set_cursor by done. done.
  - unfold len in *. lia.
  - destruct Hstop as [?|?]; [left|by right]. unfold len in *. lia.
Qed.

(** [Get] with nothing to read behind an open gate polls for ever. *)
Lemma Get_Spin b id rb c res i a :
  wf rb → 0 ≤ id → readCursors rb !! Z.to_nat id = Some c → len res < b →
  (∀ (m : nat) v, res !! m = Some v →
     can_read (c + 1 + Z.of_nat m) rb ∧ slot_read rb (c + 1 + Z.of_nat m) v) →
  can_read (c + 1 + len res) rb →
  rem64 (c + 1 + len res) (int64_of_int (size rb)) = Ret i →
  index (available rb) i = Ret a → a ≠ 1 →
  Get b id rb = Spin.
Proof.
  intros Hwf Hid Hc Hb Hres Hcr Hi Ha Hne.
  pose proof (wf_cursor _ _ _ Hwf Hc) as Hcw.
  pose proof (wf_writeCursor _ Hwf) as Hw.
  assert (in_bounds (readCursors rb) id) as Hin.
  { apply lookup_lt_Some in Hc. unfold in_bounds, len. lia. }
  rewrite (Get_unfold b id rb c) by (done || int64_lia).
  rewrite add64_exact by int64_lia.
  rewrite (get_loop_Spin _ _ _ _ _ res i a); try done; try int64_lia.
  unfold len in *. lia.
Qed.

End get_lemmas.

(** ** The polling loop as written and the loop by recursion *)

Section get_poll_lemmas.
Context {V : Type}.
Implicit Types (rb : RingBuffer V) (res : list (option V)).
Implicit Types (id nr b i : Z) (fuel : nat).
Implicit Types (o : outcome (list (option V) * RingBuffer V)).

(** The items still to read when the counter is [i]. *)
Lemma to_read_S b i : i < b → Z.to_nat (b - i) = S (Z.to_nat (b - (i + 1))).
Proof. lia. Qed.

Lemma to_read_0 b i : ¬ i < b → Z.to_nat (b - i) = 0%nat.
Proof. lia. Qed.

Lemma get_poll_not_Spin fuel b i id nr res rb :
  get_poll fuel b i id nr res rb ≠ Some Spin.
Proof.
  revert i nr res rb. induction fuel as [|fuel IH]; intros i nr res rb; simpl; [done|].
  case_decide; [|done].
  destruct (get_iter id nr rb) as [[v rb1| |]| |] eqn:Hit; try done.
  by apply get_iter_not_Spin in Hit.
Qed.

(** Whatever the loop as written answers within its fuel, the loop by
    recursion answers. *)
Lemma get_poll_sound fuel b i id nr res rb o :
  get_poll fuel b i id nr res rb = Some o →
  get_loop (Z.to_nat (b - i)) id nr res rb = o.
Proof.
  revert i nr res rb. induction fuel as [|fuel IH]; intros i nr res rb; simpl; [done|].
  case_decide as Hi.
  - rewrite (to_read_S b i Hi). simpl.
    destruct (get_iter id nr rb) as [[v rb1| |]| |] eqn:Hit; go_step.
    + apply IH.
    + intros Hp. pose proof (IH _ _ _ _ Hp) as HL.
      rewrite (to_read_S b i Hi) in HL. simpl in HL. by rewrite Hit in HL.
    + by intros [= <-].
    + by intros [= <-].
    + by intros [= <-].
  - rewrite (to_read_0 b i Hi). by intros [= <-].
Qed.

(** More fuel does not change an answer. *)
Lemma get_poll_mono fuel fuel' b i id nr res rb o :
  get_poll fuel b i id nr res rb = Some o → (fuel ≤ fuel')%nat →
  get_poll fuel' b i id nr res rb = Some o.
Proof.
  revert fuel' i nr res rb.
  induction fuel as [|fuel IH]; intros fuel' i nr res rb; simpl; [done|].
  intros Hp Hle. destruct fuel' as [|fuel']; [lia|]. simpl.
  case_decide; [|done].
  destruct (get_iter id nr rb) as [[v rb1| |]| |]; try done; apply IH; done || lia.
Qed.

(** A call that returns or panics does so within one pass per item
    still to read, plus the pass that sees the counter reach
    [batchSize]. *)
Lemma get_poll_complete b i id nr res rb o :
  get_loop (Z.to_nat (b - i)) id nr res rb = o → o ≠ Spin →
  get_poll (S (Z.to_nat (b - i))) b i id nr res rb = Some o.
Proof.
  remember (Z.to_nat (b - i)) as k eqn:Hk. revert i nr res rb Hk.
  induction k as [|k IH]; intros i nr res rb Hk; simpl.
  { intros <- _. rewrite decide_False by lia. done. }
  rewrite decide_True by lia.
  destruct (get_iter id nr rb) as [[v rb1| |]| |] eqn:Hit; go_step.
  - intros HL Ho. apply (IH (i + 1)); [lia|done..].
  - by intros <-.
  - by intros <-.
  - by intros <-.
  - by intros <-.
Qed.

(** A call that spins exhausts every fuel. *)
Lemma get_poll_spin fuel b i id nr res rb :
  get_loop (Z.to_nat (b - i)) id nr res rb = Spin →
  get_poll fuel b i id nr res rb = None.
Proof.
  intros HL. destruct (get_poll fuel b i id nr res rb) as [o|] eqn:Hp; [|done].
  pose proof (get_poll_sound _ _ _ _ _ _ _ _ Hp) as Ho. rewrite HL in Ho. subst o.
  by apply get_poll_not_Spin in Hp.
Qed.

End get_poll_lemmas.

(** ** Rings used as instances

    A ring of four slots and two consumers as [NewRingBuffer 4 2] makes
    it, and the same after [Put] of three payloads. *)

Definition ring0 : RingBuffer Z :=
  mkRingBuffer 4 [None; None; None; None] 0 [-1; -1] [0; 0; 0; 0] 0 0.

Definition ring3 : RingBuffer Z :=
  mkRingBuffer 4 [Some 10; Some 20; Some 30; None] 3 [-1; -1] [1; 1; 1; 0] 0 0.

(** Proves [wf] of a ring given by its fields. *)
Ltac solve_wf :=
  split; simpl;
  [ int64_lia | done | done | repeat constructor; lia | int64_lia
  | repeat constructor; lia | done
  | first [ left; split; [done|repeat constructor; done]
          | right; split; simpl; [set_solver|repeat constructor; lia] ] ].

Lemma ring0_wf : wf ring0.
Proof. solve_wf. Qed.

Lemma ring3_wf : wf ring3.
Proof. solve_wf. Qed.

(** ** The theorems of the ring *)

Section ring_theorems.
Context {V : Type}.
Implicit Types (rb : RingBuffer V) (v : option V) (res data : list (option V)).
Implicit Types (id c b sz n : Z).

(** C36: [NewRingBuffer] returns, for every non-negative size and number
    of consumers, the ring with [size] empty slots, no flag set, the write
    cursor and the barrier at 0 and every read cursor at -1; for a negative
    size or number of consumers [make] panics.  Size 0 and zero consumers
    are accepted. *)
Theorem NewRingBuffer_spec sz n :
  NewRingBuffer (V:=V) sz n =
    if decide (0 ≤ sz ∧ 0 ≤ n) then
      Ret (mkRingBuffer sz (replicate (Z.to_nat sz) None) 0
             (replicate (Z.to_nat n) (-1)) (replicate (Z.to_nat sz) 0) 0 0)
    else Panic MakeSliceLen.
Proof.
  case_decide as H.
  - apply NewRingBuffer_Ret; tauto.
  - apply NewRingBuffer_Panic. lia.
Qed.

(** C19: the ring [NewRingBuffer] returns satisfies the invariant [wf]. *)
Theorem NewRingBuffer_establishes_wf sz n rb :
  in_int64 sz → NewRingBuffer sz n = Ret rb → wf rb.
Proof. apply NewRingBuffer_wf. Qed.

(** C17: [Put] preserves the invariant as long as the write cursor stays
    below 2^63 - 1. *)
Theorem Put_preserves_wf data rb rb' :
  wf rb → 0 < size rb → writeCursor rb + len data < int64_max →
  Put data rb = Ret rb' → wf rb'.
Proof. apply Put_wf. Qed.

(** C18: [Get] preserves the invariant. *)
Theorem Get_preserves_wf b id rb res rb' :
  wf rb → Get b id rb = Ret (res, rb') → wf rb'.
Proof. apply Get_wf. Qed.

(** C12: [Put] always returns on a well-formed ring of positive size with
    room below 2^63 - 1, whatever the read cursors are: it advances the
    write cursor by the number of items and writes payload and flag of
    the slots of the claimed sequences, in order.  It never waits for a
    consumer. *)
Theorem Put_never_waits data rb :
  wf rb → 0 < size rb → writeCursor rb + len data < int64_max →
  Put data rb =
    Ret (write_all data (writeCursor rb)
           (set_writeCursor (writeCursor rb + len data) rb)).
Proof. apply Put_Ret. Qed.

(** C13: when [Get] returns, its result holds at most [batchSize]
    payloads; the payload at position [m] was read from the slot of
    sequence [cursor + 1 + m], whose flag was set, through an open gate;
    the caller's cursor advanced by the number of payloads and the
    barrier was recomputed; and [Get] stopped because the batch was full
    or the gate closed. *)
Theorem Get_returns_readable b id rb res rb' :
  wf rb → Get b id rb = Ret (res, rb') →
  ∃ c, 0 ≤ id ∧ readCursors rb !! Z.to_nat id = Some c ∧ 0 ≤ b ∧ len res ≤ b ∧
    rb' = after_get id c (len res) rb ∧
    (∀ (m : nat) v, res !! m = Some v →
       can_read (c + 1 + Z.of_nat m) rb ∧ slot_read rb (c + 1 + Z.of_nat m) v) ∧
    (len res = b ∨ ¬ can_read (c + 1 + len res) rb).
Proof. apply Get_Ret_inv. Qed.

(** C16: on a well-formed ring [Get] returns every list of payloads that
    is readable after the caller's cursor and ends with the batch full or
    at a closed gate. *)
Theorem Get_total b id rb c res :
  wf rb → 0 ≤ id → readCursors rb !! Z.to_nat id = Some c → len res ≤ b →
  (∀ (m : nat) v, res !! m = Some v →
     can_read (c + 1 + Z.of_nat m) rb ∧ slot_read rb (c + 1 + Z.of_nat m) v) →
  len res = b ∨ ¬ can_read (c + 1 + len res) rb →
  Get b id rb = Ret (res, after_get id c (len res) rb).
Proof. apply Get_Ret. Qed.

(** C30: a consumer's cursor increases by exactly one per payload [Get]
    returns, and never passes the write cursor. *)
Theorem Get_advances_cursor b id rb res rb' c :
  wf rb → Get b id rb = Ret (res, rb') →
  readCursors rb !! Z.to_nat id = Some c →
  readCursors rb' !! Z.to_nat id = Some (c + len res) ∧
  c + len res ≤ writeCursor rb'.
Proof.
  intros Hwf (c' & _ & Hc' & _ & _ & -> & Hres & _)%Get_Ret_inv Hc; [|done].
  rewrite Hc in Hc'. injection Hc' as <-.
  pose proof (wf_cursor _ _ _ Hwf Hc) as Hcw. split.
  - simpl. apply list_lookup_insert_eq. by apply lookup_lt_Some in Hc.
  - change (c + len res ≤ writeCursor rb).
    apply reads_below_writeCursor; [done|lia].
Qed.

(** [Get] changes nothing but the caller's cursor and the barrier:
    size, slots, flags, write cursor and the cursors of the other
    consumers are as before. *)
Theorem Get_frame b id rb res rb' :
  wf rb → Get b id rb = Ret (res, rb') →
  size rb' = size rb ∧ buffer rb' = buffer rb ∧ available rb' = available rb ∧
  writeCursor rb' = writeCursor rb ∧ writeBarrier rb' = writeBarrier rb ∧
  ∀ j : nat, j ≠ Z.to_nat id → readCursors rb' !! j = readCursors rb !! j.
Proof.
  intros Hwf (c & _ & _ & _ & _ & -> & _)%Get_Ret_inv; [|done].
  split_and!; try done. intros j Hj. simpl. by rewrite list_lookup_insert_ne.
Qed.

(** After [Get] the gating barrier is the least of the read cursors. *)
Theorem Get_sets_barrier b id rb res rb' :
  wf rb → Get b id rb = Ret (res, rb') →
  readBarrier rb' ∈ readCursors rb' ∧
  Forall (λ c, readBarrier rb' ≤ c) (readCursors rb').
Proof.
  intros Hwf (c & _ & Hc & _ & _ & -> & _)%Get_Ret_inv; [|done].
  simpl. apply min_cursor_least, list_elem_of_lookup.
  exists (Z.to_nat id). apply list_lookup_insert_eq. by apply lookup_lt_Some in Hc.
Qed.

(** C37: a consumer id outside [0, numConsumers) makes [Get] panic with
    an index out of range, before anything else; a negative batch size
    makes it panic in [make]. *)
Theorem Get_panics b id rb :
  (¬ in_bounds (readCursors rb) id → Get b id rb = Panic IndexOutOfRange) ∧
  (in_bounds (readCursors rb) id → b < 0 → Get b id rb = Panic MakeSliceLen).
Proof. split; [apply Get_bad_id|apply Get_bad_batch]. Qed.

(** [Get] with batch size 0 returns the empty result at once; it
    still recomputes the barrier. *)
Theorem Get_zero_batch id rb c :
  wf rb → 0 ≤ id → readCursors rb !! Z.to_nat id = Some c →
  Get 0 id rb = Ret ([], after_get id c 0 rb).
Proof.
  intros Hwf Hid Hc. apply (Get_Ret 0 id rb c []); try done. by left.
Qed.

(** C32: [Get] polls for ever when, the batch not yet full, the gate is
    open and the flag of the next slot is not set. *)
Theorem Get_waits b id rb c res i a :
  wf rb → 0 ≤ id → readCursors rb !! Z.to_nat id = Some c → len res < b →
  (∀ (m : nat) v, res !! m = Some v →
     can_read (c + 1 + Z.of_nat m) rb ∧ slot_read rb (c + 1 + Z.of_nat m) v) →
  can_read (c + 1 + len res) rb →
  rem64 (c + 1 + len res) (int64_of_int (size rb)) = Ret i →
  index (available rb) i = Ret a → a ≠ 1 →
  Get b id rb = Spin.
Proof. apply Get_Spin. Qed.

(** The first item put into a ring of size 0 panics with a division
    by zero. *)
Theorem Put_size_0_panics d data rb :
  size rb = 0 → Put (d :: data) rb = Panic DivideByZero.
Proof. apply Put_size_0. Qed.

(** The loop of [Get] as written and the loop by recursion agree:
    an answer of the first within its fuel is the answer of the second. *)
Theorem get_poll_agrees fuel b i id nr res rb o :
  get_poll fuel b i id nr res rb = Some o →
  get_loop (Z.to_nat (b - i)) id nr res rb = o.
Proof. apply get_poll_sound. Qed.

(** C31: a call of the loop that returns or panics does so within
    [batchSize - i + 1] passes, and with any more fuel. *)
Theorem get_poll_terminates fuel b i id nr res rb o :
  get_loop (Z.to_nat (b - i)) id nr res rb = o → o ≠ Spin →
  (Z.to_nat (b - i) < fuel)%nat →
  get_poll fuel b i id nr res rb = Some o.
Proof.
  intros HL Ho Hf. eapply get_poll_mono; [by apply get_poll_complete|lia].
Qed.

(** A call of the loop that finds an unset flag behind an open gate
    exhausts every fuel: the loop as written never leaves the retry. *)
Theorem get_poll_never_returns fuel b i id nr res rb :
  get_loop (Z.to_nat (b - i)) id nr res rb = Spin →
  get_poll fuel b i id nr res rb = None.
Proof. apply get_poll_spin. Qed.

End ring_theorems.

(** The scan of [Get] yields the least read cursor when the caller's
    own cursor is one of them. *)
Theorem min_cursor_is_least own cs :
  own ∈ cs →
  min_cursor own cs ∈ cs ∧ Forall (λ c, min_cursor own cs ≤ c) cs.
Proof. apply min_cursor_least. Qed.

(** ** The theorems at the rings above *)

(** [ring3] after consumer 0 read two payloads. *)
Definition ring3_read2 : RingBuffer Z :=
  mkRingBuffer 4 [Some 10; Some 20; Some 30; None] 3 [1; -1] [1; 1; 1; 0] 0 (-1).

(** Proves [can_read] and [slot_read] at a ring given by its fields. *)
Ltac solve_can_read := split; [simpl; lia|by vm_compute].
Ltac solve_slot_read i := exists i; split_and!; reflexivity.

(** The two payloads consumer 0 can read from [ring3]. *)
Lemma ring3_readable (m : nat) (v : option Z) :
  [Some 10; Some 20] !! m = Some v →
  can_read (-1 + 1 + Z.of_nat m) ring3 ∧ slot_read ring3 (-1 + 1 + Z.of_nat m) v.
Proof.
  destruct m as [|[|m]]; intros [= <-]; (split; [solve_can_read|]).
  - solve_slot_read 0.
  - solve_slot_read 1.
Qed.

Lemma NewRingBuffer_establishes_wf_witness : wf ring0.
Proof.
  apply (NewRingBuffer_establishes_wf 4 2); [int64_lia|reflexivity].
Defined.

Lemma Put_preserves_wf_witness : wf ring3.
Proof.
  apply (Put_preserves_wf [Some 10; Some 20; Some 30] ring0 ring3 ring0_wf);
    [simpl; lia|by vm_compute|reflexivity].
Defined.

Lemma Get_preserves_wf_witness : wf ring3_read2.
Proof.
  apply (Get_preserves_wf 2 0 ring3 [Some 10; Some 20] ring3_read2 ring3_wf).
  reflexivity.
Defined.

Lemma Put_never_waits_witness :
  Put [Some 10; Some 20; Some 30] ring0 = Ret ring3.
Proof.
  apply (Put_never_waits [Some 10; Some 20; Some 30] ring0 ring0_wf);
    [simpl; lia|by vm_compute].
Defined.

Lemma Get_returns_readable_witness :
  ∃ c, readCursors ring3 !! 0%nat = Some c ∧ ring3_read2 = after_get 0 c 2 ring3.
Proof.
  destruct (Get_returns_readable 2 0 ring3 [Some 10; Some 20] ring3_read2
              ring3_wf eq_refl) as (c & _ & Hc & _ & _ & Hrb & _).
  by exists c.
Defined.

Lemma Get_total_witness :
  Get 2 0 ring3 = Ret ([Some 10; Some 20], ring3_read2).
Proof.
  apply (Get_total 2 0 ring3 (-1) [Some 10; Some 20] ring3_wf);
    [done|done|done|apply ring3_readable|by left].
Defined.

Lemma Get_advances_cursor_witness :
  readCursors ring3_read2 !! 0%nat = Some 1 ∧ 1 ≤ writeCursor ring3_read2.
Proof.
  apply (Get_advances_cursor 2 0 ring3 [Some 10; Some 20] ring3_read2 (-1)
           ring3_wf eq_refl eq_refl).
Defined.

Lemma Get_frame_witness :
  buffer ring3_read2 = buffer ring3 ∧ readCursors ring3_read2 !! 1%nat = Some (-1).
Proof.
  destruct (Get_frame 2 0 ring3 [Some 10; Some 20] ring3_read2 ring3_wf eq_refl)
    as (_ & Hb & _ & _ & _ & Hj).
  split; [exact Hb|]. by rewrite (Hj 1%nat).
Defined.

Lemma Get_sets_barrier_witness :
  readBarrier ring3_read2 ∈ readCursors ring3_read2.
Proof.
  apply (Get_sets_barrier 2 0 ring3 [Some 10; Some 20] ring3_read2 ring3_wf eq_refl).
Defined.

Lemma Get_zero_batch_witness :
  Get 0 1 ring3 = Ret ([], after_get 1 (-1) 0 ring3).
Proof. apply (Get_zero_batch 1 ring3 (-1) ring3_wf); done. Defined.

(** Consumer 1 asks [ring3] for four payloads: three are there, the gate
    is open and the flag of slot 3 is not set. *)
Lemma Get_waits_witness : Get 4 1 ring3 = Spin.
Proof.
  apply (Get_waits 4 1 ring3 (-1) [Some 10; Some 20; Some 30] 3 0 ring3_wf);
    try done.
  - destruct m as [|[|[|m]]]; intros v [= <-]; (split; [solve_can_read|]).
    + solve_slot_read 0.
    + solve_slot_read 1.
    + solve_slot_read 2.
Defined.

Lemma Put_size_0_panics_witness :
  Put [Some 1] (mkRingBuffer 0 [] 0 [-1] [] 0 0) = Panic DivideByZero.
Proof. by apply (Put_size_0_panics (V:=Z)). Defined.

Lemma get_poll_agrees_witness :
  get_loop 2 0 0 [] ring3 = Ret ([Some 10; Some 20], set_cursor 0 1 ring3).
Proof. by apply (get_poll_agrees 3 2 0 0 0 [] ring3). Defined.

Lemma get_poll_terminates_witness :
  get_poll 5 2 0 0 0 [] ring3 = Some (Ret ([Some 10; Some 20], set_cursor 0 1 ring3)).
Proof.
  apply (get_poll_terminates 5 2 0 0 0 [] ring3); [done|done|simpl; lia].
Defined.

Lemma get_poll_never_returns_witness :
  get_poll 1000 4 0 1 0 [] ring3 = None.
Proof. by apply (get_poll_never_returns 1000 4 0 1 0 [] ring3). Defined.

Lemma min_cursor_is_least_witness :
  min_cursor 5 [7; 5; 2; 9] ∈ [7; 5; 2; 9] ∧
  Forall (λ c, min_cursor 5 [7; 5; 2; 9] ≤ c) [7; 5; 2; 9].
Proof. apply min_cursor_is_least. set_solver. Defined.
