(* ===== verification/RingLog.v ===== *)
(** * The abstract specification: a broadcast log

    What the ring promises its callers, stated without slots: a log of
    every payload published, in order, one position per consumer and a
    gate.  [publish] appends; [consume] hands a consumer the next
    payloads after its position.  The relation [repr] says when a ring
    represents a log; the theorems show that [NewRingBuffer], [Put] and
    [Get] implement [new_log], [publish] and [consume] on related states,
    and that whole schedules of calls do. *)

From stdpp Require Import prelude.
From S2P Require Import Prelude GoInt GoSlice RingBuffer.

(** ** The specification *)

Section log_defs.
Context {V : Type}.

(** [capacity] slots, the [entries] published so far (the sequence
    number of an entry is its index), per consumer the sequence it
    consumed last, and the [gate]: the least position as of the last
    [consume]. *)
Record Log : Type := mkLog {
  capacity : Z;
  entries : list (option V);
  positions : list Z;
  gate : Z;
}.

Definition new_log (sz : Z) (consumers : nat) : Log :=
  mkLog sz [] (replicate consumers (-1)) 0.

Definition publish (data : list (option V)) (l : Log) : Log :=
  mkLog (capacity l) (entries l ++ data) (positions l) (gate l).

(** The [n] entries after sequence [c]. *)
Definition segment (c : Z) (n : Z) (es : list (option V)) : list (option V) :=
  take (Z.to_nat n) (drop (Z.to_nat (c + 1)) es).

(** The least element of a non-empty list of positions. *)
Definition least (ps : list Z) : Z :=
  match ps with
  | [] => 0
  | p :: ps' => foldr Z.min p ps'
  end.

(** When consumer [id] may take [b] entries: they are published, none of
    them has been overwritten, and the last of them is less than
    [capacity] ahead of the gate. *)
Definition admits (b id : Z) (l : Log) : Prop :=
  0 ≤ id ∧ 0 ≤ b ∧
  match positions l !! Z.to_nat id with
  | Some c =>
      c + b < len (entries l) ∧
      len (entries l) - capacity l ≤ c + 1 ∧
      c + b - gate l < capacity l
  | None => False
  end.

#[export] Instance admits_dec b id l : Decision (admits b id l).
Proof. unfold admits. destruct (positions l !! Z.to_nat id); apply _. Defined.

Definition consume (b id : Z) (l : Log) : option (list (option V) * Log) :=
  c ← positions l !! Z.to_nat id;
  let ps := <[Z.to_nat id := c + b]> (positions l) in
  Some (segment c b (entries l), mkLog (capacity l) (entries l) ps (least ps)).

(** ** The representation *)

(** The slots of the ring hold the last [size] entries, each in the slot
    of its sequence number with its flag set, and the flags of the slots
    never written are clear. *)
Definition slots_hold (rb : RingBuffer V) (es : list (option V)) : Prop :=
  (∀ (s : nat) v, es !! s = Some v → len es - size rb ≤ Z.of_nat s →
     buffer rb !! Z.to_nat (Z.of_nat s `mod` size rb) = Some v ∧
     available rb !! Z.to_nat (Z.of_nat s `mod` size rb) = Some 1) ∧
  (∀ j : nat, len es ≤ Z.of_nat j < size rb → available rb !! j = Some 0).

Definition repr (rb : RingBuffer V) (l : Log) : Prop :=
  size rb = capacity l ∧ writeCursor rb = len (entries l) ∧
  readCursors rb = positions l ∧ readBarrier rb = gate l ∧
  slots_hold rb (entries l).

(** ** Schedules of calls *)

(** A call of the harness: [Producer] is [Put], one turn of [Consumer]
    is [Get]. *)
Inductive call : Type :=
| CallPut (data : list (option V))
| CallGet (b id : Z).

(** The calls run one after the other on the ring; the results of the
    [Get]s are collected with the consumer they went to. *)
Fixpoint run_ring (calls : list call) (rb : RingBuffer V)
    : outcome (list (Z * list (option V)) * RingBuffer V) :=
  match calls with
  | [] => Ret ([], rb)
  | CallPut data :: calls' =>
      rb' ← Put data rb;
      run_ring calls' rb'
  | CallGet b id :: calls' =>
      '(res, rb') ← Get b id rb;
      '(outs, rb'') ← run_ring calls' rb';
      Ret ((id, res) :: outs, rb'')
  end.

(** The same calls on the log; [None] when the log does not admit one
    of them. *)
Fixpoint run_log (calls : list call) (l : Log)
    : option (list (Z * list (option V)) * Log) :=
  match calls with
  | [] => Some ([], l)
  | CallPut data :: calls' =>
      if decide (0 < capacity l ∧ len (entries l) + len data < int64_max)
      then run_log calls' (publish data l)
      else None
  | CallGet b id :: calls' =>
      if decide (admits b id l) then
        '(res, l') ← consume b id l;
        '(outs, l'') ← run_log calls' l';
        Some ((id, res) :: outs, l'')
      else None
  end.

(** Everything consumer [id] received, in the order it received it. *)
Fixpoint stream (id : Z) (outs : list (Z * list (option V))) : list (option V) :=
  match outs with
  | [] => []
  | (id', res) :: outs' =>
      if decide (id' = id) then res ++ stream id outs' else stream id outs'
  end.

End log_defs.

Arguments Log V : clear implicits.
Arguments call V : clear implicits.

(** ** The least position *)

Section least_lemmas.
Implicit Types (ps : list Z) (p own : Z).

Lemma foldr_min_spec p ps :
  foldr Z.min p ps ∈ p :: ps ∧ Forall (λ q, foldr Z.min p ps ≤ q) (p :: ps).
Proof.
  induction ps as [|q ps [Hin Hle]]; simpl.
  { split; [apply list_elem_of_here|]. by repeat constructor. }
  apply Forall_cons in Hle as [Hp Hle].
  destruct (Z.min_spec q (foldr Z.min p ps)) as [[Hlt ->]|[Hge ->]].
  - split; [apply list_elem_of_further, list_elem_of_here|].
    repeat constructor; [lia..|].
    eapply Forall_impl; [exact Hle|]. simpl. lia.
  - split; [|by repeat constructor].
    apply elem_of_cons in Hin as [->|Hin]; [apply list_elem_of_here|].
    by do 2 apply list_elem_of_further.
Qed.

(** [least] is a lower bound that is attained. *)
Lemma least_spec ps : ps ≠ [] → least ps ∈ ps ∧ Forall (λ p, least ps ≤ p) ps.
Proof. destruct ps as [|p ps]; [done|]. intros _. apply foldr_min_spec. Qed.

(** The scan of [Get] computes [least]. *)
Lemma min_cursor_eq_least own ps : own ∈ ps → min_cursor own ps = least ps.
Proof.
  intros Hown. destruct (min_cursor_least own ps Hown) as [Hin Hle].
  destruct (least_spec ps) as [Hin' Hle']; [by intros ->; apply elem_of_nil in Hown|].
  apply (proj1 (Forall_forall _ _) Hle) in Hin'.
  apply (proj1 (Forall_forall _ _) Hle') in Hin. lia.
Qed.

End least_lemmas.

(** ** Put implements publish *)

Section put_refines.
Context {V : Type}.
Implicit Types (rb : RingBuffer V) (l : Log V) (es data : list (option V)).
Implicit Types (d v : option V).

Lemma slots_hold_new (sz : Z) (n : nat) :
  slots_hold (V:=V)
    (mkRingBuffer sz (replicate (Z.to_nat sz) None) 0 (replicate n (-1))
       (replicate (Z.to_nat sz) 0) 0 0) [].
Proof.
  split; [done|]. simpl. intros j Hj. apply lookup_replicate. split; [done|lia].
Qed.

(** One pass of [Put]'s loop at the end of the log appends one entry. *)
Lemma write_slot_slots_hold rb es d :
  slots_ok rb → slots_hold rb es →
  slots_hold (write_slot (len es) d rb) (es ++ [d]).
Proof.
  intros (Hsz & Hb & Ha) [Hes Hclear].
  pose proof (len_nonneg es) as Hn.
  pose proof (mod_slot_nat (size rb) (len es) ltac:(lia)) as Hi.
  unfold len in Hb, Ha.
  split; simpl; rewrite len_app, len_cons, len_nil.
  - intros s v Hs Hwin. destruct (decide (s = length es)) as [->|Hne].
    + rewrite list_lookup_middle in Hs by done. injection Hs as <-.
      fold (len es). split; apply list_lookup_insert_eq; mod_lia.
    + assert (s < length es)%nat as Hlt.
      { apply lookup_lt_Some in Hs. rewrite length_app in Hs. simpl in Hs. lia. }
      rewrite lookup_app_l in Hs by done.
      pose proof (mod_slot_nat (size rb) (Z.of_nat s) ltac:(lia)) as Hj.
      assert (Z.of_nat s `mod` size rb ≠ len es `mod` size rb) as Hmod.
      { apply mod_window_ne; unfold len in *; lia. }
      rewrite !list_lookup_insert_ne by mod_lia.
      apply Hes; [done|lia].
  - intros j Hj. rewrite Z.mod_small by lia.
    rewrite list_lookup_insert_ne by (unfold len in *; lia). apply Hclear. lia.
Qed.

Lemma write_all_slots_hold data rb es :
  slots_ok rb → slots_hold rb es →
  slots_hold (write_all data (len es) rb) (es ++ data).
Proof.
  revert rb es. induction data as [|d data IH]; intros rb es Hok Hes.
  { by rewrite app_nil_r. }
  simpl. replace (es ++ d :: data) with ((es ++ [d]) ++ data)
    by (by rewrite <- app_assoc).
  replace (len es + 1) with (len (es ++ [d]))
    by (rewrite len_app, len_cons, len_nil; lia).
  apply IH; [by apply write_slot_slots_ok|by apply write_slot_slots_hold].
Qed.

Lemma slots_hold_set_writeCursor w rb es :
  slots_hold (set_writeCursor w rb) es ↔ slots_hold rb es.
Proof. done. Qed.

(** [NewRingBuffer] implements [new_log]. *)
Lemma NewRingBuffer_repr (sz n : Z) rb :
  NewRingBuffer sz n = Ret rb → repr rb (new_log sz (Z.to_nat n)).
Proof.
  destruct (decide (sz < 0 ∨ n < 0)) as [Hneg|Hpos].
  { by rewrite NewRingBuffer_Panic. }
  rewrite NewRingBuffer_Ret by lia. intros [= <-].
  split_and!; try done. apply slots_hold_new.
Qed.

(** [Put] implements [publish], on every lap. *)
Lemma Put_repr data rb l :
  wf rb → 0 < size rb → writeCursor rb + len data < int64_max → repr rb l →
  ∃ rb', Put data rb = Ret rb' ∧ repr rb' (publish data l).
Proof.
  intros Hwf Hpos Hmax (Hsz & Hw & Hc & Hg & Hes).
  eexists. split; [by apply Put_Ret|].
  set (rb0 := set_writeCursor _ rb).
  destruct (write_all_frame data (writeCursor rb) rb0) as (Hs' & Hw' & Hc' & _ & Hb').
  unfold repr. rewrite Hs', Hw', Hc', Hb'. simpl.
  split_and!; try done.
  - rewrite len_app. lia.
  - rewrite Hw. apply write_all_slots_hold; [|done].
    by apply (wf_slots_ok rb).
Qed.

End put_refines.

(** ** Get implements consume *)

Section get_refines.
Context {V : Type}.
Implicit Types (rb : RingBuffer V) (l : Log V) (es res : list (option V)).
Implicit Types (v : option V) (b id c : Z).

Lemma segment_len c b es :
  -1 ≤ c → 0 ≤ b → c + b < len es → len (segment c b es) = b.
Proof.
  intros Hc Hb Hlen. unfold segment, len in *.
  rewrite length_take, length_drop. lia.
Qed.

Lemma segment_lookup c b es (m : nat) v :
  -1 ≤ c → segment c b es !! m = Some v →
  Z.of_nat m < b ∧ es !! Z.to_nat (c + 1 + Z.of_nat m) = Some v.
Proof.
  intros Hc Hm. unfold segment in Hm.
  apply lookup_take_Some in Hm as [Hm Hlt]. rewrite lookup_drop in Hm.
  split; [lia|]. by replace (Z.to_nat (c + 1 + Z.of_nat m))
    with (Z.to_nat (c + 1) + m)%nat by lia.
Qed.

(** Consuming [b1] entries and then [b2] is consuming [b1 + b2]: the
    segments are adjacent, without gap or overlap. *)
Lemma segment_app c b1 b2 es :
  -1 ≤ c → 0 ≤ b1 → 0 ≤ b2 → c + b1 < len es →
  segment c b1 es ++ segment (c + b1) b2 es = segment c (b1 + b2) es.
Proof.
  intros Hc H1 H2 Hlen. unfold segment, len in *.
  replace (Z.to_nat (b1 + b2)) with (Z.to_nat b1 + Z.to_nat b2)%nat by lia.
  rewrite <- take_take_drop, drop_drop. do 3 f_equal. lia.
Qed.

(** A sequence in the window of the ring is read back from its slot. *)
Lemma slots_hold_slot_read rb es s v :
  wf rb → 0 < size rb → slots_hold rb es →
  0 ≤ s → es !! Z.to_nat s = Some v → len es - size rb ≤ s →
  slot_read rb s v.
Proof.
  intros Hwf Hpos [Hes _] Hs Hv Hwin.
  destruct (Hes (Z.to_nat s) v Hv) as [Hb Ha]; [lia|].
  rewrite Z2Nat.id in Hb, Ha by done.
  pose proof (mod_slot_nat (size rb) s Hpos) as Hi.
  exists (s `mod` size rb). rewrite (wf_size_int64 rb Hwf).
  split_and!; [by apply rem64_mod|apply index_Ret..]; (split; [lia|done]).
Qed.

(** Below the write cursor and behind the gate [can_read] holds, the
    subtraction of the gate not wrapping. *)
Lemma can_read_intro rb s :
  wf rb → -1 ≤ s → s ≤ writeCursor rb → s - readBarrier rb < size rb →
  readBarrier rb ≤ s + 1 → can_read s rb.
Proof.
  intros Hwf Hs Hw Hg Hb. pose proof (wf_barrier_lower _ Hwf).
  pose proof (wf_writeCursor _ Hwf).
  split; [done|]. rewrite (wf_size_int64 rb Hwf).
  rewrite sub64_exact by int64_lia. done.
Qed.

(** [Get] in the window of the ring: when the [b] entries after the
    caller's cursor are published and not overwritten and the gate admits
    the last of them, [Get] returns exactly these entries. *)
Lemma Get_window b id rb es c :
  wf rb → writeCursor rb = len es → slots_hold rb es →
  0 ≤ id → readCursors rb !! Z.to_nat id = Some c →
  0 ≤ b → c + b < len es → len es - size rb ≤ c + 1 →
  c + b - readBarrier rb < size rb →
  Get b id rb = Ret (segment c b es, after_get id c b rb).
Proof.
  intros Hwf Hw Hes Hid Hc Hb Hlen Hwin Hgate.
  pose proof (wf_cursor _ _ _ Hwf Hc) as Hcw.
  pose proof (wf_barrier_upper _ _ _ Hwf Hc) as Hbu.
  pose proof (segment_len c b es ltac:(lia) Hb Hlen) as Hl.
  replace (after_get id c b rb) with (after_get id c (len (segment c b es)) rb)
    by (by rewrite Hl).
  apply Get_Ret; try done; [lia| |by left].
  intros m v [Hm Hv]%segment_lookup; [|lia].
  assert (0 < size rb) as Hpos by lia. split.
  - apply can_read_intro; [done|lia..].
  - apply (slots_hold_slot_read rb es); [done..|lia|done|lia].
Qed.

Lemma slots_hold_after_get id c n rb es :
  slots_hold (after_get id c n rb) es ↔ slots_hold rb es.
Proof. done. Qed.

(** [Get] implements [consume] on every call the log admits. *)
Lemma Get_repr b id rb l :
  wf rb → repr rb l → admits b id l →
  ∃ res rb' l', Get b id rb = Ret (res, rb') ∧
    consume b id l = Some (res, l') ∧ repr rb' l'.
Proof.
  intros Hwf (Hsz & Hw & Hc & Hg & Hes) (Hid & Hb & Hadm).
  destruct (positions l !! Z.to_nat id) as [c|] eqn:Hpos; [|done].
  destruct Hadm as (Hlen & Hwin & Hgate).
  exists (segment c b (entries l)), (after_get id c b rb). eexists. split_and!.
  - apply Get_window; try done; rewrite ?Hc, ?Hsz, ?Hg; done.
  - unfold consume. rewrite Hpos. done.
  - unfold repr. simpl. rewrite Hc. split_and!; try done.
    apply min_cursor_eq_least, list_elem_of_lookup. exists (Z.to_nat id).
    apply list_lookup_insert_eq. by apply lookup_lt_Some in Hpos.
Qed.

End get_refines.

(** ** Schedules: the ring implements the log *)

Section run_refines.
Context {V : Type}.
Implicit Types (rb : RingBuffer V) (l : Log V) (calls : list (call V)).
Implicit Types (outs : list (Z * list (option V))) (id c : Z).

(** Every schedule the log admits runs on the ring to the same results,
    and leaves a ring that represents the log it leaves. *)
Lemma run_ring_refines calls rb l outs l' :
  wf rb → repr rb l → run_log calls l = Some (outs, l') →
  ∃ rb', run_ring calls rb = Ret (outs, rb') ∧ repr rb' l' ∧ wf rb'.
Proof.
  revert rb l outs l'.
  induction calls as [|[data|b id] calls IH]; intros rb l outs l' Hwf Hrepr; simpl.
  - intros [= <- <-]. eauto.
  - case_decide as Hd; [|done]. destruct Hd as [Hcap Hmax]. intros Hrun.
    assert (0 < size rb ∧ writeCursor rb + len data < int64_max) as [Hpos Hw].
    { destruct Hrepr as (-> & -> & _). done. }
    destruct (Put_repr data rb l) as (rb1 & HP & Hrepr1); [done..|].
    rewrite HP. go_step. apply (IH rb1 (publish data l)); [|done..].
    by apply (Put_wf data rb).
  - case_decide as Hadm; [|done].
    destruct (Get_repr b id rb l Hwf Hrepr Hadm) as (res & rb1 & l1 & HG & HC & Hrepr1).
    rewrite HC. simpl. destruct (run_log calls l1) as [[outs1 l2]|] eqn:Hrun; [|done].
    simpl. intros [= <- <-].
    destruct (IH rb1 l1 outs1 l2) as (rb2 & HR & ? & ?); [|done..|].
    { by apply (Get_wf b id rb res). }
    rewrite HG. go_step. rewrite HR. go_step. eauto.
Qed.

End run_refines.

(** ** What a consumer receives *)

Section streams.
Context {V : Type}.
Implicit Types (l : Log V) (calls : list (call V)) (es : list (option V)).
Implicit Types (outs : list (Z * list (option V))) (id c b : Z).

(** A segment inside a log is the same segment of every longer log. *)
Lemma segment_prefix c b es es' :
  es `prefix_of` es' → -1 ≤ c → 0 ≤ b → c + b < len es →
  segment c b es' = segment c b es.
Proof.
  intros [k ->] Hc Hb Hlen. unfold segment, len in *.
  rewrite drop_app_le by lia. rewrite take_app_le; [done|].
  rewrite length_drop. lia.
Qed.

Lemma segment_0 c es : segment c 0 es = [].
Proof. done. Qed.

(** Positions and entries after one admitted [consume]. *)
Lemma consume_Some b id l res l' :
  admits b id l → consume b id l = Some (res, l') →
  ∃ c, positions l !! Z.to_nat id = Some c ∧ 0 ≤ b ∧ c + b < len (entries l) ∧
    res = segment c b (entries l) ∧ entries l' = entries l ∧
    capacity l' = capacity l ∧
    positions l' = <[Z.to_nat id := c + b]> (positions l).
Proof.
  intros (Hid & Hb & Hadm). unfold consume.
  destruct (positions l !! Z.to_nat id) as [c|]; [|done].
  simpl. intros [= <- <-]. exists c. destruct Hadm as (? & ? & ?).
  split_and!; done.
Qed.

(** In every schedule the log admits, what a consumer receives is the
    segment of the log between its position before and its position
    after: every entry once, in order, none skipped. *)
Lemma run_log_stream calls l outs l' id c :
  run_log calls l = Some (outs, l') → 0 ≤ id →
  positions l !! Z.to_nat id = Some c → -1 ≤ c →
  ∃ c', positions l' !! Z.to_nat id = Some c' ∧ c ≤ c' ∧
    entries l `prefix_of` entries l' ∧
    stream id outs = segment c (c' - c) (entries l').
Proof.
  intros Hrun Hid. revert l outs l' c Hrun.
  induction calls as [|[data|b id'] calls IH]; intros l outs l' c; simpl.
  - intros [= <- <-] Hc Hlen. exists c. rewrite Z.sub_diag.
    split_and!; done || lia.
  - case_decide; [|done]. intros Hrun Hc Hlen.
    destruct (IH _ _ _ c Hrun) as (c' & ? & ? & Hpre & ?); [done..|].
    exists c'. split_and!; try done.
    etrans; [|exact Hpre]. by apply prefix_app_r.
  - case_decide as Hadm; [|done].
    destruct (consume b id' l) as [[res l1]|] eqn:HC; [simpl|done].
    destruct (run_log calls l1) as [[outs1 l2]|] eqn:Hrun; [simpl|done].
    intros [= <- <-] Hc Hlen.
    destruct (consume_Some _ _ _ _ _ Hadm HC)
      as (c0 & Hc0 & Hb & Hlen0 & -> & Hes & _ & Hps).
    destruct Hadm as (Hid' & _). simpl. case_decide as Heq.
    + subst id'. rewrite Hc in Hc0. injection Hc0 as <-.
      destruct (IH _ _ _ (c + b) Hrun) as (c' & Hc' & Hle & Hpre & Hs).
      { rewrite Hps. apply list_lookup_insert_eq. by apply lookup_lt_Some in Hc. }
      { lia. }
      rewrite Hes in Hpre. exists c'. split_and!; [done|lia|done|].
      rewrite Hs, <- (segment_prefix c b (entries l) (entries l2)) by (done || lia).
      rewrite segment_app; [f_equal; lia|lia..|].
      destruct Hpre as [k ->]. rewrite len_app. int64_lia.
    + destruct (IH _ _ _ c Hrun) as (c' & Hc' & Hle & Hpre & Hs).
      { rewrite Hps, list_lookup_insert_ne by lia. done. }
      { done. }
      rewrite Hes in Hpre. by exists c'.
Qed.

Lemma segment_from_start n es : segment (-1) n es = take (Z.to_nat n) es.
Proof. done. Qed.

End streams.

(** ** Put, then Get *)

Section round_trip.
Context {V : Type}.
Implicit Types (rb : RingBuffer V) (l : Log V) (data : list (option V)) (id : Z).

(** The entries after the last one, once [data] is appended. *)
Lemma segment_appended data (es : list (option V)) :
  segment (len es - 1) (len data) (es ++ data) = data.
Proof.
  unfold segment, len.
  replace (Z.to_nat (Z.of_nat (length es) - 1 + 1)) with (length es) by lia.
  rewrite drop_app_length, Nat2Z.id. by apply take_ge.
Qed.

(** A consumer that has read everything reads what is put next. *)
Lemma Put_Get_Ret data id rb l :
  wf rb → 0 < size rb → writeCursor rb + len data < int64_max → repr rb l →
  0 ≤ id → positions l !! Z.to_nat id = Some (len (entries l) - 1) →
  len data ≤ capacity l → len (entries l) + len data - 1 - gate l < capacity l →
  ∃ rb1 rb2, Put data rb = Ret rb1 ∧ Get (len data) id rb1 = Ret (data, rb2).
Proof.
  intros Hwf Hpos Hmax Hrepr Hid Hc Hcap Hgate.
  destruct (Put_repr data rb l Hwf Hpos Hmax Hrepr) as (rb1 & HP & Hsz & Hw & Hps & Hg & Hes).
  pose proof (Put_wf _ _ _ Hwf Hpos Hmax HP) as Hwf1. simpl in *.
  pose proof (len_nonneg data). pose proof (len_nonneg (entries l)).
  exists rb1, (after_get id (len (entries l) - 1) (len data) rb1). split; [done|].
  rewrite <- (segment_appended data (entries l)) at 2.
  rewrite len_app in Hw.
  apply Get_window; rewrite ?Hps, ?Hg, ?Hsz, ?len_app; try done; lia.
Qed.

End round_trip.

(** ** The theorems of the refinement *)

Section log_theorems.
Context {V : Type}.
Implicit Types (rb : RingBuffer V) (l : Log V) (calls : list (call V)).
Implicit Types (es res data : list (option V)).
Implicit Types (outs : list (Z * list (option V))) (id c b sz n : Z).

(** The ring [NewRingBuffer] returns represents the empty log. *)
Theorem NewRingBuffer_refines_new_log sz n rb :
  NewRingBuffer sz n = Ret rb → repr rb (new_log sz (Z.to_nat n)).
Proof. apply NewRingBuffer_repr. Qed.

(** C14: [Put] implements [publish]: on a ring that represents a log,
    [Put] returns a ring that represents the log with the data appended;
    the slots then hold the last [size] entries.  This holds on every
    lap, whether or not a consumer has read the entries overwritten. *)
Theorem Put_refines_publish data rb l :
  wf rb → 0 < size rb → writeCursor rb + len data < int64_max → repr rb l →
  ∃ rb', Put data rb = Ret rb' ∧ repr rb' (publish data l).
Proof. apply Put_repr. Qed.

(** C15: [Get] implements [consume]: on a ring that represents a log
    which admits the call (the entries are published, not overwritten,
    and behind the gate), [Get] returns what [consume] returns and
    leaves a ring that represents the log [consume] leaves. *)
Theorem Get_refines_consume b id rb l :
  wf rb → repr rb l → admits b id l →
  ∃ res rb' l', Get b id rb = Ret (res, rb') ∧
    consume b id l = Some (res, l') ∧ repr rb' l'.
Proof. apply Get_repr. Qed.

(** In the window of the ring [Get] returns exactly the [b] entries
    after the caller's cursor, in order. *)
Theorem Get_returns_log_segment b id rb es c :
  wf rb → writeCursor rb = len es → slots_hold rb es →
  0 ≤ id → readCursors rb !! Z.to_nat id = Some c →
  0 ≤ b → c + b < len es → len es - size rb ≤ c + 1 →
  c + b - readBarrier rb < size rb →
  Get b id rb = Ret (segment c b es, after_get id c b rb).
Proof. apply Get_window. Qed.

(** C2: every schedule of [Put]s and [Get]s that the log admits runs on
    the ring to the same results, and leaves a well-formed ring that
    represents the log the schedule leaves. *)
Theorem schedule_refines calls rb l outs l' :
  wf rb → repr rb l → run_log calls l = Some (outs, l') →
  ∃ rb', run_ring calls rb = Ret (outs, rb') ∧ repr rb' l' ∧ wf rb'.
Proof. apply run_ring_refines. Qed.

(** C1: in every schedule the log admits, each consumer receives from
    the ring exactly the published entries between its cursor before and
    its cursor after: every entry once, in order, none skipped, whatever
    the other consumers do. *)
Theorem consumers_receive_log_in_order calls rb l outs l' id c :
  wf rb → repr rb l → run_log calls l = Some (outs, l') →
  0 ≤ id → readCursors rb !! Z.to_nat id = Some c →
  ∃ rb' c', run_ring calls rb = Ret (outs, rb') ∧
    readCursors rb' !! Z.to_nat id = Some c' ∧ c ≤ c' ∧
    entries l `prefix_of` entries l' ∧
    stream id outs = segment c (c' - c) (entries l').
Proof.
  intros Hwf Hrepr Hrun Hid Hc.
  destruct (run_ring_refines _ _ _ _ _ Hwf Hrepr Hrun) as (rb' & HR & Hrepr' & _).
  pose proof (wf_cursor _ _ _ Hwf Hc) as [Hc1 _].
  destruct Hrepr as (_ & _ & Hps & _). rewrite Hps in Hc.
  destruct (run_log_stream _ _ _ _ _ _ Hrun Hid Hc Hc1) as (c' & Hc' & ? & ? & ?).
  destruct Hrepr' as (_ & _ & Hps' & _). rewrite <- Hps' in Hc'.
  by exists rb', c'.
Qed.

(** C20: the round trip.  On a ring that represents a log, a consumer
    that has read every entry receives from a [Get] exactly the items
    of the [Put] before it, in order, when they are no more than the
    ring has slots and the gate lets the last of them through. *)
Theorem Put_Get_round_trip data id rb l :
  wf rb → 0 < size rb → writeCursor rb + len data < int64_max → repr rb l →
  0 ≤ id → positions l !! Z.to_nat id = Some (len (entries l) - 1) →
  len data ≤ capacity l → len (entries l) + len data - 1 - gate l < capacity l →
  ∃ rb1 rb2, Put data rb = Ret rb1 ∧ Get (len data) id rb1 = Ret (data, rb2).
Proof. apply Put_Get_Ret. Qed.

End log_theorems.

(** ** The theorems at the scenario of ten items

    Scenario A of the specification: a ring of ten slots and one
    consumer, one [Put] of the values 0 to 9, then [Get] of five
    twice. *)

Definition ringA : RingBuffer Z :=
  mkRingBuffer 10 (replicate 10 None) 0 [-1] (replicate 10 0) 0 0.

Definition dataA : list (option Z) := (λ k, Some (Z.of_nat k)) <$> seq 0 10.

Definition callsA : list (call Z) := [CallPut dataA; CallGet 5 0; CallGet 5 0].

Definition ringA_put : RingBuffer Z :=
  mkRingBuffer 10 dataA 10 [-1] (replicate 10 1) 0 0.

Lemma ringA_wf : wf ringA.
Proof. by apply (NewRingBuffer_wf 10 1). Qed.

Lemma ringA_repr : repr ringA (new_log 10 1).
Proof. by apply (NewRingBuffer_repr 10 1). Qed.

Lemma ringA_put_wf : wf ringA_put.
Proof. apply (Put_wf dataA ringA ringA_put ringA_wf); [done|done|by vm_compute]. Qed.

Lemma ringA_Put : Put dataA ringA = Ret ringA_put.
Proof. by vm_compute. Qed.

Lemma ringA_put_repr : repr ringA_put (publish dataA (new_log 10 1)).
Proof.
  destruct (Put_repr dataA ringA (new_log 10 1) ringA_wf) as (rb' & HP & Hr);
    [done|done|apply ringA_repr|].
  rewrite ringA_Put in HP. by injection HP as <-.
Qed.

Lemma NewRingBuffer_refines_new_log_witness : repr ringA (new_log 10 1).
Proof. by apply (NewRingBuffer_refines_new_log 10 1). Defined.

Lemma Put_refines_publish_witness :
  ∃ rb', Put dataA ringA = Ret rb' ∧ repr rb' (publish dataA (new_log 10 1)).
Proof.
  apply (Put_refines_publish dataA ringA (new_log 10 1) ringA_wf);
    [done|done|apply ringA_repr].
Defined.

Lemma Get_refines_consume_witness :
  ∃ res rb' l', Get 5 0 ringA_put = Ret (res, rb') ∧
    consume 5 0 (publish dataA (new_log 10 1)) = Some (res, l') ∧ repr rb' l'.
Proof.
  apply (Get_refines_consume 5 0 ringA_put _ ringA_put_wf ringA_put_repr).
  by vm_compute.
Defined.

Lemma Get_returns_log_segment_witness :
  Get 5 0 ringA_put =
    Ret ([Some 0; Some 1; Some 2; Some 3; Some 4], after_get 0 (-1) 5 ringA_put).
Proof.
  apply (Get_returns_log_segment 5 0 ringA_put dataA (-1) ringA_put_wf);
    try done.
  apply ringA_put_repr.
Defined.

Definition outsA : list (Z * list (option Z)) :=
  [(0, [Some 0; Some 1; Some 2; Some 3; Some 4]);
   (0, [Some 5; Some 6; Some 7; Some 8; Some 9])].

Definition logA : Log Z := mkLog 10 dataA [9] 9.

Lemma callsA_log : run_log callsA (new_log 10 1) = Some (outsA, logA).
Proof. by vm_compute. Qed.

Lemma schedule_refines_witness :
  ∃ rb', run_ring callsA ringA = Ret (outsA, rb') ∧ repr rb' logA ∧ wf rb'.
Proof.
  exact (schedule_refines callsA ringA (new_log 10 1) outsA logA
           ringA_wf ringA_repr callsA_log).
Defined.

Lemma consumers_receive_log_in_order_witness :
  ∃ rb' c', run_ring callsA ringA = Ret (outsA, rb') ∧
    readCursors rb' !! Z.to_nat 0 = Some c' ∧ -1 ≤ c' ∧
    entries (new_log 10 1) `prefix_of` entries logA ∧
    stream 0 outsA = segment (-1) (c' - -1) (entries logA).
Proof.
  apply (consumers_receive_log_in_order callsA ringA (new_log 10 1) outsA logA
           0 (-1) ringA_wf ringA_repr callsA_log); [lia|reflexivity].
Defined.

Lemma Put_Get_round_trip_witness :
  ∃ rb1 rb2, Put dataA ringA = Ret rb1 ∧ Get (len dataA) 0 rb1 = Ret (dataA, rb2).
Proof.
  apply (Put_Get_round_trip dataA 0 ringA (new_log 10 1));
    [apply ringA_wf|done|done|apply ringA_repr|done..].
Defined.
