(* ===== verification/Contract.v ===== *)
(** * The contract between the harness and the ring

    The harness of src/lmax.go uses three operations of the ring:
    [NewRingBuffer], [Put] and [Get].  [Ring] is that interface;
    [RingLaws] is what the harness may rely on: there is a relation
    between rings and logs ([represents]) that the constructor
    establishes and that [Put] and [Get] keep, answering what [publish]
    and [consume] answer, on the calls the log admits.  What follows
    from the laws alone holds of every ring that has them
    ([run_calls_refines]); the lemmas of [RingLog] show that the ring
    of src/lmax.go has them ([RingBuffer_RingLaws]).  The laws promise
    nothing about a call the log does not admit: that is where the
    code departs from the specification ([Anomalies]). *)

From stdpp Require Import prelude.
From S2P Require Import Prelude GoInt GoSlice RingBuffer RingLog.

(** ** The interface *)

(** What the harness uses of a ring with payloads [V] and state [R]. *)
Class Ring (V R : Type) : Type := {
  ring_new : Z → Z → outcome R;
  ring_put : list (option V) → R → outcome R;
  ring_get : Z → Z → R → outcome (list (option V) * R);
}.

(** What the harness may rely on. *)
Class RingLaws (V R : Type) `{!Ring V R} : Type := {
  represents : R → Log V → Prop;
  ring_new_represents sz n r :
    in_int64 sz → ring_new sz n = Ret r → represents r (new_log sz (Z.to_nat n));
  ring_put_represents data r l :
    represents r l → 0 < capacity l → len (entries l) + len data < int64_max →
    ∃ r', ring_put data r = Ret r' ∧ represents r' (publish data l);
  ring_get_represents b id r l :
    represents r l → admits b id l →
    ∃ res r' l',
      ring_get b id r = Ret (res, r') ∧ consume b id l = Some (res, l') ∧
      represents r' l';
}.

(** ** What the laws give *)

Section contract.
Context {V R : Type} `{!Ring V R}.

(** The calls run one after the other on a ring; the results of the
    [Get]s are collected with the consumer they went to. *)
Fixpoint run_calls (calls : list (call V)) (r : R)
    : outcome (list (Z * list (option V)) * R) :=
  match calls with
  | [] => Ret ([], r)
  | CallPut data :: calls' =>
      r' ← ring_put data r;
      run_calls calls' r'
  | CallGet b id :: calls' =>
      '(res, r') ← ring_get b id r;
      '(outs, r'') ← run_calls calls' r';
      Ret ((id, res) :: outs, r'')
  end.

Context `{!RingLaws V R}.
Implicit Types (r : R) (l : Log V) (calls : list (call V)).
Implicit Types (outs : list (Z * list (option V))).

(** Every schedule the log admits runs on the ring to the same
    results, and leaves a ring that represents the log it leaves. *)
Lemma run_calls_refines calls r l outs l' :
  represents r l → run_log calls l = Some (outs, l') →
  ∃ r', run_calls calls r = Ret (outs, r') ∧ represents r' l'.
Proof.
  revert r l outs l'.
  induction calls as [|[data|b id] calls IH]; intros r l outs l' Hr; simpl.
  - intros [= <- <-]. eauto.
  - case_decide as Hd; [|done]. destruct Hd as [Hcap Hmax]. intros Hrun.
    destruct (ring_put_represents data r l Hr Hcap Hmax) as (r1 & HP & Hr1).
    rewrite HP. go_step. by apply (IH r1 (publish data l)).
  - case_decide as Hadm; [|done].
    destruct (ring_get_represents b id r l Hr Hadm) as (res & r1 & l1 & HG & HC & Hr1).
    rewrite HC. simpl. destruct (run_log calls l1) as [[outs1 l2]|] eqn:Hrun; [|done].
    simpl. intros [= <- <-].
    destruct (IH r1 l1 outs1 l2 Hr1 Hrun) as (r2 & HR & ?).
    rewrite HG. go_step. rewrite HR. go_step. eauto.
Qed.

End contract.

(** ** The ring of src/lmax.go *)

#[export] Instance RingBuffer_Ring (V : Type) : Ring V (RingBuffer V) := {|
  ring_new := NewRingBuffer;
  ring_put := Put;
  ring_get := Get;
|}.

Section ring_laws.
Context {V : Type}.
Implicit Types (rb : RingBuffer V) (l : Log V).

(** A well-formed ring whose slots hold the last entries of the log. *)
Definition ring_represents rb l : Prop := wf rb ∧ repr rb l.

Lemma NewRingBuffer_represents sz n rb :
  in_int64 sz → NewRingBuffer sz n = Ret rb →
  ring_represents rb (new_log sz (Z.to_nat n)).
Proof. intros Hsz Hnew. split; [by eapply NewRingBuffer_wf|by apply NewRingBuffer_repr]. Qed.

Lemma Put_represents data rb l :
  ring_represents rb l → 0 < capacity l → len (entries l) + len data < int64_max →
  ∃ rb', Put data rb = Ret rb' ∧ ring_represents rb' (publish data l).
Proof.
  intros [Hwf Hrepr] Hcap Hmax.
  assert (0 < size rb ∧ writeCursor rb + len data < int64_max) as [Hpos Hw]
    by (by destruct Hrepr as (-> & -> & _)).
  destruct (Put_repr data rb l) as (rb' & HP & Hrepr'); [done..|].
  exists rb'. split; [done|]. split; [by apply (Put_wf data rb)|done].
Qed.

Lemma Get_represents b id rb l :
  ring_represents rb l → admits b id l →
  ∃ res rb' l',
    Get b id rb = Ret (res, rb') ∧ consume b id l = Some (res, l') ∧
    ring_represents rb' l'.
Proof.
  intros [Hwf Hrepr] Hadm.
  destruct (Get_repr b id rb l Hwf Hrepr Hadm) as (res & rb' & l' & HG & HC & Hrepr').
  exists res, rb', l'. split_and!; [done..|]. split; [by apply (Get_wf b id rb res)|done].
Qed.

End ring_laws.

#[export] Instance RingBuffer_RingLaws (V : Type) : RingLaws V (RingBuffer V) := {|
  represents := ring_represents;
  ring_new_represents := NewRingBuffer_represents;
  ring_put_represents := Put_represents;
  ring_get_represents := Get_represents;
|}.

(** On the ring of src/lmax.go [run_calls] is [run_ring]. *)
Lemma run_calls_ring {V} (calls : list (call V)) (rb : RingBuffer V) :
  run_calls calls rb = run_ring calls rb.
Proof.
  revert rb. induction calls as [|[data|b id] calls IH]; intros rb; simpl; [done|..].
  - destruct (Put data rb); go_step; [apply IH|done..].
  - destruct (Get b id rb) as [[res rb']| |]; go_step; [|done..]. by rewrite IH.
Qed.
