(* ===== verification/Anomalies.v ===== *)
(** * Where the ring departs from the log

    [RingLog] shows that the ring implements the broadcast log on the
    schedules the log admits.  This file is about the other schedules:
    what [Put] and [Get] of src/lmax.go do when a producer laps a
    consumer, when a consumer catches up with the producer after the
    first lap, when a consumer runs ahead of the slowest one, when the
    ring has no slot, and when the write cursor reaches 2^63 - 1.  Each
    theorem states what the code returns there; the header of the
    development lists them with the lines of the source they are
    about. *)

From stdpp Require Import prelude.
From S2P Require Import Prelude GoInt GoSlice RingBuffer RingLog.

(** ** Reading a slot through a congruent sequence *)

Section congruent.
Context {V : Type}.
Implicit Types (rb : RingBuffer V) (es res : list (option V)) (v : option V).
Implicit Types (b id c s t : Z).

(** The slot of sequence [s] holds the entry of the window whose
    sequence is congruent to [s]: the slot has no tag that tells the
    laps apart. *)
Lemma slots_hold_slot_read_mod rb es s s' v :
  wf rb → 0 < size rb → slots_hold rb es →
  0 ≤ s → 0 ≤ s' → es !! Z.to_nat s' = Some v → len es - size rb ≤ s' →
  s `mod` size rb = s' `mod` size rb →
  slot_read rb s v.
Proof.
  intros Hwf Hpos Hes Hs Hs' Hv Hwin Hmod.
  destruct (slots_hold_slot_read rb es s' v) as (i & Hi & Ha & Hb); [done..|].
  rewrite (wf_size_int64 rb Hwf), rem64_mod in Hi by done.
  exists i. rewrite (wf_size_int64 rb Hwf), rem64_mod, Hmod by done. done.
Qed.

(** [Get] of one item at a sequence congruent to an entry of the window:
    the entry is returned as if it had the sequence asked for. *)
Lemma Get_congruent id rb es c s' v :
  wf rb → writeCursor rb = len es → slots_hold rb es →
  0 ≤ id → readCursors rb !! Z.to_nat id = Some c →
  c < writeCursor rb → c + 1 - readBarrier rb < size rb →
  0 ≤ s' → es !! Z.to_nat s' = Some v → len es - size rb ≤ s' →
  (c + 1) `mod` size rb = s' `mod` size rb →
  Get 1 id rb = Ret ([v], after_get id c 1 rb).
Proof.
  intros Hwf Hw Hes Hid Hc Hlt Hgate Hs' Hv Hwin Hmod.
  pose proof (wf_cursor _ _ _ Hwf Hc) as Hcw.
  pose proof (wf_barrier_upper _ _ _ Hwf Hc) as Hbu.
  change 1 with (len [v]) at 2.
  apply Get_Ret; try done; [|by left].
  intros [|m] w Hm; [injection Hm as <-|done]. rewrite Z.add_0_r. split.
  - apply can_read_intro; [done|lia..].
  - apply (slots_hold_slot_read_mod rb es _ s'); [done|lia|done|lia|done..].
Qed.

(** A closed gate: the loop breaks at once and the scan finds the
    barrier it had, so the ring is as it was. *)
Lemma after_get_0 id c rb :
  barrier_least rb → readCursors rb !! Z.to_nat id = Some c →
  after_get id c 0 rb = rb.
Proof.
  intros [Hin Hle] Hc. unfold after_get.
  rewrite Z.add_0_r, set_cursor_same by done.
  assert (min_cursor c (readCursors rb) = readBarrier rb) as ->; [|by destruct rb].
  destruct (min_cursor_least c (readCursors rb)) as [Hin' Hle'].
  { by apply list_elem_of_lookup_2 in Hc. }
  apply (proj1 (Forall_forall _ _) Hle) in Hin'.
  apply (proj1 (Forall_forall _ _) Hle') in Hin. lia.
Qed.

Lemma Get_gate_closed b id rb c :
  wf rb → barrier_least rb → 0 ≤ id → readCursors rb !! Z.to_nat id = Some c →
  0 ≤ b → size rb ≤ c + 1 - readBarrier rb ≤ int64_max →
  Get b id rb = Ret ([], rb).
Proof.
  intros Hwf Hbl Hid Hc Hb Hgate.
  pose proof (wf_cursor _ _ _ Hwf Hc) as Hcw.
  pose proof (wf_barrier_lower _ Hwf) as Hbl'.
  pose proof (wf_writeCursor _ Hwf) as Hw. pose proof (wf_size _ Hwf) as Hsz.
  rewrite <- (after_get_0 id c rb Hbl Hc) at 2.
  change 0 with (len (@nil (option V))).
  apply Get_Ret; try done.
  right. rewrite len_nil, Z.add_0_r. intros [_ Hlt].
  rewrite (wf_size_int64 rb Hwf), sub64_exact in Hlt by int64_lia. lia.
Qed.

End congruent.

(** ** Flags *)

Section flags.
Context {V : Type}.
Implicit Types (rb : RingBuffer V) (data es res : list (option V)).
Implicit Types (b id nr : Z).

(** Every flag of the ring is set. *)
Definition all_flagged (rb : RingBuffer V) : Prop :=
  Forall (λ a, a = 1) (available rb).

Lemma write_all_keeps_flag data s rb (j : nat) :
  available rb !! j = Some 1 → available (write_all data s rb) !! j = Some 1.
Proof.
  revert s rb. induction data as [|d data IH]; intros s rb Hj; [done|].
  simpl. apply IH. simpl.
  destruct (decide (Z.to_nat (s `mod` size rb) = j)) as [<-|Hne].
  - apply list_lookup_insert_eq. by apply lookup_lt_Some in Hj.
  - by rewrite list_lookup_insert_ne.
Qed.

(** Once the log is as long as the ring every slot has been written. *)
Lemma slots_hold_all_flagged rb es :
  wf rb → 0 < size rb → slots_hold rb es → size rb ≤ len es → all_flagged rb.
Proof.
  intros Hwf Hpos [Hes _] Hlap. apply Forall_lookup. intros j a Hj.
  pose proof (wf_available _ Hwf) as Hlen. pose proof (lookup_lt_Some _ _ _ Hj) as Hlt.
  unfold len in *.
  (* the entry of the window that lives in slot [j] *)
  set (base := Z.of_nat (length es) - size rb).
  set (s := base + (Z.of_nat j - base) `mod` size rb).
  pose proof (Z.mod_pos_bound (Z.of_nat j - base) (size rb) Hpos) as Hm.
  assert (s `mod` size rb = Z.of_nat j) as Hs.
  { unfold s. rewrite Zplus_mod_idemp_r.
    replace (base + (Z.of_nat j - base)) with (Z.of_nat j) by lia.
    apply Z.mod_small. lia. }
  destruct (lookup_lt_is_Some_2 es (Z.to_nat s)) as [v Hv]; [lia|].
  destruct (Hes (Z.to_nat s) v Hv) as [_ Ha]; [unfold len; lia|].
  rewrite Z2Nat.id, Hs, Nat2Z.id in Ha by lia. congruence.
Qed.

(** With every flag set no pass of the loop retries. *)
Lemma get_iter_flagged id nr rb :
  all_flagged rb → get_iter id nr rb ≠ Ret Retry.
Proof.
  intros Hall. unfold get_iter. case_decide; [|done].
  destruct (rem64 _ _) as [i| |]; go_step; [|done..].
  destruct (index (available rb) i) as [a| |] eqn:Ha; go_step; [|done..].
  assert (a = 1) as ->.
  { apply index_Ret in Ha as [_ Ha]. by apply (proj1 (Forall_lookup _ _) Hall) in Ha. }
  rewrite decide_True by done. go_step.
  destruct (index (buffer rb) i); go_step; [|done..].
  by destruct (store _ _ _).
Qed.

Lemma get_loop_flagged k id nr res rb :
  all_flagged rb → get_loop k id nr res rb ≠ Spin.
Proof.
  revert nr res rb. induction k as [|k IH]; intros nr res rb Hall; [done|].
  simpl. pose proof (get_iter_flagged id nr rb Hall) as Hretry.
  pose proof (get_iter_not_Spin id nr rb) as Hspin.
  destruct (get_iter id nr rb) as [[v rb'| |]| |] eqn:Hit; go_step; try done.
  apply IH. apply get_iter_Advance_inv in Hit as (_ & _ & -> & _). done.
Qed.

Lemma Get_flagged b id rb : all_flagged rb → Get b id rb ≠ Spin.
Proof.
  intros Hall. unfold Get.
  destruct (index (readCursors rb) id) as [c| |] eqn:Hc; go_step;
    [|done|by apply index_not_Spin in Hc].
  unfold make. case_decide; go_step; [|done].
  pose proof (get_loop_flagged (Z.to_nat b) id (add64 c 1) [] rb Hall) as Hloop.
  destruct (get_loop _ _ _ _ _) as [[res rb1]| |]; go_step; [|done|by destruct Hloop].
  destruct (index (readCursors rb1) id) eqn:Hown; go_step;
    [done..|by apply index_not_Spin in Hown].
Qed.

End flags.

(** ** The write cursor at the end of [int64] *)

Section wrap.
Context {V : Type}.
Implicit Types (rb : RingBuffer V) (data : list (option V)) (d : option V).
Implicit Types (b id c : Z).

(** The item that takes the write cursor past 2^63 - 1 is stored, and
    the cursor is then the least [int64]. *)
Lemma Put_at_max d rb :
  slots_ok rb → writeCursor rb = int64_max →
  Put [d] rb = Ret (write_slot int64_max d (set_writeCursor int64_min rb)).
Proof.
  intros Hok Hw. unfold Put. rewrite Hw.
  change (int64_of_int (len [d])) with 1.
  change (add64 int64_max 1) with int64_min.
  change (sub64 int64_min 1) with int64_max.
  by rewrite put_loop_cons.
Qed.

(** [Put] at a negative write cursor indexes the slices with the
    negative remainder. *)
Lemma Put_negative d data rb :
  slots_ok rb → in_int64 (writeCursor rb) → writeCursor rb < 0 →
  writeCursor rb `rem` size rb ≠ 0 →
  Put (d :: data) rb = Panic IndexOutOfRange.
Proof.
  intros Hok Hin Hneg Hrem. unfold Put. rewrite sub64_add64 by done.
  simpl. rewrite (slots_ok_size_int64 rb Hok).
  destruct Hok as (Hsz & _).
  rewrite rem64_nonzero by lia. go_step. rewrite (store_Panic (buffer rb)); [reflexivity|].
  assert (0 < size rb ∧ size rb ≠ 0) as [Hpos Hne] by lia.
  pose proof (rem64_neg _ _ _ Hneg Hpos (rem64_nonzero _ _ Hne)).
  unfold in_bounds. lia.
Qed.

(** [Get] at a negative write cursor finds nothing to read. *)
Lemma Get_negative b id rb c :
  0 ≤ id → readCursors rb !! Z.to_nat id = Some c → 0 ≤ b →
  -1 ≤ c < int64_max → writeCursor rb < 0 →
  Get b id rb = Ret ([], set_readBarrier (min_cursor c (readCursors rb)) rb).
Proof.
  intros Hid Hc Hb Hcr Hneg. rewrite (Get_unfold b id rb c) by done.
  rewrite add64_exact by int64_lia.
  assert (get_loop (Z.to_nat b) id (c + 1) [] rb = Ret ([], rb)) as ->.
  { destruct (Z.to_nat b); [done|]. simpl.
    rewrite get_iter_Break; [done|]. intros [Hle _]. lia. }
  go_step. by rewrite (proj2 (index_Ret _ _ _) (conj Hid Hc)).
Qed.

End wrap.

(** ** Rings for the scenarios *)

(** Scenario B of the specification: four slots, two consumers, two
    [Put]s of three items, consumer 1 never reads. *)
Definition callsB : list (call Z) :=
  [CallPut [Some 10; Some 20; Some 30]; CallPut [Some 40; Some 50; Some 60]].

Definition entriesB : list (option Z) :=
  [Some 10; Some 20; Some 30; Some 40; Some 50; Some 60].

Definition ringB : RingBuffer Z :=
  mkRingBuffer 4 [Some 50; Some 60; Some 30; Some 40] 6 [-1; -1] [1; 1; 1; 1] 0 0.

(** The ring of scenario A after the two [Get]s of five. *)
Definition ringA_read : RingBuffer Z :=
  mkRingBuffer 10 dataA 10 [9] (replicate 10 1) 0 9.

(** Two slots, two consumers: consumer 0 has read both items of the
    first lap, consumer 1 nothing, and a third item is published. *)
Definition ringG : RingBuffer Z :=
  mkRingBuffer 2 [Some 3; Some 2] 3 [1; -1] [1; 1] 0 (-1).

(** A ring whose write cursor is at the largest [int64]. *)
Definition ring_max : RingBuffer Z :=
  mkRingBuffer 3 [None; None; None] int64_max [-1] [0; 0; 0] 0 0.

Lemma ringB_run : run_ring callsB ring0 = Ret ([], ringB).
Proof. by vm_compute. Qed.

Lemma ringB_log :
  run_log callsB (new_log 4 2) = Some ([], mkLog 4 entriesB [-1; -1] 0).
Proof. by vm_compute. Qed.

Lemma ring0_repr : repr ring0 (new_log 4 2).
Proof. by apply (NewRingBuffer_repr 4 2). Qed.

Lemma ringB_wf_repr : wf ringB ∧ slots_hold ringB entriesB.
Proof.
  destruct (run_ring_refines callsB ring0 _ _ _ ring0_wf ring0_repr ringB_log)
    as (rb' & Hrun & (_ & _ & _ & _ & Hes) & Hwf).
  rewrite ringB_run in Hrun. by injection Hrun as <-.
Qed.

Lemma ringA_read_run : run_ring callsA ringA = Ret (outsA, ringA_read).
Proof. by vm_compute. Qed.

Lemma ringA_read_wf_repr : wf ringA_read ∧ slots_hold ringA_read dataA.
Proof.
  destruct (run_ring_refines callsA ringA _ _ _ ringA_wf ringA_repr callsA_log)
    as (rb' & Hrun & (_ & _ & _ & _ & Hes) & Hwf).
  rewrite ringA_read_run in Hrun. by injection Hrun as <-.
Qed.

Lemma ringG_wf : wf ringG.
Proof. solve_wf. Qed.

Definition ring2 : RingBuffer Z :=
  mkRingBuffer 2 [None; None] 0 [-1] [0; 0] 0 0.

(** One consumer of a ring of two slots: it reads the first lap, asks
    again, and after a third item is published asks twice more. *)
Definition calls2 : list (call Z) :=
  [CallPut [Some 1; Some 2]; CallGet 2 0; CallGet 1 0;
   CallPut [Some 3]; CallGet 1 0; CallGet 1 0].

(** The ring of scenario B after consumer 0 has read once. *)
Definition ringB_read : RingBuffer Z :=
  mkRingBuffer 4 [Some 50; Some 60; Some 30; Some 40] 6 [3; -1] [1; 1; 1; 1] 0 (-1).

(** The ring [calls2] leaves. *)
Definition ring2_end : RingBuffer Z :=
  mkRingBuffer 2 [Some 3; Some 2] 3 [3] [1; 1] 0 3.

(** ** The theorems *)

Section anomaly_theorems.
Context {V : Type}.
Implicit Types (rb : RingBuffer V) (es data res : list (option V)).
Implicit Types (d v : option V) (b id c k n : Z).

(** C26: [Put] does not check the read cursors, and a slot carries no
    sequence: a consumer that was lapped ([k] laps, [0 < k]) is handed the
    entry of sequence [c + 1 + k * size] in place of the entry [c + 1] it
    asked for, and its cursor advances as if it had read [c + 1].  The
    entries in between are lost to it. *)
Theorem Get_lapped_reads_later_entry id rb es c k v :
  wf rb → writeCursor rb = len es → slots_hold rb es →
  0 ≤ id → readCursors rb !! Z.to_nat id = Some c →
  c + 1 - readBarrier rb < size rb →
  0 < k → len es - size rb ≤ c + 1 + k * size rb < len es →
  es !! Z.to_nat (c + 1 + k * size rb) = Some v →
  Get 1 id rb = Ret ([v], after_get id c 1 rb).
Proof.
  intros Hwf Hw Hes Hid Hc Hgate Hk Hwin Hv.
  pose proof (wf_cursor _ _ _ Hwf Hc) as Hcw.
  pose proof (wf_barrier_upper _ _ _ Hwf Hc) as Hbu.
  apply (Get_congruent id rb es c (c + 1 + k * size rb)); try done; try nia.
  by rewrite Z_mod_plus_full.
Qed.

(** C27: the loop admits [nextRead <= writeCursor], and [writeCursor] is
    the number of items published, one more than the last sequence: a
    consumer that has read everything, once the ring has been filled,
    is handed the oldest entry of the ring again, and its cursor is then
    the sequence of an item not yet published. *)
Theorem Get_caught_up_rereads id rb es v :
  wf rb → writeCursor rb = len es → slots_hold rb es →
  0 ≤ id → readCursors rb !! Z.to_nat id = Some (len es - 1) →
  0 < size rb ≤ len es → len es - readBarrier rb < size rb →
  es !! Z.to_nat (len es - size rb) = Some v →
  ∃ rb', Get 1 id rb = Ret ([v], rb') ∧
    readCursors rb' !! Z.to_nat id = Some (writeCursor rb).
Proof.
  intros Hwf Hw Hes Hid Hc Hsz Hgate Hv.
  exists (after_get id (len es - 1) 1 rb). split.
  - apply (Get_congruent id rb es _ (len es - size rb)); try done; try lia.
    replace (len es - 1 + 1) with (len es - size rb + 1 * size rb) by lia.
    by rewrite Z_mod_plus_full.
  - simpl. rewrite Hw. replace (len es - 1 + 1) with (len es) by lia.
    apply list_lookup_insert_eq. by apply lookup_lt_Some in Hc.
Qed.

(** C28: the gate compares the reader with the least read cursor: a
    consumer [size - 1] or more ahead of the slowest one gets the empty
    result and leaves the ring as it was, so it gets the empty result
    again on every later call until the slowest consumer reads, whatever
    has been published. *)
Theorem Get_gated_by_slowest b id rb c :
  wf rb → barrier_least rb → 0 ≤ id → readCursors rb !! Z.to_nat id = Some c →
  0 ≤ b → size rb ≤ c + 1 - readBarrier rb ≤ int64_max →
  Get b id rb = Ret ([], rb).
Proof. apply Get_gate_closed. Qed.

(** C33: no flag is ever cleared: once as many items as the ring has
    slots have been published every flag is set, and no [Get] waits for
    a producer any more. *)
Theorem Get_never_waits_after_first_lap b id rb es :
  wf rb → 0 < size rb → slots_hold rb es → size rb ≤ len es →
  Get b id rb ≠ Spin.
Proof.
  intros Hwf Hpos Hes Hlap. by apply Get_flagged, (slots_hold_all_flagged rb es).
Qed.

(** [Put] leaves every flag that is set as it is, also the flags of
    the slots it writes to. *)
Theorem Put_keeps_flags data rb rb' (j : nat) :
  wf rb → 0 < size rb → writeCursor rb + len data < int64_max →
  Put data rb = Ret rb' → available rb !! j = Some 1 →
  available rb' !! j = Some 1.
Proof.
  intros Hwf Hpos Hmax. rewrite Put_Ret by done. intros [= <-] Hj.
  by apply write_all_keeps_flag.
Qed.

(** C34: at the end of [int64]: the item that takes the write cursor past
    2^63 - 1 is stored and the cursor wraps to -2^63; after that a
    consumer finds nothing to read, and unless the size divides 2^63 the
    next [Put] indexes the buffer at a negative remainder and panics. *)
Theorem Put_past_int64_max d rb :
  slots_ok rb → writeCursor rb = int64_max → int64_min `rem` size rb ≠ 0 →
  ∃ rb', Put [d] rb = Ret rb' ∧ writeCursor rb' = int64_min ∧
    (∀ d' data, Put (d' :: data) rb' = Panic IndexOutOfRange) ∧
    (∀ b id c, 0 ≤ id → readCursors rb !! Z.to_nat id = Some c → 0 ≤ b →
       -1 ≤ c < int64_max → ∃ rb'', Get b id rb' = Ret ([], rb'')).
Proof.
  intros Hok Hw Hrem. eexists. split; [by apply Put_at_max|].
  split_and!; [done| |].
  - intros d' data. apply Put_negative; [|done..].
    by apply write_slot_slots_ok.
  - intros b id c Hid Hc Hb Hcr. eexists. by apply (Get_negative b id _ c).
Qed.

(** C35: [NewRingBuffer] accepts the size 0: the ring it returns is
    well-formed, has no slot, and the first item put into it divides by
    zero. *)
Theorem NewRingBuffer_accepts_size_0 n :
  0 ≤ n →
  ∃ rb, NewRingBuffer (V:=V) 0 n = Ret rb ∧ wf rb ∧ buffer rb = [] ∧
    ∀ d data, Put (d :: data) rb = Panic DivideByZero.
Proof.
  intros Hn. eexists. split; [by apply NewRingBuffer_Ret|].
  split_and!; [|done|by intros; apply Put_size_0].
  by apply (NewRingBuffer_wf 0 n); [|apply NewRingBuffer_Ret].
Qed.

End anomaly_theorems.

(** Scenario B of the specification on the ring as written: after
    the two [Put]s of three items consumer 0 receives 50, 60, 30, 40, the
    items 10 and 20 are overwritten, and while consumer 1 does not read
    every later [Get] of consumer 0 is empty. *)
Example scenario_B_loses_items :
  run_ring (callsB ++ [CallGet 6 0]) ring0 =
    Ret ([(0, [Some 50; Some 60; Some 30; Some 40])], ringB_read) ∧
  Get 6 0 ringB_read = Ret ([], ringB_read).
Proof. split; by vm_compute. Qed.

(** One consumer, two slots: the consumer that has read 1 and 2
    and asks again receives 1 a second time; after 3 is published it
    receives 2 a second time and then nothing: 3 is in the ring, unread
    and out of reach. *)
Example caught_up_consumer_duplicates :
  run_ring calls2 ring2 =
    Ret ([(0, [Some 1; Some 2]); (0, [Some 1]); (0, [Some 2]); (0, [])], ring2_end) ∧
  buffer ring2_end !! 0%nat = Some (Some 3) ∧
  readCursors ring2_end = [writeCursor ring2_end].
Proof. split; [by vm_compute|done]. Qed.

(** ** The theorems at the scenarios *)

Lemma Get_lapped_reads_later_entry_witness :
  Get 1 0 ringB = Ret ([Some 50], after_get 0 (-1) 1 ringB).
Proof.
  destruct ringB_wf_repr as [Hwf Hes].
  by apply (Get_lapped_reads_later_entry 0 ringB entriesB (-1) 1 (Some 50) Hwf).
Defined.

Lemma Get_caught_up_rereads_witness :
  ∃ rb', Get 1 0 ringA_read = Ret ([Some 0], rb') ∧
    readCursors rb' !! Z.to_nat 0 = Some (writeCursor ringA_read).
Proof.
  destruct ringA_read_wf_repr as [Hwf Hes].
  by apply (Get_caught_up_rereads 0 ringA_read dataA (Some 0) Hwf).
Defined.

Lemma Get_gated_by_slowest_witness : Get 5 0 ringG = Ret ([], ringG).
Proof.
  apply (Get_gated_by_slowest 5 0 ringG 1 ringG_wf); try done.
  split; simpl; [set_solver|repeat constructor; lia].
Defined.

Lemma Get_never_waits_after_first_lap_witness : Get 3 1 ringB ≠ Spin.
Proof.
  destruct ringB_wf_repr as [Hwf Hes].
  by apply (Get_never_waits_after_first_lap 3 1 ringB entriesB Hwf).
Defined.

Lemma Put_keeps_flags_witness : available ringB !! 0%nat = Some 1.
Proof.
  apply (Put_keeps_flags [Some 40; Some 50; Some 60] ring3 ringB 0 ring3_wf);
    [done|done|by vm_compute|done].
Defined.

Lemma Put_past_int64_max_witness :
  ∃ rb', Put [Some 7] ring_max = Ret rb' ∧ writeCursor rb' = int64_min ∧
    (∀ d' data, Put (d' :: data) rb' = Panic IndexOutOfRange) ∧
    (∀ b id c, 0 ≤ id → readCursors ring_max !! Z.to_nat id = Some c → 0 ≤ b →
       -1 ≤ c < int64_max → ∃ rb'', Get b id rb' = Ret ([], rb'')).
Proof. by apply (Put_past_int64_max (Some 7) ring_max). Defined.

Lemma NewRingBuffer_accepts_size_0_witness :
  ∃ rb, NewRingBuffer (V:=Z) 0 2 = Ret rb ∧ wf rb ∧ buffer rb = [] ∧
    ∀ d data, Put (d :: data) rb = Panic DivideByZero.
Proof. by apply (NewRingBuffer_accepts_size_0 2). Defined.
