(* ===== verification/Workload.v ===== *)
(** * Workloads the ring serves as a broadcast log

    A sufficient condition, checked by evaluation, under which the log
    admits a schedule of calls: fewer items than the ring has slots are
    published in all, and no [Get] asks for more than has been published
    when it runs.  On such a schedule the ring of src/lmax.go hands
    every consumer a prefix of what was published, in order: the
    single-producer/single-consumer and the fan-out properties of the
    specification, in the regime where the code has them. *)

From stdpp Require Import prelude.
From S2P Require Import Prelude GoInt GoSlice RingBuffer RingLog Contract.

Section workload_defs.
Context {V : Type}.

(** Every [Get] of the schedule finds what it asks for published: [n]
    items are published before the schedule, the consumers are at the
    positions [ps]. *)
Fixpoint within (calls : list (call V)) (n : Z) (ps : list Z) : Prop :=
  match calls with
  | [] => True
  | CallPut data :: calls' => within calls' (n + len data) ps
  | CallGet b id :: calls' =>
      0 ≤ id ∧ 0 ≤ b ∧
      match ps !! Z.to_nat id with
      | Some c => c + b < n ∧ within calls' n (<[Z.to_nat id := c + b]> ps)
      | None => False
      end
  end.

#[export] Instance within_dec calls n ps : Decision (within calls n ps).
Proof.
  revert n ps. induction calls as [|[data|b id] calls IH]; intros n ps; simpl;
    [apply _..|]. destruct (ps !! Z.to_nat id); apply _.
Defined.

(** Everything the schedule publishes, in order. *)
Fixpoint published (calls : list (call V)) : list (option V) :=
  match calls with
  | [] => []
  | CallPut data :: calls' => data ++ published calls'
  | CallGet _ _ :: calls' => published calls'
  end.

End workload_defs.

Section workload_lemmas.
Context {V : Type}.
Implicit Types (rb : RingBuffer V) (l : Log V) (calls : list (call V)).
Implicit Types (outs : list (Z * list (option V))) (ps : list Z) (id c b n sz : Z).

(** The least position is not before the start when no position is. *)
Lemma least_lower ps : Forall (λ p, -1 ≤ p) ps → -1 ≤ least ps.
Proof.
  intros Hps. destruct ps as [|p ps]; [done|].
  destruct (least_spec (p :: ps)) as [Hin _]; [done|].
  by apply (proj1 (Forall_forall _ _) Hps).
Qed.

(** The log a schedule leaves holds what it held and what the schedule
    published. *)
Lemma run_log_entries calls l outs l' :
  run_log calls l = Some (outs, l') →
  entries l' = entries l ++ published calls ∧ capacity l' = capacity l.
Proof.
  revert l outs l'. induction calls as [|[data|b id] calls IH]; intros l outs l'; simpl.
  - intros [= <- <-]. by rewrite app_nil_r.
  - case_decide; [|done]. intros [-> ->]%IH. simpl. by rewrite app_assoc.
  - case_decide as Hadm; [|done].
    destruct (consume b id l) as [[res l1]|] eqn:HC; [simpl|done].
    destruct (run_log calls l1) as [[outs1 l2]|] eqn:Hrun; [simpl|done].
    intros [= <- <-]. apply IH in Hrun as [-> ->].
    by destruct (consume_Some _ _ _ _ _ Hadm HC) as (_ & _ & _ & _ & _ & -> & -> & _).
Qed.

(** A schedule that publishes fewer items than the ring has slots and
    whose [Get]s stay within what is published is admitted by the log. *)
Lemma within_admitted calls l :
  0 < capacity l ≤ int64_max →
  Forall (λ p, -1 ≤ p) (positions l) → -1 ≤ gate l →
  len (entries l) + len (published calls) < capacity l →
  within calls (len (entries l)) (positions l) →
  ∃ outs l', run_log calls l = Some (outs, l').
Proof.
  revert l. induction calls as [|[data|b id] calls IH]; intros l Hcap Hps Hg; simpl; intros Hsmall.
  - eauto.
  - rewrite len_app in Hsmall. pose proof (len_nonneg (published calls)).
    intros Hin. rewrite decide_True by lia.
    apply (IH (publish data l)); simpl; rewrite ?len_app; try done; lia.
  - intros (Hid & Hb & Hin).
    destruct (positions l !! Z.to_nat id) as [c|] eqn:Hc; [|done].
    destruct Hin as [Hlt Hin].
    pose proof (proj1 (Forall_lookup _ _) Hps _ _ Hc) as Hc1. simpl in Hc1.
    pose proof (len_nonneg (published calls)).
    rewrite decide_True; [|unfold admits; rewrite Hc; lia].
    unfold consume. rewrite Hc. simpl.
    set (ps' := <[Z.to_nat id := c + b]> (positions l)).
    assert (Forall (λ p, -1 ≤ p) ps') as Hps' by (apply Forall_insert; [done|lia]).
    destruct (IH (mkLog (capacity l) (entries l) ps' (least ps')))
      as (outs & l' & ->); simpl; try done; [by apply least_lower|].
    eauto.
Qed.

End workload_lemmas.

(** ** A ring that keeps the contract, on a small workload *)

Section workload_contract.
Context {V R : Type} `{!Ring V R} `{!RingLaws V R}.
Implicit Types (r : R) (calls : list (call V)).
Implicit Types (outs : list (Z * list (option V))) (id c n sz : Z).

(** From a new ring: the schedule runs, and every consumer has received
    the first [position + 1] items published. *)
Lemma within_run_calls calls sz n r :
  ring_new sz n = Ret r → sz ≤ int64_max →
  len (published calls) < sz →
  within calls 0 (replicate (Z.to_nat n) (-1)) →
  ∃ outs r' l', run_calls calls r = Ret (outs, r') ∧ represents r' l' ∧
    entries l' = published calls ∧
    ∀ id, 0 ≤ id < n →
      ∃ c, positions l' !! Z.to_nat id = Some c ∧
        stream id outs = take (Z.to_nat (c + 1)) (published calls).
Proof.
  intros Hnew Hmax Hsmall Hin. pose proof (len_nonneg (published calls)) as Hn.
  assert (represents r (new_log sz (Z.to_nat n))) as Hr
    by (apply ring_new_represents; [int64_lia|done]).
  destruct (within_admitted calls (new_log sz (Z.to_nat n))) as (outs & l' & Hrun);
    simpl; try done; try lia.
  { apply Forall_replicate. lia. }
  destruct (run_calls_refines _ _ _ _ _ Hr Hrun) as (r' & HR & Hr').
  destruct (run_log_entries _ _ _ _ Hrun) as [Hes _]. simpl in Hes.
  exists outs, r', l'. split_and!; [done..|].
  intros id Hid.
  destruct (run_log_stream calls _ outs l' id (-1) Hrun) as (c & Hc & _ & _ & Hs);
    [lia|simpl; apply lookup_replicate; lia|lia|].
  exists c. split; [done|].
  rewrite Hs, Hes. unfold segment. simpl. do 2 f_equal; lia.
Qed.

End workload_contract.

(** ** The ring of src/lmax.go on a small workload *)

Section workload_ring.
Context {V : Type}.
Implicit Types (rb : RingBuffer V) (calls : list (call V)).
Implicit Types (outs : list (Z * list (option V))) (id c n sz : Z).

(** From a new ring: the schedule runs, and every consumer has received
    the first [cursor + 1] items published. *)
Lemma within_run_ring calls sz n rb :
  NewRingBuffer sz n = Ret rb → sz ≤ int64_max →
  len (published calls) < sz →
  within calls 0 (replicate (Z.to_nat n) (-1)) →
  ∃ outs rb', run_ring calls rb = Ret (outs, rb') ∧ wf rb' ∧
    writeCursor rb' = len (published calls) ∧
    ∀ id, 0 ≤ id < n →
      ∃ c, readCursors rb' !! Z.to_nat id = Some c ∧
        stream id outs = take (Z.to_nat (c + 1)) (published calls).
Proof.
  intros Hnew Hmax Hsmall Hin.
  destruct (within_run_calls (R := RingBuffer V) calls sz n rb)
    as (outs & rb' & l' & HR & [Hwf Hrepr] & Hes & Hst); [exact Hnew|done..|].
  rewrite run_calls_ring in HR. destruct Hrepr as (_ & Hw & Hps & _).
  exists outs, rb'. split_and!; [done..|by rewrite Hw, Hes|].
  intros id Hid. rewrite Hps. by apply Hst.
Qed.

(** A workload of fewer items than the ring has slots, in which no
    [Get] asks for more than is published when it runs, is served as a
    broadcast: whatever the order of the calls and the sizes of the
    batches, every consumer has received exactly the first [cursor + 1]
    items published, in order, each once. *)
Theorem small_workload_in_order calls sz n rb :
  NewRingBuffer sz n = Ret rb → sz ≤ int64_max →
  len (published calls) < sz →
  within calls 0 (replicate (Z.to_nat n) (-1)) →
  ∃ outs rb', run_ring calls rb = Ret (outs, rb') ∧ wf rb' ∧
    writeCursor rb' = len (published calls) ∧
    ∀ id, 0 ≤ id < n →
      ∃ c, readCursors rb' !! Z.to_nat id = Some c ∧
        stream id outs = take (Z.to_nat (c + 1)) (published calls).
Proof. apply within_run_ring. Qed.

End workload_ring.

(** A workload of three items for the ring of four slots and two
    consumers. *)
Definition calls3 : list (call Z) :=
  [CallPut [Some 1; Some 2]; CallGet 1 0; CallGet 2 1; CallPut [Some 3];
   CallGet 2 0; CallGet 0 1].

Lemma calls3_within : within calls3 0 (replicate (Z.to_nat 2) (-1)).
Proof. by vm_compute. Qed.

Lemma small_workload_in_order_witness :
  ∃ outs rb', run_ring calls3 ring0 = Ret (outs, rb') ∧ wf rb' ∧
    writeCursor rb' = len (published calls3) ∧
    ∀ id, 0 ≤ id < 2 →
      ∃ c, readCursors rb' !! Z.to_nat id = Some c ∧
        stream id outs = take (Z.to_nat (c + 1)) (published calls3).
Proof.
  apply (small_workload_in_order calls3 4 2 ring0); [reflexivity|done|done|].
  apply calls3_within.
Defined.
