(* ===== verification/Harness.v ===== *)
(** * The harness: Producer, Consumer and main

    [Producer], [Consumer] and [main] of src/lmax.go, written against
    the interface [Ring] of [Contract], the three operations the
    harness calls; what the harness delivers is proved from the laws
    of the interface ([RingLaws]), for every ring that has them.  The
    goroutines do not interleave here: [Consumer] takes the number of
    times its [select] finds the stop channel open, and [main] a
    schedule that says in which order the calls of the goroutines run.
    The theorems say what [Consumer] prints, when the harness delivers
    every item in order to every consumer, and what the demonstration of
    [main] prints. *)

From stdpp Require Import prelude.
From S2P Require Import Prelude GoInt GoSlice RingBuffer RingLog Contract Workload.

(** ** Producer and Consumer *)

Section harness.
Context {V R : Type} `{!Ring V R}.

(** What the harness prints. *)
Inductive event : Type :=
| Consumed (id : Z) (data : V)
| Stopping (id : Z).

Definition Producer (rb : R) (data : list (option V)) : outcome R :=
  ring_put data rb.

(** [for _, data := range results { if data != nil { Printf ... } }] *)
Definition report (id : Z) (results : list (option V)) : list event :=
  omap (λ data, Consumed id <$> data) results.

(** One turn of the loop of [Consumer] through the [default] branch of
    its [select]: a [Get] and the report of its results. *)
Definition consumer_turn (rb : R) (id batchSize : Z) : outcome (list event * R) :=
  '(results, rb') ← ring_get batchSize id rb;
  Ret (report id results, rb').

(** The loop of [Consumer]; [turns] is the number of times [select]
    takes the [default] branch before it finds the stop channel
    closed. *)
Fixpoint consumer_loop (turns : nat) (rb : R) (id batchSize : Z)
    : outcome (list event * R) :=
  match turns with
  | O => Ret ([Stopping id], rb)
  | S turns' =>
      '(evs0, rb') ← consumer_turn rb id batchSize;
      '(evs, rb'') ← consumer_loop turns' rb' id batchSize;
      Ret (evs0 ++ evs, rb'')
  end.

Definition Consumer (turns : nat) (rb : R) (id batchSize : Z)
    : outcome (list event * R) :=
  _ ← make (None : option V) batchSize;
  consumer_loop turns rb id batchSize.

(** ** main *)

(** One call of a goroutine of [main]: the next [Producer] call of the
    main goroutine, or one turn of the loop of consumer [id]. *)
Inductive action : Type :=
| Produce
| Turn (id : Z).

(** The calls of [main] in the order of the schedule: [batches] are the
    arguments of the [Producer] calls still to come, [batchSize] the
    batch size of the consumers.  A [Produce] after the last batch does
    nothing. *)
Fixpoint run_schedule (sched : list action) (batches : list (list (option V)))
    (batchSize : Z) (rb : R) : outcome (list event * R) :=
  match sched with
  | [] => Ret ([], rb)
  | Produce :: sched' =>
      match batches with
      | [] => run_schedule sched' [] batchSize rb
      | data :: batches' =>
          rb' ← Producer rb data;
          run_schedule sched' batches' batchSize rb'
      end
  | Turn id :: sched' =>
      '(evs0, rb') ← consumer_turn rb id batchSize;
      '(evs, rb'') ← run_schedule sched' batches batchSize rb';
      Ret (evs0 ++ evs, rb'')
  end.

(** The payloads that are not [nil]. *)
Definition non_nil (results : list (option V)) : list V :=
  omap (λ data, data) results.

(** What consumer [id] printed. *)
Definition printed (id : Z) (evs : list event) : list V :=
  omap (λ e, match e with
             | Consumed id' data => if decide (id' = id) then Some data else None
             | Stopping _ => None
             end) evs.

End harness.

Arguments event V : clear implicits.

(** [main]: a ring of 10 slots for 3 consumers of batches of 2, and four
    calls of [Producer] with five consecutive numbers each; when the
    schedule is over the stop channel is closed and the consumers
    stop. *)
Definition main_batches : list (list (option Z)) :=
  (λ i, (λ k, Some (i + k)) <$> [0; 1; 2; 3; 4]) <$> [0; 5; 10; 15].

Definition main (sched : list action) : outcome (list (event Z) * RingBuffer Z) :=
  ringBuffer ← ring_new 10 3;
  '(evs, rb) ← run_schedule sched main_batches 2 ringBuffer;
  Ret (evs ++ [Stopping 0; Stopping 1; Stopping 2], rb).

(** ** Consumer against the interface *)

Section consumer_lemmas.
Context {V R : Type} `{!Ring V R}.
Implicit Types (rb : R) (id b : Z) (turns : nat) (evs : list (event V)).

Lemma report_nil id : report (V:=V) id [] = [].
Proof. done. Qed.

Lemma report_app id (res1 res2 : list (option V)) :
  report id (res1 ++ res2) = report id res1 ++ report id res2.
Proof. unfold report. by rewrite omap_app. Qed.

Lemma printed_app id evs1 evs2 :
  printed id (evs1 ++ evs2) = printed id evs1 ++ printed id evs2.
Proof. unfold printed. by rewrite omap_app. Qed.

(** A consumer prints the payloads that are not [nil], in order. *)
Lemma printed_report id (res : list (option V)) :
  printed id (report id res) = non_nil res.
Proof.
  induction res as [|[v|] res IH]; simpl; [done| |done].
  rewrite decide_True by done. simpl. by f_equal.
Qed.

Lemma printed_report_ne id id' (res : list (option V)) :
  id' ≠ id → printed id (report id' res) = [].
Proof.
  intros Hne. induction res as [|[v|] res IH]; simpl; [done| |done].
  by rewrite decide_False.
Qed.

(** With the stop channel closed at its first [select] the consumer
    prints that it stops and leaves the ring alone. *)
Lemma Consumer_0 rb id b : 0 ≤ b → Consumer 0 rb id b = Ret ([Stopping id], rb).
Proof. intros Hb. unfold Consumer. by rewrite make_Ret. Qed.

Lemma Consumer_bad_batch turns rb id b :
  b < 0 → Consumer turns rb id b = Panic MakeSliceLen.
Proof. intros Hb. unfold Consumer. by rewrite make_Panic. Qed.

(** A [Get] that does not return keeps the consumer from its [select]:
    the stop channel is never looked at again. *)
Lemma consumer_loop_Spin turns rb id b :
  ring_get b id rb = Spin → consumer_loop (S turns) rb id b = Spin.
Proof. intros HG. simpl. unfold consumer_turn. by rewrite HG. Qed.

End consumer_lemmas.

(** ** The harness as a schedule of calls *)

Section harness_ring.
Context {V R : Type} `{!Ring V R}.
Implicit Types (r : R) (sched : list action) (b id : Z).
Implicit Types (batches : list (list (option V))).
Implicit Types (outs : list (Z * list (option V))).

(** The calls on the ring a schedule of the harness makes. *)
Fixpoint calls_of (sched : list action) (batches : list (list (option V)))
    (batchSize : Z) : list (call V) :=
  match sched with
  | [] => []
  | Produce :: sched' =>
      match batches with
      | [] => calls_of sched' [] batchSize
      | data :: batches' => CallPut data :: calls_of sched' batches' batchSize
      end
  | Turn id :: sched' => CallGet batchSize id :: calls_of sched' batches batchSize
  end.

(** What the consumers print of the results of the [Get]s. *)
Definition reports (outs : list (Z * list (option V))) : list (event V) :=
  outs ≫= λ '(id, res), report id res.

Lemma run_schedule_run_calls sched batches b r :
  run_schedule sched batches b r =
    '(outs, r') ← run_calls (calls_of sched batches b) r; Ret (reports outs, r').
Proof.
  revert batches r. induction sched as [|[|id] sched IH]; intros batches r; simpl.
  - done.
  - destruct batches as [|data batches]; [apply IH|]. simpl. unfold Producer.
    destruct (ring_put data r) as [r'| |]; go_step; [apply IH|done..].
  - unfold consumer_turn.
    destruct (ring_get b id r) as [[res r']| |]; go_step; [|done..].
    rewrite IH. destruct (run_calls _ r') as [[outs r'']| |]; go_step; done.
Qed.

(** A consumer prints the payloads of its stream that are not [nil]. *)
Lemma printed_reports id outs : printed id (reports outs) = non_nil (stream id outs).
Proof.
  induction outs as [|[id' res] outs IH]; [done|].
  change (reports ((id', res) :: outs)) with (report id' res ++ reports outs).
  rewrite printed_app, IH. simpl. case_decide as Hid.
  - subst id'. rewrite printed_report. unfold non_nil. by rewrite omap_app.
  - by rewrite printed_report_ne.
Qed.

End harness_ring.

(** ** The demonstration and the test *)

(** [k] rounds in which each of the three consumers of [main] takes one
    turn. *)
Definition rounds (k : nat) : list action :=
  mjoin (replicate k [Turn 0; Turn 1; Turn 2]).

(** A schedule of [main] in which the consumers keep up with the
    producer: they read what a [Producer] call published before the next
    call, and ask once more after the second call. *)
Definition sched_demo : list action :=
  Produce :: rounds 2 ++ Produce :: rounds 4 ++ Produce :: rounds 3 ++
  Produce :: rounds 4.

(** What consumer [id] prints when [main] runs under a schedule. *)
Definition main_prints (sched : list action) (id : Z) : option (list Z) :=
  match main sched with
  | Ret (evs, _) => Some (printed id evs)
  | _ => None
  end.

(** [TestBasicFunctionality] of src/lmax_test.go: ten [Producer] calls
    of one item, then one [Get] of five by each of the two consumers, in
    the order [order]; the test passes when both results have five
    items. *)
Definition TestBasicFunctionality (order : list Z) : outcome bool :=
  ringBuffer ← ring_new 10 2;
  '(_, rb) ← run_schedule (replicate 10 Produce)
               ((λ i, [Some (Z.of_nat i)]) <$> seq 0 10) 5 ringBuffer;
  '(outs, _) ← run_ring ((λ id, CallGet 5 id) <$> order) rb;
  Ret (forallb (λ '(_, dataBatch), bool_decide (len dataBatch = 5)) outs).

(** ** The theorems *)

Section harness_theorems.
Context {V R : Type} `{!Ring V R} `{!RingLaws V R}.
Implicit Types (r : R) (sched : list action) (b id n sz : Z).
Implicit Types (batches : list (list (option V))).

(** C29: the harness on any ring that keeps the contract.  A workload of
    the harness that publishes fewer items than the ring has slots, and
    in which no turn of a consumer asks for more than is published, is
    served as a broadcast: whatever the schedule, the ring represents
    the log of everything published and every consumer has printed the
    first [position + 1] items published that are not [nil], in
    order. *)
Theorem harness_delivers_in_order sched batches b sz n r :
  ring_new sz n = Ret r → sz ≤ int64_max →
  len (published (calls_of sched batches b)) < sz →
  within (calls_of sched batches b) 0 (replicate (Z.to_nat n) (-1)) →
  ∃ evs r' l', run_schedule sched batches b r = Ret (evs, r') ∧
    represents r' l' ∧ entries l' = published (calls_of sched batches b) ∧
    ∀ id, 0 ≤ id < n →
      ∃ c, positions l' !! Z.to_nat id = Some c ∧
        printed id evs =
          non_nil (take (Z.to_nat (c + 1)) (published (calls_of sched batches b))).
Proof.
  intros Hnew Hmax Hsmall Hin.
  destruct (within_run_calls _ sz n r Hnew Hmax Hsmall Hin)
    as (outs & r' & l' & Hrun & Hr' & Hes & Hstream).
  exists (reports outs), r', l'. rewrite run_schedule_run_calls, Hrun.
  split_and!; [done..|].
  intros id Hid. destruct (Hstream id Hid) as (c & Hc & Hs).
  exists c. by rewrite printed_reports, Hs.
Qed.

End harness_theorems.

(** [main] under a schedule in which the three consumers keep up
    with the producer: every consumer prints 0 to 9, then 0 again, 11 to
    14, 5 again, 16 to 19 and at last 10; 15 is never printed. *)
Example main_demo_prints :
  ∀ id, id ∈ [0; 1; 2] →
    main_prints sched_demo id =
      Some [0; 1; 2; 3; 4; 5; 6; 7; 8; 9; 0; 11; 12; 13; 14; 5; 16; 17; 18; 19; 10].
Proof.
  intros id Hid.
  repeat (apply elem_of_cons in Hid as [->|Hid]; [by vm_compute|]).
  by apply elem_of_nil in Hid.
Qed.

(** [TestBasicFunctionality] passes in both orders of the two
    [Get]s. *)
Example TestBasicFunctionality_passes :
  TestBasicFunctionality [0; 1] = Ret true ∧ TestBasicFunctionality [1; 0] = Ret true.
Proof. split; by vm_compute. Qed.

(** ** The theorems at concrete inputs *)

Lemma harness_delivers_in_order_witness :
  ∃ evs rb' l', run_schedule [Produce; Turn 0; Turn 1; Produce; Turn 0]
      [[Some 1; Some 2]; [Some 3]] 1 ring0 = Ret (evs, rb') ∧
    ring_represents rb' l' ∧ entries l' = [Some 1; Some 2; Some 3] ∧
    ∀ id, 0 ≤ id < 2 →
      ∃ c, positions l' !! Z.to_nat id = Some c ∧
        printed id evs = non_nil (take (Z.to_nat (c + 1)) [Some 1; Some 2; Some 3]).
Proof.
  refine (harness_delivers_in_order (R := RingBuffer Z)
            [Produce; Turn 0; Turn 1; Produce; Turn 0]
            [[Some 1; Some 2]; [Some 3]] 1 4 2 ring0 _ _ _ _);
    [reflexivity|done|done|by vm_compute].
Defined.
