(* ===== verification/Threads.v ===== *)
(** * The calls cut at their atomic operations

    A call of [Put] or [Get] of src/lmax.go as a thread that takes one
    step per access to the shared ring: the fetch-and-add, each store of
    a payload, each store of a flag, each load of the write cursor, of
    the barrier, of a flag, of a payload and of a read cursor, each store
    of a cursor and of the barrier.  [thread_step] is what one such step
    does to the thread and to the ring.  Run alone to its end ([solo]) a
    thread computes what the call computes in [RingBuffer]: the
    theorems of this file.  [Concurrent] interleaves the steps of several
    threads. *)

From stdpp Require Import prelude.
From S2P Require Import Prelude GoInt GoSlice RingBuffer.

Section thread_defs.
Context {V : Type}.
Local Abbreviation iface := (option V).

(** The locals of a call of [Get]: the two arguments, the loop counter
    [i] (which [index] equals), [nextRead] and the payloads copied into
    [results] so far. *)
Record frame : Type := mkFrame {
  f_batchSize : Z;
  f_consumerId : Z;
  f_i : Z;
  f_nextRead : Z;
  f_results : list iface;
}.

(** Where a thread is.  Each constructor is the point before one access
    to the ring; its arguments are the locals that are live there. *)
Inductive thread : Type :=
| Idle
| PutCall (data : list iface)
| PutWrite (data : list iface) (nextWrite : Z)
| PutFlag (d : iface) (data : list iface) (nextWrite : Z)
| PutDone
| GetCall (batchSize consumerId : Z)
| GetLoop (g : frame)
| GetGate (g : frame)
| GetAvail (g : frame)
| GetCopy (g : frame)
| GetStore (g : frame) (v : iface)
| GetSleep (g : frame)
| GetMin (g : frame)
| GetScan (g : frame) (minReadCursor : Z) (k : nat)
| GetBarrier (g : frame) (minReadCursor : Z)
| GetDone (g : frame)
| Crashed (p : panic).

(** The locals after an item was copied: lines 61 to 63. *)
Definition advance (g : frame) (v : iface) : frame :=
  mkFrame (f_batchSize g) (f_consumerId g) (f_i g + 1) (add64 (f_nextRead g) 1)
    (f_results g ++ [v]).

(** A step that panics ends the thread; the ring is as it was. *)
Definition settle (t : thread) (rb : RingBuffer V)
    (o : outcome (thread * RingBuffer V)) : thread * RingBuffer V :=
  match o with
  | Ret x => x
  | Panic p => (Crashed p, rb)
  | Spin => (t, rb)
  end.

(** One step of a thread on the ring; [None] when the thread has no
    step to take. *)
Definition thread_step (t : thread) (rb : RingBuffer V)
    : option (thread * RingBuffer V) :=
  match t with
  | Idle | Crashed _ => None
  | PutCall data =>
      (* line 37 *)
      let n := int64_of_int (len data) in
      let cursor := add64 (writeCursor rb) n in
      Some (PutWrite data (sub64 cursor n), set_writeCursor cursor rb)
  | PutWrite [] _ => Some (PutDone, rb)
  | PutWrite (d :: data) nextWrite =>
      (* line 39 *)
      Some (settle t rb (
        k ← rem64 nextWrite (int64_of_int (size rb));
        buf ← store (buffer rb) k d;
        Ret (PutFlag d data nextWrite, set_buffer buf rb)))
  | PutFlag d data nextWrite =>
      (* lines 40 and 41 *)
      Some (settle t rb (
        k ← rem64 nextWrite (int64_of_int (size rb));
        avail ← store (available rb) k 1;
        Ret (PutWrite data (add64 nextWrite 1), set_available avail rb)))
  | PutDone => Some (Idle, rb)
  | GetCall batchSize consumerId =>
      (* lines 50 to 52 *)
      Some (settle t rb (
        cursor ← index (readCursors rb) consumerId;
        _ ← make (None : iface) batchSize;
        Ret (GetLoop (mkFrame batchSize consumerId 0 (add64 cursor 1) []), rb)))
  | GetLoop g =>
      (* line 55 and the first load of line 56 *)
      if decide (f_i g < f_batchSize g) then
        if decide (f_nextRead g ≤ writeCursor rb) then Some (GetGate g, rb)
        else Some (GetMin g, rb)
      else Some (GetMin g, rb)
  | GetGate g =>
      (* line 57 *)
      if decide (sub64 (f_nextRead g) (readBarrier rb) < int64_of_int (size rb))
      then Some (GetAvail g, rb)
      else Some (GetMin g, rb)
  | GetAvail g =>
      (* line 58 *)
      Some (settle t rb (
        k ← rem64 (f_nextRead g) (int64_of_int (size rb));
        a ← index (available rb) k;
        Ret (if decide (a = 1) then GetCopy g else GetSleep g, rb)))
  | GetCopy g =>
      (* line 59 *)
      Some (settle t rb (
        k ← rem64 (f_nextRead g) (int64_of_int (size rb));
        v ← index (buffer rb) k;
        Ret (GetStore g v, rb)))
  | GetStore g v =>
      (* lines 60 to 63 *)
      Some (settle t rb (
        cursors ← store (readCursors rb) (f_consumerId g) (f_nextRead g);
        Ret (GetLoop (advance g v), set_readCursors cursors rb)))
  | GetSleep g => Some (GetLoop g, rb)
  | GetMin g =>
      (* line 73 *)
      Some (settle t rb (
        own ← index (readCursors rb) (f_consumerId g);
        Ret (GetScan g own 0, rb)))
  | GetScan g m k =>
      (* lines 74 to 78 *)
      match readCursors rb !! k with
      | Some cursor => Some (GetScan g (if decide (cursor < m) then cursor else m) (S k), rb)
      | None => Some (GetBarrier g m, rb)
      end
  | GetBarrier g m =>
      (* line 79 *)
      Some (GetDone g, set_readBarrier m rb)
  | GetDone _ => Some (Idle, rb)
  end.

(** The call has returned or the thread has panicked. *)
Definition finished (t : thread) : bool :=
  match t with
  | Idle | PutDone | GetDone _ | Crashed _ => true
  | _ => false
  end.

(** The thread alone on the ring, for at most [fuel] steps or until its
    call is over. *)
Fixpoint solo (fuel : nat) (t : thread) (rb : RingBuffer V) : thread * RingBuffer V :=
  match fuel with
  | O => (t, rb)
  | S fuel' =>
      if finished t then (t, rb)
      else match thread_step t rb with
           | Some (t', rb') => solo fuel' t' rb'
           | None => (t, rb)
           end
  end.

(** What a call of [Put] answered, if it is over. *)
Definition put_answer (s : thread * RingBuffer V) : option (outcome (RingBuffer V)) :=
  match s.1 with
  | PutDone => Some (Ret s.2)
  | Crashed p => Some (Panic p)
  | _ => None
  end.

(** What a call of [Get] answered, if it is over: [results[:index]]. *)
Definition get_answer (s : thread * RingBuffer V)
    : option (outcome (list iface * RingBuffer V)) :=
  match s.1 with
  | GetDone g => Some (Ret (f_results g, s.2))
  | Crashed p => Some (Panic p)
  | _ => None
  end.

End thread_defs.

Arguments frame V : clear implicits.
Arguments thread V : clear implicits.

(** ** Running a thread alone *)

Section solo_lemmas.
Context {V : Type}.
Implicit Types (t : thread V) (rb : RingBuffer V) (fuel n m : nat).

Lemma solo_finished fuel t rb : finished t = true → solo fuel t rb = (t, rb).
Proof. intros Hf. destruct fuel; [done|]. simpl. by rewrite Hf. Qed.

Lemma solo_S fuel t rb t' rb' :
  finished t = false → thread_step t rb = Some (t', rb') →
  solo (S fuel) t rb = solo fuel t' rb'.
Proof. intros Hf Hs. simpl. by rewrite Hf, Hs. Qed.

Lemma solo_step fuel t rb s :
  finished t = false → thread_step t rb = Some s →
  solo (S fuel) t rb = solo fuel s.1 s.2.
Proof. intros Hf Hs. destruct s. by apply solo_S. Qed.

(** A thread that is not finished has a step to take. *)
Lemma thread_step_Some t rb : finished t = false → is_Some (thread_step t rb).
Proof.
  destruct t as [|data|[|d data] nw| | | |g|g|g|g|g|g|g|g m k|g m|g|p]; try done;
    simpl; intros _; try done; repeat case_decide; try done.
  by destruct (readCursors rb !! k).
Qed.

(** [n + m] steps are [n] steps and then [m]. *)
Lemma solo_add n m t rb :
  solo (n + m) t rb = solo m (solo n t rb).1 (solo n t rb).2.
Proof.
  revert t rb. induction n as [|n IH]; intros t rb; [done|].
  destruct (finished t) eqn:Hf.
  { rewrite (solo_finished (S n + m) t rb Hf), (solo_finished (S n) t rb Hf).
    symmetry. by apply solo_finished. }
  destruct (thread_step_Some t rb Hf) as [[t' rb'] Hs].
  change (S n + m)%nat with (S (n + m)). by rewrite !(solo_S _ t rb t' rb').
Qed.

(** Once the call is over more fuel changes nothing. *)
Lemma solo_mono n m t rb :
  finished (solo n t rb).1 = true → (n ≤ m)%nat → solo m t rb = solo n t rb.
Proof.
  intros Hf Hle. replace m with (n + (m - n))%nat by lia.
  rewrite solo_add. destruct (solo n t rb) as [t' rb']. by apply solo_finished.
Qed.

(** A thread that reaches a state from which it never finishes never
    finishes. *)
Lemma solo_never n t rb :
  (∀ fuel, finished (solo fuel (solo n t rb).1 (solo n t rb).2).1 = false) →
  ∀ fuel, finished (solo fuel t rb).1 = false.
Proof.
  intros Hnever fuel. destruct (decide (fuel ≤ n)%nat) as [Hle|Hgt].
  - destruct (finished (solo fuel t rb).1) eqn:Hf; [|done].
    specialize (Hnever 0%nat). simpl in Hnever.
    by rewrite (solo_mono fuel n), Hf in Hnever.
  - replace fuel with (n + (fuel - n))%nat by lia. rewrite solo_add. apply Hnever.
Qed.

(** A thread that comes back to where it was never finishes. *)
Lemma solo_cycle n t rb :
  (0 < n)%nat → finished t = false → solo n t rb = (t, rb) →
  ∀ fuel, finished (solo fuel t rb).1 = false.
Proof.
  intros Hn Ht Hcyc fuel. induction fuel as [fuel IH] using lt_wf_ind.
  destruct (decide (fuel < n)%nat) as [Hlt|Hge].
  - destruct (finished (solo fuel t rb).1) eqn:Hf; [|done].
    rewrite <- (solo_mono fuel n t rb Hf), Hcyc in Hf by lia. simpl in Hf. congruence.
  - replace fuel with (n + (fuel - n))%nat by lia. rewrite solo_add, Hcyc.
    apply IH. lia.
Qed.

End solo_lemmas.

(** A step through [settle], and the end of a run at a panic. *)
Ltac settle_step := go_step; cbn [settle fst snd].
Ltac solo_crash := by rewrite solo_finished.

(** ** Put alone *)

Section solo_put.
Context {V : Type}.
Implicit Types (rb : RingBuffer V) (data : list (option V)) (d : option V).

(** The loop of [Put], two steps per item and one to leave the loop. *)
Lemma solo_put_loop data nw rb :
  put_answer (solo (2 * length data + 1) (PutWrite data nw) rb)
  = Some (put_loop data nw rb).
Proof.
  revert nw rb. induction data as [|d data IH]; intros nw rb; [done|].
  replace (2 * length (d :: data) + 1)%nat with (S (S (2 * length data + 1)))
    by (simpl; lia).
  rewrite (solo_step _ (PutWrite (d :: data) nw) rb _ eq_refl eq_refl).
  simpl put_loop.
  destruct (rem64 nw _) as [k| |] eqn:Hk; settle_step;
    [|solo_crash|by apply rem64_not_Spin in Hk].
  destruct (store (buffer rb) k d) as [buf| |] eqn:Hb; settle_step;
    [|solo_crash|by apply store_not_Spin in Hb].
  rewrite (solo_step _ (PutFlag d data nw) _ _ eq_refl eq_refl).
  cbn [size set_buffer available]. rewrite Hk. settle_step.
  destruct (store (available rb) k 1) as [avail| |] eqn:Ha; settle_step;
    [|solo_crash|by apply store_not_Spin in Ha].
  apply IH.
Qed.

Lemma solo_Put data rb :
  put_answer (solo (2 * length data + 2) (PutCall data) rb) = Some (Put data rb).
Proof.
  replace (2 * length data + 2)%nat with (S (2 * length data + 1)) by lia.
  rewrite (solo_step _ (PutCall data) rb _ eq_refl eq_refl). apply solo_put_loop.
Qed.

End solo_put.

(** ** Get alone: the scan for the least cursor *)

Section solo_scan.
Context {V : Type}.
Implicit Types (rb : RingBuffer V) (g : frame V) (m : Z) (k : nat).

(** The scan from index [k] on: one step per cursor left, one to leave
    the loop and one to store the barrier. *)
Lemma solo_scan g m k rb :
  solo (S (S (length (readCursors rb) - k))) (GetScan g m k) rb =
    (GetDone g, set_readBarrier (min_cursor m (drop k (readCursors rb))) rb).
Proof.
  remember (length (readCursors rb) - k)%nat as n eqn:Hn.
  revert m k Hn. induction n as [|n IH]; intros m k Hn.
  - rewrite (solo_S _ (GetScan g m k) rb (GetBarrier g m) rb eq_refl)
      by (simpl; rewrite lookup_ge_None_2; [done|lia]).
    rewrite drop_ge by lia. done.
  - destruct (lookup_lt_is_Some_2 (readCursors rb) k) as [c Hc]; [lia|].
    rewrite (solo_S _ (GetScan g m k) rb
               (GetScan g (if decide (c < m) then c else m) (S k)) rb eq_refl)
      by (simpl; by rewrite Hc).
    rewrite (drop_S _ c k Hc). rewrite IH by lia. done.
Qed.

(** What [Get] does after its loop: lines 73 to 81. *)
Definition get_tail (g : frame V) (rb : RingBuffer V)
    : outcome (list (option V) * RingBuffer V) :=
  own ← index (readCursors rb) (f_consumerId g);
  Ret (f_results g, set_readBarrier (min_cursor own (readCursors rb)) rb).

Lemma solo_min g rb :
  get_answer (solo (length (readCursors rb) + 3) (GetMin g) rb) = Some (get_tail g rb).
Proof.
  replace (length (readCursors rb) + 3)%nat
    with (S (S (S (length (readCursors rb) - 0)))) by lia.
  rewrite (solo_step _ (GetMin g) rb _ eq_refl eq_refl). unfold get_tail.
  destruct (index (readCursors rb) _) as [own| |] eqn:Hown; settle_step;
    [|solo_crash|by apply index_not_Spin in Hown].
  by rewrite solo_scan.
Qed.

End solo_scan.

(** Inversion of a step: the thread panicked and the ring is as it was,
    or every access of the step returned; the equations of the accesses
    are left in the context. *)
Lemma settle_inv {V} (t : thread V) rb o t' rb' :
  settle t rb o = (t', rb') →
  o = Ret (t', rb') ∨ (∃ p, o = Panic p ∧ t' = Crashed p ∧ rb' = rb) ∨
  (o = Spin ∧ t' = t ∧ rb' = rb).
Proof.
  destruct o as [[t0 rb0]|p|]; simpl; intros [= <- <-];
    [by left|right; left; by exists p|by right; right].
Qed.

Ltac step_inv H :=
  try discriminate H; apply (inj Some) in H;
  first
    [ apply settle_inv in H as [H|[(? & _ & -> & ->)|(_ & -> & ->)]];
      [ repeat (let x := fresh "x" in let E := fresh "E" in
                apply bind_Ret_inv in H as (x & E & H));
        injection H as <- <- | .. ]
    | injection H as <- <- ].

(** ** What no step changes *)

Section shape.
Context {V : Type}.
Implicit Types (t : thread V) (rb : RingBuffer V).

(** The size, the lengths of the three slices and the field
    [writeBarrier] of two rings are the same. *)
Definition same_shape (rb rb' : RingBuffer V) : Prop :=
  size rb' = size rb ∧ length (buffer rb') = length (buffer rb) ∧
  length (available rb') = length (available rb) ∧
  length (readCursors rb') = length (readCursors rb) ∧
  writeBarrier rb' = writeBarrier rb.

#[export] Instance same_shape_refl : Reflexive same_shape.
Proof. by intros rb. Qed.

#[export] Instance same_shape_trans : Transitive same_shape.
Proof.
  intros rb1 rb2 rb3 (? & ? & ? & ? & ?) (? & ? & ? & ? & ?).
  unfold same_shape. split_and!; congruence.
Qed.

Lemma store_length {A} (l l' : list A) i x : store l i x = Ret l' → length l' = length l.
Proof. intros [_ ->]%store_Ret_inv. by rewrite length_insert. Qed.

Lemma thread_step_shape t rb t' rb' :
  thread_step t rb = Some (t', rb') → same_shape rb rb'.
Proof.
  destruct t as [|data|[|d data] nw|d data nw| |b id|g|g|g|g|g v|g|g|g m k|g m|g|p];
    simpl; repeat case_decide; try destruct (readCursors rb !! k);
    intros Hs; step_inv Hs; try done;
    repeat match goal with E : store _ _ _ = Ret _ |- _ => apply store_length in E end;
    by unfold same_shape.
Qed.

Lemma solo_shape fuel t rb : same_shape rb (solo fuel t rb).2.
Proof.
  revert t rb. induction fuel as [|fuel IH]; intros t rb; [done|].
  simpl. destruct (finished t); [done|].
  destruct (thread_step t rb) as [[t' rb']|] eqn:Hs; [|done].
  etrans; [by eapply thread_step_shape|apply IH].
Qed.

End shape.

(** ** Get alone: the polling loop *)

Section solo_get.
Context {V : Type}.
Implicit Types (rb : RingBuffer V) (g : frame V) (k n fuel : nat) (b id : Z).

(** One pass of the loop: what [get_iter] answers is where the thread
    is five steps later (four on a retry, one or two on a break). *)
Lemma iter_steps g rb :
  f_i g < f_batchSize g →
  match get_iter (f_consumerId g) (f_nextRead g) rb with
  | Ret (Advance v rb') => solo 5 (GetLoop g) rb = (GetLoop (advance g v), rb')
  | Ret Retry => solo 4 (GetLoop g) rb = (GetLoop g, rb)
  | Ret Break => ∃ n, (0 < n ≤ 2)%nat ∧ solo n (GetLoop g) rb = (GetMin g, rb)
  | Panic p => solo 5 (GetLoop g) rb = (Crashed p, rb)
  | Spin => False
  end.
Proof.
  intros Hi. unfold get_iter, can_read.
  destruct (decide (f_nextRead g ≤ writeCursor rb)) as [Hw|Hw].
  2:{ rewrite decide_False by tauto. exists 1%nat. split; [lia|].
      rewrite (solo_S _ (GetLoop g) rb (GetMin g) rb eq_refl); [done|].
      simpl. by rewrite decide_True, decide_False. }
  assert (∀ fuel, solo (S fuel) (GetLoop g) rb = solo fuel (GetGate g) rb) as Hloop.
  { intros fuel. apply solo_S; [done|]. simpl. by rewrite !decide_True. }
  destruct (decide (sub64 (f_nextRead g) (readBarrier rb) < int64_of_int (size rb)))
    as [Hg|Hg].
  2:{ rewrite decide_False by tauto. exists 2%nat. split; [lia|]. rewrite Hloop.
      rewrite (solo_S _ (GetGate g) rb (GetMin g) rb eq_refl); [done|].
      simpl. by rewrite decide_False. }
  rewrite decide_True by done. rewrite !Hloop.
  rewrite !(solo_S _ (GetGate g) rb (GetAvail g) rb eq_refl)
    by (simpl; by rewrite decide_True).
  rewrite !(solo_step _ (GetAvail g) rb _ eq_refl eq_refl).
  destruct (rem64 _ _) as [s| |] eqn:Hs; settle_step;
    [|solo_crash|by apply rem64_not_Spin in Hs].
  destruct (index (available rb) s) as [a| |] eqn:Ha; settle_step;
    [|solo_crash|by apply index_not_Spin in Ha].
  case_decide as Ha1; [|done].
  rewrite (solo_step _ (GetCopy g) rb _ eq_refl eq_refl). rewrite Hs. settle_step.
  destruct (index (buffer rb) s) as [v| |] eqn:Hv; settle_step;
    [|solo_crash|by apply index_not_Spin in Hv].
  rewrite (solo_step _ (GetStore g v) rb _ eq_refl eq_refl).
  destruct (store (readCursors rb) _ _) as [cs| |] eqn:Hc; settle_step;
    [done|solo_crash|by apply store_not_Spin in Hc].
Qed.

(** The loop: [get_loop] with [k] items still to read is where the
    thread is after at most [5 * k + 1] steps. *)
Lemma loop_steps k g rb :
  Z.to_nat (f_batchSize g - f_i g) = k →
  match get_loop k (f_consumerId g) (f_nextRead g) (f_results g) rb with
  | Ret (res, rb1) =>
      ∃ n g', (n ≤ 5 * k + 1)%nat ∧ solo n (GetLoop g) rb = (GetMin g', rb1) ∧
        f_results g' = res ∧ f_consumerId g' = f_consumerId g
  | Panic p => ∃ rb1, solo (5 * k) (GetLoop g) rb = (Crashed p, rb1)
  | Spin => ∀ fuel, finished (solo fuel (GetLoop g) rb).1 = false
  end.
Proof.
  revert g rb. induction k as [|k IH]; intros g rb Hk.
  { exists 1%nat, g. split_and!; try done.
    rewrite (solo_S _ (GetLoop g) rb (GetMin g) rb eq_refl); [done|].
    simpl. rewrite decide_False by lia. done. }
  pose proof (iter_steps g rb ltac:(lia)) as Hit. simpl get_loop.
  destruct (get_iter _ _ rb) as [[v rb'| |]|p|]; go_step; [| | | |done].
  - specialize (IH (advance g v) rb' ltac:(simpl; lia)). simpl in IH.
    destruct (get_loop k _ _ _ rb') as [[res rb1]|p|].
    + destruct IH as (n & g' & Hn & Hs & Hres & Hid). exists (5 + n)%nat, g'.
      split_and!; [lia| |done..]. by rewrite solo_add, Hit.
    + destruct IH as [rb1 Hs]. exists rb1.
      replace (5 * S k)%nat with (5 + 5 * k)%nat by lia. by rewrite solo_add, Hit.
    + apply (solo_never 5). by rewrite Hit.
  - by apply (solo_cycle 4); [lia| |].
  - destruct Hit as (n & Hn & Hs). exists n, g. split_and!; [lia|done..].
  - exists rb. rewrite (solo_mono 5 (5 * S k)); [done|by rewrite Hit|lia].
Qed.

Lemma get_answer_unfinished (s : thread V * RingBuffer V) :
  finished s.1 = false → get_answer s = None.
Proof. destruct s as [[] ?]; done. Qed.

Lemma get_answer_finished (s : thread V * RingBuffer V) o :
  get_answer s = Some o → finished s.1 = true.
Proof. destruct s as [[] ?]; done. Qed.

(** [Get] alone, when the call returns or panics. *)
Lemma solo_Get b id rb o :
  Get b id rb = o → o ≠ Spin →
  get_answer (solo (5 * Z.to_nat b + length (readCursors rb) + 5) (GetCall b id) rb)
  = Some o.
Proof.
  intros <- Ho. unfold Get in *.
  set (bound := (5 * Z.to_nat b + length (readCursors rb) + 5)%nat).
  replace bound with (S (bound - 1)) by lia.
  rewrite (solo_step _ (GetCall b id) rb _ eq_refl eq_refl).
  destruct (index (readCursors rb) id) as [c| |] eqn:Hc; settle_step;
    [|solo_crash|by apply index_not_Spin in Hc].
  destruct (make _ b) as [r| |] eqn:Hm; settle_step;
    [|solo_crash|by apply make_not_Spin in Hm].
  go_step in Ho.
  pose proof (loop_steps (Z.to_nat b) (mkFrame b id 0 (add64 c 1) []) rb
                ltac:(simpl; f_equal; lia)) as HL.
  cbn [f_batchSize f_consumerId f_i f_nextRead f_results] in HL.
  destruct (get_loop _ _ _ _ rb) as [[res rb1]|p|]; go_step; [| |done].
  - destruct HL as (n & g' & Hn & Hs & Hres & Hid).
    pose proof (solo_shape n (GetLoop (mkFrame b id 0 (add64 c 1) [])) rb) as Hsh.
    rewrite Hs in Hsh. destruct Hsh as (_ & _ & _ & Hlen & _). simpl in Hlen.
    set (m := (n + (length (readCursors rb1) + 3))%nat).
    assert (get_answer (solo m (GetLoop (mkFrame b id 0 (add64 c 1) [])) rb)
            = Some (get_tail g' rb1)) as Hans.
    { unfold m. rewrite solo_add, Hs. apply solo_min. }
    unfold get_tail in Hans. rewrite Hres, Hid in Hans.
    rewrite (solo_mono m); [done|by eapply get_answer_finished|lia].
  - destruct HL as [rb1 Hs]. rewrite (solo_mono (5 * Z.to_nat b)); [|..|lia];
      by rewrite Hs.
Qed.

(** [Get] alone, when the call polls for ever. *)
Lemma solo_Get_Spin b id rb fuel :
  Get b id rb = Spin → get_answer (solo fuel (GetCall b id) rb) = None.
Proof.
  intros HG. apply get_answer_unfinished. revert fuel. apply (solo_never 1).
  rewrite (solo_step _ (GetCall b id) rb _ eq_refl eq_refl). unfold Get in HG.
  destruct (index (readCursors rb) id) as [c| |] eqn:Hc; go_step in HG;
    [|discriminate HG|by apply index_not_Spin in Hc].
  destruct (make _ b) as [r| |] eqn:Hm; go_step in HG;
    [|discriminate HG|by apply make_not_Spin in Hm].
  settle_step.
  pose proof (loop_steps (Z.to_nat b) (mkFrame b id 0 (add64 c 1) []) rb
                ltac:(simpl; f_equal; lia)) as HL.
  cbn [f_batchSize f_consumerId f_i f_nextRead f_results] in HL.
  destruct (get_loop _ _ _ _ rb) as [[res rb1]|p|]; go_step in HG;
    [|discriminate HG|done].
  destruct (index (readCursors rb1) id) eqn:Hown; go_step in HG;
    [discriminate HG..|by apply index_not_Spin in Hown].
Qed.

End solo_get.

(** ** The theorems *)

Section thread_theorems.
Context {V : Type}.
Implicit Types (rb : RingBuffer V) (data : list (option V)) (b id : Z).

(** C22: a call of [Put] cut at its accesses to the ring and run alone
    answers what [Put] answers: after two steps per item and two more
    the thread has returned with the ring [Put] returns, or has
    panicked with the panic of [Put]. *)
Theorem solo_Put_agrees data rb :
  put_answer (solo (2 * length data + 2) (PutCall data) rb) = Some (Put data rb).
Proof. apply solo_Put. Qed.

(** C21: a call of [Get] cut at its accesses to the ring and run alone
    answers what [Get] answers, within five steps per item of the batch,
    one per read cursor and five more: the same results and ring when
    [Get] returns, the same panic when it panics. *)
Theorem solo_Get_agrees b id rb o :
  Get b id rb = o → o ≠ Spin →
  get_answer (solo (5 * Z.to_nat b + length (readCursors rb) + 5) (GetCall b id) rb)
  = Some o.
Proof. apply solo_Get. Qed.

(** A call of [Get] that polls for ever in [RingBuffer] never
    returns as a thread run alone, whatever the number of steps. *)
Theorem solo_Get_never_returns b id rb (fuel : nat) :
  Get b id rb = Spin → get_answer (solo fuel (GetCall b id) rb) = None.
Proof. apply solo_Get_Spin. Qed.

End thread_theorems.

(** ** The theorems at the ring of three items *)

Lemma ring3_Get : Get 2 0 ring3 = Ret ([Some 10; Some 20], ring3_read2).
Proof. by vm_compute. Qed.

Lemma ring3_Get_Spin : Get 4 1 ring3 = Spin.
Proof. by vm_compute. Qed.

Lemma solo_Get_agrees_witness :
  get_answer (solo (5 * Z.to_nat 2 + length (readCursors ring3) + 5) (GetCall 2 0) ring3)
  = Some (Ret ([Some 10; Some 20], ring3_read2)).
Proof. by apply (solo_Get_agrees 2 0 ring3 _ ring3_Get). Defined.

Lemma solo_Get_never_returns_witness :
  get_answer (solo 1000 (GetCall 4 1) ring3) = None.
Proof. apply (solo_Get_never_returns 4 1 ring3 1000 ring3_Get_Spin). Defined.
