(* ===== verification/Concurrent.v ===== *)
(** * Interleaved calls

    Goroutines as a pool of threads over one ring: a step of the system
    is a step of one thread ([Threads.thread_step]) or the start of a new
    call by an idle thread.  The system carries the log of the items
    claimed so far, in the order of the fetch-and-adds; nothing in the
    code reads it.

    The theorem of this file is about the first lap: as long as fewer
    items have been claimed than the ring has slots, in every
    interleaving of any number of producers and consumers every [Get]
    holds a run of consecutive entries of the log: the flag of a slot
    is set after its payload is written, so a consumer that finds the
    flag set finds the payload.  The departures after the first lap are
    in [Anomalies]; one that only an interleaving shows is at the end of
    this file. *)

From stdpp Require Import prelude.
From S2P Require Import Prelude GoInt GoSlice RingBuffer RingLog Threads.

Section system_defs.
Context {V : Type}.

(** The ring and the threads, and two logs that nothing in the code
    reads: the items claimed so far, and for every consumer what the
    calls of [Get] for it have returned so far. *)
Record system : Type := mkSystem {
  ring : RingBuffer V;
  threads : list (thread V);
  claimed : list (option V);
  delivered : list (list (option V));
}.

(** The thread at the start of a call. *)
Definition start (c : call V) : thread V :=
  match c with
  | CallPut data => PutCall data
  | CallGet b id => GetCall b id
  end.

(** What the next step of a thread claims: the fetch-and-add of [Put]
    claims the sequences of its items. *)
Definition claims (t : thread V) : list (option V) :=
  match t with
  | PutCall data => data
  | _ => []
  end.

(** What the next step of a thread hands to a consumer: the return of
    [Get] hands over [results[:index]]. *)
Definition deliver (t : thread V) (ds : list (list (option V)))
    : list (list (option V)) :=
  match t with
  | GetDone g => alter (λ d, d ++ f_results g) (Z.to_nat (f_consumerId g)) ds
  | _ => ds
  end.

(** One step of the system: an idle thread starts a call, or a thread
    takes a step of its call.  [may tid c] says which calls thread
    [tid] may start. *)
Inductive step_where (may : nat → call V → Prop) : system → system → Prop :=
| step_call s tid c :
    threads s !! tid = Some Idle → may tid c →
    step_where may s
      (mkSystem (ring s) (<[tid := start c]> (threads s)) (claimed s) (delivered s))
| step_thread s tid t t' rb' :
    threads s !! tid = Some t →
    thread_step t (ring s) = Some (t', rb') →
    step_where may s
      (mkSystem rb' (<[tid := t']> (threads s)) (claimed s ++ claims t)
         (deliver t (delivered s))).

(** Any thread may start any call. *)
Definition step : relation system := step_where (λ _ _, True).

(** [n] idle threads on a ring. *)
Definition init (rb : RingBuffer V) (n : nat) : system :=
  mkSystem rb (replicate n Idle) [] (replicate (length (readCursors rb)) []).

Definition reachable : relation system := rtc step.

(** A schedule: which thread moves, and the call it starts if it is
    idle.  A move that is not possible is skipped. *)
Definition move (s : system) (m : nat * option (call V)) : system :=
  match threads s !! m.1, m.2 with
  | Some Idle, Some c =>
      mkSystem (ring s) (<[m.1 := start c]> (threads s)) (claimed s) (delivered s)
  | Some t, _ =>
      match thread_step t (ring s) with
      | Some (t', rb') =>
          mkSystem rb' (<[m.1 := t']> (threads s)) (claimed s ++ claims t)
            (deliver t (delivered s))
      | None => s
      end
  | None, _ => s
  end.

Definition run (sched : list (nat * option (call V))) (s : system) : system :=
  foldl move s sched.

(** The moves that start the calls [may] allows only. *)
Definition may_move (may : nat → call V → Prop) (m : nat * option (call V)) : Prop :=
  match m.2 with Some c => may m.1 c | None => True end.

(** ** The invariant of the first lap *)

(** The items [vs] are the entries of the log from sequence [s] on. *)
Definition published_at (es : list (option V)) (s : Z) (vs : list (option V)) : Prop :=
  0 ≤ s ∧ ∀ (m : nat) v, vs !! m = Some v → es !! (Z.to_nat s + m)%nat = Some v.

(** The results of a call of [Get] are the entries before [nextRead]. *)
Definition results_ok (es : list (option V)) (g : frame V) : Prop :=
  published_at es (f_nextRead g - len (f_results g)) (f_results g).

(** What holds of a thread between two of its steps. *)
Definition thread_ok (rb : RingBuffer V) (es : list (option V)) (t : thread V) : Prop :=
  match t with
  | PutWrite data nw => published_at es nw data
  | PutFlag d data nw =>
      published_at es nw (d :: data) ∧ buffer rb !! Z.to_nat nw = Some d
  | GetLoop g | GetSleep g | GetMin g | GetScan g _ _ | GetBarrier g _ | GetDone g =>
      results_ok es g
  | GetGate g | GetAvail g => results_ok es g ∧ f_nextRead g ≤ len es
  | GetCopy g =>
      results_ok es g ∧ f_nextRead g ≤ len es ∧
      available rb !! Z.to_nat (f_nextRead g) = Some 1
  | GetStore g v => results_ok es g ∧ es !! Z.to_nat (f_nextRead g) = Some v
  | Idle | PutCall _ | PutDone | GetCall _ _ | Crashed _ => True
  end.

(** What holds of the ring while fewer items are claimed than it has
    slots: a slot whose flag is set holds the entry of its sequence. *)
Record ring_ok (rb : RingBuffer V) (es : list (option V)) : Prop := mk_ring_ok {
  ok_size : 0 < size rb ≤ int64_max;
  ok_lap : len es < size rb;
  ok_buffer : len (buffer rb) = size rb;
  ok_available : len (available rb) = size rb;
  ok_writeCursor : writeCursor rb = len es;
  ok_readCursors : Forall (λ c, -1 ≤ c ≤ len es) (readCursors rb);
  ok_flags : ∀ j : nat, available rb !! j = Some 1 →
               ∃ v, es !! j = Some v ∧ buffer rb !! j = Some v;
}.

(** What a step of one thread leaves true for the others: the log
    grows, a flag that is set stays set, and a slot that holds the entry
    of its sequence still holds it. *)
Record evolves (rb : RingBuffer V) (es : list (option V))
    (rb' : RingBuffer V) (es' : list (option V)) : Prop := mk_evolves {
  ev_log : es `prefix_of` es';
  ev_flags : ∀ j : nat, available rb !! j = Some 1 → available rb' !! j = Some 1;
  ev_buffer : ∀ (j : nat) d, buffer rb !! j = Some d → es !! j = Some d →
                buffer rb' !! j = Some d;
}.

Definition system_ok (s : system) : Prop :=
  ring_ok (ring s) (claimed s) ∧ Forall (thread_ok (ring s) (claimed s)) (threads s).

End system_defs.

Arguments system V : clear implicits.

(** ** The log and the threads *)

Section published.
Context {V : Type}.
Implicit Types (rb : RingBuffer V) (es vs data : list (option V)) (d v : option V).
Implicit Types (t : thread V) (g : frame V) (s nw : Z).

Lemma published_at_prefix es es' s vs :
  es `prefix_of` es' → published_at es s vs → published_at es' s vs.
Proof.
  intros [k ->] [Hs Hvs]. split; [done|]. intros m v Hm.
  apply lookup_app_l_Some. by apply Hvs.
Qed.

Lemma published_at_nil es s : 0 ≤ s → published_at es s [].
Proof. by split. Qed.

(** The first item and the rest. *)
Lemma published_at_cons es s d vs :
  published_at es s (d :: vs) →
  es !! Z.to_nat s = Some d ∧ s < len es ∧ published_at es (s + 1) vs.
Proof.
  intros [Hs Hvs]. pose proof (Hvs 0%nat d eq_refl) as Hd.
  rewrite Nat.add_0_r in Hd. split_and!; [done| |split; [lia|]].
  - apply lookup_lt_Some in Hd. unfold len. lia.
  - intros m v Hm. replace (Z.to_nat (s + 1) + m)%nat with (Z.to_nat s + S m)%nat by lia.
    by apply Hvs.
Qed.

(** One more item at the end. *)
Lemma published_at_snoc es s vs v :
  published_at es s vs → es !! Z.to_nat (s + len vs) = Some v →
  published_at es s (vs ++ [v]).
Proof.
  intros [Hs Hvs] Hv. split; [done|]. intros m w Hm.
  apply lookup_app_Some in Hm as [Hm|[Hlen Hm]]; [by apply Hvs|].
  apply list_lookup_singleton_Some in Hm as [Hm ->].
  replace (Z.to_nat s + m)%nat with (Z.to_nat (s + len vs)); [done|].
  unfold len. lia.
Qed.

(** The items a fetch-and-add claims are the end of the log. *)
Lemma published_at_claimed es data : published_at (es ++ data) (len es) data.
Proof.
  split; [apply len_nonneg|]. intros m v Hm.
  rewrite lookup_app_r by (unfold len; lia).
  replace (Z.to_nat (len es) + m - length es)%nat with m by (unfold len; lia). done.
Qed.

Lemma evolves_refl rb es : evolves rb es rb es.
Proof. by split. Qed.

(** What holds of a thread is not disturbed by a step of another. *)
Lemma thread_ok_stable rb es rb' es' t :
  evolves rb es rb' es' → thread_ok rb es t → thread_ok rb' es' t.
Proof.
  intros [Hlog Hflags Hbuf].
  pose proof (prefix_length _ _ Hlog) as Hlen.
  assert (∀ s vs, published_at es s vs → published_at es' s vs) as Hpub
    by (intros; by eapply published_at_prefix).
  destruct t; simpl; unfold results_ok; try done; try (by apply Hpub);
    unfold len in *.
  - intros [Hd Hb]. split; [by apply Hpub|].
    apply Hbuf; [done|]. by apply published_at_cons in Hd as [? _].
  - intros [? ?]. split; [by apply Hpub|lia].
  - intros [? ?]. split; [by apply Hpub|lia].
  - intros (? & ? & ?). split_and!; [by apply Hpub|lia|by apply Hflags].
  - intros [? Hv]. split; [by apply Hpub|]. by eapply prefix_lookup_Some.
Qed.

End published.

(** ** The steps that write to the ring *)

Section writes.
Context {V : Type}.
Implicit Types (rb : RingBuffer V) (es data : list (option V)) (d v : option V).
Implicit Types (s nw nr id m : Z).

(** In the first lap a sequence is its own slot. *)
Lemma ring_ok_slot rb es s :
  ring_ok rb es → 0 ≤ s < size rb → rem64 s (int64_of_int (size rb)) = Ret s.
Proof.
  intros [] Hs. rewrite int64_of_int_id by int64_lia.
  rewrite rem64_mod by lia. f_equal. apply Z.mod_small. lia.
Qed.

Lemma ring_ok_add1 rb es s : ring_ok rb es → -1 ≤ s ≤ len es → add64 s 1 = s + 1.
Proof. intros [] Hs. apply add64_exact. int64_lia. Qed.

(** The fetch-and-add of [Put]: the first claimed sequence is the length
    of the log before. *)
Lemma put_call_ok rb es data :
  ring_ok rb es → len (es ++ data) < size rb →
  let n := int64_of_int (len data) in
  let cursor := add64 (writeCursor rb) n in
  sub64 cursor n = len es ∧
  ring_ok (set_writeCursor cursor rb) (es ++ data) ∧
  evolves rb es (set_writeCursor cursor rb) (es ++ data).
Proof.
  intros [? ? ? ? Hw ? Hflags] Hlap. rewrite len_app in Hlap.
  pose proof (len_nonneg data). pose proof (len_nonneg es). simpl.
  rewrite int64_of_int_id, sub64_add64, add64_exact by int64_lia.
  split_and!; [done| |split; [by apply prefix_app_r|done..]].
  split; simpl; rewrite ?len_app; try done; try lia.
  - eapply Forall_impl; [done|]. simpl. lia.
  - intros j Hj. destruct (Hflags j Hj) as (v & Hv & Hb). exists v.
    split; [by apply lookup_app_l_Some|done].
Qed.

(** The store of a payload: the slot holds the entry of its sequence. *)
Lemma put_write_ok rb es nw d data :
  ring_ok rb es → published_at es nw (d :: data) →
  let rb' := set_buffer (<[Z.to_nat nw := d]> (buffer rb)) rb in
  ring_ok rb' es ∧ evolves rb es rb' es ∧ buffer rb' !! Z.to_nat nw = Some d.
Proof.
  intros [? ? ? ? ? ? Hflags] (Hd & Hlt & _)%published_at_cons. simpl.
  assert (Z.to_nat nw < length (buffer rb))%nat as Hin by (unfold len in *; lia).
  assert (∀ (j : nat) d', buffer rb !! j = Some d' → es !! j = Some d' →
            <[Z.to_nat nw := d]> (buffer rb) !! j = Some d') as Hkeep.
  { intros j d' Hb Hv. destruct (decide (j = Z.to_nat nw)) as [->|Hne].
    - rewrite list_lookup_insert_eq by done. congruence.
    - by rewrite list_lookup_insert_ne. }
  split_and!; [|by split|by apply list_lookup_insert_eq].
  split; simpl; try done; [unfold len; by rewrite length_insert|].
  intros j Hj. destruct (Hflags j Hj) as (v & Hv & Hb). exists v. eauto.
Qed.

(** The store of a flag, after the payload. *)
Lemma put_flag_ok rb es nw d data :
  ring_ok rb es → published_at es nw (d :: data) →
  buffer rb !! Z.to_nat nw = Some d →
  let rb' := set_available (<[Z.to_nat nw := 1]> (available rb)) rb in
  ring_ok rb' es ∧ evolves rb es rb' es.
Proof.
  intros [? ? ? ? ? ? Hflags] (Hd & Hlt & _)%published_at_cons Hb. simpl. split.
  - split; simpl; try done; [unfold len; by rewrite length_insert|].
    intros j Hj. destruct (decide (j = Z.to_nat nw)) as [->|Hne]; [by exists d|].
    rewrite list_lookup_insert_ne in Hj by done. by apply Hflags.
  - split; [done| |done]. simpl. intros j Hj.
    destruct (decide (j = Z.to_nat nw)) as [->|Hne].
    + apply list_lookup_insert_eq. by apply lookup_lt_Some in Hj.
    + by rewrite list_lookup_insert_ne.
Qed.

(** The store of a read cursor. *)
Lemma get_store_ok rb es id nr v :
  ring_ok rb es → es !! Z.to_nat nr = Some v → 0 ≤ nr →
  let rb' := set_readCursors (<[Z.to_nat id := nr]> (readCursors rb)) rb in
  ring_ok rb' es ∧ evolves rb es rb' es.
Proof.
  intros [] Hv Hnr. simpl. split; [|by split]. split; simpl; try done.
  apply Forall_insert; [done|]. apply lookup_lt_Some in Hv. unfold len. lia.
Qed.

(** The store of the barrier. *)
Lemma get_barrier_ok rb es m :
  ring_ok rb es → ring_ok (set_readBarrier m rb) es ∧ evolves rb es (set_readBarrier m rb) es.
Proof. intros []. by split; split. Qed.

End writes.

(** ** One step of one thread *)

Section thread_steps.
Context {V : Type}.
Implicit Types (rb : RingBuffer V) (es data : list (option V)) (d v : option V).
Implicit Types (t : thread V) (g : frame V).

(** What a step of thread [t] from the ring [rb] and the log [es] to the
    thread [t'] and the ring [rb'] has to establish. *)
Definition step_ok rb es t t' rb' : Prop :=
  ring_ok rb' (es ++ claims t) ∧ evolves rb es rb' (es ++ claims t) ∧
  thread_ok rb' (es ++ claims t) t'.

(** A step that claims nothing and leaves the ring alone. *)
Lemma unchanged_ok rb es t t' :
  claims t = [] → ring_ok rb es → thread_ok rb es t' → step_ok rb es t t' rb.
Proof.
  intros Hc Hok Ht. unfold step_ok. rewrite Hc, app_nil_r.
  split_and!; [done|apply evolves_refl|done].
Qed.

(** The sequence a call of [Get] is about to read is a slot of the
    first lap. *)
Lemma next_in_lap rb es g :
  ring_ok rb es → results_ok es g → f_nextRead g ≤ len es →
  0 ≤ f_nextRead g < size rb.
Proof.
  intros [] [Hs _] Hle. pose proof (len_nonneg (f_results g)). lia.
Qed.

Lemma step_ok_put rb es t t' rb' :
  ring_ok rb es → len (es ++ claims t) < size rb → thread_ok rb es t →
  (∃ data, t = PutCall data) ∨ (∃ data nw, t = PutWrite data nw) ∨
    (∃ d data nw, t = PutFlag d data nw) ∨ t = PutDone →
  thread_step t rb = Some (t', rb') → step_ok rb es t t' rb'.
Proof.
  intros Hok Hlap Ht [[data ->]|[(data & nw & ->)|[(d & data & nw & ->)| ->]]] Hs.
  - injection Hs as <- <-.
    destruct (put_call_ok rb es data Hok Hlap) as (Hnw & Hok' & Hev).
    split_and!; [done..|]. simpl. rewrite Hnw. apply published_at_claimed.
  - destruct data as [|d data]; simpl in Hs; step_inv Hs; try by apply unchanged_ok.
    pose proof (published_at_cons _ _ _ _ Ht) as (_ & Hlt & _).
    rewrite (ring_ok_slot rb es nw Hok) in E by (destruct Ht, Hok; lia).
    injection E as <-. apply store_Ret_inv in E0 as [_ ->].
    destruct (put_write_ok rb es nw d data Hok Ht) as (Hok' & Hev & Hb).
    unfold step_ok. simpl. rewrite app_nil_r. by split_and!.
  - simpl in Hs. destruct Ht as [Ht Hb]. step_inv Hs; try by apply unchanged_ok.
    pose proof (published_at_cons _ _ _ _ Ht) as (_ & Hlt & Hrest).
    rewrite (ring_ok_slot rb es nw Hok) in E by (destruct Ht, Hok; lia).
    injection E as <-. apply store_Ret_inv in E0 as [_ ->].
    destruct (put_flag_ok rb es nw d data Hok Ht Hb) as (Hok' & Hev).
    unfold step_ok. simpl. rewrite app_nil_r.
    rewrite (ring_ok_add1 rb es nw Hok) by (destruct Ht; lia). by split_and!.
  - injection Hs as <- <-. by apply unchanged_ok.
Qed.

End thread_steps.

Section get_steps.
Context {V : Type}.
Implicit Types (rb : RingBuffer V) (es : list (option V)) (v : option V).
Implicit Types (t : thread V) (g : frame V).

(** The steps of [Get] up to the test of the flag. *)
Lemma step_ok_get_enter rb es t t' rb' :
  ring_ok rb es → thread_ok rb es t →
  (∃ b id, t = GetCall b id) ∨ (∃ g, t = GetLoop g) ∨ (∃ g, t = GetGate g) ∨
    (∃ g, t = GetAvail g) →
  thread_step t rb = Some (t', rb') → step_ok rb es t t' rb'.
Proof.
  intros Hok Ht [(b & id & ->)|[[g ->]|[[g ->]|[g ->]]]] Hs; simpl in Hs.
  - step_inv Hs; try by apply unchanged_ok. apply unchanged_ok; [done..|].
    apply index_Ret in E as [_ Hc].
    pose proof (proj1 (Forall_lookup _ _) (ok_readCursors _ _ Hok) _ _ Hc) as Hx.
    simpl in Hx. apply published_at_nil. simpl.
    rewrite (ring_ok_add1 rb es x Hok Hx). unfold len. simpl. lia.
  - repeat case_decide; step_inv Hs; apply unchanged_ok; try done.
    split; [done|]. by rewrite <- (ok_writeCursor _ _ Hok).
  - case_decide; step_inv Hs; apply unchanged_ok; try done. by destruct Ht.
  - destruct Ht as [Hres Hle]. step_inv Hs; try by apply unchanged_ok.
    rewrite (ring_ok_slot rb es _ Hok) in E by by eapply next_in_lap.
    injection E as <-. apply index_Ret in E0 as [_ Ha].
    case_decide as H1; apply unchanged_ok; try done. by subst x0.
Qed.

(** The copy of the payload and the store of the cursor. *)
Lemma step_ok_get_copy rb es t t' rb' :
  ring_ok rb es → thread_ok rb es t →
  (∃ g, t = GetCopy g) ∨ (∃ g v, t = GetStore g v) →
  thread_step t rb = Some (t', rb') → step_ok rb es t t' rb'.
Proof.
  intros Hok Ht [[g ->]|(g & v & ->)] Hs; simpl in Hs.
  - destruct Ht as (Hres & Hle & Hflag). step_inv Hs; try by apply unchanged_ok.
    rewrite (ring_ok_slot rb es _ Hok) in E by by eapply next_in_lap.
    injection E as <-. apply index_Ret in E0 as [_ Hb].
    destruct (ok_flags _ _ Hok _ Hflag) as (v & Hv & Hb').
    apply unchanged_ok; try done. split; [done|]. congruence.
  - destruct Ht as [Hres Hv]. step_inv Hs; try by apply unchanged_ok.
    apply store_Ret_inv in E as [_ ->]. pose proof Hres as [Hs _].
    pose proof (lookup_lt_Some _ _ _ Hv) as Hlt.
    pose proof (len_nonneg (f_results g)) as Hn.
    destruct (get_store_ok rb es (f_consumerId g) (f_nextRead g) v Hok Hv) as [Hok' Hev];
      [lia|].
    unfold step_ok. simpl. rewrite app_nil_r. split_and!; [done..|].
    unfold results_ok. simpl.
    rewrite (ring_ok_add1 rb es _ Hok) by (unfold len; lia).
    rewrite len_app, len_cons, len_nil.
    replace (f_nextRead g + 1 - (len (f_results g) + (1 + 0)))
      with (f_nextRead g - len (f_results g)) by lia.
    apply published_at_snoc; [done|].
    by replace (f_nextRead g - len (f_results g) + len (f_results g))
      with (f_nextRead g) by lia.
Qed.

(** The steps of [Get] after its loop, and the sleep. *)
Lemma step_ok_get_leave rb es t t' rb' :
  ring_ok rb es → thread_ok rb es t →
  (∃ g, t = GetSleep g) ∨ (∃ g, t = GetMin g) ∨ (∃ g m k, t = GetScan g m k) ∨
    (∃ g m, t = GetBarrier g m) ∨ (∃ g, t = GetDone g) →
  thread_step t rb = Some (t', rb') → step_ok rb es t t' rb'.
Proof.
  intros Hok Ht [[g ->]|[[g ->]|[(g & m & k & ->)|[(g & m & ->)|[g ->]]]]] Hs;
    simpl in Hs.
  - step_inv Hs. by apply unchanged_ok.
  - step_inv Hs; by apply unchanged_ok.
  - destruct (readCursors rb !! k); step_inv Hs; by apply unchanged_ok.
  - step_inv Hs. destruct (get_barrier_ok rb es m Hok) as [Hok' Hev].
    unfold step_ok. simpl. rewrite app_nil_r. by split_and!.
  - step_inv Hs. by apply unchanged_ok.
Qed.

(** Every step of a thread in the first lap keeps the ring and the
    thread in order and does not disturb the other threads. *)
Lemma thread_step_ok rb es t t' rb' :
  ring_ok rb es → len (es ++ claims t) < size rb → thread_ok rb es t →
  thread_step t rb = Some (t', rb') → step_ok rb es t t' rb'.
Proof.
  intros Hok Hlap Ht Hs.
  destruct t as [|data|data nw|d data nw| |b id|g|g|g|g|g v|g|g|g m k|g m|g|p];
    try done;
    first [ by eapply step_ok_put; eauto 10
          | by eapply step_ok_get_enter; eauto 10
          | by eapply step_ok_get_copy; eauto 10
          | by eapply step_ok_get_leave; eauto 10 ].
Qed.

End get_steps.

(** ** The invariant in every interleaving *)

Section invariant.
Context {V : Type}.
Implicit Types (s : system V) (rb : RingBuffer V) (g : frame V).

(** A step under a discipline is a step under a weaker one. *)
Lemma step_where_impl (may may' : nat → call V → Prop) s s' :
  (∀ tid c, may tid c → may' tid c) → step_where may s s' → step_where may' s s'.
Proof. intros Himpl [|]; [apply step_call; auto|by eapply step_thread]. Qed.

Lemma rtc_step_where_impl (may may' : nat → call V → Prop) s0 s :
  (∀ tid c, may tid c → may' tid c) →
  rtc (step_where may) s0 s → rtc (step_where may') s0 s.
Proof. intros Himpl. apply rtc_subrel. intros ? ?. by apply step_where_impl. Qed.

Lemma step_where_step may s s' : step_where may s s' → step s s'.
Proof. by apply step_where_impl. Qed.

Lemma reachable_where may s0 s : rtc (step_where may) s0 s → reachable s0 s.
Proof. by apply rtc_step_where_impl. Qed.

Lemma step_claimed s s' : step s s' → claimed s `prefix_of` claimed s'.
Proof. intros [|]; simpl; [done|by apply prefix_app_r]. Qed.

Lemma step_shape s s' : step s s' → same_shape (ring s) (ring s').
Proof. intros [|? ? ? ? ? _ Hs]; simpl; [done|by eapply thread_step_shape]. Qed.

Lemma reachable_shape s0 s : reachable s0 s → same_shape (ring s0) (ring s).
Proof.
  induction 1 as [|s1 s2 s3 Hstep _ IH]; [done|].
  etrans; [by apply step_shape|done].
Qed.

(** One step of the system in the first lap. *)
Lemma step_system_ok s s' :
  system_ok s → len (claimed s') < size (ring s) → step s s' → system_ok s'.
Proof.
  intros Hsys Hlap Hstep. revert Hsys Hlap.
  destruct Hstep as [s tid c Htid _|s tid t t' rb' Htid Hs]; intros [Hok Hts] Hlap;
    simpl in *.
  - split; simpl; [done|]. apply Forall_insert; [done|]. by destruct c.
  - pose proof (proj1 (Forall_lookup _ _) Hts _ _ Htid) as Ht.
    destruct (thread_step_ok _ _ _ _ _ Hok Hlap Ht Hs) as (Hok' & Hev & Ht').
    split; simpl; [done|]. apply Forall_insert; [|done].
    eapply Forall_impl; [done|]. intros t2. by apply thread_ok_stable.
Qed.

(** The first lap: as long as fewer items are claimed than the ring has
    slots the ring and every thread are in order. *)
Lemma reachable_system_ok s0 s :
  system_ok s0 → reachable s0 s → len (claimed s) < size (ring s0) → system_ok s.
Proof.
  intros Hok0 Hreach. revert s Hreach.
  apply (rtc_ind_r (λ s, len (claimed s) < size (ring s0) → system_ok s)); [done|].
  intros s1 s2 Hreach Hstep IH Hlap.
  pose proof (prefix_length _ _ (step_claimed _ _ Hstep)) as Hlen.
  destruct (reachable_shape _ _ Hreach) as (Hsz & _).
  apply (step_system_ok s1); [|by rewrite Hsz|done].
  apply IH. unfold len in *. lia.
Qed.

(** A new ring with idle threads is in order. *)
Lemma init_system_ok sz n rb (k : nat) :
  NewRingBuffer sz n = Ret rb → 0 < sz ≤ int64_max → system_ok (init rb k).
Proof.
  intros Hnew Hsz. destruct (decide (0 ≤ n)) as [Hn|Hn];
    [|by rewrite NewRingBuffer_Panic in Hnew by lia].
  rewrite NewRingBuffer_Ret in Hnew by lia. injection Hnew as <-.
  split; [|by apply Forall_replicate].
  split; simpl; rewrite ?len_nil; try done; try lia.
  - unfold len. rewrite length_replicate. lia.
  - unfold len. rewrite length_replicate. lia.
  - apply Forall_replicate. lia.
  - by intros j [[=] _]%lookup_replicate.
Qed.

(** Items published from a sequence on are a segment of the log. *)
Lemma published_at_segment (es vs : list (option V)) (c : Z) :
  published_at es c vs → vs = segment (c - 1) (len vs) es.
Proof.
  intros [Hc Hvs]. unfold segment, len. apply list_eq. intros i.
  replace (Z.to_nat (c - 1 + 1)) with (Z.to_nat c) by lia. rewrite Nat2Z.id.
  destruct (vs !! i) as [v|] eqn:Hv.
  - rewrite lookup_take_lt by by eapply lookup_lt_Some.
    rewrite lookup_drop. symmetry. by apply Hvs.
  - rewrite lookup_take_ge; [done|]. by apply lookup_ge_None.
Qed.

End invariant.

(** ** Schedules *)

Section schedules.
Context {V : Type}.
Implicit Types (s : system V) (sched : list (nat * option (call V))).

#[export] Instance reachable_preorder : PreOrder (reachable (V:=V)).
Proof. unfold reachable. apply _. Qed.

(** A move of a schedule is a step of the system or nothing. *)
Lemma move_where may s m : may_move may m → rtc (step_where may) s (move s m).
Proof.
  unfold may_move, move. intros Hm.
  destruct (threads s !! m.1) as [t|] eqn:Ht; [|apply rtc_refl].
  assert (rtc (step_where may) s
            match thread_step t (ring s) with
            | Some (t', rb') =>
                mkSystem rb' (<[m.1 := t']> (threads s)) (claimed s ++ claims t)
                  (deliver t (delivered s))
            | None => s
            end) as Hstep.
  { destruct (thread_step t (ring s)) as [[t' rb']|] eqn:Hs; [|apply rtc_refl].
    apply rtc_once. by eapply step_thread. }
  destruct t, (m.2); try done. apply rtc_once. by apply step_call.
Qed.

(** A move of a thread that is in a call is the step of its call. *)
Lemma move_thread s (tid : nat) t t' rb' :
  threads s !! tid = Some t → thread_step t (ring s) = Some (t', rb') →
  move s (tid, None) =
    mkSystem rb' (<[tid := t']> (threads s)) (claimed s ++ claims t)
      (deliver t (delivered s)).
Proof. intros Ht Hs. unfold move. simpl. rewrite Ht. destruct t; by rewrite Hs. Qed.

(** A move of an idle thread that has a call to start starts it. *)
Lemma move_call s (tid : nat) c :
  threads s !! tid = Some Idle →
  move s (tid, Some c) =
    mkSystem (ring s) (<[tid := start c]> (threads s)) (claimed s) (delivered s).
Proof. intros Ht. unfold move. simpl. by rewrite Ht. Qed.

(** A move of a thread leaves the other threads where they are. *)
Lemma move_other s m (tid : nat) :
  m.1 ≠ tid → threads (move s m) !! tid = threads s !! tid.
Proof.
  intros Hne. unfold move. destruct (threads s !! m.1) as [t|]; [|done].
  assert (threads match thread_step t (ring s) with
                  | Some (t', rb') =>
                      mkSystem rb' (<[m.1 := t']> (threads s)) (claimed s ++ claims t)
                        (deliver t (delivered s))
                  | None => s
                  end !! tid = threads s !! tid) as Hstep.
  { destruct (thread_step t (ring s)) as [[t' rb']|]; [|done].
    simpl. by rewrite list_lookup_insert_ne. }
  destruct t, (m.2); try done. simpl. by rewrite list_lookup_insert_ne.
Qed.

(** Only the return of a [Get] hands something over. *)
Lemma move_delivered s (tid : nat) t :
  threads s !! tid = Some t → (∀ g, t ≠ GetDone g) →
  delivered (move s (tid, None)) = delivered s.
Proof.
  intros Ht Hg. unfold move. simpl. rewrite Ht.
  destruct t; try (by destruct (thread_step _ (ring s)) as [[t' rb']|]).
  by destruct (Hg g).
Qed.

(** What every step of a call keeps of the ring, every move keeps. *)
Lemma move_ring (P : RingBuffer V → Prop) s m :
  (∀ t rb t' rb', thread_step t rb = Some (t', rb') → P rb → P rb') →
  P (ring s) → P (ring (move s m)).
Proof.
  intros HP Hs. unfold move. destruct (threads s !! m.1) as [t|]; [|done].
  assert (P (ring match thread_step t (ring s) with
                  | Some (t', rb') =>
                      mkSystem rb' (<[m.1 := t']> (threads s)) (claimed s ++ claims t)
                        (deliver t (delivered s))
                  | None => s
                  end)) as Hstep.
  { destruct (thread_step t (ring s)) as [[t' rb']|] eqn:Hst; [|done]. simpl. eauto. }
  by destruct t, (m.2).
Qed.

(** What a schedule reaches is reachable, under the discipline its
    moves keep. *)
Lemma run_where may sched s :
  Forall (may_move may) sched → rtc (step_where may) s (run sched s).
Proof.
  intros Hs. revert s. induction Hs as [|m sched Hm _ IH]; intros s; [apply rtc_refl|].
  etrans; [by apply move_where|apply IH].
Qed.

Lemma run_reachable sched s : reachable s (run sched s).
Proof. apply run_where, Forall_true. intros m. unfold may_move. by destruct (m.2). Qed.

End schedules.

(** [n] steps of thread [tid]. *)
Definition steps {V} (tid n : nat) : list (nat * option (call V)) :=
  replicate n (tid, None).

(** What the call of thread [tid] returned, if the thread is at the
    return of a [Get]. *)
Definition returned {V} (s : system V) (tid : nat) : option (list (option V)) :=
  match threads s !! tid with
  | Some (GetDone g) => Some (f_results g)
  | _ => None
  end.

(** A producer and a consumer on the new ring of four slots: the
    consumer starts its [Get] of two right after the fetch-and-add of
    a [Put] of two, polls while the first item is being written, and
    reads each item after its flag is set. *)
Definition sched_lap1 : list (nat * option (call Z)) :=
  [(0%nat, Some (CallPut [Some 10; Some 20])); (0%nat, None);
   (1%nat, Some (CallGet 2 0))] ++
  steps 1 4 ++ steps 0 2 ++ steps 1 6 ++ steps 0 1 ++ steps 1 3 ++ steps 0 1 ++
  steps 1 12.

Definition lap1_end : system Z :=
  mkSystem (mkRingBuffer 4 [Some 10; Some 20; None; None] 2 [1; -1] [1; 1; 0; 0] 0 (-1))
    [PutWrite [] 2; GetDone (mkFrame 2 0 2 2 [Some 10; Some 20])]
    [Some 10; Some 20] [[]; []].

(** A ring of three slots after one lap: 1, 2, 3 published and read by
    the one consumer. *)
Definition lap2_start : system Z :=
  mkSystem (mkRingBuffer 3 [Some 1; Some 2; Some 3] 3 [2] [1; 1; 1] 0 2)
    [Idle; Idle] [Some 1; Some 2; Some 3] [[Some 1; Some 2; Some 3]].

(** The producer claims two sequences and is then not scheduled before
    the consumer has finished a [Get] of two. *)
Definition sched_torn : list (nat * option (call Z)) :=
  [(0%nat, Some (CallPut [Some 4; Some 5])); (0%nat, None);
   (1%nat, Some (CallGet 2 0))] ++ steps 1 16.

Lemma lap1_run : run sched_lap1 (init ring0 2) = lap1_end.
Proof. by vm_compute. Qed.

(** ** The theorems *)

Section concurrent_theorems.
Context {V : Type}.
Implicit Types (s : system V) (rb : RingBuffer V) (g : frame V) (sz n : Z).

(** C3: the first lap, in every interleaving: as long as fewer items
    have been claimed than the ring has slots, whatever the number of
    producers and consumers and however their steps interleave, what a
    [Get] returns is a run of consecutive entries of the log of claimed
    items: every payload it copied was published at the sequence it was
    read at. *)
Theorem first_lap_reads_are_published sz n (k : nat) rb s (tid : nat) g :
  NewRingBuffer sz n = Ret rb → 0 < sz ≤ int64_max →
  reachable (init rb k) s → len (claimed s) < sz →
  threads s !! tid = Some (GetDone g) →
  ∃ c, -1 ≤ c ∧ f_results g = segment c (len (f_results g)) (claimed s).
Proof.
  intros Hnew Hsz Hreach Hlap Htid.
  assert (size rb = sz) as Hsize.
  { destruct (decide (0 ≤ n)); [|by rewrite NewRingBuffer_Panic in Hnew by lia].
    rewrite NewRingBuffer_Ret in Hnew by lia. by injection Hnew as <-. }
  destruct (reachable_system_ok (init rb k) s) as [_ Hts];
    [by eapply init_system_ok|done|simpl; lia|].
  pose proof (proj1 (Forall_lookup _ _) Hts _ _ Htid) as Hres. simpl in Hres.
  exists (f_nextRead g - len (f_results g) - 1). split; [destruct Hres; lia|].
  by apply published_at_segment.
Qed.

(** C23: the protocol of the flag, in every interleaving of the first
    lap: a slot whose flag is set holds the entry of the log that has
    the sequence of the slot; the write cursor is the number of items
    claimed and no read cursor is past it. *)
Theorem first_lap_flag_means_published sz n (k : nat) rb s :
  NewRingBuffer sz n = Ret rb → 0 < sz ≤ int64_max →
  reachable (init rb k) s → len (claimed s) < sz →
  writeCursor (ring s) = len (claimed s) ∧
  Forall (λ c, -1 ≤ c ≤ len (claimed s)) (readCursors (ring s)) ∧
  ∀ j : nat, available (ring s) !! j = Some 1 →
    ∃ v, claimed s !! j = Some v ∧ buffer (ring s) !! j = Some v.
Proof.
  intros Hnew Hsz Hreach Hlap.
  assert (size rb = sz) as Hsize.
  { destruct (decide (0 ≤ n)); [|by rewrite NewRingBuffer_Panic in Hnew by lia].
    rewrite NewRingBuffer_Ret in Hnew by lia. by injection Hnew as <-. }
  destruct (reachable_system_ok (init rb k) s) as [[] _];
    [by eapply init_system_ok|done|simpl; lia|done].
Qed.

End concurrent_theorems.

(** After the first lap a [Get] is not atomic: when a producer has
    claimed two sequences and not yet written them, a [Get] of two
    returns 1 and 2, the entries of the lap before.  Run before the
    [Put] it returns 1, run after the [Put] it returns 4 and 5: no
    order of the two calls gives what the interleaving gives. *)
Example interleaved_Get_is_not_atomic :
  returned (run sched_torn lap2_start) 1 = Some [Some 1; Some 2] ∧
  fst <$> Get 2 0 (ring lap2_start) = Ret [Some 1] ∧
  fst <$> (rb' ← Put [Some 4; Some 5] (ring lap2_start); Get 2 0 rb')
    = Ret [Some 4; Some 5].
Proof. split_and!; by vm_compute. Qed.

(** ** The theorems at the schedule of the first lap *)

Lemma first_lap_reads_are_published_witness :
  ∃ c, -1 ≤ c ∧ [Some 10; Some 20] = segment c 2 [Some 10; Some 20].
Proof.
  apply (first_lap_reads_are_published 4 2 2 ring0 lap1_end 1
           (mkFrame 2 0 2 2 [Some 10; Some 20])); [reflexivity|done| |done|done].
  rewrite <- lap1_run. apply run_reachable.
Defined.

Lemma first_lap_flag_means_published_witness :
  writeCursor (ring lap1_end) = 2 ∧
  Forall (λ c, -1 ≤ c ≤ 2) (readCursors (ring lap1_end)) ∧
  ∀ j : nat, available (ring lap1_end) !! j = Some 1 →
    ∃ v, claimed lap1_end !! j = Some v ∧ buffer (ring lap1_end) !! j = Some v.
Proof.
  apply (first_lap_flag_means_published 4 2 2 ring0 lap1_end);
    [reflexivity|done| |done].
  rewrite <- lap1_run. apply run_reachable.
Defined.
