(* ===== verification/Safety.v ===== *)
(** * No panic in any interleaving

    The accesses of [Put] and [Get] of src/lmax.go index three slices
    and divide by [size].  This file shows that none of them can fail,
    in any interleaving of any number of goroutines and in every lap, as
    long as the ring has a slot, the calls of [Get] name a consumer the
    ring has and ask for a batch that is not negative, and the write
    cursor stays below 2^63 - 1: the states of the pool are well formed
    ([pool_safe]) and a well-formed pool has no crashed thread.  Along
    the way: the write cursor is the number of items claimed, and no
    read cursor is before -1 or past the write cursor (invariant 1 of
    the specification). *)

From stdpp Require Import prelude.
From S2P Require Import Prelude GoInt GoSlice RingBuffer RingLog Threads Concurrent.

Section safety_defs.
Context {V : Type}.

(** The calls that respect a ring of [n] consumers. *)
Definition valid_call (n : Z) (tid : nat) (c : call V) : Prop :=
  match c with
  | CallGet b id => 0 ≤ b ∧ 0 ≤ id < n
  | CallPut _ => True
  end.

(** The ring when [w] items have been claimed. *)
Record ring_safe (rb : RingBuffer V) (w : Z) : Prop := mk_ring_safe {
  safe_size : 0 < size rb ≤ int64_max;
  safe_buffer : len (buffer rb) = size rb;
  safe_available : len (available rb) = size rb;
  safe_writeCursor : writeCursor rb = w;
  safe_bound : 0 ≤ w < int64_max;
  safe_readCursors : Forall (λ c, -1 ≤ c ≤ w) (readCursors rb);
}.

(** The locals of a call of [Get]: the id of a consumer, and a sequence
    to read that is at most one past the last one claimed. *)
Definition frame_safe (n w : Z) (g : frame V) : Prop :=
  0 ≤ f_consumerId g < n ∧ 0 ≤ f_nextRead g ≤ w + 1.

(** The locals of a thread, [n] consumers, [w] items claimed.  The
    sequences a [Put] still has to write are claimed; past the test of
    line 56 the sequence to read is not past the write cursor. *)
Definition thread_safe (n w : Z) (t : thread V) : Prop :=
  match t with
  | Idle | PutCall _ | PutDone => True
  | PutWrite data nw => 0 ≤ nw ∧ nw + len data ≤ w
  | PutFlag d data nw => 0 ≤ nw ∧ nw + 1 + len data ≤ w
  | GetCall b id => 0 ≤ b ∧ 0 ≤ id < n
  | GetLoop g | GetSleep g | GetMin g | GetScan g _ _ | GetBarrier g _ | GetDone g =>
      frame_safe n w g
  | GetGate g | GetAvail g | GetCopy g | GetStore g _ =>
      frame_safe n w g ∧ f_nextRead g ≤ w
  | Crashed _ => False
  end.

(** The pool: the ring, the number of consumers, every thread. *)
Definition pool_safe (n : Z) (s : system V) : Prop :=
  ring_safe (ring s) (len (claimed s)) ∧ len (readCursors (ring s)) = n ∧
  Forall (thread_safe n (len (claimed s))) (threads s).

(** What a step of thread [t] has to establish. *)
Definition step_safe (n w : Z) (t t' : thread V) (rb' : RingBuffer V) : Prop :=
  ring_safe rb' (w + len (claims t)) ∧ len (readCursors rb') = n ∧
  thread_safe n (w + len (claims t)) t'.

End safety_defs.

(** Closes the goals [ring_safe] of a ring that differs from a safe one
    in a field. *)
Ltac safe_ring :=
  split; simpl; rewrite ?length_insert; try done; try lia.

(** ** One step of one thread *)

Section safe_steps.
Context {V : Type}.
Implicit Types (rb : RingBuffer V) (t : thread V) (g : frame V) (n w s : Z).

(** Claims of other threads do not disturb a thread. *)
Lemma thread_safe_mono n w w' t : w ≤ w' → thread_safe n w t → thread_safe n w' t.
Proof. intros Hw. destruct t; simpl; unfold frame_safe; try done; lia. Qed.

(** The slot of a sequence that is not negative exists. *)
Lemma ring_safe_slot rb w s :
  ring_safe rb w → 0 ≤ s →
  rem64 s (int64_of_int (size rb)) = Ret (s `mod` size rb) ∧
  in_bounds (buffer rb) (s `mod` size rb) ∧ in_bounds (available rb) (s `mod` size rb).
Proof.
  intros [] Hs. rewrite int64_of_int_id by int64_lia. rewrite rem64_mod by lia.
  pose proof (mod_slot_nat (size rb) s). unfold in_bounds. split_and!; [done|lia..].
Qed.

(** The cursor of a consumer the ring has can be loaded. *)
Lemma ring_safe_cursor rb w n id :
  ring_safe rb w → len (readCursors rb) = n → 0 ≤ id < n →
  ∃ c, index (readCursors rb) id = Ret c ∧ -1 ≤ c ≤ w.
Proof.
  intros [] Hn Hid.
  destruct (in_bounds_lookup (readCursors rb) id) as [c Hc]; [unfold in_bounds; lia|].
  exists c. split; [by apply index_Ret; split; [lia|]|].
  by apply (proj1 (Forall_lookup _ _) safe_readCursors0 _ _ Hc).
Qed.

(** A step that claims nothing and leaves the ring alone. *)
Lemma unchanged_safe n w rb t t' :
  claims t = [] → ring_safe rb w → len (readCursors rb) = n → thread_safe n w t' →
  step_safe n w t t' rb.
Proof. intros Hc ? ? ?. unfold step_safe. by rewrite Hc, len_nil, Z.add_0_r. Qed.

Lemma put_steps_safe n w rb t t' rb' :
  ring_safe rb w → len (readCursors rb) = n → thread_safe n w t →
  w + len (claims t) < int64_max →
  (∃ data, t = PutCall data) ∨ (∃ data nw, t = PutWrite data nw) ∨
    (∃ d data nw, t = PutFlag d data nw) ∨ t = PutDone →
  thread_step t rb = Some (t', rb') → step_safe n w t t' rb'.
Proof.
  intros Hok Hn Ht Hmax [[data ->]|[(data & nw & ->)|[(d & data & nw & ->)| ->]]] Hs;
    simpl in Hs, Ht.
  - injection Hs as <- <-. destruct Hok. pose proof (len_nonneg data). simpl in *.
    rewrite int64_of_int_id, sub64_add64, add64_exact by int64_lia.
    split_and!; [safe_ring|done|simpl; lia].
    eapply Forall_impl; [done|]. simpl. lia.
  - destruct data as [|d data]; simpl in Hs;
      [injection Hs as <- <-; by apply unchanged_safe|].
    rewrite len_cons in Ht.
    destruct (ring_safe_slot rb w nw Hok) as (Hr & Hb & _); [lia|]. rewrite Hr in Hs.
    go_step in Hs.
    rewrite store_Ret in Hs by done. injection Hs as <- <-.
    pose proof (len_nonneg data). apply unchanged_safe; [done| |done|simpl; lia].
    destruct Hok. safe_ring. unfold len. by rewrite length_insert.
  - destruct (ring_safe_slot rb w nw Hok) as (Hr & _ & Ha); [lia|]. rewrite Hr in Hs.
    go_step in Hs.
    rewrite store_Ret in Hs by done. injection Hs as <- <-.
    pose proof (len_nonneg data). destruct Hok.
    apply unchanged_safe; [done| |done|simpl; rewrite add64_exact by int64_lia; lia].
    safe_ring. unfold len. by rewrite length_insert.
  - injection Hs as <- <-. by apply unchanged_safe.
Qed.

(** The steps of [Get] up to the copy of the payload. *)
Lemma get_enter_safe n w rb t t' rb' :
  ring_safe rb w → len (readCursors rb) = n → thread_safe n w t →
  (∃ b id, t = GetCall b id) ∨ (∃ g, t = GetLoop g) ∨ (∃ g, t = GetGate g) ∨
    (∃ g, t = GetAvail g) ∨ (∃ g, t = GetCopy g) →
  thread_step t rb = Some (t', rb') → step_safe n w t t' rb'.
Proof.
  intros Hok Hn Ht [(b & id & ->)|[[g ->]|[[g ->]|[[g ->]|[g ->]]]]] Hs;
    simpl in Hs, Ht.
  - destruct (ring_safe_cursor rb w n id Hok Hn) as (c & Hx & Hc); [lia|].
    rewrite Hx in Hs. go_step in Hs. rewrite make_Ret in Hs by lia. injection Hs as <- <-.
    apply unchanged_safe; [done..|]. destruct Hok. split; simpl; [lia|].
    rewrite add64_exact by int64_lia. lia.
  - rewrite (safe_writeCursor _ _ Hok) in Hs.
    repeat case_decide; injection Hs as <- <-; by apply unchanged_safe.
  - case_decide; injection Hs as <- <-; apply unchanged_safe; try done.
    by destruct Ht.
  - destruct Ht as [[? ?] ?].
    destruct (ring_safe_slot rb w (f_nextRead g) Hok) as (Hr & _ & Ha); [lia|].
    rewrite Hr in Hs. go_step in Hs. destruct (index_in_bounds _ _ Ha) as [a Hx]. rewrite Hx in Hs.
    go_step in Hs.
    injection Hs as <- <-. by case_decide; apply unchanged_safe.
  - destruct Ht as [[? ?] ?].
    destruct (ring_safe_slot rb w (f_nextRead g) Hok) as (Hr & Hb & _); [lia|].
    rewrite Hr in Hs. go_step in Hs. destruct (index_in_bounds _ _ Hb) as [v Hx]. rewrite Hx in Hs.
    go_step in Hs.
    injection Hs as <- <-. by apply unchanged_safe.
Qed.

(** The store of the cursor and the steps after the loop. *)
Lemma get_leave_safe n w rb t t' rb' :
  ring_safe rb w → len (readCursors rb) = n → thread_safe n w t →
  (∃ g v, t = GetStore g v) ∨ (∃ g, t = GetSleep g) ∨ (∃ g, t = GetMin g) ∨
    (∃ g m k, t = GetScan g m k) ∨ (∃ g m, t = GetBarrier g m) ∨ (∃ g, t = GetDone g) →
  thread_step t rb = Some (t', rb') → step_safe n w t t' rb'.
Proof.
  intros Hok Hn Ht
    [(g & v & ->)|[[g ->]|[[g ->]|[(g & m & k & ->)|[(g & m & ->)|[g ->]]]]]] Hs;
    simpl in Hs, Ht.
  - destruct Ht as [[? ?] ?]. rewrite store_Ret in Hs by (unfold in_bounds; lia).
    injection Hs as <- <-. destruct Hok.
    apply unchanged_safe; [done| |simpl; unfold len in *; by rewrite length_insert|].
    + safe_ring. apply Forall_insert; [done|lia].
    + split; simpl; [done|]. rewrite add64_exact by int64_lia. lia.
  - injection Hs as <- <-. by apply unchanged_safe.
  - destruct (ring_safe_cursor rb w n (f_consumerId g) Hok Hn) as (c & Hx & Hc);
      [by destruct Ht|].
    rewrite Hx in Hs. injection Hs as <- <-. by apply unchanged_safe.
  - destruct (readCursors rb !! k); injection Hs as <- <-; by apply unchanged_safe.
  - injection Hs as <- <-. apply unchanged_safe; [done| |done..]. by destruct Hok.
  - injection Hs as <- <-. by apply unchanged_safe.
Qed.

(** Every step of a thread keeps the ring and the thread well formed:
    no access fails. *)
Lemma thread_step_safe n w rb t t' rb' :
  ring_safe rb w → len (readCursors rb) = n → thread_safe n w t →
  w + len (claims t) < int64_max →
  thread_step t rb = Some (t', rb') → step_safe n w t t' rb'.
Proof.
  intros Hok Hn Ht Hmax Hs.
  destruct t as [|data|data nw|d data nw| |b id|g|g|g|g|g v|g|g|g m k|g m|g|p];
    try done;
    first [ by eapply put_steps_safe; eauto 10
          | by eapply get_enter_safe; eauto 10
          | by eapply get_leave_safe; eauto 10 ].
Qed.

End safe_steps.

(** ** The pool in every interleaving *)

Section safe_pool.
Context {V : Type}.
Implicit Types (s : system V) (rb : RingBuffer V) (n sz : Z) (k : nat).

(** One step of the pool. *)
Lemma step_pool_safe n s s' :
  pool_safe n s → len (claimed s') < int64_max → step_where (valid_call n) s s' →
  pool_safe n s'.
Proof.
  intros Hs Hmax Hstep. revert Hs Hmax.
  destruct Hstep as [s tid c Htid Hc|s tid t t' rb' Htid Hst]; simpl;
    intros (Hok & Hn & Hts) Hmax.
  - split_and!; [done..|]. apply Forall_insert; [done|]. by destruct c.
  - pose proof (proj1 (Forall_lookup _ _) Hts _ _ Htid) as Ht.
    unfold pool_safe. simpl. rewrite len_app in Hmax |- *.
    pose proof (len_nonneg (claims t)).
    destruct (thread_step_safe n _ _ t t' rb' Hok Hn Ht Hmax Hst) as (Hok' & Hn' & Ht').
    split_and!; [done..|]. apply Forall_insert; [|done].
    eapply Forall_impl; [done|]. intros t2. apply thread_safe_mono. lia.
Qed.

(** Every state the pool reaches while the write cursor is below
    2^63 - 1. *)
Lemma reachable_pool_safe n s0 s :
  pool_safe n s0 → rtc (step_where (valid_call n)) s0 s →
  len (claimed s) < int64_max → pool_safe n s.
Proof.
  intros Hs0 Hreach. revert s Hreach.
  apply (rtc_ind_r (λ s, len (claimed s) < int64_max → pool_safe n s)); [done|].
  intros s1 s2 _ Hstep IH Hmax.
  pose proof (prefix_length _ _ (step_claimed _ _ (step_where_step _ _ _ Hstep))).
  apply (step_pool_safe n s1); [apply IH; unfold len in *; lia|done..].
Qed.

(** The size of the new ring, and of every ring the pool reaches. *)
Lemma reachable_size sz n rb k s :
  NewRingBuffer sz n = Ret rb → reachable (init rb k) s → size (ring s) = sz.
Proof.
  intros Hnew Hreach. destruct (reachable_shape _ _ Hreach) as (-> & _). simpl.
  destruct (decide (sz < 0 ∨ n < 0)); [by rewrite NewRingBuffer_Panic in Hnew|].
  rewrite NewRingBuffer_Ret in Hnew by lia. by injection Hnew as <-.
Qed.

(** The new ring with [k] idle threads. *)
Lemma init_pool_safe sz n rb k :
  NewRingBuffer sz n = Ret rb → 0 < sz ≤ int64_max → pool_safe n (init rb k).
Proof.
  intros Hnew Hsz.
  destruct (decide (0 ≤ n)); [|by rewrite NewRingBuffer_Panic in Hnew by lia].
  rewrite NewRingBuffer_Ret in Hnew by lia. injection Hnew as <-.
  split_and!; simpl.
  - split; simpl; unfold len; rewrite ?length_replicate; try done; try lia.
    apply Forall_replicate. simpl. lia.
  - unfold len. rewrite length_replicate. lia.
  - by apply Forall_replicate.
Qed.

(** From the new ring: no thread has crashed. *)
Lemma reachable_no_crash sz n rb k s :
  NewRingBuffer sz n = Ret rb → 0 < sz ≤ int64_max →
  rtc (step_where (valid_call n)) (init rb k) s → len (claimed s) < int64_max →
  pool_safe n s ∧ ∀ (tid : nat) p, threads s !! tid ≠ Some (Crashed p).
Proof.
  intros Hnew Hsz Hreach Hmax.
  assert (pool_safe n s) as Hs
    by (apply (reachable_pool_safe n (init rb k)); [by eapply init_pool_safe|done..]).
  split; [done|]. destruct Hs as (_ & _ & Hts).
  intros tid p Htid. by apply (proj1 (Forall_lookup _ _) Hts) in Htid.
Qed.

End safe_pool.

(** ** The theorem *)

(** C5: memory safety in every interleaving and every lap.  On a ring
    with a slot, whatever the number of goroutines, the calls they make
    and the order of their steps, as long as every [Get] names a
    consumer of the ring and a batch that is not negative and fewer than
    2^63 - 1 items have been claimed: no goroutine panics (no index is
    out of range, no division is by zero), the write cursor is the
    number of items claimed, and every read cursor is between -1 and the
    write cursor. *)
Theorem no_panic_in_any_interleaving {V} sz n (k : nat) (rb : RingBuffer V) s :
  NewRingBuffer sz n = Ret rb → 0 < sz ≤ int64_max →
  rtc (step_where (valid_call n)) (init rb k) s → len (claimed s) < int64_max →
  writeCursor (ring s) = len (claimed s) ∧
  Forall (λ c, -1 ≤ c ≤ writeCursor (ring s)) (readCursors (ring s)) ∧
  ∀ (tid : nat) p, threads s !! tid ≠ Some (Crashed p).
Proof.
  intros Hnew Hsz Hreach Hmax.
  destruct (reachable_no_crash sz n rb k s Hnew Hsz Hreach Hmax) as [([] & _) Hnc].
  split_and!; [done|by rewrite safe_writeCursor0|done].
Qed.

(** ** The theorem at a schedule of two laps *)

(** Two producers and a consumer on the ring of four slots: six items
    are claimed, the second [Put] starts before the first has written,
    and the consumer reads while both write. *)
Definition sched_laps : list (nat * option (call Z)) :=
  [(0%nat, Some (CallPut [Some 1; Some 2; Some 3])); (0%nat, None);
   (1%nat, Some (CallPut [Some 4; Some 5; Some 6])); (1%nat, None);
   (2%nat, Some (CallGet 3 1))] ++
  steps 0 3 ++ steps 2 9 ++ steps 1 8 ++ steps 0 6 ++ steps 2 30.

Lemma sched_laps_valid : Forall (may_move (valid_call 2)) sched_laps.
Proof. unfold sched_laps, steps. simpl. repeat constructor; lia. Qed.

Lemma no_panic_in_any_interleaving_witness :
  let s := run sched_laps (init ring0 3) in
  writeCursor (ring s) = len (claimed s) ∧
  Forall (λ c, -1 ≤ c ≤ writeCursor (ring s)) (readCursors (ring s)) ∧
  ∀ (tid : nat) p, threads s !! tid ≠ Some (Crashed p).
Proof.
  apply (no_panic_in_any_interleaving 4 2 3 ring0 (run sched_laps (init ring0 3)));
    [reflexivity|done|apply run_where, sched_laps_valid|by vm_compute].
Defined.
