(* ===== verification/Flags.v ===== *)
(** * The flags of the claimed sequences

    [Put] of src/lmax.go claims sequences with its fetch-and-add and
    then, item by item, writes the payload and sets the flag of the
    slot.  This file follows the flags through every interleaving and
    every lap: a sequence that has been claimed is either still to be
    flagged by the call that claimed it ([pending]) or the flag of its
    slot is set ([flagged]); no step clears a flag.  So when no call of
    [Put] is in progress and a lap is complete, every flag is set
    ([all_set]), and stays set: from then on no [Get] finds a flag to
    wait for. *)

From stdpp Require Import prelude.
From S2P Require Import Prelude GoInt GoSlice RingBuffer RingLog Threads Concurrent Safety.

Section flag_defs.
Context {V : Type}.

(** The sequences a call of [Put] has claimed and not yet flagged: those
    of the items it still holds. *)
Definition pending (t : thread V) (seq : Z) : Prop :=
  match t with
  | PutWrite data nw => nw ≤ seq < nw + len data
  | PutFlag d data nw => nw ≤ seq < nw + 1 + len data
  | _ => False
  end.

(** The flag of the slot of a sequence is set. *)
Definition flagged (rb : RingBuffer V) (seq : Z) : Prop :=
  available rb !! Z.to_nat (seq `mod` size rb) = Some 1.

(** Every claimed sequence is flagged or pending in a call. *)
Definition flags_ok (s : system V) : Prop :=
  ∀ seq, 0 ≤ seq < len (claimed s) →
    flagged (ring s) seq ∨ ∃ (tid : nat) t, threads s !! tid = Some t ∧ pending t seq.

(** Every flag of the ring is set. *)
Definition all_set (rb : RingBuffer V) : Prop := Forall (λ a, a = 1) (available rb).

(** No call of [Put] is between its fetch-and-add and its last flag. *)
Definition quiet (s : system V) : Prop :=
  ∀ (tid : nat) t seq, threads s !! tid = Some t → ¬ pending t seq.

End flag_defs.

(** ** One step of one thread *)

Section flag_steps.
Context {V : Type}.
Implicit Types (rb : RingBuffer V) (t : thread V) (n w seq : Z).

(** No step clears a flag. *)
Lemma thread_step_available t rb t' rb' (j : nat) :
  thread_step t rb = Some (t', rb') →
  available rb !! j = Some 1 → available rb' !! j = Some 1.
Proof.
  intros Hs Hj.
  destruct t as [|data|[|d data] nw|d data nw| |b id|g|g|g|g|g v|g|g|g m k|g m|g|p];
    simpl in Hs; repeat case_decide; try destruct (readCursors rb !! k);
    step_inv Hs; try done.
  apply store_Ret_inv in E0 as [_ ->]. simpl.
  destruct (decide (j = Z.to_nat x)) as [->|Hne].
  - rewrite list_lookup_insert_eq; [done|by eapply lookup_lt_Some].
  - by rewrite list_lookup_insert_ne.
Qed.

Lemma thread_step_flagged t rb t' rb' seq :
  thread_step t rb = Some (t', rb') → flagged rb seq → flagged rb' seq.
Proof.
  intros Hs. unfold flagged. destruct (thread_step_shape _ _ _ _ Hs) as [-> _].
  by eapply thread_step_available.
Qed.

Lemma thread_step_all_set t rb t' rb' :
  thread_step t rb = Some (t', rb') → all_set rb → all_set rb'.
Proof.
  intros Hs Hall. apply Forall_lookup. intros j a Hj.
  destruct (thread_step_shape _ _ _ _ Hs) as (_ & _ & Hlen & _).
  destruct (lookup_lt_is_Some_2 (available rb) j) as [a0 Ha0];
    [rewrite <- Hlen; by eapply lookup_lt_Some|].
  rewrite (proj1 (Forall_lookup _ _) Hall _ _ Ha0) in Ha0.
  rewrite (thread_step_available _ _ _ _ _ Hs Ha0) in Hj. congruence.
Qed.

(** A step of [Put]: a sequence that was pending, or that the step
    claims, is pending or flagged after it. *)
Lemma put_step_pending n w rb t t' rb' seq :
  ring_safe rb w → thread_safe n w t → w + len (claims t) < int64_max →
  thread_step t rb = Some (t', rb') →
  pending t seq ∨ w ≤ seq < w + len (claims t) →
  pending t' seq ∨ flagged rb' seq.
Proof.
  intros Hok Ht Hmax Hs Hseq.
  destruct t as [|data|[|d data] nw|d data nw| | | | | | | | | | | | |];
    simpl in Hseq, Ht, Hmax; rewrite ?len_nil in Hseq;
    try (exfalso; destruct Hseq; [done|lia]); simpl in Hs.
  - injection Hs as <- <-. pose proof (safe_writeCursor _ _ Hok) as Hw.
    destruct Hok. pose proof (len_nonneg data). simpl.
    rewrite int64_of_int_id, sub64_add64, Hw by int64_lia.
    left. destruct Hseq; [done|lia].
  - exfalso. destruct Hseq; lia.
  - rewrite len_cons in Hseq, Ht.
    destruct (ring_safe_slot rb w nw Hok) as (Hr & Hb & _); [lia|]. rewrite Hr in Hs.
    go_step in Hs. rewrite store_Ret in Hs by done. injection Hs as <- <-.
    left. simpl. destruct Hseq; lia.
  - destruct (ring_safe_slot rb w nw Hok) as (Hr & _ & Ha); [lia|]. rewrite Hr in Hs.
    go_step in Hs. rewrite store_Ret in Hs by done. injection Hs as <- <-.
    pose proof (len_nonneg data). destruct Hok.
    destruct (decide (seq = nw)) as [->|Hne].
    + right. unfold flagged. simpl. apply list_lookup_insert_eq.
      unfold in_bounds, len in Ha. lia.
    + left. simpl. rewrite add64_exact by int64_lia. destruct Hseq; lia.
Qed.

End flag_steps.

(** ** The pool in every interleaving *)

Section flag_pool.
Context {V : Type}.
Implicit Types (s : system V) (rb : RingBuffer V) (n sz : Z) (k : nat).

(** One step of the pool. *)
Lemma step_flags_ok n s s' :
  pool_safe n s → len (claimed s') < int64_max → flags_ok s →
  step_where (valid_call n) s s' → flags_ok s'.
Proof.
  intros Hsafe Hmax Hfl Hstep. revert Hsafe Hmax Hfl.
  destruct Hstep as [s tid c Htid Hc|s tid t t' rb' Htid Hst]; simpl;
    intros (Hok & Hn & Hts) Hmax Hfl seq Hseq; simpl in *.
  - destruct (Hfl seq Hseq) as [?|(j & t & Hj & Hp)]; [by left|right].
    exists j, t. split; [|done]. rewrite list_lookup_insert_ne; [done|].
    intros <-. rewrite Htid in Hj. by injection Hj as <-.
  - pose proof (lookup_lt_Some _ _ _ Htid) as Hlt.
    pose proof (proj1 (Forall_lookup _ _) Hts _ _ Htid) as Ht.
    rewrite len_app in Hmax, Hseq.
    assert (pending t' seq ∨ flagged rb' seq → flagged rb' seq ∨
              ∃ (j : nat) t2, <[tid := t']> (threads s) !! j = Some t2 ∧ pending t2 seq)
      as Hown.
    { intros [Hp|Hf]; [right|by left]. exists tid, t'.
      by rewrite list_lookup_insert_eq. }
    destruct (decide (seq < len (claimed s))) as [Hold|Hnew].
    + destruct (Hfl seq) as [Hf|(j & t2 & Hj & Hp)]; [lia| |].
      * left. by eapply thread_step_flagged.
      * destruct (decide (j = tid)) as [->|Hne].
        -- rewrite Htid in Hj. injection Hj as <-.
           apply Hown. eapply put_step_pending; eauto.
        -- right. exists j, t2. by rewrite list_lookup_insert_ne.
    + apply Hown. eapply put_step_pending; eauto. right. lia.
Qed.

(** Every state the pool reaches while the write cursor is below
    2^63 - 1. *)
Lemma reachable_flags_ok n s0 s :
  pool_safe n s0 → flags_ok s0 → rtc (step_where (valid_call n)) s0 s →
  len (claimed s) < int64_max → flags_ok s.
Proof.
  intros Hsafe Hfl Hreach. revert s Hreach.
  apply (rtc_ind_r (λ s, len (claimed s) < int64_max → flags_ok s)); [done|].
  intros s1 s2 Hreach Hstep IH Hmax.
  pose proof (prefix_length _ _ (step_claimed _ _ (step_where_step _ _ _ Hstep))).
  assert (len (claimed s1) < int64_max) by (unfold len in *; lia).
  apply (step_flags_ok n s1); [by apply (reachable_pool_safe n s0)|done|by apply IH|done].
Qed.

(** Nothing is claimed at the start. *)
Lemma init_flags_ok rb k : flags_ok (init rb k).
Proof. intros seq Hseq. unfold len in Hseq. simpl in Hseq. lia. Qed.

(** With no call of [Put] in progress and a lap complete, every flag is
    set. *)
Lemma quiet_all_set n s :
  pool_safe n s → flags_ok s → quiet s → size (ring s) ≤ len (claimed s) →
  all_set (ring s).
Proof.
  intros ([] & _) Hfl Hq Hlap. apply Forall_lookup. intros j a Hj.
  pose proof (lookup_lt_Some _ _ _ Hj) as Hlt. unfold flags_ok, len in *.
  destruct (Hfl (Z.of_nat j)) as [Hf|(tid & t & Ht & Hp)]; [lia| |by destruct (Hq tid t (Z.of_nat j) Ht)].
  unfold flagged in Hf. rewrite Z.mod_small, Nat2Z.id in Hf by lia. congruence.
Qed.

End flag_pool.

(** C24: the flags follow the claims, in every interleaving and on every
    lap.  From a new ring with a slot, while the calls of [Get] name
    consumers of the ring and fewer than 2^63 - 1 items are claimed,
    the slot of every claimed sequence has its flag set unless the call
    of [Put] that claimed the sequence still holds its item; and once a
    lap is complete and no [Put] is between its fetch-and-add and its
    last flag, every flag of the ring is set. *)
Theorem flags_follow_claims {V} sz n (k : nat) (rb : RingBuffer V) s :
  NewRingBuffer sz n = Ret rb → 0 < sz ≤ int64_max →
  rtc (step_where (valid_call n)) (init rb k) s → len (claimed s) < int64_max →
  (∀ seq, 0 ≤ seq < len (claimed s) →
     available (ring s) !! Z.to_nat (seq `mod` size (ring s)) = Some 1 ∨
     ∃ (tid : nat) t, threads s !! tid = Some t ∧ pending t seq) ∧
  (quiet s → size (ring s) ≤ len (claimed s) → all_set (ring s)).
Proof.
  intros Hnew Hsz Hreach Hmax.
  pose proof (init_pool_safe sz n rb k Hnew Hsz) as Hsafe.
  assert (flags_ok s) as Hfl
    by (by apply (reachable_flags_ok n (init rb k)); [|apply init_flags_ok|..]).
  split; [done|]. apply (quiet_all_set n); [|done].
  by apply (reachable_pool_safe n (init rb k)).
Qed.

(** The theorem at the schedule of two laps of [Safety]: six items on
    four slots, both calls of [Put] over. *)
Lemma flags_follow_claims_witness :
  let s := run sched_laps (init ring0 3) in
  (∀ seq, 0 ≤ seq < len (claimed s) →
     available (ring s) !! Z.to_nat (seq `mod` size (ring s)) = Some 1 ∨
     ∃ (tid : nat) t, threads s !! tid = Some t ∧ pending t seq) ∧
  (quiet s → size (ring s) ≤ len (claimed s) → all_set (ring s)).
Proof.
  apply (flags_follow_claims 4 2 3 ring0 (run sched_laps (init ring0 3)));
    [reflexivity|done|apply run_where, sched_laps_valid|by vm_compute].
Defined.
