(* ===== verification/Consumers.v ===== *)
(** * One thread per consumer

    The harness of src/lmax.go gives every consumer id to one goroutine
    ([main] starts [Consumer(ringBuffer, i, ...)] once for each [i]).
    This file adds that discipline to the interleavings of [Concurrent]:
    an assignment [cid] says which consumer a thread may call [Get]
    for, and no two threads serve the same consumer.  Then a read cursor
    is written by its own thread only, and in the first lap the payloads
    a [Get] returns are exactly the entries of the log that end at the
    cursor the call leaves: successive [Get]s of a consumer return
    adjacent runs of the log, whatever the other threads do. *)

From stdpp Require Import prelude.
From S2P Require Import Prelude GoInt GoSlice RingBuffer RingLog Threads Concurrent.

Section owned_defs.
Context {V : Type}.
Variable cid : nat → option nat.

(** Thread [tid] serves the consumer [id]. *)
Definition owns (tid : nat) (id : Z) : Prop := Z.of_nat <$> cid tid = Some id.

(** The calls thread [tid] may start. *)
Definition own_call (tid : nat) (c : call V) : Prop :=
  match c with
  | CallGet _ id => owns tid id
  | CallPut _ => True
  end.

(** A step of the system under the discipline. *)
Definition step_own : relation (system V) := step_where own_call.

(** The locals of the call of [Get] a thread is in. *)
Definition frame_of (t : thread V) : option (frame V) :=
  match t with
  | GetLoop g | GetGate g | GetAvail g | GetCopy g | GetStore g _ | GetSleep g
  | GetMin g | GetScan g _ _ | GetBarrier g _ | GetDone g => Some g
  | _ => None
  end.

(** Thread [tid] is in a call for its own consumer, and the cursor of
    that consumer is the sequence before [nextRead]. *)
Definition cursor_ok (rb : RingBuffer V) (tid : nat) (t : thread V) : Prop :=
  match t with
  | GetCall _ id => owns tid id
  | _ =>
      match frame_of t with
      | Some g =>
          owns tid (f_consumerId g) ∧
          readCursors rb !! Z.to_nat (f_consumerId g) = Some (f_nextRead g - 1)
      | None => True
      end
  end.

Definition cursors_ok (s : system V) : Prop :=
  ∀ (tid : nat) t, threads s !! tid = Some t → cursor_ok (ring s) tid t.

(** The schedules of [Concurrent.run] that keep the discipline. *)
Definition own_move : nat * option (call V) → Prop := may_move own_call.

End owned_defs.

Section owned_lemmas.
Context {V : Type}.
Variable cid : nat → option nat.
Hypothesis cid_inj : ∀ i j c, cid i = Some c → cid j = Some c → i = j.
Implicit Types (s : system V) (rb : RingBuffer V) (t : thread V) (g : frame V).
Implicit Types (tid j : nat) (id : Z).

Lemma step_own_step s s' : step_own cid s s' → step s s'.
Proof. apply step_where_step. Qed.

Lemma reachable_own s0 s : rtc (step_own cid) s0 s → reachable s0 s.
Proof. apply reachable_where. Qed.

(** No two threads serve the same consumer. *)
Lemma owns_inj tid j id1 id2 :
  owns cid tid id1 → owns cid j id2 → Z.to_nat id1 = Z.to_nat id2 → tid = j.
Proof.
  unfold owns. destruct (cid tid) as [c1|] eqn:H1, (cid j) as [c2|] eqn:H2; try done.
  simpl. intros [= <-] [= <-]. rewrite !Nat2Z.id. intros ->. by eapply cid_inj.
Qed.

Lemma cursor_ok_frame rb tid t g :
  cursor_ok cid rb tid t → frame_of t = Some g →
  owns cid tid (f_consumerId g) ∧
  readCursors rb !! Z.to_nat (f_consumerId g) = Some (f_nextRead g - 1).
Proof. destruct t; simpl; try done; by intros ? [= <-]. Qed.

(** Only the store of a cursor changes a cursor, and only that one. *)
Lemma thread_step_cursors rb t t' rb' (i : nat) :
  thread_step t rb = Some (t', rb') →
  (∀ g v, t = GetStore g v → t' = GetLoop (advance g v) →
     Z.to_nat (f_consumerId g) ≠ i) →
  readCursors rb' !! i = readCursors rb !! i.
Proof.
  intros Hs Hi.
  destruct t as [|data|[|d data] nw|d data nw| |b id|g|g|g|g|g v|g|g|g m k|g m|g|p];
    simpl in Hs; repeat case_decide; try destruct (readCursors rb !! k);
    step_inv Hs; try done.
  apply store_Ret_inv in E as [_ ->]. simpl.
  rewrite list_lookup_insert_ne; [done|]. by eapply Hi.
Qed.

(** What holds of another thread's cursor is not disturbed. *)
Lemma cursor_ok_stable rb rb' j t2 :
  (∀ g, frame_of t2 = Some g →
     readCursors rb' !! Z.to_nat (f_consumerId g)
     = readCursors rb !! Z.to_nat (f_consumerId g)) →
  cursor_ok cid rb j t2 → cursor_ok cid rb' j t2.
Proof.
  intros Heq. unfold cursor_ok.
  destruct t2; simpl in *; try done; by rewrite (Heq _ eq_refl).
Qed.

(** A step of thread [tid] keeps its own cursor in step with its
    [nextRead]. *)
Lemma thread_step_cursor_ok rb es tid t t' rb' :
  ring_ok rb es → thread_ok rb es t → cursor_ok cid rb tid t →
  thread_step t rb = Some (t', rb') → cursor_ok cid rb' tid t'.
Proof.
  intros Hok Ht Hc Hs.
  destruct t as [|data|[|d data] nw|d data nw| |b id|g|g|g|g|g v|g|g|g m k|g m|g|p];
    simpl in Hs; repeat case_decide; try destruct (readCursors rb !! k);
    step_inv Hs; try done.
  - simpl in Hc. apply index_Ret in E as [_ Hx]. split; [done|]. simpl.
    pose proof (proj1 (Forall_lookup _ _) (ok_readCursors _ _ Hok) _ _ Hx) as Hr.
    simpl in Hr. rewrite (ring_ok_add1 rb es x Hok Hr), Hx. f_equal. lia.
  - by case_decide.
  - destruct Hc as [Hid Hcur], Ht as [Hres Hv].
    pose proof (store_Ret_inv _ _ _ _ E) as [[_ Hin] ->]. split; [done|]. simpl.
    rewrite list_lookup_insert_eq by by eapply lookup_lt_Some.
    pose proof (lookup_lt_Some _ _ _ Hv) as Hlt. destruct Hres as [Hs _].
    pose proof (len_nonneg (f_results g)).
    rewrite (ring_ok_add1 rb es _ Hok) by (unfold len; lia). f_equal. lia.
Qed.

(** One step of the system under the discipline. *)
Lemma step_cursors_ok s s' :
  system_ok s → cursors_ok cid s → step_own cid s s' → cursors_ok cid s'.
Proof.
  intros Hsys Hcs Hstep. revert Hsys Hcs.
  destruct Hstep as [s tid c Htid Hown|s tid t t' rb' Htid Hs]; intros [Hok Hts] Hcs;
    intros j t2; simpl.
  - destruct (decide (j = tid)) as [->|Hj].
    + rewrite list_lookup_insert_eq by by eapply lookup_lt_Some.
      intros [= <-]. by destruct c.
    + rewrite list_lookup_insert_ne by done. apply Hcs.
  - pose proof (proj1 (Forall_lookup _ _) Hts _ _ Htid) as Ht.
    pose proof (Hcs _ _ Htid) as Hc.
    destruct (decide (j = tid)) as [->|Hj].
    + rewrite list_lookup_insert_eq by by eapply lookup_lt_Some.
      intros [= <-]. by eapply thread_step_cursor_ok.
    + rewrite list_lookup_insert_ne by done. intros Ht2.
      eapply cursor_ok_stable; [|by apply Hcs].
      intros g2 Hg2. eapply thread_step_cursors; [done|]. intros g v -> _ Heq.
      destruct (cursor_ok_frame _ _ _ _ (Hcs _ _ Ht2) Hg2) as [Ho2 _].
      destruct Hc as [Ho _]. by destruct Hj; eapply owns_inj.
Qed.

(** Both invariants in every interleaving of the first lap. *)
Lemma reachable_cursors_ok s0 s :
  system_ok s0 → cursors_ok cid s0 → rtc (step_own cid) s0 s →
  len (claimed s) < size (ring s0) → system_ok s ∧ cursors_ok cid s.
Proof.
  intros Hok0 Hcs0 Hreach. revert s Hreach.
  apply (rtc_ind_r (λ s, len (claimed s) < size (ring s0) →
                         system_ok s ∧ cursors_ok cid s)); [done|].
  intros s1 s2 Hreach Hstep IH Hlap.
  pose proof (prefix_length _ _ (step_claimed _ _ (step_own_step _ _ Hstep))) as Hlen.
  destruct IH as [Hsys Hcs]; [unfold len in *; lia|].
  split; [|by eapply step_cursors_ok].
  apply (reachable_system_ok s0); [done| |done].
  etrans; [by apply reachable_own|]. by apply rtc_once, step_own_step.
Qed.

Lemma init_cursors_ok rb (k : nat) : cursors_ok cid (init rb k).
Proof. by intros tid t [-> _]%lookup_replicate. Qed.

(** The cursor of a consumer moves in the steps of its thread only. *)
Lemma cursor_moves_with_owner s s' j (c : nat) :
  cursors_ok cid s → step_own cid s s' → cid j = Some c →
  threads s' !! j = threads s !! j →
  readCursors (ring s') !! c = readCursors (ring s) !! c.
Proof.
  intros Hcs Hstep Hj. revert Hcs.
  destruct Hstep as [s tid c0 Htid Hown|s tid t t' rb' Htid Hs]; intros Hcs; simpl; [done|].
  intros Hsame. eapply thread_step_cursors; [done|]. intros g v -> -> Heq.
  destruct (Hcs _ _ Htid) as [Ho _]. simpl in Ho.
  assert (tid = j) as ->.
  { eapply (owns_inj _ _ _ (Z.of_nat c)); [done|by unfold owns; rewrite Hj|lia]. }
  by rewrite list_lookup_insert_eq, Htid in Hsame by by eapply lookup_lt_Some.
Qed.

(** A schedule that keeps the discipline reaches its end under it. *)
Lemma own_run_reachable sched s :
  Forall (own_move cid) sched → rtc (step_own cid) s (run sched s).
Proof. apply run_where. Qed.

End owned_lemmas.

(** ** The theorem *)

Section owned_theorems.
Context {V : Type}.
Variable cid : nat → option nat.
Hypothesis cid_inj : ∀ i j c, cid i = Some c → cid j = Some c → i = j.
Implicit Types (s : system V) (rb : RingBuffer V) (t : thread V) (g : frame V).

(** At every point of a call of [Get], what the call has copied so far
    is the run of the log that ends at the cursor of its consumer. *)
Lemma own_results_up_to_cursor sz n (k : nat) rb s (tid : nat) t g :
  NewRingBuffer sz n = Ret rb → 0 < sz ≤ int64_max →
  rtc (step_own cid) (init rb k) s → len (claimed s) < sz →
  threads s !! tid = Some t → frame_of t = Some g →
  results_ok (claimed s) g ∧
  readCursors (ring s) !! Z.to_nat (f_consumerId g) = Some (f_nextRead g - 1).
Proof.
  intros Hnew Hsz Hreach Hlap Htid Hg.
  assert (size rb = sz) as Hsize.
  { destruct (decide (0 ≤ n)); [|by rewrite NewRingBuffer_Panic in Hnew by lia].
    rewrite NewRingBuffer_Ret in Hnew by lia. by injection Hnew as <-. }
  destruct (reachable_cursors_ok cid cid_inj (init rb k) s) as [[_ Hts] Hcs];
    [by eapply init_system_ok|apply init_cursors_ok|done|simpl; lia|].
  pose proof (proj1 (Forall_lookup _ _) Hts _ _ Htid) as Hres.
  destruct (cursor_ok_frame cid _ _ _ _ (Hcs _ _ Htid) Hg) as [_ Hcur].
  split; [|done]. destruct t; simpl in Hg, Hres; try done;
    injection Hg as <-; tauto.
Qed.

(** One thread per consumer, the first lap, every interleaving:
    when a [Get] returns, the payloads it returns are exactly the
    entries of the log of claimed items that end at the cursor of its
    consumer, as many as it returns.  The cursor moves in this thread's
    calls only, so successive [Get]s of a consumer return adjacent runs
    of the log: nothing twice, nothing skipped, whatever the producers
    and the other consumers do in between. *)
Theorem own_Get_returns_up_to_cursor sz n (k : nat) rb s (tid : nat) g :
  NewRingBuffer sz n = Ret rb → 0 < sz ≤ int64_max →
  rtc (step_own cid) (init rb k) s → len (claimed s) < sz →
  threads s !! tid = Some (GetDone g) →
  ∃ c, readCursors (ring s) !! Z.to_nat (f_consumerId g) = Some c ∧
    -1 ≤ c - len (f_results g) ∧
    f_results g = segment (c - len (f_results g)) (len (f_results g)) (claimed s).
Proof.
  intros Hnew Hsz Hreach Hlap Htid.
  destruct (own_results_up_to_cursor sz n k rb s tid _ g Hnew Hsz Hreach Hlap Htid eq_refl)
    as [Hres Hcur].
  exists (f_nextRead g - 1). split; [done|]. split; [destruct Hres; lia|].
  replace (f_nextRead g - 1 - len (f_results g))
    with (f_nextRead g - len (f_results g) - 1) by lia.
  by apply published_at_segment.
Qed.

End owned_theorems.

(** ** The theorem at the schedule of the first lap *)

(** The threads of [main]: thread 0 is the producer, thread [i + 1] is
    the consumer [i]. *)
Definition main_cid (tid : nat) : option nat :=
  match tid with O => None | S i => Some i end.

Lemma main_cid_inj i j c : main_cid i = Some c → main_cid j = Some c → i = j.
Proof. destruct i, j; simpl; congruence. Qed.

Lemma sched_lap1_own : Forall (own_move (V := Z) main_cid) sched_lap1.
Proof. unfold sched_lap1, steps. simpl. repeat constructor. Qed.

Lemma own_Get_returns_up_to_cursor_witness :
  ∃ c, [1; -1] !! Z.to_nat 0 = Some c ∧ -1 ≤ c - 2 ∧
    [Some 10; Some 20] = segment (c - 2) 2 [Some 10; Some 20].
Proof.
  apply (own_Get_returns_up_to_cursor main_cid main_cid_inj 4 2 2 ring0 lap1_end 1
           (mkFrame 2 0 2 2 [Some 10; Some 20])); [reflexivity|done| |done|done].
  rewrite <- lap1_run. apply own_run_reachable, sched_lap1_own.
Defined.
