(* ===== verification/Streams.v ===== *)
(** * What a consumer has received

    The system of [Concurrent] records for every consumer what the calls
    of [Get] for it have returned ([delivered]).  Under the discipline
    of [Consumers] (one thread per consumer) and in the first lap this
    file shows the broadcast property of the specification in every
    interleaving: what a consumer has been handed so far, followed by
    what its call in progress has copied, is the first [cursor + 1]
    items claimed, each once and in order. *)

From stdpp Require Import prelude.
From S2P Require Import Prelude GoInt GoSlice RingBuffer RingLog Threads Concurrent.
From S2P Require Import Consumers.

Section stream_defs.
Context {V : Type}.
Variable cid : nat → option nat.

(** What the call a thread is in has copied so far. *)
Definition in_flight (t : thread V) : list (option V) :=
  match frame_of t with
  | Some g => f_results g
  | None => []
  end.

Definition crashed (t : thread V) : Prop := ∃ p, t = Crashed p.

(** The consumer that thread [tid] serves has received the log up to
    its cursor. *)
Definition stream_ok (rb : RingBuffer V) (es : list (option V))
    (ds : list (list (option V))) (tid : nat) (t : thread V) : Prop :=
  ¬ crashed t →
  ∀ (c : nat) cur d,
    cid tid = Some c → readCursors rb !! c = Some cur → ds !! c = Some d →
    cur + 1 ≤ len es ∧ d ++ in_flight t = take (Z.to_nat (cur + 1)) es.

Definition streams_ok (s : system V) : Prop :=
  ∀ (tid : nat) t,
    threads s !! tid = Some t → stream_ok (ring s) (claimed s) (delivered s) tid t.

End stream_defs.

Section stream_lemmas.
Context {V : Type}.
Variable cid : nat → option nat.
Hypothesis cid_inj : ∀ i j c, cid i = Some c → cid j = Some c → i = j.
Implicit Types (s : system V) (rb : RingBuffer V) (t : thread V) (g : frame V).
Implicit Types (es : list (option V)) (ds : list (list (option V))) (tid j c : nat).

(** A step that moves neither the cursor nor what was handed over nor
    what is in flight. *)
Lemma stream_ok_quiet rb rb' es es' ds ds' tid t t' :
  stream_ok cid rb es ds tid t → ¬ crashed t →
  crashed t' ∨ in_flight t' = in_flight t → es `prefix_of` es' →
  (∀ c, cid tid = Some c →
     readCursors rb' !! c = readCursors rb !! c ∧ ds' !! c = ds !! c) →
  stream_ok cid rb' es' ds' tid t'.
Proof.
  intros Hok Ht [Hcr|Hfl] [k ->] Hsame Hcr' c cur d Hc Hcur Hd; [done|].
  destruct (Hsame c Hc) as [Hcs Hds]. rewrite Hcs in Hcur. rewrite Hds in Hd.
  destruct (Hok Ht c cur d Hc Hcur Hd) as [Hle Heq].
  rewrite len_app, Hfl. pose proof (len_nonneg k).
  split; [lia|]. rewrite take_app_le by (unfold len in Hle; lia). done.
Qed.

(** The thread of another consumer serves another consumer. *)
Lemma owner_other rb tid t g j c :
  cursor_ok cid rb tid t → frame_of t = Some g → cid j = Some c → j ≠ tid →
  Z.to_nat (f_consumerId g) ≠ c.
Proof.
  intros Hc Hg Hj Hne Heq.
  destruct (cursor_ok_frame cid _ _ _ _ Hc Hg) as [Ho _]. destruct Hne.
  eapply (owns_inj cid cid_inj _ _ (Z.of_nat c)); [by unfold owns; rewrite Hj|done|lia].
Qed.

(** The steps that neither store a cursor nor return from [Get]. *)
Lemma thread_step_quiet t rb t' rb' :
  thread_step t rb = Some (t', rb') →
  (∀ g v, t ≠ GetStore g v) → (∀ g, t ≠ GetDone g) →
  (crashed t' ∨ in_flight t' = in_flight t) ∧ readCursors rb' = readCursors rb.
Proof.
  intros Hs Hst Hdone.
  destruct t as [|data|[|d data] nw|d data nw| |b id|g|g|g|g|g v|g|g|g m k|g m|g|p];
    try (by destruct (Hst _ _ eq_refl)); try (by destruct (Hdone _ eq_refl));
    simpl in Hs; repeat case_decide; try destruct (readCursors rb !! k);
    step_inv Hs; try case_decide; try (by split; [right|]); by split; [left; eexists|].
Qed.

(** The store of the cursor: one more item in flight, the cursor one
    further. *)
Lemma store_step_stream rb es ds tid g v t' rb' :
  thread_ok rb es (GetStore g v) → cursor_ok cid rb tid (GetStore g v) →
  stream_ok cid rb es ds tid (GetStore g v) →
  thread_step (GetStore g v) rb = Some (t', rb') →
  stream_ok cid rb' es ds tid t'.
Proof.
  intros [[Hnr _] Hv] [Ho Hcur] Hok Hs. simpl in Hs.
  pose proof (len_nonneg (f_results g)).
  assert (¬ crashed (GetStore g v)) as Hnc by by intros [p Hp].
  step_inv Hs; [|by intros []; eexists|done].
  apply store_Ret_inv in E as [[Hid Hin] ->].
  intros _ c cur d Hc Hcur' Hd. unfold owns in Ho. rewrite Hc in Ho.
  injection Ho as Ho. rewrite <- Ho, Nat2Z.id in Hcur, Hcur'. simpl in Hcur'.
  rewrite list_lookup_insert_eq in Hcur' by by eapply lookup_lt_Some.
  injection Hcur' as <-. destruct (Hok Hnc c _ d Hc Hcur Hd) as [Hle Heq].
  pose proof (lookup_lt_Some _ _ _ Hv) as Hlt. split; [unfold len; lia|].
  replace (f_nextRead g - 1 + 1) with (f_nextRead g) in Heq by lia.
  replace (Z.to_nat (f_nextRead g + 1)) with (S (Z.to_nat (f_nextRead g))) by lia.
  rewrite (take_S_r _ _ v) by done. rewrite <- Heq.
  unfold in_flight. simpl. by rewrite app_assoc.
Qed.

(** The return of [Get]: what was in flight is handed over. *)
Lemma done_step_stream rb es ds tid g :
  cursor_ok cid rb tid (GetDone g) → stream_ok cid rb es ds tid (GetDone g) →
  stream_ok cid rb es (deliver (GetDone g) ds) tid Idle.
Proof.
  intros [Ho _] Hok _ c cur d Hc Hcur Hd. unfold owns in Ho. rewrite Hc in Ho.
  injection Ho as Ho. simpl in Hd. rewrite <- Ho, Nat2Z.id in Hd.
  rewrite list_lookup_alter_eq in Hd.
  destruct (ds !! c) as [d0|] eqn:Hd0; [|done]. injection Hd as <-.
  destruct (Hok (λ '(ex_intro _ p Hp), ltac:(done)) c cur d0 Hc Hcur Hd0) as [Hle Heq].
  split; [done|]. unfold in_flight in *. simpl in *. by rewrite app_nil_r.
Qed.

(** A step that is neither the store of the cursor nor the return. *)
Lemma quiet_step_stream rb es ds tid t t' rb' :
  thread_step t rb = Some (t', rb') →
  (∀ g v, t ≠ GetStore g v) → (∀ g, t ≠ GetDone g) →
  stream_ok cid rb es ds tid t →
  stream_ok cid rb' (es ++ claims t) (deliver t ds) tid t'.
Proof.
  intros Hs Hst Hdone Hok. destruct (thread_step_quiet _ _ _ _ Hs Hst Hdone) as [Hfl Hcs].
  apply (stream_ok_quiet rb rb' es _ ds _ tid t t' Hok);
    [by intros [p ->]|done|by apply prefix_app_r|].
  intros c _. rewrite Hcs. split; [done|]. destruct t; try done. by destruct (Hdone g).
Qed.

(** A step of thread [tid] and the consumer it serves. *)
Lemma own_step_stream rb es ds tid t t' rb' :
  thread_ok rb es t → cursor_ok cid rb tid t → stream_ok cid rb es ds tid t →
  thread_step t rb = Some (t', rb') →
  stream_ok cid rb' (es ++ claims t) (deliver t ds) tid t'.
Proof.
  intros Ht Hc Hok Hs.
  destruct t as [|data|data nw|d data nw| |b id|g|g|g|g|g v|g|g|g m k|g m|g|p];
    try (by apply (quiet_step_stream rb es ds tid _ t' rb' Hs)).
  - cbn [claims deliver]. rewrite app_nil_r. by eapply store_step_stream.
  - injection Hs as <- <-. cbn [claims]. rewrite app_nil_r. by apply done_step_stream.
Qed.

(** A step of thread [tid] and the consumer another thread serves. *)
Lemma other_step_stream rb es ds tid t t' rb' j t2 :
  cursor_ok cid rb tid t → thread_step t rb = Some (t', rb') → j ≠ tid →
  stream_ok cid rb es ds j t2 →
  stream_ok cid rb' (es ++ claims t) (deliver t ds) j t2.
Proof.
  intros Hc Hs Hj Hok Hnc.
  apply (stream_ok_quiet rb rb' es _ ds _ j t2 t2 Hok Hnc);
    [by right|by apply prefix_app_r| |done].
  intros c Hjc. split.
  - eapply thread_step_cursors; [done|]. intros g v -> _.
    by eapply owner_other.
  - destruct t; try done. simpl. apply list_lookup_alter_ne. by eapply owner_other.
Qed.

End stream_lemmas.

(** ** The streams in every interleaving *)

Section stream_system.
Context {V : Type}.
Variable cid : nat → option nat.
Hypothesis cid_inj : ∀ i j c, cid i = Some c → cid j = Some c → i = j.
Implicit Types (s : system V) (rb : RingBuffer V) (t : thread V).

(** One step of the system under the discipline. *)
Lemma step_streams_ok s s' :
  system_ok s → cursors_ok cid s → streams_ok cid s → step_own cid s s' →
  streams_ok cid s'.
Proof.
  intros Hsys Hcs Hst Hstep. revert Hsys Hcs Hst.
  destruct Hstep as [s tid c Htid Hown|s tid t t' rb' Htid Hs];
    intros [Hok Hts] Hcs Hst j t2; simpl.
  - destruct (decide (j = tid)) as [->|Hj]; [|rewrite list_lookup_insert_ne by done; apply Hst].
    rewrite list_lookup_insert_eq by by eapply lookup_lt_Some. intros [= <-].
    apply (stream_ok_quiet cid _ _ _ _ _ _ tid Idle _ (Hst _ _ Htid));
      [by intros [p Hp]|right; by destruct c|done..].
  - pose proof (proj1 (Forall_lookup _ _) Hts _ _ Htid) as Ht.
    destruct (decide (j = tid)) as [->|Hj].
    + rewrite list_lookup_insert_eq by by eapply lookup_lt_Some. intros [= <-].
      by eapply own_step_stream; eauto.
    + rewrite list_lookup_insert_ne by done. intros Ht2.
      eapply other_step_stream; eauto.
Qed.

(** The three invariants in every interleaving of the first lap. *)
Lemma reachable_streams_ok s0 s :
  system_ok s0 → cursors_ok cid s0 → streams_ok cid s0 →
  rtc (step_own cid) s0 s → len (claimed s) < size (ring s0) → streams_ok cid s.
Proof.
  intros Hok0 Hcs0 Hst0 Hreach. revert s Hreach.
  apply (rtc_ind_r (λ s, len (claimed s) < size (ring s0) → streams_ok cid s)); [done|].
  intros s1 s2 Hreach Hstep IH Hlap.
  pose proof (prefix_length _ _ (step_claimed _ _ (step_own_step _ _ _ Hstep))) as Hlen.
  assert (len (claimed s1) < size (ring s0)) as Hlap1 by (unfold len in *; lia).
  destruct (reachable_cursors_ok cid cid_inj s0 s1) as [Hsys Hcs]; [done..|].
  by apply (step_streams_ok s1); [| |apply IH|].
Qed.

(** Nothing has been handed over on a new ring. *)
Lemma init_streams_ok rb (k : nat) :
  Forall (λ c, c = -1) (readCursors rb) → streams_ok cid (init rb k).
Proof.
  intros Hnew tid t [-> _]%lookup_replicate _ c cur d _ Hcur Hd. simpl in *.
  apply (proj1 (Forall_lookup _ _) Hnew) in Hcur as ->.
  apply lookup_replicate in Hd as [-> _]. split; [unfold len; simpl; lia|done].
Qed.

End stream_system.

(** ** The theorem *)

Section stream_theorems.
Context {V : Type}.
Variable cid : nat → option nat.
Hypothesis cid_inj : ∀ i j c, cid i = Some c → cid j = Some c → i = j.
Implicit Types (s : system V) (rb : RingBuffer V) (t : thread V).

(** From a new ring, in the first lap. *)
Lemma new_streams_ok sz n (k : nat) rb s :
  NewRingBuffer sz n = Ret rb → 0 < sz ≤ int64_max →
  rtc (step_own cid) (init rb k) s → len (claimed s) < sz → streams_ok cid s.
Proof.
  intros Hnew Hsz Hreach Hlap.
  destruct (decide (0 ≤ n)); [|by rewrite NewRingBuffer_Panic in Hnew by lia].
  pose proof (init_system_ok _ _ _ k Hnew Hsz) as Hok0.
  rewrite NewRingBuffer_Ret in Hnew by lia. injection Hnew as <-.
  apply (reachable_streams_ok cid cid_inj _ s Hok0) in Hreach;
    [done|apply init_cursors_ok|apply init_streams_ok; by apply Forall_replicate|done].
Qed.

(** C4: the broadcast property in every interleaving of the first lap.
    With one thread per consumer, whatever the producers and the other
    consumers do and however the steps interleave: everything the calls
    of [Get] have returned to a consumer so far, followed by what its
    call in progress has copied, is exactly the first [cursor + 1] items
    claimed, in the order of the claims, each once and none skipped. *)
Theorem consumer_stream_is_log_prefix sz n (k : nat) rb s (tid : nat) t (c : nat) cur d :
  NewRingBuffer sz n = Ret rb → 0 < sz ≤ int64_max →
  rtc (step_own cid) (init rb k) s → len (claimed s) < sz →
  threads s !! tid = Some t → ¬ crashed t → cid tid = Some c →
  readCursors (ring s) !! c = Some cur → delivered s !! c = Some d →
  d ++ in_flight t = take (Z.to_nat (cur + 1)) (claimed s).
Proof.
  intros Hnew Hsz Hreach Hlap Htid Hnc Hc Hcur Hd.
  by destruct (new_streams_ok sz n k rb s Hnew Hsz Hreach Hlap tid t Htid Hnc c cur d).
Qed.

End stream_theorems.

(** ** The theorem at a schedule of the first lap *)

(** The producer of [main] and two of its consumers on the ring of four
    slots: three items are published while the consumers read; consumer
    0 has been handed two items and is in its second call. *)
Definition sched_stream : list (nat * option (call Z)) :=
  [(0%nat, Some (CallPut [Some 10; Some 20; Some 30])); (0%nat, None);
   (1%nat, Some (CallGet 2 0)); (2%nat, Some (CallGet 1 1))] ++
  steps 1 3 ++ steps 0 2 ++ steps 2 7 ++ steps 1 4 ++ steps 0 2 ++ steps 2 6 ++
  steps 1 13 ++ steps 0 4 ++ [(1%nat, Some (CallGet 1 0))] ++ steps 1 6.

Definition stream_end : system Z :=
  mkSystem (mkRingBuffer 4 [Some 10; Some 20; Some 30; None] 3 [2; 0] [1; 1; 1; 0] 0 0)
    [Idle; GetLoop (mkFrame 1 0 1 3 [Some 30]); Idle]
    [Some 10; Some 20; Some 30] [[Some 10; Some 20]; [Some 10]].

Lemma stream_run : run sched_stream (init ring0 3) = stream_end.
Proof. by vm_compute. Qed.

Lemma sched_stream_own : Forall (own_move (V := Z) main_cid) sched_stream.
Proof. unfold sched_stream, steps. simpl. repeat constructor. Qed.

Lemma consumer_stream_is_log_prefix_witness :
  [Some 10; Some 20] ++ in_flight (GetLoop (mkFrame 1 0 1 3 [Some 30]))
  = take (Z.to_nat (2 + 1)) [Some 10; Some 20; Some 30].
Proof.
  apply (consumer_stream_is_log_prefix main_cid main_cid_inj 4 2 3 ring0 stream_end 1
           (GetLoop (mkFrame 1 0 1 3 [Some 30])) 0 2 [Some 10; Some 20]);
    try done; [|by intros [p Hp]].
  rewrite <- stream_run. apply own_run_reachable, sched_stream_own.
Defined.
