(* ===== verification/Goroutines.v ===== *)
(** * Goroutines: the programs around the ring

    The goroutines of [main] (src/lmax.go) and of the tests and
    benchmarks (src/lmax_test.go) as threads of [Concurrent] that carry
    a [task]: what the goroutine does between its calls of [Put] and
    [Get].  A step of a goroutine ([go_step]) is a step of its call, the
    start of its next call, or a step of its own code: the [select] of
    [Consumer], the test [len(dataBatch) == 0] of the consumers of
    [TestConcurrency], [close(stopCh)], [wg.Wait()].  The calls
    interleave at every access to the ring.

    Every run of such a pool is a run of the system of [Concurrent] in
    which each goroutine makes the calls of its task only
    ([go_run_where]), so the theorems of [Safety], [Consumers] and
    [Streams] hold of the programs; the theorems of this file say what
    that means for [TestConcurrency] and [main]. *)

From stdpp Require Import prelude.
From S2P Require Import Prelude GoInt GoSlice RingBuffer RingLog Workload Harness.
From S2P Require Import Threads Concurrent Safety Consumers Streams.

Section goroutine_defs.
Context {V : Type}.
Local Abbreviation iface := (option V).

(** What a goroutine has still to do when it is not inside a call. *)
Inductive task : Type :=
| Producing (batches : list (list iface)) (close : bool)
| Entering (id batchSize : Z)
| Serving (id batchSize : Z)
| Draining (id batchSize : Z)
| Waiting (others : list nat) (close : bool)
| Exited.

(** A line of output: [fmt.Printf] of [Consumer], [t.Logf] of the
    consumers of [TestConcurrency]. *)
Inductive line : Type :=
| Printf (e : event V)
| Logf (id : Z) (data : iface).

(** What a goroutine does next between two calls: it makes a call and
    goes on as [k], it goes on as [k] after some output and perhaps
    [close(stopCh)], it panics, or it waits. *)
Inductive next : Type :=
| Call (c : call V) (k : task)
| Become (k : task) (out : list line) (close : bool)
| Fail (p : panic)
| Block.

(** [for ... { Producer(ringBuffer, ...) }], then [close(stopCh)] where
    the goroutine does that. *)
Definition produce_next (batches : list (list iface)) (close : bool) : next :=
  match batches with
  | data :: batches' => Call (CallPut data) (Producing batches' close)
  | [] => Become Exited [] close
  end.

(** The entry of [Consumer]: [results := make([]interface{}, batchSize)]. *)
Definition enter_next (id batchSize : Z) : next :=
  match make (None : iface) batchSize with
  | Ret _ => Become (Serving id batchSize) [] false
  | Panic p => Fail p
  | Spin => Block
  end.

(** The [select] of [Consumer]. *)
Definition serve_next (stopped : bool) (id batchSize : Z) : next :=
  if stopped then Become Exited [Printf (Stopping id)] false
  else Call (CallGet batchSize id) (Serving id batchSize).

(** The loop of a consumer of [TestConcurrency]. *)
Definition drain_next (id batchSize : Z) : next :=
  Call (CallGet batchSize id) (Draining id batchSize).

(** The goroutine has returned. *)
Definition exited (k : task) : bool :=
  match k with
  | Exited => true
  | _ => false
  end.

(** [wg.Wait()], or the return of [b.RunParallel]. *)
Definition wait_next (tasks : list task) (others : list nat) (close : bool) : next :=
  if forallb (λ j, from_option exited false (tasks !! j)) others
  then Become Exited [] close else Block.

Definition next_of (stopped : bool) (tasks : list task) (k : task) : next :=
  match k with
  | Producing batches close => produce_next batches close
  | Entering id b => enter_next id b
  | Serving id b => serve_next stopped id b
  | Draining id b => drain_next id b
  | Waiting others close => wait_next tasks others close
  | Exited => Block
  end.

(** What a goroutine does with the results of a [Get]: [Consumer]
    prints the payloads that are not [nil]; a consumer of
    [TestConcurrency] returns when the batch is empty and logs every
    payload otherwise. *)
Definition return_of (k : task) (results : list iface) : task * list line :=
  match k with
  | Serving id b => (k, Printf <$> report id results)
  | Draining id b =>
      if decide (len results = 0) then (Exited, [])
      else (k, Logf id <$> results)
  | _ => (k, [])
  end.

(** The goroutines: the system of threads, the task of every thread,
    whether the stop channel is closed, and the output so far. *)
Record pool : Type := mkPool {
  sys : system V;
  tasks : list task;
  stopped : bool;
  output : list line;
}.

(** The thread [tid] crashed with the panic [p]. *)
Definition crash (tid : nat) (p : panic) (s : system V) : system V :=
  mkSystem (ring s) (<[tid := Crashed p]> (threads s)) (claimed s) (delivered s).

(** One step of goroutine [tid]. *)
Definition go_step (p : pool) (tid : nat) : pool :=
  match threads (sys p) !! tid, tasks p !! tid with
  | Some Idle, Some k =>
      match next_of (stopped p) (tasks p) k with
      | Call c k' =>
          mkPool (move (sys p) (tid, Some c)) (<[tid := k']> (tasks p)) (stopped p)
            (output p)
      | Become k' out close =>
          mkPool (sys p) (<[tid := k']> (tasks p)) (stopped p || close) (output p ++ out)
      | Fail pn => mkPool (crash tid pn (sys p)) (tasks p) (stopped p) (output p)
      | Block => p
      end
  | Some (GetDone g), Some k =>
      let '(k', out) := return_of k (f_results g) in
      mkPool (move (sys p) (tid, None)) (<[tid := k']> (tasks p)) (stopped p)
        (output p ++ out)
  | Some _, Some _ =>
      mkPool (move (sys p) (tid, None)) (tasks p) (stopped p) (output p)
  | _, _ => p
  end.

(** The goroutines run in the order of a schedule. *)
Definition go_run (sched : list nat) (p : pool) : pool := foldl go_step p sched.

(** The goroutines with the tasks [ks] on the ring [rb]. *)
Definition spawn (rb : RingBuffer V) (ks : list task) : pool :=
  mkPool (init rb (length ks)) ks false [].

(** The calls a task can make. *)
Definition task_calls (k : task) (c : call V) : Prop :=
  match k with
  | Producing batches _ => ∃ data, c = CallPut data ∧ data ∈ batches
  | Entering id b | Serving id b | Draining id b => c = CallGet b id
  | Waiting _ _ | Exited => False
  end.

(** The calls the goroutines with the tasks [ks] can make. *)
Definition pool_calls (ks : list task) (tid : nat) (c : call V) : Prop :=
  ∃ k, ks !! tid = Some k ∧ task_calls k c.

(** The calls of the tasks that are left are calls of the tasks at the
    start. *)
Definition tasks_within (ks0 ks : list task) : Prop :=
  ∀ (tid : nat) k c, ks !! tid = Some k → task_calls k c → pool_calls ks0 tid c.

(** What the consumer [id] logged. *)
Definition logged (id : Z) (out : list line) : list iface :=
  omap (λ l, match l with
             | Logf id' data => if decide (id' = id) then Some data else None
             | Printf _ => None
             end) out.

End goroutine_defs.

Arguments task V : clear implicits.
Arguments line V : clear implicits.
Arguments next V : clear implicits.
Arguments pool V : clear implicits.

(** ** The programs *)

(** [main] of src/lmax.go: the main goroutine makes the four calls of
    [Producer] and closes the stop channel, three goroutines run
    [Consumer] with batches of two. *)
Definition main_tasks : list (task Z) :=
  Producing main_batches true :: ((λ i, Entering i 2) <$> [0; 1; 2]).

Definition main_pool : outcome (pool Z) :=
  ringBuffer ← NewRingBuffer 10 3;
  Ret (spawn ringBuffer main_tasks).

(** The items producer [id] of [TestConcurrency] publishes, one per
    call. *)
Definition test_items (id : Z) : list (list (option Z)) :=
  (λ j, [Some (id * 100 + Z.of_nat j)]) <$> seq 0 100.

(** [TestConcurrency] of src/lmax_test.go: the goroutine of the test
    waits for three producers and three consumers. *)
Definition test_tasks : list (task Z) :=
  Waiting [1; 2; 3; 4; 5; 6]%nat false ::
  ((λ id, Producing (test_items id) false) <$> [0; 1; 2]) ++
  ((λ id, Draining id 10) <$> [0; 1; 2]).

Definition TestConcurrency : outcome (pool Z) :=
  ringBuffer ← NewRingBuffer 100 3;
  Ret (spawn ringBuffer test_tasks).

(** The benchmark with one producer, [N] iterations. *)
Definition BenchmarkSingleProducerSingleConsumer (N : nat) : outcome (pool Z) :=
  ringBuffer ← NewRingBuffer 100 1;
  Ret (spawn ringBuffer
         [Producing ((λ i, [Some (Z.of_nat i)]) <$> seq 0 N) true; Entering 0 10]).

(** The benchmark with parallel producers: [work] holds, for every
    goroutine of [b.RunParallel], the clock readings it publishes. *)
Definition BenchmarkMultipleProducersMultipleConsumers (work : list (list Z))
    : outcome (pool Z) :=
  ringBuffer ← NewRingBuffer 1000 3;
  Ret (spawn ringBuffer
         (Waiting (seq 4 (length work)) true ::
          ((λ i, Entering i 10) <$> [0; 1; 2]) ++
          ((λ ts, Producing ((λ t, [Some t]) <$> ts) false) <$> work))).

(** ** A run of goroutines is a run of threads *)

Section go_where.
Context {V : Type}.
Implicit Types (p : pool V) (k : task V) (ks : list (task V)) (c : call V).
Implicit Types (tid : nat) (sched : list nat).

(** No [make] of the tasks fails. *)
Definition task_ok (k : task V) : Prop :=
  match k with
  | Entering _ b => 0 ≤ b
  | _ => True
  end.

(** What holds of the tasks of a pool that started with the tasks
    [ks0]. *)
Definition tasks_ok (ks0 ks : list (task V)) : Prop :=
  tasks_within ks0 ks ∧ Forall task_ok ks.

(** The call a task makes next is one of its calls, and the task after
    the call makes no other calls. *)
Lemma next_Call stopped ks k c k' :
  next_of stopped ks k = Call c k' →
  task_calls k c ∧ task_ok k' ∧ ∀ c', task_calls k' c' → task_calls k c'.
Proof.
  destruct k as [[|data batches] close|id b|id b|id b|others close|]; simpl;
    unfold enter_next, serve_next, drain_next, wait_next;
    repeat case_match; intros [= <- <-]; simpl; split_and!; try done.
  - exists data. split; [done|apply list_elem_of_here].
  - intros c' (d & -> & Hd). exists d. split; [done|by apply list_elem_of_further].
Qed.

(** The task after a step of the goroutine's own code. *)
Lemma next_Become stopped ks k k' out close :
  next_of stopped ks k = Become k' out close → task_ok k →
  task_ok k' ∧ ∀ c', task_calls k' c' → task_calls k c'.
Proof.
  destruct k as [[|data batches] cl|id b|id b|id b|others cl|]; simpl;
    unfold enter_next, serve_next, drain_next, wait_next;
    repeat case_match; intros [= <- <- <-]; done.
Qed.

(** A task whose [make] succeeds does not fail. *)
Lemma next_Fail stopped ks k pn : next_of stopped ks k = Fail pn → ¬ task_ok k.
Proof.
  destruct k as [[|data batches] cl|id b|id b|id b|others cl|]; simpl;
    unfold enter_next, serve_next, drain_next, wait_next; repeat case_match; try done.
  intros _ Hb. by rewrite make_Ret in * by done.
Qed.

(** The task after the return of a [Get]. *)
Lemma return_of_calls k results :
  task_ok k → task_ok (return_of k results).1 ∧
  ∀ c', task_calls (return_of k results).1 c' → task_calls k c'.
Proof. destruct k; simpl; repeat case_decide; done. Qed.

(** One task replaced by a task that makes no other calls. *)
Lemma tasks_ok_insert ks0 ks tid k k' :
  tasks_ok ks0 ks → ks !! tid = Some k →
  task_ok k' → (∀ c', task_calls k' c' → task_calls k c') →
  tasks_ok ks0 (<[tid := k']> ks).
Proof.
  intros [Hin Hok] Hk Hk' Hsub. split; [|by apply Forall_insert].
  intros j k2 c. destruct (decide (j = tid)) as [->|Hj].
  - rewrite list_lookup_insert_eq by by eapply lookup_lt_Some.
    intros [= <-] Hc. eapply Hin; eauto.
  - rewrite list_lookup_insert_ne by done. apply Hin.
Qed.

(** One step of a goroutine: steps of the system in which every thread
    makes the calls of its task. *)
Lemma go_step_where ks0 p tid :
  tasks_ok ks0 (tasks p) →
  rtc (step_where (pool_calls ks0)) (sys p) (sys (go_step p tid)) ∧
  tasks_ok ks0 (tasks (go_step p tid)).
Proof.
  intros Hks. unfold go_step.
  destruct (threads (sys p) !! tid) as [t|] eqn:Ht; [|by split].
  destruct (tasks p !! tid) as [k|] eqn:Hk; [|by destruct t].
  pose proof (proj1 (Forall_lookup _ _) (proj2 Hks) _ _ Hk) as Hok.
  assert (rtc (step_where (pool_calls ks0)) (sys p) (move (sys p) (tid, None)))
    as Hmove by by apply move_where.
  destruct t; try (by split); simpl.
  - destruct (next_of _ _ k) as [c k'|k' out close|pn|] eqn:Hn; simpl; [| | |done].
    + destruct (next_Call _ _ _ _ _ Hn) as (Hc & Hk' & Hsub).
      split; [|by eapply tasks_ok_insert].
      apply move_where. unfold may_move. simpl. eapply (proj1 Hks); eauto.
    + destruct (next_Become _ _ _ _ _ _ Hn Hok). split; [done|by eapply tasks_ok_insert].
    + by destruct (next_Fail _ _ _ _ Hn).
  - destruct (return_of k (f_results g)) as [k' out] eqn:Hr. simpl.
    destruct (return_of_calls k (f_results g) Hok) as [Hk' Hsub]. rewrite Hr in *.
    split; [done|by eapply tasks_ok_insert].
Qed.

(** A run of goroutines is a run of the system in which every thread
    makes the calls of its task. *)
Lemma go_run_where ks0 sched p :
  tasks_ok ks0 (tasks p) →
  rtc (step_where (pool_calls ks0)) (sys p) (sys (go_run sched p)) ∧
  tasks_ok ks0 (tasks (go_run sched p)).
Proof.
  revert p. induction sched as [|tid sched IH]; intros p Hks; [by split|].
  destruct (go_step_where ks0 p tid Hks) as [Hstep Hks']. simpl.
  destruct (IH _ Hks') as [Hrun Hks'']. split; [by etrans|done].
Qed.

(** The tasks a pool starts with. *)
Lemma tasks_ok_start ks : Forall task_ok ks → tasks_ok ks ks.
Proof. intros Hok. split; [|done]. intros tid k c Hk Hc. by exists k. Qed.

End go_where.

(** ** How many items a pool can claim *)

Section owed.
Context {V : Type}.
Implicit Types (p : pool V) (k : task V) (t : thread V) (tid : nat) (l : list Z).

(** The items a goroutine has still to claim: those of the [Put] it is
    about to start and those of the calls of [Producer] to come. *)
Definition owed (t : thread V) (k : task V) : Z :=
  len (claims t) +
  match k with
  | Producing batches _ => len (mjoin batches)
  | _ => 0
  end.

Definition sum (l : list Z) : Z := foldr Z.add 0 l.

(** The items claimed and still to claim. *)
Definition total (p : pool V) : Z :=
  len (claimed (sys p)) + sum (zip_with owed (threads (sys p)) (tasks p)).

Lemma sum_insert l (i : nat) x y : l !! i = Some x → sum (<[i := y]> l) = sum l - x + y.
Proof.
  revert i. induction l as [|z l IH]; intros [|i] Hi; simplify_eq/=; [lia|].
  rewrite (IH i) by done. lia.
Qed.

Lemma sum_nonneg l : Forall (λ x, 0 ≤ x) l → 0 ≤ sum l.
Proof. induction 1; simpl; lia. Qed.

Lemma owed_nonneg t k : 0 ≤ owed t k.
Proof.
  unfold owed. pose proof (len_nonneg (claims t)).
  destruct k; try lia. pose proof (len_nonneg (mjoin batches)). lia.
Qed.

(** No step of a call leaves a thread at a fetch-and-add. *)
Lemma thread_step_claims t rb t' rb' :
  thread_step t rb = Some (t', rb') → claims t' = [].
Proof.
  destruct t as [|data|[|d data] nw|d data nw| |b id|g|g|g|g|g v|g|g|g m k|g m|g|p];
    simpl; repeat case_decide; try destruct (readCursors rb !! k);
    intros Hs; step_inv Hs; try case_decide; done.
Qed.

(** A step of goroutine [tid] that takes it from [(t, k)] to
    [(t', k')] and claims the items [more]. *)
Definition moves (p p' : pool V) (tid : nat) t k t' k' (more : list (option V)) : Prop :=
  threads (sys p') = <[tid := t']> (threads (sys p)) ∧
  tasks p' = <[tid := k']> (tasks p) ∧
  claimed (sys p') = claimed (sys p) ++ more ∧
  len more + owed t' k' = owed t k.

(** A step that keeps the account keeps the total. *)
Lemma moves_total p p' tid t k t' k' more :
  threads (sys p) !! tid = Some t → tasks p !! tid = Some k →
  moves p p' tid t k t' k' more → total p' = total p.
Proof.
  intros Ht Hk (Hts & Hks & Hcl & Hacc). unfold total.
  rewrite Hts, Hks, Hcl, len_app, <- insert_zip_with.
  rewrite (sum_insert _ _ (owed t k)); [lia|].
  rewrite lookup_zip_with, Ht, Hk. done.
Qed.

(** A step of the call a thread is in. *)
Lemma move_None (s : system V) tid t :
  threads s !! tid = Some t →
  ∃ t' more,
    threads (move s (tid, None)) = <[tid := t']> (threads s) ∧
    claimed (move s (tid, None)) = claimed s ++ more ∧
    len more + len (claims t') = len (claims t).
Proof.
  intros Ht.
  assert (move s (tid, None) =
            match thread_step t (ring s) with
            | Some (t', rb') =>
                mkSystem rb' (<[tid := t']> (threads s)) (claimed s ++ claims t)
                  (deliver t (delivered s))
            | None => s
            end) as -> by (unfold move; simpl; rewrite Ht; by destruct t).
  destruct (thread_step t (ring s)) as [[t' rb']|] eqn:Hs.
  - exists t', (claims t). rewrite (thread_step_claims _ _ _ _ Hs), len_nil.
    split_and!; [done..|lia].
  - exists t, []. by rewrite list_insert_id, app_nil_r, len_nil.
Qed.

(** A step of the call the goroutine is in. *)
Lemma moves_in_call p tid t k k' st out :
  threads (sys p) !! tid = Some t → owed Idle k' = owed Idle k →
  ∃ t' more,
    moves p (mkPool (move (sys p) (tid, None)) (<[tid := k']> (tasks p)) st out)
      tid t k t' k' more.
Proof.
  intros Ht Hkk. destruct (move_None (sys p) tid t Ht) as (t' & more & Hts & Hcl & Hacc).
  exists t', more. split_and!; [done..|]. unfold owed in *. lia.
Qed.

(** The call a task makes next was owed. *)
Lemma next_Call_owed stopped ks k c k' :
  next_of stopped ks k = Call c k' → owed (start c) k' = owed Idle k.
Proof.
  destruct k as [[|data batches] close|id b|id b|id b|others close|]; simpl;
    unfold enter_next, serve_next, drain_next, wait_next;
    repeat case_match; intros [= <- <-]; try done.
  unfold owed. simpl. rewrite len_nil, len_app. lia.
Qed.

Lemma next_Become_owed stopped ks k k' out close :
  next_of stopped ks k = Become k' out close → owed Idle k' = owed Idle k.
Proof.
  destruct k as [[|data batches] cl|id b|id b|id b|others cl|]; simpl;
    unfold enter_next, serve_next, drain_next, wait_next;
    repeat case_match; intros [= <- <- <-]; done.
Qed.

Lemma return_of_owed k results : owed Idle (return_of k results).1 = owed Idle k.
Proof. destruct k; simpl; repeat case_decide; done. Qed.

(** The start of a call, a step of the goroutine's own code, a crash. *)
Lemma moves_idle p tid k s' t' k' st out :
  threads s' = <[tid := t']> (threads (sys p)) → claimed s' = claimed (sys p) →
  owed t' k' = owed Idle k →
  moves p (mkPool s' (<[tid := k']> (tasks p)) st out) tid Idle k t' k' [].
Proof.
  intros Hts Hcl Hacc.
  split_and!; simpl; [done..|by rewrite app_nil_r|by rewrite len_nil].
Qed.

(** The goroutine between two calls. *)
Lemma go_step_moves_idle p tid k :
  threads (sys p) !! tid = Some Idle → tasks p !! tid = Some k →
  ∃ t' k' more,
    moves p
      match next_of (stopped p) (tasks p) k with
      | Call c k' =>
          mkPool (move (sys p) (tid, Some c)) (<[tid := k']> (tasks p)) (stopped p)
            (output p)
      | Become k' out close =>
          mkPool (sys p) (<[tid := k']> (tasks p)) (stopped p || close) (output p ++ out)
      | Fail pn => mkPool (crash tid pn (sys p)) (tasks p) (stopped p) (output p)
      | Block => p
      end tid Idle k t' k' more.
Proof.
  intros Ht Hk.
  destruct (next_of _ _ k) as [c k'|k' out close|pn|] eqn:Hn.
  - exists (start c), k', []. apply moves_idle; [by rewrite move_call..|].
    by eapply next_Call_owed.
  - exists Idle, k', []. apply moves_idle; [by rewrite list_insert_id|done|].
    by eapply next_Become_owed.
  - exists (Crashed pn), k, []. split_and!; simpl; [done|by rewrite list_insert_id|..].
    + by rewrite app_nil_r.
    + by rewrite len_nil.
  - exists Idle, k, []. split_and!; by rewrite ?list_insert_id, ?app_nil_r, ?len_nil.
Qed.

(** What a step of goroutine [tid] changes: its thread, its task and
    the items claimed. *)
Lemma go_step_moves p tid t k :
  threads (sys p) !! tid = Some t → tasks p !! tid = Some k →
  ∃ t' k' more, moves p (go_step p tid) tid t k t' k' more.
Proof.
  intros Ht Hk. unfold go_step. rewrite Ht, Hk.
  assert (∃ t' k' more,
            moves p (mkPool (move (sys p) (tid, None)) (tasks p) (stopped p) (output p))
              tid t k t' k' more) as Hcall.
  { destruct (moves_in_call p tid t k k (stopped p) (output p) Ht eq_refl)
      as (t' & more & H1 & H2 & H3 & H4).
    exists t', k, more. split_and!; simpl in *; [done|by rewrite list_insert_id|done..]. }
  destruct t; try apply Hcall.
  - by apply go_step_moves_idle.
  - destruct (return_of k (f_results g)) as [k' out] eqn:Hr.
    destruct (moves_in_call p tid (GetDone g) k k' (stopped p) (output p ++ out) Ht)
      as (t' & more & Hm); [by rewrite <- (return_of_owed k (f_results g)), Hr|].
    by exists t', k', more.
Qed.

(** A goroutine the pool does not have takes no step. *)
Lemma go_step_none p tid :
  threads (sys p) !! tid = None ∨ tasks p !! tid = None → go_step p tid = p.
Proof.
  unfold go_step. intros [->| ->]; [done|]. by destruct (threads (sys p) !! tid) as [[]|].
Qed.

(** The cases of a step of a goroutine. *)
Lemma go_step_cases p tid :
  go_step p tid = p ∨
  ∃ t k t' k' more,
    threads (sys p) !! tid = Some t ∧ tasks p !! tid = Some k ∧
    moves p (go_step p tid) tid t k t' k' more.
Proof.
  destruct (threads (sys p) !! tid) as [t|] eqn:Ht; [|left; apply go_step_none; by left].
  destruct (tasks p !! tid) as [k|] eqn:Hk; [|left; apply go_step_none; by right].
  right. destruct (go_step_moves p tid t k Ht Hk) as (t' & k' & more & Hm).
  by exists t, k, t', k', more.
Qed.

(** No step of a goroutine changes the number of items claimed and
    still to claim. *)
Lemma go_step_total p tid : total (go_step p tid) = total p.
Proof.
  destruct (go_step_cases p tid) as [->|(t & k & t' & k' & more & Ht & Hk & Hm)]; [done|].
  by eapply moves_total.
Qed.

(** A step of another goroutine leaves the thread and the task of a
    goroutine alone. *)
Lemma go_step_other p j tid :
  j ≠ tid →
  threads (sys (go_step p j)) !! tid = threads (sys p) !! tid ∧
  tasks (go_step p j) !! tid = tasks p !! tid.
Proof.
  intros Hne.
  destruct (go_step_cases p j) as [->|(t & k & t' & k' & more & _ & _ & Hm)]; [done|].
  destruct Hm as (-> & -> & _). by rewrite !list_lookup_insert_ne.
Qed.

(** No step claims less. *)
Lemma go_step_claimed p j : claimed (sys p) `prefix_of` claimed (sys (go_step p j)).
Proof.
  destruct (go_step_cases p j) as [->|(t & k & t' & k' & more & _ & _ & Hm)]; [done|].
  destruct Hm as (_ & _ & -> & _). by apply prefix_app_r.
Qed.

(** The stop channel is never opened again, and no output is taken
    back. *)
Lemma go_step_stopped p j : stopped p = true → stopped (go_step p j) = true.
Proof.
  intros Hst. unfold go_step.
  destruct (threads (sys p) !! j) as [t|]; [|done].
  destruct (tasks p !! j) as [k|]; [|by destruct t].
  destruct t; try done.
  - destruct (next_of _ _ k); simpl; by rewrite ?Hst.
  - by destruct (return_of k _).
Qed.

Lemma go_step_output p j : output p `prefix_of` output (go_step p j).
Proof.
  unfold go_step.
  destruct (threads (sys p) !! j) as [t|]; [|done].
  destruct (tasks p !! j) as [k|]; [|by destruct t].
  destruct t; try done.
  - destruct (next_of _ _ k); simpl; try done. by apply prefix_app_r.
  - destruct (return_of k _). by apply prefix_app_r.
Qed.

(** What a goroutine has still to claim, it claims: the items claimed
    and those one goroutine owes never become fewer. *)
Lemma go_step_owed p j tid t k :
  threads (sys p) !! tid = Some t → tasks p !! tid = Some k →
  ∃ t' k',
    threads (sys (go_step p j)) !! tid = Some t' ∧ tasks (go_step p j) !! tid = Some k' ∧
    len (claimed (sys p)) + owed t k ≤ len (claimed (sys (go_step p j))) + owed t' k'.
Proof.
  intros Ht Hk. pose proof (prefix_length _ _ (go_step_claimed p j)) as Hpre.
  destruct (decide (j = tid)) as [->|Hne].
  - destruct (go_step_moves p tid t k Ht Hk) as (t' & k' & more & H1 & H2 & H3 & H4).
    exists t', k'. rewrite H1, H2, H3, len_app.
    rewrite !list_lookup_insert_eq by by eapply lookup_lt_Some. split_and!; [done..|lia].
  - destruct (go_step_other p j tid Hne) as [-> ->]. exists t, k.
    split_and!; [done..|]. unfold len. lia.
Qed.

Lemma go_run_owed sched p tid t k :
  threads (sys p) !! tid = Some t → tasks p !! tid = Some k →
  ∃ t' k',
    threads (sys (go_run sched p)) !! tid = Some t' ∧
    tasks (go_run sched p) !! tid = Some k' ∧
    len (claimed (sys p)) + owed t k ≤ len (claimed (sys (go_run sched p))) + owed t' k'.
Proof.
  revert p t k. induction sched as [|j sched IH]; intros p t k Ht Hk; [by exists t, k|].
  destruct (go_step_owed p j tid t k Ht Hk) as (t1 & k1 & Ht1 & Hk1 & Hle).
  destruct (IH _ t1 k1 Ht1 Hk1) as (t' & k' & Ht' & Hk' & Hle').
  change (go_run (j :: sched) p) with (go_run sched (go_step p j)).
  exists t', k'. split_and!; [done..|lia].
Qed.

(** What every step of a call keeps of the ring, every step of a
    goroutine keeps. *)
Lemma go_step_ring (P : RingBuffer V → Prop) p j :
  (∀ t rb t' rb', thread_step t rb = Some (t', rb') → P rb → P rb') →
  P (ring (sys p)) → P (ring (sys (go_step p j))).
Proof.
  intros HP Hp. unfold go_step.
  destruct (threads (sys p) !! j) as [t|]; [|done].
  destruct (tasks p !! j) as [k|]; [|by destruct t].
  destruct t; try (by apply (move_ring P)).
  - destruct (next_of _ _ k); simpl; try done. by apply (move_ring P).
  - destruct (return_of k _). by apply (move_ring P).
Qed.

(** ** Schedules *)

Lemma go_run_app sched1 sched2 p :
  go_run (sched1 ++ sched2) p = go_run sched2 (go_run sched1 p).
Proof. apply foldl_app. Qed.

Lemma go_run_total sched p : total (go_run sched p) = total p.
Proof.
  revert p. induction sched as [|j sched IH]; intros p; [done|].
  change (go_run (j :: sched) p) with (go_run sched (go_step p j)).
  by rewrite IH, go_step_total.
Qed.

(** No goroutine is added or lost. *)
Lemma go_run_length sched p :
  length (threads (sys (go_run sched p))) = length (threads (sys p)).
Proof.
  revert p. induction sched as [|j sched IH]; intros p; [done|].
  change (go_run (j :: sched) p) with (go_run sched (go_step p j)). rewrite IH.
  destruct (go_step_cases p j) as [->|(t & k & t' & k' & more & _ & _ & Hm)]; [done|].
  destruct Hm as (-> & _). by rewrite length_insert.
Qed.

Lemma go_run_tasks_length sched p : length (tasks (go_run sched p)) = length (tasks p).
Proof.
  revert p. induction sched as [|j sched IH]; intros p; [done|].
  change (go_run (j :: sched) p) with (go_run sched (go_step p j)). rewrite IH.
  destruct (go_step_cases p j) as [->|(t & k & t' & k' & more & _ & _ & Hm)]; [done|].
  destruct Hm as (_ & -> & _). by rewrite length_insert.
Qed.

(** The items claimed in a run are items the pool owed at its start. *)
Lemma go_run_claimed sched p : len (claimed (sys (go_run sched p))) ≤ total p.
Proof.
  rewrite <- (go_run_total sched p). unfold total.
  assert (0 ≤ sum (zip_with owed (threads (sys (go_run sched p))) (tasks (go_run sched p))));
    [|lia].
  apply sum_nonneg, Forall_forall. intros x (i & Hx)%list_elem_of_lookup_1.
  apply lookup_zip_with_Some in Hx as (t & k & -> & _). apply owed_nonneg.
Qed.

(** When no goroutine owes an item, every item is claimed. *)
Lemma settled_claimed p :
  (∀ (tid : nat) t k,
     threads (sys p) !! tid = Some t → tasks p !! tid = Some k → owed t k = 0) →
  len (claimed (sys p)) = total p.
Proof.
  intros Hz. unfold total.
  assert (sum (zip_with owed (threads (sys p)) (tasks p)) = 0) as ->; [|lia].
  assert (Forall (λ x, x = 0) (zip_with owed (threads (sys p)) (tasks p))) as Hall.
  { apply Forall_lookup. intros i x (t & k & -> & Ht & Hk)%lookup_zip_with_Some. eauto. }
  induction Hall as [|x l -> _ IH]; simpl; [done|]. by rewrite IH.
Qed.

End owed.

(** ** The programs never panic *)

Section go_safe.
Context {V : Type}.
Implicit Types (p : pool V) (k : task V) (ks : list (task V)) (c : call V) (n : Z).

(** The consumers of the tasks are consumers of a ring of [n]
    consumers, and their batches are not negative. *)
Definition task_valid (n : Z) (k : task V) : Prop :=
  match k with
  | Entering id b | Serving id b | Draining id b => 0 ≤ b ∧ 0 ≤ id < n
  | _ => True
  end.

Lemma task_valid_ok n k : task_valid n k → task_ok k.
Proof. destruct k; simpl; tauto. Qed.

Lemma pool_calls_valid n ks (tid : nat) c :
  Forall (task_valid n) ks → pool_calls ks tid c → valid_call n tid c.
Proof.
  intros Hks (k & Hk & Hc). apply (proj1 (Forall_lookup _ _) Hks) in Hk.
  destruct k; simpl in *; try done; [by destruct Hc as (d & -> & _)|by subst c..].
Qed.

(** A run of valid tasks is a run of valid calls. *)
Lemma go_run_valid n rb ks sched :
  Forall (task_valid n) ks →
  rtc (step_where (valid_call n)) (init rb (length ks)) (sys (go_run sched (spawn rb ks))).
Proof.
  intros Hks. eapply rtc_step_where_impl; [intros tid c; by apply pool_calls_valid|].
  apply (go_run_where ks sched (spawn rb ks)), tasks_ok_start.
  eapply Forall_impl; [done|]. apply task_valid_ok.
Qed.

(** The pool stays well formed while the tasks hold fewer than 2^63 - 1
    items: no goroutine has panicked. *)
Lemma go_run_safe sz n rb ks sched :
  NewRingBuffer sz n = Ret rb → 0 < sz ≤ int64_max →
  Forall (task_valid n) ks → total (spawn rb ks) < int64_max →
  pool_safe n (sys (go_run sched (spawn rb ks))) ∧
  ∀ (tid : nat) pn, threads (sys (go_run sched (spawn rb ks))) !! tid ≠ Some (Crashed pn).
Proof.
  intros Hnew Hsz Hks Htot.
  pose proof (go_run_claimed sched (spawn rb ks)).
  apply (reachable_no_crash sz n rb (length ks)); [done..|by apply go_run_valid|lia].
Qed.

End go_safe.

(** C25: the programs never panic.  Goroutines that run the loops of
    src/lmax.go and src/lmax_test.go on a new ring with a slot, for
    consumers the ring has and with batches that are not negative,
    never panic, however their steps interleave and however often the
    ring is lapped: no [Put] and no [Get] of theirs indexes a slice out
    of range. *)
Theorem goroutines_never_panic {V} sz n (rb : RingBuffer V) ks sched :
  NewRingBuffer sz n = Ret rb → 0 < sz ≤ int64_max →
  Forall (task_valid n) ks → total (spawn rb ks) < int64_max →
  ∀ (tid : nat) pn, threads (sys (go_run sched (spawn rb ks))) !! tid ≠ Some (Crashed pn).
Proof.
  intros Hnew Hsz Hks Htot. by apply (go_run_safe sz n).
Qed.

(** ** The ring and the tasks of main *)

(** The new ring of [main]. *)
Definition ring10 : RingBuffer Z :=
  mkRingBuffer 10 (replicate 10 None) 0 [-1; -1; -1] (replicate 10 0) 0 0.

Lemma main_pool_Ret_new : NewRingBuffer 10 3 = Ret ring10.
Proof. vm_compute. reflexivity. Qed.

Lemma main_pool_Ret : main_pool = Ret (spawn ring10 main_tasks).
Proof. unfold main_pool. by rewrite main_pool_Ret_new. Qed.

Lemma main_tasks_valid : Forall (task_valid 3) main_tasks.
Proof. unfold main_tasks. simpl. repeat constructor; lia. Qed.

Lemma main_total : total (spawn ring10 main_tasks) < int64_max.
Proof. vm_compute. reflexivity. Qed.

(** ** TestConcurrency under a schedule *)

(** [n] steps of goroutine [tid]. *)
Definition turns (tid n : nat) : list nat := replicate n tid.

(** Producers that sleep between two calls and consumers that do not:
    in a round every producer publishes one item and every consumer
    runs until it has returned or waits for a flag. *)
Definition test_round : list nat :=
  turns 1 6 ++ turns 2 6 ++ turns 3 6 ++ turns 4 80 ++ turns 5 80 ++ turns 6 80.

Definition sched_sleepy : list nat := mjoin (replicate 101 test_round) ++ [0%nat].

(** The new ring of [TestConcurrency]. *)
Definition ring100 : RingBuffer Z :=
  mkRingBuffer 100 (replicate 100 None) 0 [-1; -1; -1] (replicate 100 0) 0 0.

Lemma TestConcurrency_Ret_new : NewRingBuffer 100 3 = Ret ring100.
Proof. vm_compute. reflexivity. Qed.

Lemma TestConcurrency_Ret : TestConcurrency = Ret (spawn ring100 test_tasks).
Proof. unfold TestConcurrency. by rewrite TestConcurrency_Ret_new. Qed.

Lemma test_tasks_valid : Forall (task_valid 3) test_tasks.
Proof. unfold test_tasks. simpl. repeat constructor; lia. Qed.

(** Where [TestConcurrency] ends under that schedule. *)
Definition test_end : pool Z := go_run sched_sleepy (spawn ring100 test_tasks).

Lemma test_end_exited : forallb exited (tasks test_end) = true.
Proof. vm_compute. reflexivity. Qed.

Lemma test_end_claimed : len (claimed (sys test_end)) = 300.
Proof. vm_compute. reflexivity. Qed.

Lemma test_end_logged :
  Forall (λ id, logged id (output test_end)
                = take 102 (claimed (sys test_end)) ++ [Some 200]) [0; 1; 2].
Proof. do 3 (constructor; [vm_compute; reflexivity|]). constructor. Qed.

(** [TestConcurrency] passes with two thirds of the items unread.
    When the producers sleep between their calls, as they do, the
    consumers catch up with them; after the first lap a consumer that
    has caught up reads the slot after the last one published, which
    holds an item of the lap before, and its next [Get] returns an
    empty batch: it returns.  Every consumer logs the first 102 items
    and item 200 a second time; the other 198 items are published to
    nobody, and [wg.Wait()] returns. *)
Example TestConcurrency_passes_with_items_unread :
  forallb exited (tasks test_end) = true ∧ len (claimed (sys test_end)) = 300 ∧
  ∀ id, id ∈ [0; 1; 2] →
    logged id (output test_end) = take 102 (claimed (sys test_end)) ++ [Some 200].
Proof.
  split; [apply test_end_exited|]. split; [apply test_end_claimed|].
  apply Forall_forall, test_end_logged.
Qed.

(** ** The theorems at [TestConcurrency] *)

Lemma test_total : total (spawn ring100 test_tasks) < int64_max.
Proof. vm_compute. reflexivity. Qed.

Lemma goroutines_never_panic_witness :
  total (spawn ring100 test_tasks) < int64_max ∧
  ∀ (tid : nat) pn, threads (sys test_end) !! tid ≠ Some (Crashed pn).
Proof.
  split; [apply test_total|].
  apply (goroutines_never_panic 100 3 ring100 test_tasks sched_sleepy);
    [apply TestConcurrency_Ret_new|done|apply test_tasks_valid|apply test_total].
Defined.
