(* ===== verification/Progress.v ===== *)
(** * Progress: who waits for whom

    [Put] of src/lmax.go has no loop that waits: a goroutine that runs
    the calls of [Producer] takes a number of steps that its items fix,
    whatever the other goroutines do between them, and then returns.
    The consumers cannot hold it up; the specification wants them to
    (a producer is to wait for the slowest consumer).

    The argument is the one of a termination proof under fairness: a
    measure on the state of one goroutine ([producer_steps]) that every
    step of that goroutine decreases by one and no step of another
    goroutine changes.  A schedule is a finite list here, so fairness
    is a number: how often the goroutine occurs in the schedule
    ([own_steps]). *)

From stdpp Require Import prelude.
From S2P Require Import Prelude GoInt GoSlice RingBuffer RingLog Workload Harness.
From S2P Require Import Threads Concurrent Safety Flags Goroutines.

Section progress_defs.
Context {V : Type}.

(** The thread is idle or in a call of [Put]. *)
Definition putting (t : thread V) : bool :=
  match t with
  | Idle | PutCall _ | PutWrite _ _ | PutFlag _ _ _ | PutDone => true
  | _ => false
  end.

(** The steps a call of [Put] has still to take: the fetch-and-add, two
    stores per item, the exit of the loop and the return. *)
Definition put_steps (t : thread V) : nat :=
  match t with
  | PutCall data => 2 * length data + 3
  | PutWrite data _ => 2 * length data + 2
  | PutFlag _ data _ => 2 * length data + 3
  | PutDone => 1
  | _ => 0
  end.

(** The steps of a goroutine that is at [t] in a call of [Producer] and
    has the calls for [batches] to make: what is left of the call, one
    step to start each call to come and those of the call, and the
    return of the goroutine. *)
Definition producer_steps (t : thread V) (batches : list (list (option V))) : nat :=
  put_steps t + sum_list_with (λ data, 2 * length data + 4)%nat batches + 1.

(** How often goroutine [tid] moves in a schedule. *)
Definition own_steps (tid : nat) (sched : list nat) : nat :=
  length (filter (tid =.) sched).

(** Goroutine [tid], which closes the stop channel at its end if [close]
    says so, is [m] steps of its own before its return. *)
Inductive producer_at (p : pool V) (tid : nat) (close : bool) : nat → Prop :=
| producer_running t batches :
    threads (sys p) !! tid = Some t → tasks p !! tid = Some (Producing batches close) →
    putting t = true → producer_at p tid close (producer_steps t batches)
| producer_exited :
    threads (sys p) !! tid = Some Idle → tasks p !! tid = Some Exited →
    (close = true → stopped p = true) → producer_at p tid close 0.

(** The thread of a goroutine that runs [Consumer(rb, id, b, stopCh)]:
    idle or in a call [Get(b, id)], past the test of line 55 where the
    call copies an item. *)
Definition serving (b id : Z) (t : thread V) : Prop :=
  match t with
  | Idle => True
  | GetCall b' id' => b' = b ∧ id' = id
  | GetGate g | GetAvail g | GetCopy g | GetStore g _ =>
      f_batchSize g = b ∧ f_consumerId g = id ∧ 0 ≤ f_i g < b
  | GetLoop g | GetSleep g | GetMin g | GetScan g _ _ | GetBarrier g _ | GetDone g =>
      f_batchSize g = b ∧ f_consumerId g = id ∧ 0 ≤ f_i g
  | _ => False
  end.

(** The passes of the loop of [Get] that are left. *)
Definition rounds (g : frame V) : nat := Z.to_nat (f_batchSize g - f_i g).

(** The steps a call of [Get] on a ring of [n] consumers has at most
    still to take when it finds every flag set: five per pass of the
    loop, one to leave it, [n + 3] for the barrier and one to return. *)
Definition get_steps (n : nat) (t : thread V) : nat :=
  match t with
  | GetCall b _ => 5 * Z.to_nat b + n + 6
  | GetSleep g => 5 * rounds g + n + 6
  | GetLoop g => 5 * rounds g + n + 5
  | GetGate g => 5 * (rounds g - 1) + n + 9
  | GetAvail g => 5 * (rounds g - 1) + n + 8
  | GetCopy g => 5 * (rounds g - 1) + n + 7
  | GetStore g _ => 5 * (rounds g - 1) + n + 6
  | GetMin _ => n + 4
  | GetScan _ _ k => n - k + 3
  | GetBarrier _ _ => 2
  | GetDone _ => 1
  | _ => 0
  end.

(** The steps goroutine [tid] has at most still to take when it runs
    [Consumer], the stop channel is closed and every flag is set. *)
Definition consumer_steps (n : nat) (p : pool V) (tid : nat) : nat :=
  match threads (sys p) !! tid, tasks p !! tid with
  | Some t, Some (Serving _ _) => get_steps n t + 1
  | Some _, Some (Entering _ _) => 2
  | _, _ => 0
  end.

(** Goroutine [tid] runs [Consumer(rb, id, b, stopCh)]. *)
Inductive consumer_at (p : pool V) (tid : nat) (id b : Z) : Prop :=
| consumer_entering :
    threads (sys p) !! tid = Some Idle → tasks p !! tid = Some (Entering id b) →
    0 ≤ b → consumer_at p tid id b
| consumer_serving t :
    threads (sys p) !! tid = Some t → tasks p !! tid = Some (Serving id b) →
    serving b id t → consumer_at p tid id b
| consumer_exited :
    threads (sys p) !! tid = Some Idle → tasks p !! tid = Some Exited →
    Printf (Stopping id) ∈ output p → consumer_at p tid id b.

End progress_defs.

(** Runs the accesses to the slices of a step; none of them polls. *)
Ltac step_ops Hs :=
  repeat match type of Hs with
  | context [rem64 ?a ?b] =>
      let E := fresh "E" in
      destruct (rem64 a b) as [?| |] eqn:E; [| |by apply rem64_not_Spin in E];
      go_step in Hs
  | context [store ?l ?i ?x] =>
      let E := fresh "E" in
      destruct (store l i x) as [?| |] eqn:E; [| |by apply store_not_Spin in E];
      go_step in Hs
  | context [index ?l ?i] =>
      let E := fresh "E" in
      destruct (index l i) as [?| |] eqn:E; [| |by apply index_not_Spin in E];
      go_step in Hs
  | context [make ?z ?n] =>
      let E := fresh "E" in
      destruct (make z n) as [?| |] eqn:E; [| |by apply make_not_Spin in E];
      go_step in Hs
  end; cbn [settle] in Hs.

(** ** One step *)

Section producer_steps.
Context {V : Type}.
Implicit Types (p : pool V) (t : thread V) (rb : RingBuffer V) (tid j : nat).
Implicit Types (sched : list nat) (m : nat).

(** A call of [Put] that is not over has a step to take. *)
Lemma put_step_Some t rb : putting t = true → t ≠ Idle → is_Some (thread_step t rb).
Proof.
  destruct t as [|data|[|d data] nw| | | | | | | | | | | | | |]; intros; try done;
    by eexists.
Qed.

(** A step of a call of [Put] that does not panic is one step less to
    take. *)
Lemma put_step_down t rb t' rb' :
  putting t = true → thread_step t rb = Some (t', rb') → (∀ pn, t' ≠ Crashed pn) →
  putting t' = true ∧ put_steps t = S (put_steps t').
Proof.
  intros Hp Hs Hnc.
  destruct t as [|data|[|d data] nw|d data nw| | | | | | | | | | | | |]; try done;
    simpl in Hs; step_ops Hs; injection Hs as <- <-;
    try (by destruct (Hnc _ eq_refl)); simpl; split; try done; lia.
Qed.

(** A goroutine that is in a call takes a step of the call. *)
Lemma go_step_in_call p tid t k :
  threads (sys p) !! tid = Some t → tasks p !! tid = Some k →
  t ≠ Idle → (∀ g, t ≠ GetDone g) →
  go_step p tid = mkPool (move (sys p) (tid, None)) (tasks p) (stopped p) (output p).
Proof.
  intros Ht Hk Hi Hd. unfold go_step. rewrite Ht, Hk.
  destruct t; try done. by destruct (Hd g).
Qed.

(** The goroutine between two calls of [Producer]. *)
Lemma producer_step_idle p tid close batches m :
  threads (sys p) !! tid = Some Idle → tasks p !! tid = Some (Producing batches close) →
  producer_steps Idle batches = S m → producer_at (go_step p tid) tid close m.
Proof.
  intros Ht Hk Hm. unfold go_step. rewrite Ht, Hk. simpl.
  pose proof (lookup_lt_Some _ _ _ Ht). pose proof (lookup_lt_Some _ _ _ Hk).
  destruct batches as [|data batches]; simpl.
  - injection Hm as <-. apply producer_exited; simpl.
    + done.
    + by apply list_lookup_insert_eq.
    + intros ->. apply orb_true_r.
  - rewrite (move_call _ _ _ Ht).
    replace m with (producer_steps (PutCall data) batches)
      by (unfold producer_steps in *; simpl in *; lia).
    apply producer_running; simpl; [by apply list_lookup_insert_eq..|done].
Qed.

(** The goroutine in a call of [Producer]. *)
Lemma producer_step_put p tid close t batches m :
  threads (sys p) !! tid = Some t → tasks p !! tid = Some (Producing batches close) →
  putting t = true → t ≠ Idle → producer_steps t batches = S m →
  (∀ pn, threads (sys (go_step p tid)) !! tid ≠ Some (Crashed pn)) →
  producer_at (go_step p tid) tid close m.
Proof.
  intros Ht Hk Hp Hi Hm Hnc. pose proof (lookup_lt_Some _ _ _ Ht).
  destruct (put_step_Some t (ring (sys p)) Hp Hi) as [[t' rb'] Hs].
  rewrite (go_step_in_call p tid t _ Ht Hk Hi) in Hnc |- * by by destruct t.
  rewrite (move_thread _ _ _ _ _ Ht Hs) in Hnc |- *. simpl in Hnc.
  rewrite list_lookup_insert_eq in Hnc by done.
  destruct (put_step_down t _ t' rb' Hp Hs) as [Hp' Hdown];
    [intros pn ->; by destruct (Hnc pn)|].
  replace m with (producer_steps t' batches) by (unfold producer_steps in *; lia).
  apply producer_running; simpl; [by apply list_lookup_insert_eq|done..].
Qed.

(** A step of the goroutine is one step less to take. *)
Lemma producer_step p tid close m :
  producer_at p tid close (S m) →
  (∀ pn, threads (sys (go_step p tid)) !! tid ≠ Some (Crashed pn)) →
  producer_at (go_step p tid) tid close m.
Proof.
  inversion 1 as [t batches Ht Hk Hp Hm|]; intros Hnc.
  assert (t = Idle ∨ t ≠ Idle) as [->|Hi] by (destruct t; (by left) || by right);
    [by eapply producer_step_idle|by eapply producer_step_put].
Qed.

(** A goroutine that has returned stays where it is. *)
Lemma producer_step_exited p tid close :
  producer_at p tid close 0 → producer_at (go_step p tid) tid close 0.
Proof.
  inversion 1 as [t batches Ht Hk Hp Hm|Ht Hk Hc].
  - unfold producer_steps in Hm. lia.
  - unfold go_step. rewrite Ht, Hk. simpl. by apply producer_exited.
Qed.

End producer_steps.

(** ** Schedules *)

Section producer_runs.
Context {V : Type}.
Implicit Types (p : pool V) (tid j : nat) (sched : list nat) (m : nat).

(** A step of another goroutine does not change what is left to do. *)
Lemma producer_step_other p j tid close m :
  j ≠ tid → producer_at p tid close m → producer_at (go_step p j) tid close m.
Proof.
  intros Hne Hat. destruct (go_step_other p j tid Hne) as [Hts Hks].
  destruct Hat as [t batches Ht Hk Hp|Ht Hk Hc].
  - apply producer_running; congruence.
  - apply producer_exited; [congruence..|]. intros Hcl. by apply go_step_stopped, Hc.
Qed.

Lemma own_steps_app tid sched1 sched2 :
  own_steps tid (sched1 ++ sched2) = (own_steps tid sched1 + own_steps tid sched2)%nat.
Proof. unfold own_steps. by rewrite filter_app, length_app. Qed.

(** In a schedule the goroutine is as many steps nearer to its return
    as it moves. *)
Lemma producer_run sched p tid close m :
  (∀ sched' pn, threads (sys (go_run sched' p)) !! tid ≠ Some (Crashed pn)) →
  producer_at p tid close m →
  producer_at (go_run sched p) tid close (m - own_steps tid sched).
Proof.
  revert p m. induction sched as [|j sched IH]; intros p m Hnc Hat.
  { by rewrite Nat.sub_0_r. }
  assert (∀ sched' pn, threads (sys (go_run sched' (go_step p j))) !! tid
                        ≠ Some (Crashed pn)) as Hnc'
    by (intros sched'; apply (Hnc (j :: sched'))).
  unfold own_steps. rewrite filter_cons. case_decide as Hj; simpl.
  - subst j. destruct m as [|m].
    + apply (IH _ 0%nat Hnc'). by apply producer_step_exited.
    + apply (IH _ m Hnc'). apply producer_step; [done|]. apply (Hnc [tid]).
  - apply (IH _ m Hnc'). by apply producer_step_other.
Qed.

End producer_runs.

(** ** Consumers after the stop *)

Section consumer_steps.
Context {V : Type}.
Implicit Types (p : pool V) (t : thread V) (rb : RingBuffer V) (tid j n : nat).
Implicit Types (b id : Z).

(** A call of [Get] that is not over has a step to take. *)
Lemma get_step_Some b id t rb : serving b id t → t ≠ Idle → is_Some (thread_step t rb).
Proof.
  destruct t as [| | | | |b' id'|g|g|g|g|g v|g|g|g m k|g m|g|]; intros; try done;
    simpl; repeat case_decide; try destruct (readCursors rb !! k); by eexists.
Qed.

(** A step of the call keeps the arguments and the counter in range. *)
Lemma get_step_serving b id t rb t' rb' :
  serving b id t → thread_step t rb = Some (t', rb') → (∀ pn, t' ≠ Crashed pn) →
  serving b id t'.
Proof.
  intros Hsv Hs Hnc.
  destruct t as [| | | | |b' id'|g|g|g|g|g v|g|g|g m k|g m|g|]; try done;
    simpl in Hs, Hsv; repeat case_decide; try destruct (readCursors rb !! k);
    step_ops Hs; injection Hs as <- <-; try (by destruct (Hnc _ eq_refl));
    try case_decide; simpl; intuition lia.
Qed.

(** With every flag set, a step of the call is one step less to take,
    at least. *)
Lemma get_step_down n b id t rb t' rb' :
  all_set rb → length (readCursors rb) = n → serving b id t →
  thread_step t rb = Some (t', rb') → (get_steps n t' < get_steps n t)%nat.
Proof.
  intros Hall Hn Hsv Hs.
  destruct t as [| | | | |b' id'|g|g|g|g|g v|g|g|g m k|g m|g|]; try done;
    simpl in Hs, Hsv; repeat case_decide;
    try destruct (readCursors rb !! k) eqn:Hk; step_ops Hs; injection Hs as <- <-;
    try (apply lookup_lt_Some in Hk);
    repeat match goal with
    | E : index (available rb) _ = Ret ?a |- _ =>
        apply index_Ret in E as [_ E];
        apply (proj1 (Forall_lookup _ _) Hall) in E; subst a
    end; try case_decide; simpl; unfold rounds, advance; simpl; try done; lia.
Qed.

(** A call of [Get(b, id)] takes at most [5 b + n + 6] steps. *)
Lemma serving_bound n b id t :
  serving b id t → (get_steps n t ≤ 5 * Z.to_nat b + n + 6)%nat.
Proof.
  destruct t as [| | | | |b' id'|g|g|g|g|g v|g|g|g m k|g m|g|]; simpl; try done;
    try lia; unfold rounds; intuition lia.
Qed.

(** A thread that serves a consumer is not in a call of [Put]. *)
Lemma serving_quiet b id t seq : serving b id t → ¬ pending t seq.
Proof. destruct t; simpl; tauto. Qed.

Lemma serving_owed b id t k : serving b id t → owed t k = owed Idle k.
Proof. destruct t; simpl; done. Qed.

End consumer_steps.

Section consumer_pool.
Context {V : Type}.
Implicit Types (p : pool V) (t : thread V) (tid j n : nat) (b id : Z).
Implicit Types (sched : list nat).

(** What a goroutine has printed stays printed. *)
Lemma go_step_printed p j (l : line V) : l ∈ output p → l ∈ output (go_step p j).
Proof.
  intros Hl. destruct (go_step_output p j) as [out ->]. apply elem_of_app. by left.
Qed.

(** The entry of [Consumer]. *)
Lemma consumer_enter p tid id b :
  threads (sys p) !! tid = Some Idle → tasks p !! tid = Some (Entering id b) → 0 ≤ b →
  threads (sys (go_step p tid)) !! tid = Some Idle ∧
  tasks (go_step p tid) !! tid = Some (Serving id b).
Proof.
  intros Ht Hk Hb. unfold go_step. rewrite Ht, Hk. simpl. unfold enter_next.
  rewrite make_Ret by done. simpl. split; [done|].
  apply list_lookup_insert_eq. by eapply lookup_lt_Some.
Qed.

(** The [select] of [Consumer]. *)
Lemma consumer_select p tid id b :
  threads (sys p) !! tid = Some Idle → tasks p !! tid = Some (Serving id b) →
  if stopped p
  then threads (sys (go_step p tid)) !! tid = Some Idle ∧
       tasks (go_step p tid) !! tid = Some Exited ∧
       Printf (Stopping id) ∈ output (go_step p tid)
  else threads (sys (go_step p tid)) !! tid = Some (GetCall b id) ∧
       tasks (go_step p tid) !! tid = Some (Serving id b).
Proof.
  intros Ht Hk. pose proof (lookup_lt_Some _ _ _ Ht). pose proof (lookup_lt_Some _ _ _ Hk).
  unfold go_step. rewrite Ht, Hk. simpl. unfold serve_next.
  destruct (stopped p); simpl.
  - split_and!; [done|by apply list_lookup_insert_eq|].
    apply elem_of_app. right. apply list_elem_of_here.
  - rewrite (move_call _ _ _ Ht). simpl. by rewrite !list_lookup_insert_eq.
Qed.

(** A step of the call of [Get] the goroutine is in. *)
Lemma consumer_in_call p tid id b t :
  threads (sys p) !! tid = Some t → tasks p !! tid = Some (Serving id b) →
  serving b id t → t ≠ Idle →
  ∃ t' rb', thread_step t (ring (sys p)) = Some (t', rb') ∧
    threads (sys (go_step p tid)) !! tid = Some t' ∧
    tasks (go_step p tid) !! tid = Some (Serving id b).
Proof.
  intros Ht Hk Hsv Hi. pose proof (lookup_lt_Some _ _ _ Ht).
  pose proof (lookup_lt_Some _ _ _ Hk).
  destruct (get_step_Some b id t (ring (sys p)) Hsv Hi) as [[t' rb'] Hs].
  exists t', rb'. split; [done|]. unfold go_step. rewrite Ht, Hk.
  destruct t; try done; simpl; rewrite (move_thread _ _ _ _ _ Ht Hs); simpl;
    by rewrite ?list_lookup_insert_eq.
Qed.

(** A step of the goroutine keeps it a consumer. *)
Lemma consumer_own p tid id b :
  consumer_at p tid id b →
  (∀ pn, threads (sys (go_step p tid)) !! tid ≠ Some (Crashed pn)) →
  consumer_at (go_step p tid) tid id b.
Proof.
  intros [Ht Hk Hb|t Ht Hk Hsv|Ht Hk Hout] Hnc.
  - destruct (consumer_enter p tid id b Ht Hk Hb). by eapply consumer_serving.
  - assert (t = Idle ∨ t ≠ Idle) as [->|Hi] by (destruct t; (by left) || by right).
    + pose proof (consumer_select p tid id b Ht Hk) as Hsel.
      destruct (stopped p); [destruct Hsel as (? & ? & ?); by apply consumer_exited|].
      destruct Hsel. by eapply consumer_serving.
    + destruct (consumer_in_call p tid id b t Ht Hk Hsv Hi) as (t' & rb' & Hs & Ht' & Hk').
      apply (consumer_serving _ _ _ _ t'); [done..|].
      eapply get_step_serving; [done..|]. intros pn ->. by destruct (Hnc pn).
  - unfold go_step. rewrite Ht, Hk. simpl. by apply consumer_exited.
Qed.

(** With the stop channel closed and every flag set, a step of the
    goroutine is one step less to take, at least. *)
Lemma consumer_down n p tid id b :
  consumer_at p tid id b → stopped p = true → all_set (ring (sys p)) →
  length (readCursors (ring (sys p))) = n →
  (consumer_steps n (go_step p tid) tid ≤ consumer_steps n p tid - 1)%nat.
Proof.
  intros [Ht Hk Hb|t Ht Hk Hsv|Ht Hk Hout] Hst Hall Hn; unfold consumer_steps at 2;
    rewrite Ht, Hk.
  - destruct (consumer_enter p tid id b Ht Hk Hb) as [Ht' Hk'].
    unfold consumer_steps. by rewrite Ht', Hk'.
  - assert (t = Idle ∨ t ≠ Idle) as [->|Hi] by (destruct t; (by left) || by right).
    + pose proof (consumer_select p tid id b Ht Hk) as Hsel. rewrite Hst in Hsel.
      destruct Hsel as (Ht' & Hk' & _). unfold consumer_steps. rewrite Ht', Hk'. lia.
    + destruct (consumer_in_call p tid id b t Ht Hk Hsv Hi) as (t' & rb' & Hs & Ht' & Hk').
      unfold consumer_steps. rewrite Ht', Hk'.
      pose proof (get_step_down n b id t _ t' rb' Hall Hn Hsv Hs). lia.
  - unfold go_step. rewrite Ht, Hk. simpl. unfold consumer_steps. rewrite Ht, Hk. lia.
Qed.

(** A step of another goroutine leaves the consumer where it is. *)
Lemma consumer_other n p j tid id b :
  j ≠ tid → consumer_at p tid id b →
  consumer_at (go_step p j) tid id b ∧
  consumer_steps n (go_step p j) tid = consumer_steps n p tid.
Proof.
  intros Hne Hat. destruct (go_step_other p j tid Hne) as [Hts Hks].
  split; [|unfold consumer_steps; by rewrite Hts, Hks].
  destruct Hat as [Ht Hk Hb|t Ht Hk Hsv|Ht Hk Hout].
  - apply consumer_entering; congruence.
  - apply (consumer_serving _ _ _ _ t); congruence.
  - apply consumer_exited; [congruence..|by apply go_step_printed].
Qed.

(** In every schedule the goroutine stays a consumer. *)
Lemma consumer_run sched p tid id b :
  (∀ sched' pn, threads (sys (go_run sched' p)) !! tid ≠ Some (Crashed pn)) →
  consumer_at p tid id b → consumer_at (go_run sched p) tid id b.
Proof.
  revert p. induction sched as [|j sched IH]; intros p Hnc Hat; [done|].
  apply IH; [intros sched'; apply (Hnc (j :: sched'))|].
  destruct (decide (j = tid)) as [->|Hne].
  - apply consumer_own; [done|]. apply (Hnc [tid]).
  - by apply (consumer_other 0 p j tid id b).
Qed.

(** Once the stop channel is closed and every flag is set, the
    goroutine is as many steps nearer to its return as it moves. *)
Lemma consumer_countdown n sched p tid id b :
  (∀ sched' pn, threads (sys (go_run sched' p)) !! tid ≠ Some (Crashed pn)) →
  consumer_at p tid id b → stopped p = true → all_set (ring (sys p)) →
  length (readCursors (ring (sys p))) = n →
  (consumer_steps n (go_run sched p) tid ≤ consumer_steps n p tid - own_steps tid sched)%nat.
Proof.
  revert p. induction sched as [|j sched IH]; intros p Hnc Hat Hst Hall Hn;
    [unfold own_steps; simpl; lia|].
  assert (consumer_steps n (go_run sched (go_step p j)) tid
            ≤ consumer_steps n (go_step p j) tid - own_steps tid sched)%nat as Hle.
  { apply IH.
    - intros sched'. apply (Hnc (j :: sched')).
    - apply (consumer_run [j]); [|done]. intros sched'. apply (Hnc sched').
    - by apply go_step_stopped.
    - apply (go_step_ring all_set); [apply thread_step_all_set|done].
    - apply (go_step_ring (λ rb, length (readCursors rb) = n)); [|done].
      intros t rb t' rb' Hs <-. by destruct (thread_step_shape _ _ _ _ Hs) as (_ & _ & _ & ? & _). }
  change (go_run (j :: sched) p) with (go_run sched (go_step p j)).
  unfold own_steps in *. rewrite filter_cons. case_decide as Hj; simpl.
  - subst j. pose proof (consumer_down n p tid id b Hat Hst Hall Hn). lia.
  - destruct (consumer_other n p j tid id b) as [_ Heq]; [done..|]. lia.
Qed.

(** A consumer with nothing left to do has printed that it stops. *)
Lemma consumer_done n p tid id b :
  consumer_at p tid id b → consumer_steps n p tid = 0%nat →
  tasks p !! tid = Some Exited ∧ Printf (Stopping id) ∈ output p.
Proof.
  intros [Ht Hk Hb|t Ht Hk Hsv|Ht Hk Hout]; unfold consumer_steps; rewrite Ht, Hk;
    [lia..|done].
Qed.

(** A consumer has at most [5 b + n + 7] steps to take. *)
Lemma consumer_bound n p tid id b :
  consumer_at p tid id b → (consumer_steps n p tid ≤ 5 * Z.to_nat b + n + 7)%nat.
Proof.
  intros [Ht Hk Hb|t Ht Hk Hsv|Ht Hk Hout]; unfold consumer_steps; rewrite Ht, Hk;
    [lia| |lia].
  pose proof (serving_bound n b id t Hsv). lia.
Qed.

End consumer_pool.

(** ** Pools of producers and consumers *)

(** The tasks [main] starts its goroutines with: calls of [Producer],
    and [Consumer]. *)
Definition harness_task {V} (k : task V) : Prop :=
  match k with
  | Producing _ _ | Entering _ _ => True
  | _ => False
  end.

Section harness_pools.
Context {V : Type} (sz n : Z) (rb : RingBuffer V) (ks : list (task V)).
Context (Hnew : NewRingBuffer sz n = Ret rb) (Hsz : 0 < sz ≤ int64_max).
Context (Hks : Forall (task_valid n) ks) (Htot : total (spawn rb ks) < int64_max).
Implicit Types (sched : list nat) (tid : nat) (id b : Z).

(** No goroutine of the pool panics. *)
Lemma spawn_no_crash sched tid sched' pn :
  threads (sys (go_run sched' (go_run sched (spawn rb ks)))) !! tid ≠ Some (Crashed pn).
Proof. rewrite <- go_run_app. by apply (go_run_safe sz n). Qed.

Lemma spawn_idle tid k : ks !! tid = Some k → threads (sys (spawn rb ks)) !! tid = Some Idle.
Proof. intros Hk. apply lookup_replicate_2. by eapply lookup_lt_Some. Qed.

(** A producer has returned when it has taken its steps. *)
Lemma producer_returns sched tid batches close :
  ks !! tid = Some (Producing batches close) →
  (producer_steps Idle batches ≤ own_steps tid sched)%nat →
  producer_at (go_run sched (spawn rb ks)) tid close 0.
Proof.
  intros Hk Hm.
  replace 0%nat with (producer_steps Idle batches - own_steps tid sched)%nat by lia.
  apply producer_run; [apply (spawn_no_crash [])|].
  apply producer_running; [by eapply spawn_idle|done..].
Qed.

(** A goroutine that starts as a consumer stays one. *)
Lemma consumer_started sched tid id b :
  ks !! tid = Some (Entering id b) → consumer_at (go_run sched (spawn rb ks)) tid id b.
Proof.
  intros Hk. apply consumer_run; [apply (spawn_no_crash [])|].
  apply consumer_entering; [by eapply spawn_idle|done|].
  by destruct (proj1 (Forall_lookup _ _) Hks _ _ Hk).
Qed.

(** A consumer has returned when it has taken [5 b + n + 7] steps after
    the stop channel was closed and every flag was set. *)
Lemma consumer_returns sched1 sched2 tid id b :
  ks !! tid = Some (Entering id b) →
  stopped (go_run sched1 (spawn rb ks)) = true →
  all_set (ring (sys (go_run sched1 (spawn rb ks)))) →
  (5 * Z.to_nat b + Z.to_nat n + 7 ≤ own_steps tid sched2)%nat →
  tasks (go_run (sched1 ++ sched2) (spawn rb ks)) !! tid = Some Exited ∧
  Printf (Stopping id) ∈ output (go_run (sched1 ++ sched2) (spawn rb ks)).
Proof.
  intros Hk Hst Hall Hm.
  pose proof (consumer_started sched1 tid id b Hk) as Hat.
  destruct (go_run_safe sz n rb ks sched1 Hnew Hsz Hks Htot) as [(_ & Hn & _) _].
  apply (consumer_done (Z.to_nat n) _ _ _ b); [by apply consumer_started|].
  rewrite go_run_app.
  pose proof (consumer_countdown (Z.to_nat n) sched2 _ tid id b
                (spawn_no_crash sched1 tid) Hat Hst Hall) as Hle.
  pose proof (consumer_bound (Z.to_nat n) _ tid id b Hat).
  unfold len in Hn. lia.
Qed.

(** A goroutine of the harness has returned when it has taken its
    steps: a producer at any time, a consumer after the stop. *)
Lemma harness_task_exits sched1 sched2 tid k0 :
  ks !! tid = Some k0 → harness_task k0 →
  stopped (go_run sched1 (spawn rb ks)) = true →
  all_set (ring (sys (go_run sched1 (spawn rb ks)))) →
  (∀ batches close, k0 = Producing batches close →
     (producer_steps Idle batches ≤ own_steps tid sched1)%nat) →
  (∀ id b, k0 = Entering id b →
     (5 * Z.to_nat b + Z.to_nat n + 7 ≤ own_steps tid sched2)%nat) →
  tasks (go_run (sched1 ++ sched2) (spawn rb ks)) !! tid = Some Exited.
Proof.
  intros Hk0 Hh Hst Hall Hp Hc. destruct k0 as [batches close|id b| | | |]; try done.
  - pose proof (Hp _ _ eq_refl).
    assert (producer_at (go_run (sched1 ++ sched2) (spawn rb ks)) tid close 0) as Hat
      by (apply (producer_returns _ _ batches); [done|rewrite own_steps_app; lia]).
    inversion Hat as [t bs _ _ _ Hz|_ Hex _]; [|done]. unfold producer_steps in Hz. lia.
  - by destruct (consumer_returns sched1 sched2 tid id b) as [? _];
      [..|apply (Hc id b eq_refl)|].
Qed.

(** *** When the producers have returned *)

Section settled.
Context (Hshape : Forall harness_task ks) (sched1 : list nat).
Context (Hfair : ∀ tid batches close,
           ks !! tid = Some (Producing batches close) →
           (producer_steps Idle batches ≤ own_steps tid sched1)%nat).

(** No goroutine is in a call of [Put] or has one to make. *)
Lemma harness_settled tid t :
  threads (sys (go_run sched1 (spawn rb ks))) !! tid = Some t →
  (∀ seq, ¬ pending t seq) ∧
  ∀ k, tasks (go_run sched1 (spawn rb ks)) !! tid = Some k → owed t k = 0.
Proof.
  intros Ht.
  assert (is_Some (ks !! tid)) as [k0 Hk0].
  { apply lookup_lt_is_Some_2. apply lookup_lt_Some in Ht.
    rewrite go_run_length in Ht. simpl in Ht. by rewrite length_replicate in Ht. }
  pose proof (proj1 (Forall_lookup _ _) Hshape _ _ Hk0) as Hh.
  destruct k0 as [batches close|id b| | | |]; try done.
  - pose proof (producer_returns sched1 tid batches close Hk0 (Hfair _ _ _ Hk0)) as Hat.
    inversion Hat as [t0 bs _ _ _ Hz|Ht' Hk' _]; [unfold producer_steps in Hz; lia|].
    simplify_eq. split; [intros seq; by apply (serving_quiet 0 0)|].
    intros k Hk. by simplify_eq.
  - assert (serving b id t ∧
            ∀ k, tasks (go_run sched1 (spawn rb ks)) !! tid = Some k → owed Idle k = 0)
      as [Hsv Hk].
    { destruct (consumer_started sched1 tid id b Hk0)
        as [Ht' Hk' _|t0 Ht' Hk' Hsv|Ht' Hk' _];
        simplify_eq; (split; [done|intros k Hk; by simplify_eq]). }
    split; [intros seq; by apply (serving_quiet b id)|].
    intros k Hk'. rewrite (serving_owed b id) by done. by apply Hk.
Qed.

(** Every item of the producers is claimed. *)
Lemma harness_claimed :
  len (claimed (sys (go_run sched1 (spawn rb ks)))) = total (spawn rb ks).
Proof.
  rewrite <- (go_run_total sched1). apply settled_claimed.
  intros tid t k Ht Hk. by apply (harness_settled tid t Ht).
Qed.

(** With a lap of items, every flag is set. *)
Lemma harness_all_set :
  sz ≤ total (spawn rb ks) → all_set (ring (sys (go_run sched1 (spawn rb ks)))).
Proof.
  intros Hlap. destruct (go_run_safe sz n rb ks sched1 Hnew Hsz Hks Htot) as [Hsafe _].
  pose proof (go_run_valid n rb ks sched1 Hks) as Hreach.
  apply (quiet_all_set n); [done| | |].
  - apply (reachable_flags_ok n (init rb (length ks)));
      [by eapply init_pool_safe|apply init_flags_ok|done|].
    by rewrite harness_claimed.
  - intros tid t seq Ht. by apply (harness_settled tid t Ht).
  - rewrite harness_claimed, (reachable_size sz n rb (length ks)); [done..|].
    by eapply reachable_where.
Qed.

(** The producer that closes the stop channel has closed it. *)
Lemma harness_stopped closer bs :
  ks !! closer = Some (Producing bs true) →
  stopped (go_run sched1 (spawn rb ks)) = true.
Proof.
  intros Hcl.
  pose proof (producer_returns sched1 closer bs true Hcl (Hfair _ _ _ Hcl)) as Hat.
  inversion Hat as [t b0 _ _ _ Hz|_ _ Hc]; [unfold producer_steps in Hz; lia|by apply Hc].
Qed.

End settled.
End harness_pools.

(** C8: producers never wait.  A goroutine that runs the calls of
    [Producer] for [batches] has returned, and has closed the stop
    channel if it is to, as soon as it has taken four steps per call,
    two per item and one more, whatever the steps of the other
    goroutines before and between them and however far behind the
    consumers are: no [Put] waits for a consumer. *)
Theorem producers_never_wait {V} sz n (rb : RingBuffer V) ks sched (tid : nat)
    batches close :
  NewRingBuffer sz n = Ret rb → 0 < sz ≤ int64_max →
  Forall (task_valid n) ks → total (spawn rb ks) < int64_max →
  ks !! tid = Some (Producing batches close) →
  (producer_steps Idle batches ≤ own_steps tid sched)%nat →
  tasks (go_run sched (spawn rb ks)) !! tid = Some Exited ∧
  (close = true → stopped (go_run sched (spawn rb ks)) = true).
Proof.
  intros Hnew Hsz Hks Htot Hk Hm.
  pose proof (producer_returns sz n rb ks Hnew Hsz Hks Htot sched tid batches close Hk Hm)
    as Hat.
  inversion Hat as [t bs _ _ _ Hz|_ Hex Hc]; [|done].
  unfold producer_steps in Hz. lia.
Qed.

(** C9: the goroutines of a harness stop.  Goroutines that run calls of
    [Producer] and [Consumer] on a new ring, one of the producers
    closing the stop channel at its end, with at least as many items as
    the ring has slots: once every producer has taken its steps
    ([sched1]) and then every consumer [5 b + n + 7] steps
    ([sched2]), however the steps interleave, every goroutine has
    returned, every consumer has printed that it stops, and every item
    has been claimed.  That a lap is complete matters: a consumer that
    waits for a flag that no producer is left to set never looks at
    the stop channel. *)
Theorem harness_stops {V} sz n (rb : RingBuffer V) ks sched1 sched2 (closer : nat) bs :
  NewRingBuffer sz n = Ret rb → 0 < sz ≤ int64_max →
  Forall (task_valid n) ks → total (spawn rb ks) < int64_max →
  Forall harness_task ks → ks !! closer = Some (Producing bs true) →
  sz ≤ total (spawn rb ks) →
  (∀ (tid : nat) batches close, ks !! tid = Some (Producing batches close) →
     (producer_steps Idle batches ≤ own_steps tid sched1)%nat) →
  (∀ (tid : nat) id b, ks !! tid = Some (Entering id b) →
     (5 * Z.to_nat b + Z.to_nat n + 7 ≤ own_steps tid sched2)%nat) →
  Forall (λ k, k = Exited) (tasks (go_run (sched1 ++ sched2) (spawn rb ks))) ∧
  (∀ (tid : nat) id b, ks !! tid = Some (Entering id b) →
     Printf (Stopping id) ∈ output (go_run (sched1 ++ sched2) (spawn rb ks))) ∧
  len (claimed (sys (go_run sched1 (spawn rb ks)))) = total (spawn rb ks).
Proof.
  intros Hnew Hsz Hks Htot Hshape Hcl Hlap Hfair1 Hfair2.
  pose proof (harness_all_set sz n rb ks Hnew Hsz Hks Htot Hshape sched1 Hfair1 Hlap)
    as Hall.
  pose proof (harness_stopped sz n rb ks Hnew Hsz Hks Htot sched1 Hfair1 closer bs Hcl)
    as Hst.
  split_and!.
  - apply Forall_lookup. intros tid k Hk.
    destruct (lookup_lt_is_Some_2 ks tid) as [k0 Hk0].
    { apply lookup_lt_Some in Hk. by rewrite go_run_tasks_length in Hk. }
    rewrite (harness_task_exits sz n rb ks Hnew Hsz Hks Htot sched1 sched2 tid k0) in Hk;
      [congruence|done|by eapply (proj1 (Forall_lookup _ _) Hshape)|done..| |].
    + intros batches close ->. by eapply Hfair1.
    + intros id b ->. by eapply Hfair2.
  - intros tid id b Hk.
    apply (consumer_returns sz n rb ks Hnew Hsz Hks Htot sched1 sched2 tid id b Hk Hst Hall
             (Hfair2 _ _ _ Hk)).
  - by apply (harness_claimed sz n rb ks).
Qed.

(** ** The theorems at [main] *)

(** The main goroutine of [main] has returned from its four calls of
    [Producer] and closed the stop channel after 57 steps. *)
Lemma producers_never_wait_witness :
  let p := go_run (replicate 57 0%nat) (spawn ring10 main_tasks) in
  tasks p !! 0%nat = Some Exited ∧ (true = true → stopped p = true).
Proof.
  apply (producers_never_wait 10 3 ring10 main_tasks (replicate 57 0%nat) 0
           main_batches true);
    [apply main_pool_Ret_new|done|apply main_tasks_valid|apply main_total|done|].
  vm_compute. lia.
Defined.

(** A schedule of [main] in which the consumers run while the main
    goroutine publishes, and then each for 20 steps. *)
Definition sched_main1 : list nat :=
  mjoin (replicate 57 [0; 1; 2; 3; 3]%nat).

Definition sched_main2 : list nat := turns 3 20 ++ turns 1 20 ++ turns 2 20.

Lemma main_tasks_harness : Forall harness_task main_tasks.
Proof. unfold main_tasks. simpl. by repeat constructor. Qed.

Lemma sched_main1_fair (tid : nat) batches close :
  main_tasks !! tid = Some (Producing batches close) →
  (producer_steps Idle batches ≤ own_steps tid sched_main1)%nat.
Proof.
  destruct tid as [|[|[|[|tid]]]]; intros [= <- <-]. vm_compute. lia.
Qed.

Lemma sched_main2_fair (tid : nat) id b :
  main_tasks !! tid = Some (Entering id b) →
  (5 * Z.to_nat b + Z.to_nat 3 + 7 ≤ own_steps tid sched_main2)%nat.
Proof.
  destruct tid as [|[|[|[|tid]]]]; intros [= <- <-]; vm_compute; lia.
Qed.

Lemma harness_stops_witness :
  let p := go_run (sched_main1 ++ sched_main2) (spawn ring10 main_tasks) in
  Forall (λ k, k = Exited) (tasks p) ∧
  (∀ (tid : nat) id b, main_tasks !! tid = Some (Entering id b) →
     Printf (Stopping id) ∈ output p) ∧
  len (claimed (sys (go_run sched_main1 (spawn ring10 main_tasks)))) =
    total (spawn ring10 main_tasks).
Proof.
  apply (harness_stops 10 3 ring10 main_tasks sched_main1 sched_main2 0 main_batches);
    [apply main_pool_Ret_new|done|apply main_tasks_valid|apply main_total
    |apply main_tasks_harness|done| |apply sched_main1_fair|apply sched_main2_fair].
  vm_compute. discriminate.
Defined.
