(* ===== verification/Blocked.v ===== *)
(** * A consumer that waits for a flag nobody sets

    The loop of [Get] of src/lmax.go admits [nextRead <= writeCursor],
    and [writeCursor] is the number of items claimed: a consumer that
    has read everything goes on to the slot of the next sequence.  In
    the first lap the flag of that slot is not set, so the call sleeps
    and tries again ([polling]); it looks at no stop channel.  This
    file shows that it does so for ever when the producers are done: in
    every interleaving in which no further item is claimed the call
    never returns, and the goroutine of [Consumer] that made it never
    stops.  [Progress.harness_stops] is the other half: with a lap of
    items every flag is set and every consumer stops. *)

From stdpp Require Import prelude.
From S2P Require Import Prelude GoInt GoSlice RingBuffer RingLog Contract Workload Harness.
From S2P Require Import Threads Concurrent Safety Flags Goroutines Progress.

Section blocked_defs.
Context {V : Type}.

(** The call is on the path of the loop of [Get] that tests the flag of
    the sequence [f_nextRead g] and sleeps: lines 55 to 58 and 66. *)
Definition polling (g : frame V) (t : thread V) : Prop :=
  t = GetLoop g ∨ t = GetGate g ∨ t = GetAvail g ∨ t = GetSleep g.

(** The least cursor a scan has found so far is between -1 and the
    write cursor [w]. *)
Definition scan_ok (w : Z) (t : thread V) : Prop :=
  match t with
  | GetScan _ m _ | GetBarrier _ m => -1 ≤ m ≤ w
  | _ => True
  end.

(** So is the barrier. *)
Definition barrier_ok (s : system V) : Prop :=
  -1 ≤ readBarrier (ring s) ≤ len (claimed s) ∧
  Forall (scan_ok (len (claimed s))) (threads s).

End blocked_defs.

(** ** The barrier in the first lap *)

Section barrier.
Context {V : Type}.
Implicit Types (s : system V) (rb : RingBuffer V) (t : thread V) (es : list (option V)).

Lemma scan_ok_mono w w' t : w ≤ w' → scan_ok w t → scan_ok w' t.
Proof. intros Hw. destruct t; simpl; lia. Qed.

(** A step of a call keeps the barrier and the scan between -1 and the
    write cursor. *)
Lemma thread_step_barrier rb es t t' rb' :
  ring_ok rb es → -1 ≤ readBarrier rb ≤ len es → scan_ok (len es) t →
  thread_step t rb = Some (t', rb') →
  -1 ≤ readBarrier rb' ≤ len es + len (claims t) ∧
  scan_ok (len es + len (claims t)) t'.
Proof.
  intros Hok Hb Ht Hs. pose proof (len_nonneg (claims t)) as Hc.
  pose proof (proj1 (Forall_lookup _ _) (ok_readCursors _ _ Hok)) as Hcs.
  destruct t as [|data|[|d data] nw|d data nw| |b id|g|g|g|g|g v|g|g|g m k|g m|g|p];
    simpl in Hs, Ht, Hc; repeat case_decide;
    try destruct (readCursors rb !! k) as [cursor|] eqn:Hk; step_inv Hs; simpl;
    repeat match goal with
    | E : index (readCursors rb) _ = Ret _ |- _ => apply index_Ret in E as [_ E]
    | E : readCursors rb !! _ = Some _ |- _ => apply Hcs in E; simpl in E
    end; try case_decide; simpl; unfold len in *; simpl; lia.
Qed.

(** One step of the system. *)
Lemma step_barrier_ok s s' : system_ok s → barrier_ok s → step s s' → barrier_ok s'.
Proof.
  intros Hsys Hbar Hstep. revert Hsys Hbar.
  destruct Hstep as [s tid c Htid _|s tid t t' rb' Htid Hs];
    intros [Hok Hts] [Hb Hsc]; split; simpl; try done.
  - apply Forall_insert; [done|]. by destruct c.
  - rewrite len_app.
    by destruct (thread_step_barrier _ _ _ _ _ Hok Hb (proj1 (Forall_lookup _ _) Hsc _ _ Htid) Hs).
  - rewrite len_app. pose proof (len_nonneg (claims t)).
    apply Forall_insert.
    + eapply Forall_impl; [done|]. intros t2. apply scan_ok_mono. lia.
    + by destruct
        (thread_step_barrier _ _ _ _ _ Hok Hb (proj1 (Forall_lookup _ _) Hsc _ _ Htid) Hs).
Qed.

Lemma reachable_barrier_ok s0 s :
  system_ok s0 → barrier_ok s0 → reachable s0 s → len (claimed s) < size (ring s0) →
  barrier_ok s.
Proof.
  intros Hok0 Hb0 Hreach. revert s Hreach.
  apply (rtc_ind_r (λ s, len (claimed s) < size (ring s0) → barrier_ok s)); [done|].
  intros s1 s2 Hreach Hstep IH Hlap.
  pose proof (prefix_length _ _ (step_claimed _ _ Hstep)) as Hlen.
  assert (len (claimed s1) < size (ring s0)) as Hlap1 by (unfold len in *; lia).
  apply (step_barrier_ok s1); [by apply (reachable_system_ok s0)|by apply IH|done].
Qed.

Lemma init_barrier_ok sz n rb (k : nat) :
  NewRingBuffer sz n = Ret rb → barrier_ok (init rb k).
Proof.
  intros Hnew. destruct (decide (sz < 0 ∨ n < 0));
    [by rewrite NewRingBuffer_Panic in Hnew|].
  rewrite NewRingBuffer_Ret in Hnew by lia. injection Hnew as <-.
  split; simpl; [done|]. by apply Forall_replicate.
Qed.

End barrier.

(** ** A call that waits *)

Section polling.
Context {V : Type}.
Implicit Types (s : system V) (rb : RingBuffer V) (t : thread V) (g : frame V).
Implicit Types (es : list (option V)) (tid : nat).

(** In the first lap the flag of the first sequence that is not claimed
    is not set. *)
Lemma next_flag_unset rb es :
  ring_ok rb es → ∃ a, index (available rb) (len es) = Ret a ∧ a ≠ 1.
Proof.
  intros Hok. pose proof (len_nonneg es). pose proof (ok_lap _ _ Hok).
  pose proof (ok_available _ _ Hok).
  destruct (index_in_bounds (available rb) (len es)) as [a Ha];
    [unfold in_bounds; lia|].
  exists a. split; [done|]. intros ->. apply index_Ret in Ha as [_ Ha].
  destruct (ok_flags _ _ Hok _ Ha) as (v & Hv%lookup_lt_Some & _). unfold len in *. lia.
Qed.

(** A step of a call that waits for the first sequence that is not
    claimed: it goes on waiting and changes nothing. *)
Lemma polling_step rb es g t t' rb' :
  ring_ok rb es → -1 ≤ readBarrier rb ≤ len es → len es + 1 < size rb →
  f_nextRead g = len es → f_i g < f_batchSize g →
  polling g t → thread_step t rb = Some (t', rb') → polling g t' ∧ rb' = rb.
Proof.
  intros Hok Hb Hlap Hnr Hi Hpoll Hs. pose proof (len_nonneg es).
  pose proof (ok_size _ _ Hok). pose proof (ok_writeCursor _ _ Hok) as Hw.
  destruct Hpoll as [->|[->|[->| ->]]]; simpl in Hs.
  - rewrite !decide_True in Hs by lia. injection Hs as <- <-.
    split; [right; by left|done].
  - rewrite sub64_exact, int64_of_int_id, decide_True in Hs by int64_lia.
    injection Hs as <- <-. split; [right; right; by left|done].
  - rewrite (ring_ok_slot rb es _ Hok), Hnr in Hs by lia. go_step in Hs.
    destruct (next_flag_unset rb es Hok) as (a & Hidx & Ha). rewrite Hidx in Hs.
    go_step in Hs. rewrite decide_False in Hs by done. injection Hs as <- <-.
    split; [by repeat right|done].
  - injection Hs as <- <-. split; [by left|done].
Qed.

Lemma reachable_claimed s s' : reachable s s' → claimed s `prefix_of` claimed s'.
Proof.
  induction 1 as [|s1 s2 s3 Hstep _ IH]; [done|].
  etrans; [by apply step_claimed|done].
Qed.

(** In every interleaving of the first lap in which no further item is
    claimed, a call that waits for the next sequence goes on waiting. *)
Lemma polling_forever s0 s s' tid g t :
  system_ok s0 → barrier_ok s0 → reachable s0 s → reachable s s' →
  claimed s' = claimed s → len (claimed s) + 1 < size (ring s0) →
  threads s !! tid = Some t → polling g t →
  f_nextRead g = len (claimed s) → f_i g < f_batchSize g →
  ∃ t', threads s' !! tid = Some t' ∧ polling g t'.
Proof.
  intros Hok0 Hb0 Hreach0 Hreach Hcl Hlap Ht Hpoll Hnr Hi. revert s' Hreach Hcl.
  apply (rtc_ind_r (λ s', claimed s' = claimed s → ∃ t', threads s' !! tid = Some t' ∧
                            polling g t')); [by exists t|].
  intros s1 s2 Hreach1 Hstep IH Hcl2.
  assert (claimed s1 = claimed s) as Hcl1.
  { symmetry. apply prefix_length_eq; [by apply reachable_claimed|].
    rewrite <- Hcl2. apply prefix_length, step_claimed, Hstep. }
  destruct (IH Hcl1) as (t1 & Ht1 & Hp1).
  assert (reachable s0 s1) as Hto by (by etrans).
  destruct (reachable_system_ok s0 s1 Hok0 Hto) as [Hok1 _]; [rewrite Hcl1; lia|].
  destruct (reachable_barrier_ok s0 s1 Hok0 Hb0 Hto) as [Hb1 _]; [rewrite Hcl1; lia|].
  destruct (reachable_shape _ _ Hto) as (Hsz & _).
  destruct Hstep as [s1 j c Hj _|s1 j t2 t2' rb' Hj Hs]; simpl in *.
  - exists t1. rewrite list_lookup_insert_ne; [done|]. intros ->.
    rewrite Hj in Ht1. injection Ht1 as <-. by destruct Hp1 as [?|[?|[?|?]]].
  - destruct (decide (j = tid)) as [->|Hne];
      [|exists t1; by rewrite list_lookup_insert_ne].
    rewrite Hj in Ht1. injection Ht1 as ->.
    destruct (polling_step _ _ g t1 t2' rb' Hok1 Hb1) as [Hp' _];
      [rewrite Hsz, Hcl1; lia|by rewrite Hcl1|done..|].
    exists t2'. split; [|done]. apply list_lookup_insert_eq. by eapply lookup_lt_Some.
Qed.

End polling.

(** ** The goroutine that made the call *)

Section blocked_pool.
Context {V : Type} (sz n : Z) (rb : RingBuffer V) (ks : list (task V)).
Context (Hnew : NewRingBuffer sz n = Ret rb) (Hsz : 0 < sz ≤ int64_max).
Context (Hks : Forall (task_valid n) ks) (Hlap : total (spawn rb ks) + 1 < sz).
Context (sched1 : list nat).
Context (Hdone : len (claimed (sys (go_run sched1 (spawn rb ks)))) = total (spawn rb ks)).
Implicit Types (sched : list nat) (tid : nat) (g : frame V) (t : thread V) (k : task V).

(** A run of the pool goes on as a run of the threads. *)
Lemma go_run_reachable sched sched' :
  reachable (sys (go_run sched (spawn rb ks))) (sys (go_run (sched ++ sched') (spawn rb ks))).
Proof.
  rewrite go_run_app. eapply reachable_where.
  apply (go_run_where ks sched'), (go_run_where ks sched (spawn rb ks)), tasks_ok_start.
  eapply Forall_impl; [done|]. apply task_valid_ok.
Qed.

(** Nothing more is claimed once every item of the producers is. *)
Lemma blocked_claimed sched2 :
  claimed (sys (go_run (sched1 ++ sched2) (spawn rb ks))) =
  claimed (sys (go_run sched1 (spawn rb ks))).
Proof.
  symmetry. apply prefix_length_eq; [apply reachable_claimed, go_run_reachable|].
  pose proof (go_run_claimed (sched1 ++ sched2) (spawn rb ks)). unfold len in *. lia.
Qed.

(** The call goes on waiting. *)
Lemma blocked_polling sched2 tid g t :
  threads (sys (go_run sched1 (spawn rb ks))) !! tid = Some t → polling g t →
  f_nextRead g = total (spawn rb ks) → f_i g < f_batchSize g →
  ∃ t', threads (sys (go_run (sched1 ++ sched2) (spawn rb ks))) !! tid = Some t' ∧
    polling g t'.
Proof.
  intros Ht Hp Hnr Hi.
  apply (polling_forever (sys (spawn rb ks)) (sys (go_run sched1 (spawn rb ks))) _ tid g t);
    [by apply (init_system_ok sz n)|by apply (init_barrier_ok sz n)
    |apply (go_run_reachable [])|apply go_run_reachable|apply blocked_claimed
    | |done|done|by rewrite Hdone|done].
  pose proof (reachable_size sz n rb (length ks) (init rb (length ks)) Hnew (rtc_refl _ _))
    as Hsize.
  rewrite Hdone. simpl in Hsize |- *. lia.
Qed.

(** A step of a goroutine inside such a call is a step of the call. *)
Lemma go_step_polling (p : pool V) tid g t :
  threads (sys p) !! tid = Some t → polling g t → tasks (go_step p tid) = tasks p.
Proof.
  intros Ht Hp. unfold go_step. rewrite Ht.
  destruct (tasks p !! tid); by destruct Hp as [->|[->|[->| ->]]].
Qed.

(** The goroutine does not get to the code after the call. *)
Lemma blocked_task sched2 tid g t :
  threads (sys (go_run sched1 (spawn rb ks))) !! tid = Some t → polling g t →
  f_nextRead g = total (spawn rb ks) → f_i g < f_batchSize g →
  tasks (go_run (sched1 ++ sched2) (spawn rb ks)) !! tid =
  tasks (go_run sched1 (spawn rb ks)) !! tid.
Proof.
  intros Ht Hp Hnr Hi.
  induction sched2 as [|j sched2 IH] using rev_ind; [by rewrite app_nil_r|].
  rewrite app_assoc, go_run_app. simpl. rewrite <- IH.
  destruct (decide (j = tid)) as [->|Hne]; [|by apply go_step_other].
  destruct (blocked_polling sched2 tid g t Ht Hp Hnr Hi) as (t' & Ht' & Hp').
  by rewrite (go_step_polling _ tid g t').
Qed.

End blocked_pool.

(** Once closed the stop channel stays closed. *)
Lemma go_run_stopped {V} sched (p : pool V) :
  stopped p = true → stopped (go_run sched p) = true.
Proof.
  revert p. induction sched as [|j sched IH]; intros p Hst; [done|].
  simpl. by apply IH, go_step_stopped.
Qed.

(** C10: a consumer that waits for an item nobody will publish never
    stops.  Goroutines that run calls of [Producer] and [Consumer] on a
    new ring, one of the producers closing the stop channel at its end,
    with at least two items fewer than the ring has slots: once every
    producer has taken its steps ([sched1]), a consumer whose call of
    [Get] has read every item and whose batch is not full is at the
    test of the flag of the next slot, and there it stays whatever
    steps follow ([sched2]): the stop channel is closed, the goroutine
    is still inside its call and never reaches its [select].
    [Progress.harness_stops] is the other case, a lap of items or
    more. *)
Theorem blocked_consumer_never_stops {V} sz n (rb : RingBuffer V) ks sched1 sched2
    (closer : nat) bs (tid : nat) id b g t :
  NewRingBuffer sz n = Ret rb → 0 < sz ≤ int64_max →
  Forall (task_valid n) ks → Forall harness_task ks →
  ks !! closer = Some (Producing bs true) →
  total (spawn rb ks) + 1 < sz →
  (∀ (j : nat) batches close, ks !! j = Some (Producing batches close) →
     (producer_steps Idle batches ≤ own_steps j sched1)%nat) →
  ks !! tid = Some (Entering id b) →
  threads (sys (go_run sched1 (spawn rb ks))) !! tid = Some t → polling g t →
  f_nextRead g = total (spawn rb ks) → f_i g < f_batchSize g →
  stopped (go_run (sched1 ++ sched2) (spawn rb ks)) = true ∧
  tasks (go_run (sched1 ++ sched2) (spawn rb ks)) !! tid = Some (Serving id b) ∧
  ∃ t', threads (sys (go_run (sched1 ++ sched2) (spawn rb ks))) !! tid = Some t' ∧
    polling g t'.
Proof.
  intros Hnew Hsz Hks Hshape Hcl Hlap Hfair Hk Ht Hp Hnr Hi.
  assert (total (spawn rb ks) < int64_max) as Htot by lia.
  pose proof (harness_claimed sz n rb ks Hnew Hsz Hks Htot Hshape sched1 Hfair) as Hdone.
  split_and!.
  - rewrite go_run_app. apply go_run_stopped.
    by apply (harness_stopped sz n rb ks Hnew Hsz Hks Htot sched1 Hfair closer bs).
  - rewrite (blocked_task sz n rb ks Hnew Hsz Hks Hlap sched1 Hdone sched2 tid g t) by done.
    destruct (consumer_started sz n rb ks Hnew Hsz Hks Htot sched1 tid id b Hk)
      as [Ht' _ _|t0 _ Hk' _|Ht' _ _]; [|done|];
      rewrite Ht in Ht'; injection Ht' as ->; by destruct Hp as [?|[?|[?|?]]].
  - by apply (blocked_polling sz n rb ks Hnew Hsz Hks Hlap sched1 Hdone sched2 tid g t).
Qed.

(** ** The theorem at the benchmark with one producer *)

(** The new ring of [BenchmarkSingleProducerSingleConsumer]. *)
Definition ring100_1 : RingBuffer Z :=
  mkRingBuffer 100 (replicate 100 None) 0 [-1] (replicate 100 0) 0 0.

(** Its goroutines when [b.N] is 1. *)
Definition bench1_tasks : list (task Z) := [Producing [[Some 0]] true; Entering 0 10].

Lemma bench1_Ret :
  BenchmarkSingleProducerSingleConsumer 1 = Ret (spawn ring100_1 bench1_tasks).
Proof. vm_compute. reflexivity. Qed.

(** The consumer enters its call of [Get], the benchmark publishes its
    item and closes the stop channel, the consumer reads the item. *)
Definition sched_bench : list nat := [1; 1]%nat ++ turns 0 7 ++ turns 1 8.

(** Where the call of the consumer is then: one item read, at the flag
    of the slot of sequence 1. *)
Definition wait1 : frame Z := mkFrame 10 0 1 1 [Some 0].

Lemma bench1_waiting :
  threads (sys (go_run sched_bench (spawn ring100_1 bench1_tasks))) !! 1%nat =
  Some (GetAvail wait1).
Proof. vm_compute. reflexivity. Qed.

Lemma sched_bench_fair (j : nat) batches close :
  bench1_tasks !! j = Some (Producing batches close) →
  (producer_steps Idle batches ≤ own_steps j sched_bench)%nat.
Proof. destruct j as [|[|j]]; intros [= <- <-]. vm_compute. lia. Qed.

Lemma blocked_consumer_never_stops_witness :
  let p := go_run (sched_bench ++ turns 1 40 ++ turns 0 3)
             (spawn ring100_1 bench1_tasks) in
  stopped p = true ∧ tasks p !! 1%nat = Some (Serving 0 10) ∧
  ∃ t', threads (sys p) !! 1%nat = Some t' ∧ polling wait1 t'.
Proof.
  apply (blocked_consumer_never_stops 100 1 ring100_1 bench1_tasks sched_bench
           (turns 1 40 ++ turns 0 3) 0 [[Some 0]] 1 0 10 wait1 (GetAvail wait1));
    [by vm_compute|done|repeat constructor; lia|by repeat constructor|done
    |by vm_compute|apply sched_bench_fair|done|apply bench1_waiting
    |right; right; by left|by vm_compute|by vm_compute].
Defined.
