(* ===== verification/Output.v ===== *)
(** * What the consumers print

    [Consumer] of src/lmax.go prints every payload a [Get] hands to it
    that is not [nil].  This file ties the output of the goroutines to
    the log of [Concurrent]: what the consumer [id] has printed is what
    the calls of [Get] have returned to it ([printed_ok]), in every
    interleaving and on every lap.  With [Streams] that gives the
    broadcast property of the specification for the program itself, in
    the first lap: what a consumer has printed, and what its call in
    progress has copied, are the first [cursor + 1] items published. *)

From stdpp Require Import prelude.
From S2P Require Import Prelude GoInt GoSlice RingBuffer RingLog Contract Workload Harness.
From S2P Require Import Threads Concurrent Safety Flags Consumers Streams Goroutines.
From S2P Require Import Progress.

Section output_defs.
Context {V : Type}.

(** The events among the lines of output. *)
Definition prints (out : list (line V)) : list (event V) :=
  omap (λ l, match l with Printf e => Some e | Logf _ _ => None end) out.

(** The consumer a goroutine serves. *)
Definition task_cid (ks : list (task V)) (tid : nat) : option nat :=
  match ks !! tid with
  | Some (Entering id _ | Serving id _ | Draining id _) => Some (Z.to_nat id)
  | _ => None
  end.

(** What consumer [id] has printed is what the calls of [Get] have
    handed to it and is not [nil]. *)
Definition printed_ok (p : pool V) (id : Z) : Prop :=
  ∃ d, delivered (sys p) !! Z.to_nat id = Some d ∧
       printed id (prints (output p)) = non_nil d.

(** What a step of goroutine [j] does to the output and to what has
    been handed over: nothing, or the goroutine prints between two
    calls, or a [Get] returns. *)
Inductive out_step (p p' : pool V) (j : nat) : Prop :=
| out_same :
    output p' = output p → delivered (sys p') = delivered (sys p) → out_step p p' j
| out_code k k' out close :
    next_of (stopped p) (tasks p) k = Become k' out close →
    output p' = output p ++ out → delivered (sys p') = delivered (sys p) →
    out_step p p' j
| out_return g k :
    threads (sys p) !! j = Some (GetDone g) → tasks p !! j = Some k →
    output p' = output p ++ (return_of k (f_results g)).2 →
    delivered (sys p') = deliver (GetDone g) (delivered (sys p)) →
    out_step p p' j.

End output_defs.

(** ** One step *)

Section output_steps.
Context {V : Type}.
Implicit Types (p : pool V) (k : task V) (j tid : nat) (id : Z) (out : list (line V)).

Lemma prints_app out1 out2 : prints (out1 ++ out2) = prints out1 ++ prints out2.
Proof. unfold prints. by rewrite omap_app. Qed.

Lemma prints_Printf (evs : list (event V)) : prints (Printf <$> evs) = evs.
Proof. unfold prints. induction evs as [|e evs IH]; simpl; [done|by f_equal]. Qed.

Lemma non_nil_app (d1 d2 : list (option V)) : non_nil (d1 ++ d2) = non_nil d1 ++ non_nil d2.
Proof. unfold non_nil. by rewrite omap_app. Qed.

(** Between two calls a goroutine prints no payload. *)
Lemma next_Become_prints st ks k k' out close id :
  next_of st ks k = Become k' out close → printed id (prints out) = [].
Proof.
  destruct k as [[|data batches] cl|i b|i b|i b|others cl|]; simpl;
    unfold enter_next, serve_next, drain_next, wait_next;
    repeat case_match; intros [= <- <- <-]; done.
Qed.

(** The cases of a step. *)
Lemma go_step_out p j : out_step p (go_step p j) j.
Proof.
  unfold go_step.
  destruct (threads (sys p) !! j) as [t|] eqn:Ht; [|by apply out_same].
  destruct (tasks p !! j) as [k|] eqn:Hk; [|destruct t; by apply out_same].
  assert (∀ ks st, (∀ g, t ≠ GetDone g) →
            out_step p (mkPool (move (sys p) (j, None)) ks st (output p)) j) as Hcall.
  { intros ks st Hg. apply out_same; [done|]. by apply (move_delivered _ _ t). }
  destruct t as [|data|data nw|d data nw| |b id|g|g|g|g|g v|g|g|g m i|g m|g|pn];
    try (by apply Hcall).
  - destruct (next_of _ _ k) as [c k'|k' out close|pn|] eqn:Hn.
    + apply out_same; [done|]. by rewrite move_call.
    + by eapply out_code.
    + by apply out_same.
    + by apply out_same.
  - destruct (return_of k (f_results g)) as [k' out] eqn:Hr.
    apply (out_return _ _ _ g k); [done..|by rewrite Hr|].
    by rewrite (move_thread _ _ _ Idle (ring (sys p)) Ht).
Qed.

(** A step keeps the output of a consumer in step with what it was
    handed, when the goroutine that returns from a [Get] is a consumer
    that prints. *)
Lemma printed_ok_step p j id :
  (∀ g k, threads (sys p) !! j = Some (GetDone g) → tasks p !! j = Some k →
     ∃ b, k = Serving (f_consumerId g) b ∧ 0 ≤ f_consumerId g) →
  0 ≤ id → printed_ok p id → printed_ok (go_step p j) id.
Proof.
  intros Hshape Hid (d & Hd & Hp).
  destruct (go_step_out p j) as [Ho Hds|k k' out close Hn Ho Hds|g k Ht Hk Ho Hds].
  - exists d. by rewrite Ho, Hds.
  - exists d. rewrite Ho, Hds, prints_app, printed_app, (next_Become_prints _ _ _ _ _ _ _ Hn).
    by rewrite app_nil_r.
  - destruct (Hshape g k Ht Hk) as (b & -> & Hid'). simpl in Ho. unfold printed_ok.
    rewrite Ho, Hds, prints_app, printed_app, prints_Printf. simpl.
    destruct (decide (f_consumerId g = id)) as [<-|Hne].
    + exists (d ++ f_results g).
      rewrite list_lookup_alter, decide_True, Hd, printed_report, Hp by done.
      by rewrite non_nil_app.
    + exists d. rewrite list_lookup_alter_ne by lia.
      by rewrite printed_report_ne, app_nil_r.
Qed.

End output_steps.

(** ** Pools of producers and consumers *)

Section output_pools.
Context {V : Type} (sz n : Z) (rb : RingBuffer V) (ks : list (task V)).
Context (Hnew : NewRingBuffer sz n = Ret rb) (Hsz : 0 < sz ≤ int64_max).
Context (Hks : Forall (task_valid n) ks) (Htot : total (spawn rb ks) < int64_max).
Context (Hshape : Forall harness_task ks).
Implicit Types (sched : list nat) (tid j : nat) (id b : Z).

(** A goroutine that returns from a [Get] runs [Consumer] for the
    consumer the call was made for. *)
Lemma harness_get_done sched j g k :
  threads (sys (go_run sched (spawn rb ks))) !! j = Some (GetDone g) →
  tasks (go_run sched (spawn rb ks)) !! j = Some k →
  ∃ b, k = Serving (f_consumerId g) b ∧ 0 ≤ f_consumerId g.
Proof.
  intros Ht Hk.
  assert (is_Some (ks !! j)) as [k0 Hk0].
  { apply lookup_lt_is_Some_2. apply lookup_lt_Some in Hk.
    by rewrite go_run_tasks_length in Hk. }
  pose proof (proj1 (Forall_lookup _ _) Hshape _ _ Hk0) as Hh.
  pose proof (proj1 (Forall_lookup _ _) Hks _ _ Hk0) as Hv.
  destruct k0 as [batches close|id b| | | |]; try done.
  - assert (producer_at (go_run sched (spawn rb ks)) j close
              (producer_steps Idle batches - own_steps j sched)) as Hat.
    { apply producer_run; [apply (spawn_no_crash sz n rb ks Hnew Hsz Hks Htot [])|].
      apply producer_running; [by eapply spawn_idle|done..]. }
    inversion Hat as [t0 bs Ht' Hk' Hp Hm|Ht' Hk' Hc Hm]; by simplify_eq.
  - destruct (consumer_started sz n rb ks Hnew Hsz Hks Htot sched j id b Hk0)
      as [Ht' Hk' _|t0 Ht' Hk' Hsv|Ht' Hk' _]; simplify_eq.
    destruct Hsv as (_ & <- & _), Hv as [_ [? _]]. by exists b.
Qed.

(** In every interleaving and on every lap, what a consumer has printed
    is what it was handed. *)
Lemma harness_printed_ok sched id :
  0 ≤ id < n → printed_ok (go_run sched (spawn rb ks)) id.
Proof.
  intros Hid. induction sched as [|j sched IH] using rev_ind.
  - exists []. split; [|done]. simpl. apply lookup_replicate_2.
    destruct (init_pool_safe sz n rb (length ks) Hnew Hsz) as (_ & Hn & _).
    simpl in Hn. unfold len in Hn. lia.
  - rewrite go_run_app. apply printed_ok_step; [|lia|done].
    intros g k. apply harness_get_done.
Qed.

(** A goroutine makes the calls of [Get] for its own consumer. *)
Lemma pool_calls_own tid c : pool_calls ks tid c → own_call (task_cid ks) tid c.
Proof.
  intros (k & Hk & Hc). pose proof (proj1 (Forall_lookup _ _) Hks _ _ Hk) as Hv.
  destruct k as [batches close|id b|id b|id b|others close|]; simpl in Hc, Hv; try done;
    [by destruct Hc as (d & -> & _)|subst c..];
    simpl; unfold owns, task_cid; rewrite Hk; simpl; f_equal; lia.
Qed.

(** A run of the pool is a run of the discipline of [Consumers]. *)
Lemma go_run_own sched :
  rtc (step_own (task_cid ks)) (init rb (length ks)) (sys (go_run sched (spawn rb ks))).
Proof.
  eapply rtc_step_where_impl; [apply pool_calls_own|].
  apply (go_run_where ks sched (spawn rb ks)), tasks_ok_start.
  eapply Forall_impl; [exact Hks|]. apply task_valid_ok.
Qed.

End output_pools.

(** C7: the program broadcasts in the first lap.  Goroutines that run
    calls of [Producer] and [Consumer] on a new ring, one goroutine per
    consumer: in every interleaving, as long as fewer items are claimed
    than the ring has slots, the payloads consumer [id] has printed
    followed by those its call of [Get] in progress has copied are the
    first [cursor + 1] items claimed that are not [nil], in the order
    of the claims. *)
Theorem consumers_print_what_was_published {V} sz n (rb : RingBuffer V) ks sched
    (tid : nat) id b t cur :
  NewRingBuffer sz n = Ret rb → 0 < sz ≤ int64_max →
  Forall (task_valid n) ks → total (spawn rb ks) < int64_max →
  Forall harness_task ks →
  (∀ i j c, task_cid ks i = Some c → task_cid ks j = Some c → i = j) →
  len (claimed (sys (go_run sched (spawn rb ks)))) < sz →
  ks !! tid = Some (Entering id b) →
  threads (sys (go_run sched (spawn rb ks))) !! tid = Some t →
  readCursors (ring (sys (go_run sched (spawn rb ks)))) !! Z.to_nat id = Some cur →
  printed id (prints (output (go_run sched (spawn rb ks)))) ++ non_nil (in_flight t) =
    non_nil (take (Z.to_nat (cur + 1)) (claimed (sys (go_run sched (spawn rb ks))))).
Proof.
  intros Hnew Hsz Hks Htot Hshape Hinj Hlap Hk Ht Hcur.
  pose proof (proj1 (Forall_lookup _ _) Hks _ _ Hk) as [_ Hid].
  destruct (harness_printed_ok sz n rb ks Hnew Hsz Hks Htot Hshape sched id Hid)
    as (d & Hd & ->).
  pose proof (new_streams_ok (task_cid ks) Hinj sz n (length ks) rb _ Hnew Hsz
                (go_run_own n rb ks Hks sched) Hlap tid t Ht) as Hst.
  destruct (Hst) with (c := Z.to_nat id) (cur := cur) (d := d) as [_ <-]; try done.
  - intros [pn ->]. by destruct (go_run_safe sz n rb ks sched Hnew Hsz Hks Htot) as [_ Hnc];
      destruct (Hnc tid pn).
  - unfold task_cid. by rewrite Hk.
  - by rewrite non_nil_app.
Qed.

(** ** The theorem at [main] *)

(** The main goroutine makes its first call of [Producer]; then the
    first consumer runs for 34 steps and the second for 12. *)
Definition sched_first : list nat := turns 0 14 ++ turns 1 34 ++ turns 2 12.

Definition first_end : pool Z := go_run sched_first (spawn ring10 main_tasks).

(** [main] starts one goroutine per consumer. *)
Lemma main_cid_distinct (i j c : nat) :
  task_cid main_tasks i = Some c → task_cid main_tasks j = Some c → i = j.
Proof.
  destruct i as [|[|[|[|i]]]], j as [|[|[|[|j]]]]; intros Hi Hj;
    vm_compute in Hi, Hj; congruence.
Qed.

(** The first consumer has printed 0 and 1 and holds 2 and 3; its
    cursor is at 3. *)
Lemma consumers_print_what_was_published_witness :
  printed 0 (prints (output first_end)) ++
    non_nil (in_flight (GetMin (mkFrame 2 0 2 4 [Some 2; Some 3]))) =
  non_nil (take (Z.to_nat (3 + 1)) (claimed (sys first_end))).
Proof.
  apply (consumers_print_what_was_published 10 3 ring10 main_tasks sched_first 1 0 2
           (GetMin (mkFrame 2 0 2 4 [Some 2; Some 3])) 3);
    [apply main_pool_Ret_new|done|apply main_tasks_valid|apply main_total
    |apply main_tasks_harness|apply main_cid_distinct|..].
  - vm_compute. reflexivity.
  - done.
  - vm_compute. reflexivity.
  - vm_compute. reflexivity.
Defined.
