(* ===== verification/Published.v ===== *)
(** * Only what was published is consumed

    [Put] of src/lmax.go stores the payload of a slot (line 39) before
    it sets the flag of the slot (line 40), and [Get] copies a payload
    (line 59) only after it has found the flag set (line 58).  No flag
    is ever cleared, so after the first lap a consumer can be handed an
    item of another lap than the one it asks for ([Anomalies]); but it
    is never handed anything else than an item: in every interleaving,
    on every lap and for any calls, a payload a [Get] returns is a
    payload some [Put] was called with ([system_known]).  For the
    programs of [Goroutines] that means that every line a consumer
    prints or logs shows an item of one of the [Producer] calls of the
    program. *)

From stdpp Require Import prelude.
From S2P Require Import Prelude GoInt GoSlice RingBuffer RingLog Contract Workload Harness.
From S2P Require Import Threads Concurrent Safety Flags Consumers Streams Goroutines.
From S2P Require Import Progress Output.

Section published_defs.
Context {V : Type}.
Implicit Types (rb : RingBuffer V) (es vs : list (option V)) (t : thread V) (j : nat).

(** The payload of slot [j] is an item of the log. *)
Definition slot_known rb es j : Prop := ∀ v, buffer rb !! j = Some v → v ∈ es.

(** The flag of slot [j] is set. *)
Definition slot_flagged rb j : Prop := available rb !! j = Some 1.

(** [P] holds of the slot of the sequence [seq]: [seq % size]. *)
Definition at_slot rb (seq : Z) (P : nat → Prop) : Prop :=
  ∀ k, rem64 seq (int64_of_int (size rb)) = Ret k → P (Z.to_nat k).

(** The payload of a slot whose flag is set is an item of the log. *)
Definition ring_known rb es : Prop := ∀ j, slot_flagged rb j → slot_known rb es j.

(** What a call holds are items of the log: the items a [Put] has
    still to store, the payloads a [Get] has copied.  Between the two
    stores of [Put] the slot holds an item; between the test of the
    flag and the copy the flag is set. *)
Definition thread_known rb es t : Prop :=
  match t with
  | PutWrite data _ => data ⊆ es
  | PutFlag _ data nw => data ⊆ es ∧ at_slot rb nw (slot_known rb es)
  | GetCopy g => f_results g ⊆ es ∧ at_slot rb (f_nextRead g) (slot_flagged rb)
  | GetStore g v => f_results g ⊆ es ∧ v ∈ es
  | _ => from_option (λ g, f_results g ⊆ es) True (frame_of t)
  end.

(** The step of a thread is a store to a slot. *)
Definition stores t : Prop :=
  match t with
  | PutWrite (_ :: _) _ | PutFlag _ _ _ => True
  | _ => False
  end.

(** What a step leaves true for the other threads. *)
Record grows rb es rb' es' : Prop := mk_grows {
  grows_log : es ⊆ es';
  grows_size : size rb' = size rb;
  grows_flags : ∀ j, slot_flagged rb j → slot_flagged rb' j;
  grows_slots : ∀ j, slot_known rb es j → slot_known rb' es' j;
}.

(** The invariant: of the ring, of every thread, and of what the calls
    of [Get] have returned. *)
Definition system_known (s : system V) : Prop :=
  ring_known (ring s) (claimed s) ∧
  Forall (thread_known (ring s) (claimed s)) (threads s) ∧
  Forall (λ d, d ⊆ claimed s) (delivered s).

(** The item was passed to a call of [Put] that [may] allows. *)
Definition put_by (may : nat → call V → Prop) (v : option V) : Prop :=
  ∃ (tid : nat) data, may tid (CallPut data) ∧ v ∈ data.

(** Every item of the log was, and every call of [Put] that has not
    claimed its sequences is one that [may] allows. *)
Definition sourced (may : nat → call V → Prop) (s : system V) : Prop :=
  (∀ v, v ∈ claimed s → put_by may v) ∧
  ∀ (tid : nat) data, threads s !! tid = Some (PutCall data) → may tid (CallPut data).

(** The payload a line of output shows. *)
Definition carried (l : line V) : option (option V) :=
  match l with
  | Logf _ data => Some data
  | Printf (Consumed _ v) => Some (Some v)
  | Printf (Stopping _) => None
  end.

(** Every payload in the output is an item of the log. *)
Definition output_known (p : pool V) : Prop :=
  ∀ l d, l ∈ output p → carried l = Some d → d ∈ claimed (sys p).

(** The item is in a batch of one of the [Producer] calls of the
    tasks. *)
Definition item_of (ks : list (task V)) (v : option V) : Prop :=
  ∃ (tid : nat) batches close data,
    ks !! tid = Some (Producing batches close) ∧ data ∈ batches ∧ v ∈ data.

End published_defs.

(** ** One step of one thread *)

Section published_steps.
Context {V : Type}.
Implicit Types (rb : RingBuffer V) (es vs : list (option V)) (t : thread V) (j : nat).

(** Inclusion of lists, for [eauto]. *)
Lemma known_mono es es' vs : es ⊆ es' → vs ⊆ es → vs ⊆ es'.
Proof. intros Hes Hvs. by etrans. Qed.

Lemma known_snoc es vs v : vs ⊆ es → v ∈ es → vs ++ [v] ⊆ es.
Proof.
  intros Hvs Hv x [?|Hx]%elem_of_app; [by apply Hvs|].
  by apply list_elem_of_singleton in Hx as ->.
Qed.

Lemma known_tail es vs v : v :: vs ⊆ es → v ∈ es ∧ vs ⊆ es.
Proof. by intros [? ?]%list_subseteq_cons_iff. Qed.

Create HintDb known.
#[local] Hint Resolve list_subseteq_nil list_subseteq_app_l list_subseteq_app_r
  known_snoc : known.
#[local] Hint Extern 1 (_ ⊆ _) => reflexivity : known.

Lemma thread_known_grows rb es rb' es' t :
  grows rb es rb' es' → thread_known rb es t → thread_known rb' es' t.
Proof.
  intros [Hlog Hsize Hflags Hslots].
  destruct t; simpl; unfold at_slot; rewrite ?Hsize; try done;
    intros Ht; destruct_and?; repeat split; eauto using known_mono.
Qed.

(** A step that stores to no slot leaves the slots and the flags as
    they are. *)
Lemma thread_step_slots t rb t' rb' :
  ¬ stores t → thread_step t rb = Some (t', rb') →
  size rb' = size rb ∧ buffer rb' = buffer rb ∧ available rb' = available rb.
Proof.
  intros Hst Hs.
  destruct t as [|data|[|d data] nw|d data nw| |b id|g|g|g|g|g v|g|g|g m k|g m|g|p];
    simpl in Hs, Hst; try done; repeat case_decide;
    try destruct (readCursors rb !! k); by step_inv Hs.
Qed.

Lemma same_slots_grows rb es rb' es' :
  es ⊆ es' →
  size rb' = size rb ∧ buffer rb' = buffer rb ∧ available rb' = available rb →
  grows rb es rb' es'.
Proof.
  intros Hes (Hsize & Hbuf & Hav). split; [done..| |].
  - unfold slot_flagged. by rewrite Hav.
  - unfold slot_known. rewrite Hbuf. auto.
Qed.

Lemma grows_refl rb es : grows rb es rb es.
Proof. by apply same_slots_grows. Qed.

Lemma ring_known_grows rb es rb' es' :
  grows rb es rb' es' → available rb' = available rb →
  ring_known rb es → ring_known rb' es'.
Proof.
  intros Hg Hav Hring j Hj. apply (grows_slots _ _ _ _ Hg), Hring.
  unfold slot_flagged in *. by rewrite <- Hav.
Qed.

(** The test of the flag: the copy follows only when the flag is set. *)
Lemma avail_step_known rb es g t' rb' :
  f_results g ⊆ es → thread_step (GetAvail g) rb = Some (t', rb') →
  thread_known rb es t'.
Proof.
  intros Hres Hs. simpl in Hs. step_inv Hs; simpl; [|done..].
  case_decide as Ha; simpl; [|done]. subst. split; [done|].
  intros k Hk. rewrite E in Hk. injection Hk as <-. by apply index_Ret in E0 as [_ ?].
Qed.

(** The copy: the payload of a slot whose flag is set. *)
Lemma copy_step_known rb es g t' rb' :
  ring_known rb es → thread_known rb es (GetCopy g) →
  thread_step (GetCopy g) rb = Some (t', rb') → thread_known rb es t'.
Proof.
  intros Hring [Hres Hflag] Hs. simpl in Hs. step_inv Hs; simpl; [|done..].
  split; [done|]. apply index_Ret in E0 as [_ Hv]. by apply (Hring _ (Hflag _ E)).
Qed.

(** The thread after a step that stores to no slot. *)
Lemma quiet_step_known rb es t t' rb' :
  ¬ stores t → ring_known rb es → thread_known rb es t →
  thread_step t rb = Some (t', rb') → thread_known rb (es ++ claims t) t'.
Proof.
  intros Hst Hring Ht Hs.
  assert (grows rb es rb (es ++ claims t)) as Hg
    by (apply same_slots_grows; [auto with known|done]).
  destruct t as [|data|[|d data] nw|d data nw| |b id|g|g|g|g|g v|g|g|g m k|g m|g|p];
    try done; simpl (claims _) in *; rewrite ?app_nil_r in *;
    try (by eapply avail_step_known; [exact Ht|exact Hs]);
    try (by eapply copy_step_known);
    simpl in Hs, Ht; repeat case_decide; try destruct (readCursors rb !! k);
    step_inv Hs; simpl; try done; destruct_and?; auto with known.
Qed.

(** The store of a payload. *)
Lemma write_step_known rb es d data nw t' rb' :
  ring_known rb es → d :: data ⊆ es →
  thread_step (PutWrite (d :: data) nw) rb = Some (t', rb') →
  grows rb es rb' es ∧ ring_known rb' es ∧ thread_known rb' es t'.
Proof.
  intros Hring Hall Hs. destruct (known_tail _ _ _ Hall) as [Hd Hdata].
  simpl in Hs. step_inv Hs; simpl; [|by split_and!; [apply grows_refl|..]..].
  apply store_Ret_inv in E0 as [Hin ->].
  assert (∀ j, slot_known rb es j → slot_known (set_buffer (<[Z.to_nat x := d]> (buffer rb)) rb) es j)
    as Hslots.
  { intros j Hj v. simpl. destruct (decide (j = Z.to_nat x)) as [->|Hne].
    - rewrite list_lookup_insert_eq by (unfold in_bounds, len in Hin; lia).
      by intros [= <-].
    - rewrite list_lookup_insert_ne by done. apply Hj. }
  split_and!; [by split|intros j Hj; by apply Hslots, Hring|done|].
  intros k Hk. simpl in Hk. rewrite E in Hk. injection Hk as <-. intros v. simpl.
  rewrite list_lookup_insert_eq by (unfold in_bounds, len in Hin; lia).
  by intros [= <-].
Qed.

(** The store of a flag. *)
Lemma flag_step_known rb es d data nw t' rb' :
  ring_known rb es → thread_known rb es (PutFlag d data nw) →
  thread_step (PutFlag d data nw) rb = Some (t', rb') →
  grows rb es rb' es ∧ ring_known rb' es ∧ thread_known rb' es t'.
Proof.
  intros Hring [Hd Hslot] Hs. simpl in Hs. step_inv Hs; simpl;
    [|by split_and!; [apply grows_refl|..]..].
  apply store_Ret_inv in E0 as [Hin ->]. split_and!; [split; try done| |done].
  - intros j. unfold slot_flagged. simpl. intros Hj.
    destruct (decide (j = Z.to_nat x)) as [->|Hne].
    + apply list_lookup_insert_eq. unfold in_bounds, len in Hin. lia.
    + by rewrite list_lookup_insert_ne.
  - intros j. unfold slot_flagged. simpl.
    destruct (decide (j = Z.to_nat x)) as [->|Hne]; [intros _; by apply Hslot|].
    rewrite list_lookup_insert_ne by done. apply Hring.
Qed.

(** A step of a thread keeps the invariant of the ring, establishes
    that of the thread and leaves the others theirs. *)
Lemma thread_step_known rb es t t' rb' :
  ring_known rb es → thread_known rb es t → thread_step t rb = Some (t', rb') →
  grows rb es rb' (es ++ claims t) ∧ ring_known rb' (es ++ claims t) ∧
  thread_known rb' (es ++ claims t) t'.
Proof.
  intros Hring Ht Hs.
  assert (stores t ∨ ¬ stores t) as [Hst|Hst]
    by (destruct t as [| |[|]| | | | | | | | | | | | | |]; simpl; tauto).
  - destruct t as [| |[|d data] nw|d data nw| | | | | | | | | | | | |]; try done;
      simpl (claims _); rewrite app_nil_r.
    + by apply (write_step_known _ _ d data nw).
    + by apply (flag_step_known _ _ d data nw).
  - pose proof (thread_step_slots _ _ _ _ Hst Hs) as Hsame.
    assert (grows rb es rb' (es ++ claims t)) as Hg
      by (apply same_slots_grows; [auto with known|done]).
    split_and!; [done|by apply (ring_known_grows rb es); [|apply Hsame|]|].
    apply (thread_known_grows rb (es ++ claims t));
      [by apply same_slots_grows|by apply (quiet_step_known _ _ _ _ rb')].
Qed.

(** No step leaves a thread at the start of a [Put]. *)
Lemma thread_step_not_PutCall t rb t' rb' data :
  thread_step t rb = Some (t', rb') → t' ≠ PutCall data.
Proof.
  intros Hs.
  destruct t as [|data'|[|d data'] nw|d data' nw| |b id|g|g|g|g|g v|g|g|g m k|g m|g|p];
    simpl in Hs; repeat case_decide; try destruct (readCursors rb !! k);
    step_inv Hs; try case_decide; done.
Qed.

End published_steps.

(** ** The system in every interleaving *)

Section published_system.
Context {V : Type}.
Implicit Types (s : system V) (rb : RingBuffer V) (t : thread V).
Implicit Types (es : list (option V)) (may : nat → call V → Prop).

(** What a returning [Get] hands over are items of the log. *)
Lemma deliver_known rb es es' t ds :
  es ⊆ es' → thread_known rb es t → Forall (λ d, d ⊆ es) ds →
  Forall (λ d, d ⊆ es') (deliver t ds).
Proof.
  intros Hes Ht Hds.
  assert (Forall (λ d, d ⊆ es') ds) as Hds'
    by (eapply Forall_impl; [done|]; intros d; by apply known_mono).
  destruct t; simpl; try done. apply Forall_alter; [done|].
  intros d _ Hd x [?|?]%elem_of_app; [by apply Hd|by apply Hes, Ht].
Qed.

(** One step of the system. *)
Lemma step_known may s s' : system_known s → step_where may s s' → system_known s'.
Proof.
  intros Hsys Hstep. revert Hsys.
  destruct Hstep as [s tid c Htid _|s tid t t' rb' Htid Hs]; intros (Hring & Hts & Hds).
  - split_and!; simpl; [done| |done]. apply Forall_insert; [done|by destruct c].
  - pose proof (proj1 (Forall_lookup _ _) Hts _ _ Htid) as Ht.
    destruct (thread_step_known _ _ _ _ _ Hring Ht Hs) as (Hg & Hring' & Ht').
    split_and!; simpl; [done| |].
    + apply Forall_insert; [|done]. eapply Forall_impl; [done|].
      intros t2. by apply thread_known_grows.
    + by apply (deliver_known (ring s) (claimed s)); [apply (grows_log _ _ _ _ Hg)|..].
Qed.

Lemma reachable_known may s0 s :
  system_known s0 → rtc (step_where may) s0 s → system_known s.
Proof. intros Hk Hreach. induction Hreach; eauto using step_known. Qed.

(** A new ring: no flag is set, nothing was returned. *)
Lemma init_known sz n rb (k : nat) :
  NewRingBuffer sz n = Ret rb → system_known (init rb k).
Proof.
  intros Hnew. destruct (decide (sz < 0 ∨ n < 0));
    [by rewrite NewRingBuffer_Panic in Hnew|].
  rewrite NewRingBuffer_Ret in Hnew by lia. injection Hnew as <-.
  split_and!; simpl.
  - intros j Hj. unfold slot_flagged in Hj. simpl in Hj.
    by apply lookup_replicate in Hj as [? _].
  - by apply Forall_replicate.
  - apply Forall_replicate, list_subseteq_nil.
Qed.

(** One step of the system: the items claimed are items of the calls
    of [Put] that were started. *)
Lemma step_sourced may s s' : sourced may s → step_where may s s' → sourced may s'.
Proof.
  intros Hsrc Hstep. revert Hsrc.
  destruct Hstep as [s tid c Htid Hc|s tid t t' rb' Htid Hs]; intros [Hes Hts];
    split; simpl; try done.
  - intros j data. destruct (decide (j = tid)) as [->|Hne].
    + rewrite list_lookup_insert_eq by (by eapply lookup_lt_Some).
      destruct c; simpl; by intros [= <-].
    + rewrite list_lookup_insert_ne by done. apply Hts.
  - intros v [?|Hv]%elem_of_app; [by apply Hes|].
    destruct t; simpl in Hv; try (by apply elem_of_nil in Hv). exists tid, data. eauto.
  - intros j data. destruct (decide (j = tid)) as [->|Hne].
    + rewrite list_lookup_insert_eq by (by eapply lookup_lt_Some).
      intros [= Ht']. by destruct (thread_step_not_PutCall _ _ _ _ data Hs).
    + rewrite list_lookup_insert_ne by done. apply Hts.
Qed.

Lemma reachable_sourced may s0 s :
  sourced may s0 → rtc (step_where may) s0 s → sourced may s.
Proof. intros Hk Hreach. induction Hreach; eauto using step_sourced. Qed.

Lemma init_sourced may rb (k : nat) : sourced may (init rb k).
Proof.
  split; simpl; [by intros v ?%elem_of_nil|].
  by intros tid data [? _]%lookup_replicate.
Qed.

End published_system.

(** ** The programs *)

Section published_pools.
Context {V : Type}.
Implicit Types (p : pool V) (k : task V) (ks : list (task V)) (l : line V).
Implicit Types (rb : RingBuffer V) (sched : list nat) (d v : option V).

(** The payloads a goroutine shows after a [Get] are among its
    results. *)
Lemma return_of_carried k results l d :
  l ∈ (return_of k results).2 → carried l = Some d → d ∈ results.
Proof.
  destruct k as [| |id b|id b| |]; simpl; try (by intros ?%elem_of_nil).
  - intros (e & -> & He)%list_elem_of_fmap. unfold report in He.
    apply list_elem_of_omap in He as ([v|] & Hv & Hev); [|done].
    injection Hev as <-. by intros [= <-].
  - case_decide; simpl; [by intros ?%elem_of_nil|].
    intros (v & -> & Hv)%list_elem_of_fmap. by intros [= <-].
Qed.

(** Between two calls a goroutine shows no payload. *)
Lemma next_Become_carried st ks k k' out close l :
  next_of st ks k = Become k' out close → l ∈ out → carried l = None.
Proof.
  destruct k as [[|data batches] cl|i b|i b|i b|others cl|]; simpl;
    unfold enter_next, serve_next, drain_next, wait_next;
    repeat case_match; intros [= <- <- <-]; try (by intros ?%elem_of_nil).
  by intros ->%list_elem_of_singleton.
Qed.

(** One step of a goroutine. *)
Lemma output_known_step p (j : nat) :
  system_known (sys p) → output_known p → output_known (go_step p j).
Proof.
  intros (_ & Hts & _) Hout l d Hl Hc.
  destruct (go_step_claimed p j) as [more ->]. apply elem_of_app. left.
  destruct (go_step_out p j) as [Ho _|k k' out close Hn Ho _|g k Ht Hk Ho _];
    rewrite Ho in Hl; [by apply (Hout l)|..];
    apply elem_of_app in Hl as [Hl|Hl]; try (by apply (Hout l)).
  - by rewrite (next_Become_carried _ _ _ _ _ _ _ Hn Hl) in Hc.
  - apply (proj1 (Forall_lookup _ _) Hts _ _ Ht). by apply (return_of_carried k _ l).
Qed.

(** A run of goroutines whose [make] does not fail. *)
Lemma go_run_steps ks rb sched :
  Forall task_ok ks →
  rtc (step_where (pool_calls ks)) (init rb (length ks)) (sys (go_run sched (spawn rb ks))).
Proof. intros Hks. by apply (go_run_where ks sched (spawn rb ks)), tasks_ok_start. Qed.

Lemma go_run_known sz n ks rb sched :
  NewRingBuffer sz n = Ret rb → Forall task_ok ks →
  system_known (sys (go_run sched (spawn rb ks))) ∧
  output_known (go_run sched (spawn rb ks)).
Proof.
  intros Hnew Hks.
  assert (∀ sched', system_known (sys (go_run sched' (spawn rb ks)))) as Hsys.
  { intros sched'. eapply reachable_known; [by eapply init_known|by apply go_run_steps]. }
  split; [done|]. induction sched as [|j sched IH] using rev_ind.
  - by intros l d ?%elem_of_nil.
  - rewrite go_run_app. by apply output_known_step.
Qed.

(** The items the calls of the tasks are made with. *)
Lemma pool_calls_item_of ks v : put_by (pool_calls ks) v → item_of ks v.
Proof.
  intros (tid & data & (k & Hk & Hc) & Hv).
  destruct k as [batches close| | | | |]; simpl in Hc; try done.
  destruct Hc as (data' & [= <-] & Hin). by exists tid, batches, close, data.
Qed.

End published_pools.

(** C6: only what was published is consumed.  Goroutines that run the
    loops of src/lmax.go and src/lmax_test.go on a new ring, in every
    interleaving, on every lap and whatever the sizes: every item
    claimed is an item of one of the [Producer] calls of the program,
    every payload a call of [Get] has returned is an item claimed, and
    so is every payload a consumer has printed or logged.  A consumer
    may be handed an item twice or miss one ([Anomalies]); it is never
    handed a payload that no producer published, because the flag of a
    slot is stored after its payload and tested before the copy. *)
Theorem consumers_see_only_published_items {V} sz n (rb : RingBuffer V) ks sched :
  NewRingBuffer sz n = Ret rb → Forall task_ok ks →
  (∀ v, v ∈ claimed (sys (go_run sched (spawn rb ks))) → item_of ks v) ∧
  (∀ (id : nat) vs v, delivered (sys (go_run sched (spawn rb ks))) !! id = Some vs →
     v ∈ vs → v ∈ claimed (sys (go_run sched (spawn rb ks)))) ∧
  (∀ l v, l ∈ output (go_run sched (spawn rb ks)) → carried l = Some v →
     v ∈ claimed (sys (go_run sched (spawn rb ks)))).
Proof.
  intros Hnew Hks.
  destruct (go_run_known sz n ks rb sched Hnew Hks) as [(_ & _ & Hds) Hout].
  split_and!; [|by intros id vs v Hvs; apply (proj1 (Forall_lookup _ _) Hds _ _ Hvs)|done].
  intros v Hv. apply pool_calls_item_of.
  by apply (reachable_sourced _ _ _ (init_sourced _ rb (length ks)) (go_run_steps ks rb sched Hks)).
Qed.

(** The theorem at [TestConcurrency] under the schedule of
    [Goroutines]: 300 items on 100 slots. *)
Lemma consumers_see_only_published_items_witness :
  let p := go_run sched_sleepy (spawn ring100 test_tasks) in
  (∀ v, v ∈ claimed (sys p) → item_of test_tasks v) ∧
  (∀ (id : nat) vs v, delivered (sys p) !! id = Some vs → v ∈ vs → v ∈ claimed (sys p)) ∧
  (∀ l v, l ∈ output p → carried l = Some v → v ∈ claimed (sys p)).
Proof.
  apply (consumers_see_only_published_items 100 3 ring100 test_tasks sched_sleepy);
    [apply TestConcurrency_Ret_new|].
  eapply Forall_impl; [apply test_tasks_valid|]. apply task_valid_ok.
Defined.
