(* ===== verification/Drain.v ===== *)
(** * The consumers of TestConcurrency return

    A consumer of [TestConcurrency] (src/lmax_test.go) calls [Get]
    until a batch comes back empty.  Whether it ever does depends on
    the ring: a call of [Get] returns only if it finds the flags set,
    and the loop of the consumer ends only if the calls stop returning
    items.  This file shows that with one goroutine per consumer and at
    least a lap of items both happen, in every interleaving: once the
    producers have returned every flag is set ([Flags]), every call of
    [Get] returns within [5 b + n + 6] steps ([Progress]), and a call
    that returns items moves the cursor of the consumer towards the
    write cursor, which it cannot pass ([Safety]).  So the consumers
    return, [wg.Wait()] returns, and the test, which asserts nothing,
    passes. *)

From stdpp Require Import prelude.
From S2P Require Import Prelude GoInt GoSlice RingBuffer RingLog Contract Workload Harness.
From S2P Require Import Threads Concurrent Safety Flags Consumers Streams Goroutines.
From S2P Require Import Progress Blocked Output.

(** ** The cursor of a consumer on every lap *)

Section cursors_all_laps.
Context {V : Type}.
Variable cid : nat → option nat.
Hypothesis cid_inj : ∀ i j c, cid i = Some c → cid j = Some c → i = j.
Implicit Types (s : system V) (rb : RingBuffer V) (t : thread V) (g : frame V).
Implicit Types (tid j : nat) (id n w : Z).

(** A step of thread [tid] keeps the cursor of its consumer in step
    with its [nextRead], on every lap. *)
Lemma safe_step_cursor_ok n w rb tid t t' rb' :
  ring_safe rb w → thread_safe n w t → cursor_ok cid rb tid t →
  thread_step t rb = Some (t', rb') → cursor_ok cid rb' tid t'.
Proof.
  intros Hok Ht Hc Hs.
  pose proof (safe_bound _ _ Hok) as Hw.
  pose proof (proj1 (Forall_lookup _ _) (safe_readCursors _ _ Hok)) as Hcs.
  destruct t as [|data|[|d data] nw|d data nw| |b id|g|g|g|g|g v|g|g|g m k|g m|g|p];
    simpl in Hs; repeat case_decide; try destruct (readCursors rb !! k);
    step_inv Hs; try done.
  - simpl in Hc. apply index_Ret in E as [_ Hx]. split; [done|]. simpl.
    pose proof (Hcs _ _ Hx) as Hr. simpl in Hr.
    rewrite add64_exact, Hx by int64_lia. f_equal. lia.
  - by case_decide.
  - destruct Hc as [Hid Hcur], Ht as [[_ Hf] Hle].
    pose proof (store_Ret_inv _ _ _ _ E) as [[_ Hin] ->]. split; [done|]. simpl.
    rewrite list_lookup_insert_eq by by eapply lookup_lt_Some.
    rewrite add64_exact by int64_lia. f_equal. lia.
Qed.

(** One step of the system under the discipline of [Consumers]. *)
Lemma safe_step_cursors_ok n s s' :
  pool_safe n s → cursors_ok cid s → step_own cid s s' → cursors_ok cid s'.
Proof.
  intros Hsafe Hcs Hstep. revert Hsafe Hcs.
  destruct Hstep as [s tid c Htid Hown|s tid t t' rb' Htid Hs];
    intros (Hok & _ & Hts) Hcs j t2; simpl.
  - destruct (decide (j = tid)) as [->|Hj].
    + rewrite list_lookup_insert_eq by by eapply lookup_lt_Some.
      intros [= <-]. by destruct c.
    + rewrite list_lookup_insert_ne by done. apply Hcs.
  - pose proof (proj1 (Forall_lookup _ _) Hts _ _ Htid) as Ht.
    pose proof (Hcs _ _ Htid) as Hc.
    destruct (decide (j = tid)) as [->|Hj].
    + rewrite list_lookup_insert_eq by by eapply lookup_lt_Some.
      intros [= <-]. by eapply safe_step_cursor_ok.
    + rewrite list_lookup_insert_ne by done. intros Ht2.
      eapply cursor_ok_stable; [|by apply Hcs].
      intros g2 Hg2. eapply thread_step_cursors; [done|]. intros g v -> _ Heq.
      destruct (cursor_ok_frame _ _ _ _ _ (Hcs _ _ Ht2) Hg2) as [Ho2 _].
      destruct Hc as [Ho _]. by destruct Hj; eapply (owns_inj cid).
Qed.

(** The calls of the discipline for the consumers of the ring. *)
Definition own_valid (n : Z) (tid : nat) (c : call V) : Prop :=
  own_call cid tid c ∧ valid_call n tid c.

(** In every interleaving and on every lap. *)
Lemma reachable_cursors_safe n s0 s :
  pool_safe n s0 → cursors_ok cid s0 → rtc (step_where (own_valid n)) s0 s →
  len (claimed s) < int64_max → cursors_ok cid s.
Proof.
  intros Hsafe Hcs0 Hreach. revert s Hreach.
  apply (rtc_ind_r (λ s, len (claimed s) < int64_max → cursors_ok cid s)); [done|].
  intros s1 s2 Hreach Hstep IH Hmax.
  pose proof (prefix_length _ _ (step_claimed _ _ (step_where_step _ _ _ Hstep))) as Hlen.
  assert (len (claimed s1) < int64_max) as Hmax1 by (unfold len in *; lia).
  apply (safe_step_cursors_ok n s1); [|by apply IH|].
  - apply (reachable_pool_safe n s0); [done| |done].
    eapply rtc_step_where_impl; [|done]. by intros tid c [_ ?].
  - eapply step_where_impl; [|done]. by intros tid c [? _].
Qed.

(** A move of another thread leaves the cursor of a consumer alone. *)
Lemma move_cursor s m tid (c : nat) :
  cursors_ok cid s → cid tid = Some c → m.1 ≠ tid →
  readCursors (ring (move s m)) !! c = readCursors (ring s) !! c.
Proof.
  intros Hcs Hc Hne. unfold move.
  destruct (threads s !! m.1) as [t|] eqn:Ht; [|done].
  assert (readCursors (ring match thread_step t (ring s) with
                            | Some (t', rb') =>
                                mkSystem rb' (<[m.1 := t']> (threads s))
                                  (claimed s ++ claims t) (deliver t (delivered s))
                            | None => s
                            end) !! c = readCursors (ring s) !! c) as Hstep.
  { destruct (thread_step t (ring s)) as [[t' rb']|] eqn:Hs; [simpl|done].
    eapply thread_step_cursors; [done|]. intros g v -> _ Heq.
    destruct (Hcs _ _ Ht) as [Ho _]. simpl in Ho. destruct Hne.
    eapply (owns_inj cid cid_inj _ _ _ (Z.of_nat c)); [done|by unfold owns; rewrite Hc|lia]. }
  by destruct t, (m.2).
Qed.

End cursors_all_laps.

(** ** The measure of a consumer that drains *)

Section drain_defs.
Context {V : Type}.
Implicit Types (p : pool V) (t : thread V) (k : task V) (ks : list (task V)).

(** A goroutine that publishes or that drains. *)
Definition working k : Prop :=
  match k with
  | Producing _ _ | Draining _ _ => True
  | _ => False
  end.

(** The tasks of [TestConcurrency]: producers, consumers that drain,
    and a goroutine that waits for some of them. *)
Definition test_task ks k : Prop :=
  match k with
  | Waiting others _ => Forall (λ j, ∃ k', ks !! j = Some k' ∧ working k') others
  | _ => working k
  end.

(** The cursor the call in progress started from; [cur] when the
    thread is not past the load of line 50. *)
Definition start_of (cur : Z) t : Z :=
  match frame_of t with
  | Some g => f_nextRead g - len (f_results g) - 1
  | None => cur
  end.

(** The calls of [Get] of a consumer that drains and is at [start],
    [w] items being published for good: all but the last return an
    item. *)
Definition gets_left (w start : Z) : nat := Z.to_nat (w - start) + 1.

(** The steps of one round of the loop of the consumer, at most: the
    start of the call and the call. *)
Definition get_cost (n : nat) (b : Z) : nat := 5 * Z.to_nat b + n + 7.

Definition cursor_of p (id : Z) : Z :=
  default 0 (readCursors (ring (sys p)) !! Z.to_nat id).

(** The steps goroutine [tid] has at most still to take when it drains,
    every flag is set and no item is to come. *)
Definition drain_steps (n : nat) (w : Z) p (tid : nat) : nat :=
  match threads (sys p) !! tid, tasks p !! tid with
  | Some Idle, Some (Draining id b) => get_cost n b * gets_left w (cursor_of p id)
  | Some t, Some (Draining id b) =>
      get_steps n t + get_cost n b * (gets_left w (start_of (cursor_of p id) t) - 1)
  | _, _ => 0
  end.

(** Goroutine [tid] runs the loop of a consumer of
    [TestConcurrency]. *)
Inductive draining_at p (tid : nat) (id b : Z) : Prop :=
| draining_running t :
    threads (sys p) !! tid = Some t → tasks p !! tid = Some (Draining id b) →
    serving b id t → -1 ≤ start_of (-1) t → draining_at p tid id b
| draining_exited :
    threads (sys p) !! tid = Some Idle → tasks p !! tid = Some Exited →
    draining_at p tid id b.

(** Goroutine [tid] waits for the goroutines [others]. *)
Definition waiting_at p (tid : nat) (others : list nat) (close : bool) : Prop :=
  threads (sys p) !! tid = Some Idle ∧
  (tasks p !! tid = Some (Waiting others close) ∨ tasks p !! tid = Some Exited).

End drain_defs.

(** ** One step of a call of a consumer that drains *)

Section drain_calls.
Context {V : Type}.
Implicit Types (rb : RingBuffer V) (t : thread V) (g : frame V) (n w b id cur : Z).

(** A step inside the call leaves the thread inside the call and the
    start of the call where it is. *)
Lemma get_step_start n w rb b id t t' rb' cur :
  ring_safe rb w → thread_safe n w t → serving b id t → t ≠ Idle → (∀ g, t ≠ GetDone g) →
  readCursors rb !! Z.to_nat id = Some cur →
  thread_step t rb = Some (t', rb') → (∀ pn, t' ≠ Crashed pn) →
  t' ≠ Idle ∧ ∀ cur', start_of cur' t' = start_of cur t.
Proof.
  intros Hok Ht Hsv Hi Hd Hcur Hs Hnc. pose proof (safe_bound _ _ Hok) as Hw.
  pose proof (proj1 (Forall_lookup _ _) (safe_readCursors _ _ Hok) _ _ Hcur) as Hc.
  simpl in Hc.
  destruct t as [| | | | |b' id'|g|g|g|g|g v|g|g|g m k|g m|g|]; try done;
    [|simpl in Hs, Hsv, Ht; unfold frame_safe in Ht; repeat case_decide;
      try destruct (readCursors rb !! k);
      step_ops Hs; injection Hs as <- <-; try (by destruct (Hnc _ eq_refl));
      try case_decide; (split; [done|]); intros cur'; unfold start_of; simpl;
      rewrite ?len_app, ?len_cons, ?len_nil, ?add64_exact by int64_lia; lia..|by destruct (Hd g)].
  destruct Hsv as [-> ->]. simpl in Hs.
  step_ops Hs; injection Hs as <- <-; try (by destruct (Hnc _ eq_refl)).
  split; [done|]. intros cur'. unfold start_of. simpl.
  apply index_Ret in E as [_ E]. rewrite Hcur in E. injection E as <-.
  rewrite len_nil, add64_exact by int64_lia. lia.
Qed.

(** A call that is not over has at least a step to take. *)
Lemma get_steps_pos (k : nat) b id t : serving b id t → t ≠ Idle → (1 ≤ get_steps k t)%nat.
Proof. destruct t; simpl; try done; lia. Qed.

End drain_calls.

(** ** One step of a goroutine *)

Section drain_pool_steps.
Context {V : Type}.
Variable cid : nat → option nat.
Hypothesis cid_inj : ∀ i j c, cid i = Some c → cid j = Some c → i = j.
Implicit Types (p : pool V) (t : thread V) (g : frame V) (tid j : nat) (n w b id : Z).

(** A step of another goroutine leaves the cursor of a consumer
    alone. *)
Lemma go_step_cursor p j tid (c : nat) :
  cursors_ok cid (sys p) → cid tid = Some c → j ≠ tid →
  readCursors (ring (sys (go_step p j))) !! c = readCursors (ring (sys p)) !! c.
Proof.
  intros Hcs Hc Hne. unfold go_step.
  destruct (threads (sys p) !! j) as [t|]; [|done].
  destruct (tasks p !! j) as [k|]; [|by destruct t].
  destruct t; try (by apply (move_cursor cid cid_inj _ _ tid)).
  - destruct (next_of _ _ k); simpl; try done. by apply (move_cursor cid cid_inj _ _ tid).
  - destruct (return_of k _). by apply (move_cursor cid cid_inj _ _ tid).
Qed.

(** The consumer calls [Get]. *)
Lemma drain_start p tid id b :
  threads (sys p) !! tid = Some Idle → tasks p !! tid = Some (Draining id b) →
  threads (sys (go_step p tid)) !! tid = Some (GetCall b id) ∧
  tasks (go_step p tid) !! tid = Some (Draining id b) ∧
  ring (sys (go_step p tid)) = ring (sys p).
Proof.
  intros Ht Hk. pose proof (lookup_lt_Some _ _ _ Ht). pose proof (lookup_lt_Some _ _ _ Hk).
  unfold go_step. rewrite Ht, Hk. simpl. rewrite (move_call _ _ _ Ht). simpl.
  by rewrite !list_lookup_insert_eq.
Qed.

(** A step of the call. *)
Lemma drain_in_call p tid id b t :
  threads (sys p) !! tid = Some t → tasks p !! tid = Some (Draining id b) →
  serving b id t → t ≠ Idle → (∀ g, t ≠ GetDone g) →
  ∃ t' rb', thread_step t (ring (sys p)) = Some (t', rb') ∧
    threads (sys (go_step p tid)) !! tid = Some t' ∧
    tasks (go_step p tid) !! tid = Some (Draining id b) ∧
    ring (sys (go_step p tid)) = rb'.
Proof.
  intros Ht Hk Hsv Hi Hd. pose proof (lookup_lt_Some _ _ _ Ht).
  destruct (get_step_Some b id t (ring (sys p)) Hsv Hi) as [[t' rb'] Hs].
  exists t', rb'. rewrite (go_step_in_call p tid t _ Ht Hk Hi Hd). simpl.
  rewrite (move_thread _ _ _ _ _ Ht Hs). simpl. by rewrite list_lookup_insert_eq.
Qed.

(** The call returns: the consumer returns if the batch is empty. *)
Lemma drain_return p tid id b g :
  threads (sys p) !! tid = Some (GetDone g) → tasks p !! tid = Some (Draining id b) →
  threads (sys (go_step p tid)) !! tid = Some Idle ∧
  tasks (go_step p tid) !! tid =
    Some (if decide (len (f_results g) = 0) then Exited else Draining id b) ∧
  ring (sys (go_step p tid)) = ring (sys p).
Proof.
  intros Ht Hk. pose proof (lookup_lt_Some _ _ _ Ht). pose proof (lookup_lt_Some _ _ _ Hk).
  unfold go_step. rewrite Ht, Hk. simpl.
  case_decide; simpl; rewrite (move_thread _ _ (GetDone g) Idle (ring (sys p)) Ht) by done;
    simpl; by rewrite !list_lookup_insert_eq.
Qed.

(** The measure of a consumer inside a call. *)
Lemma drain_steps_call (k : nat) w p tid id b t :
  threads (sys p) !! tid = Some t → tasks p !! tid = Some (Draining id b) → t ≠ Idle →
  drain_steps k w p tid =
    (get_steps k t + get_cost k b * (gets_left w (start_of (cursor_of p id) t) - 1))%nat.
Proof. intros Ht Hk Hi. unfold drain_steps. rewrite Ht, Hk. by destruct t. Qed.

Lemma drain_steps_idle (k : nat) w p tid id b :
  threads (sys p) !! tid = Some Idle → tasks p !! tid = Some (Draining id b) →
  drain_steps k w p tid = (get_cost k b * gets_left w (cursor_of p id))%nat.
Proof. intros Ht Hk. unfold drain_steps. by rewrite Ht, Hk. Qed.

Lemma drain_steps_exited (k : nat) w p tid :
  tasks p !! tid = Some Exited → drain_steps k w p tid = 0%nat.
Proof. intros Hk. unfold drain_steps. rewrite Hk. by destruct (threads (sys p) !! tid) as [[]|]. Qed.

Lemma start_of_lower cur t : -1 ≤ cur → -1 ≤ start_of (-1) t → -1 ≤ start_of cur t.
Proof. unfold start_of. by destruct (frame_of t). Qed.

(** The cursor of the consumer a thread serves. *)
Lemma serving_cursor n p tid id b t :
  pool_safe n (sys p) → threads (sys p) !! tid = Some t → serving b id t → t ≠ Idle →
  readCursors (ring (sys p)) !! Z.to_nat id = Some (cursor_of p id) ∧
  -1 ≤ cursor_of p id ≤ len (claimed (sys p)).
Proof.
  intros (Hok & Hn & Hts) Ht Hsv Hi.
  pose proof (proj1 (Forall_lookup _ _) Hts _ _ Ht) as Hsafe.
  assert (0 ≤ id < n) as Hid
    by (destruct t; simpl in Hsv, Hsafe; unfold frame_safe in Hsafe; try done; lia).
  destruct (ring_safe_cursor _ _ n id Hok Hn Hid) as (c & [_ Hc]%index_Ret & Hr).
  unfold cursor_of. by rewrite Hc.
Qed.

(** A step of the goroutine keeps it a consumer that drains. *)
Lemma draining_own n p tid id b :
  pool_safe n (sys p) → draining_at p tid id b →
  (∀ pn, threads (sys (go_step p tid)) !! tid ≠ Some (Crashed pn)) →
  draining_at (go_step p tid) tid id b.
Proof.
  intros Hsafe [t Ht Hk Hsv Hlow|Ht Hk] Hnc;
    [|unfold go_step; rewrite Ht, Hk; by apply draining_exited].
  assert (t = Idle ∨ (∃ g, t = GetDone g) ∨ (t ≠ Idle ∧ ∀ g, t ≠ GetDone g))
    as [->|[[g ->]|[Hi Hd]]] by (destruct t; eauto).
  - destruct (drain_start p tid id b Ht Hk) as (Ht' & Hk' & _).
    by apply (draining_running _ _ _ _ (GetCall b id)).
  - destruct (drain_return p tid id b g Ht Hk) as (Ht' & Hk' & _). case_decide.
    + by apply draining_exited.
    + by apply (draining_running _ _ _ _ Idle).
  - destruct (drain_in_call p tid id b t Ht Hk Hsv Hi Hd) as (t' & rb' & Hs & Ht' & Hk' & _).
    assert (∀ pn, t' ≠ Crashed pn) as Hnc' by (intros pn ->; by destruct (Hnc pn)).
    destruct (serving_cursor n p tid id b t Hsafe Ht Hsv Hi) as [Hcur Hr].
    destruct Hsafe as (Hok & _ & Hts).
    destruct (get_step_start n _ _ b id t t' rb' _ Hok
                (proj1 (Forall_lookup _ _) Hts _ _ Ht) Hsv Hi Hd Hcur Hs Hnc') as [_ Hst].
    apply (draining_running _ _ _ _ t'); [done..|by eapply get_step_serving|].
    rewrite Hst. apply start_of_lower; [lia|done].
Qed.

(** With every flag set and no item to come, the start of a call is a
    step less to take. *)
Lemma drain_down_idle (k : nat) w p tid id b :
  threads (sys p) !! tid = Some Idle → tasks p !! tid = Some (Draining id b) →
  (drain_steps k w (go_step p tid) tid ≤ drain_steps k w p tid - 1)%nat.
Proof.
  intros Ht Hk. destruct (drain_start p tid id b Ht Hk) as (Ht' & Hk' & Hring).
  rewrite (drain_steps_idle k w p tid id b), (drain_steps_call k w _ tid id b _ Ht' Hk')
    by done.
  unfold cursor_of. rewrite Hring. unfold start_of, gets_left, get_cost. simpl. nia.
Qed.

(** So is the return of a call: with an empty batch the consumer
    returns, with items its cursor is nearer to the write cursor. *)
Lemma drain_down_return n w p tid id b g :
  pool_safe n (sys p) → len (claimed (sys p)) = w → cursors_ok cid (sys p) →
  threads (sys p) !! tid = Some (GetDone g) → tasks p !! tid = Some (Draining id b) →
  serving b id (GetDone g) →
  (drain_steps (Z.to_nat n) w (go_step p tid) tid
     ≤ drain_steps (Z.to_nat n) w p tid - 1)%nat.
Proof.
  intros (_ & _ & Hts) Hw Hcs Ht Hk (_ & Hid & _).
  destruct (drain_return p tid id b g Ht Hk) as (Ht' & Hk' & Hring).
  rewrite (drain_steps_call _ w p tid id b _ Ht Hk) by done. simpl.
  case_decide as Hlen; [rewrite drain_steps_exited by done; lia|].
  rewrite (drain_steps_idle _ w _ tid id b Ht' Hk'). unfold cursor_of. rewrite Hring.
  destruct (Hcs _ _ Ht) as [_ Hcur]. simpl in Hcur. rewrite Hid in Hcur. rewrite Hcur.
  pose proof (proj1 (Forall_lookup _ _) Hts _ _ Ht) as [_ Hnr]. simpl in Hnr.
  pose proof (len_nonneg (f_results g)). simpl.
  assert (gets_left w (f_nextRead g - 1)
            ≤ gets_left w (f_nextRead g - len (f_results g) - 1) - 1)%nat as Hle
    by (unfold gets_left; lia).
  unfold start_of. simpl. nia.
Qed.

(** So is a step of the call. *)
Lemma drain_down_call n w p tid id b t :
  pool_safe n (sys p) → all_set (ring (sys p)) →
  threads (sys p) !! tid = Some t → tasks p !! tid = Some (Draining id b) →
  serving b id t → t ≠ Idle → (∀ g, t ≠ GetDone g) →
  (∀ pn, threads (sys (go_step p tid)) !! tid ≠ Some (Crashed pn)) →
  (drain_steps (Z.to_nat n) w (go_step p tid) tid
     ≤ drain_steps (Z.to_nat n) w p tid - 1)%nat.
Proof.
  intros Hsafe Hall Ht Hk Hsv Hi Hd Hnc.
  destruct (drain_in_call p tid id b t Ht Hk Hsv Hi Hd) as (t' & rb' & Hs & Ht' & Hk' & _).
  assert (∀ pn, t' ≠ Crashed pn) as Hnc' by (intros pn ->; by destruct (Hnc pn)).
  destruct (serving_cursor n p tid id b t Hsafe Ht Hsv Hi) as [Hcur _].
  destruct Hsafe as (Hok & Hn & Hts).
  destruct (get_step_start n _ _ b id t t' rb' _ Hok
              (proj1 (Forall_lookup _ _) Hts _ _ Ht) Hsv Hi Hd Hcur Hs Hnc') as [Hi' Hst].
  rewrite (drain_steps_call _ w p tid id b t), (drain_steps_call _ w _ tid id b t'), Hst
    by done.
  assert (length (readCursors (ring (sys p))) = Z.to_nat n) as Hlen
    by (unfold len in Hn; lia).
  pose proof (get_step_down _ b id t _ t' rb' Hall Hlen Hsv Hs). lia.
Qed.

(** With every flag set and no item to come, a step of the goroutine
    is a step less to take, at least. *)
Lemma drain_down n w p tid id b :
  pool_safe n (sys p) → len (claimed (sys p)) = w → cursors_ok cid (sys p) →
  all_set (ring (sys p)) → draining_at p tid id b →
  (∀ pn, threads (sys (go_step p tid)) !! tid ≠ Some (Crashed pn)) →
  (drain_steps (Z.to_nat n) w (go_step p tid) tid
     ≤ drain_steps (Z.to_nat n) w p tid - 1)%nat.
Proof.
  intros Hsafe Hw Hcs Hall [t Ht Hk Hsv Hlow|Ht Hk] Hnc.
  - assert (t = Idle ∨ (∃ g, t = GetDone g) ∨ (t ≠ Idle ∧ ∀ g, t ≠ GetDone g))
      as [->|[[g ->]|[Hi Hd]]] by (destruct t; eauto).
    + by apply (drain_down_idle _ w p tid id b).
    + by apply (drain_down_return n w p tid id b g).
    + by apply (drain_down_call n w p tid id b t).
  - rewrite (drain_steps_exited _ w (go_step p tid));
      [lia|unfold go_step; by rewrite Ht, Hk].
Qed.

(** A consumer that drains has a step to take; one that has none has
    returned. *)
Lemma drain_done (k : nat) w p tid id b :
  draining_at p tid id b → drain_steps k w p tid = 0%nat → tasks p !! tid = Some Exited.
Proof.
  intros [t Ht Hk Hsv Hlow|Ht Hk]; [|done].
  assert (t = Idle ∨ t ≠ Idle) as [->|Hi] by (destruct t; (by left) || by right).
  - rewrite (drain_steps_idle k w p tid id b) by done. unfold get_cost, gets_left.
    intros Hz. nia.
  - rewrite (drain_steps_call k w p tid id b t) by done.
    pose proof (get_steps_pos k b id t Hsv Hi). intros [Hz _]%Nat.eq_add_0. lia.
Qed.

(** The steps of a consumer that drains, at most. *)
Lemma drain_bound n p tid id b :
  pool_safe n (sys p) → draining_at p tid id b →
  (drain_steps (Z.to_nat n) (len (claimed (sys p))) p tid
     ≤ get_cost (Z.to_nat n) b * (Z.to_nat (len (claimed (sys p))) + 2))%nat.
Proof.
  intros Hsafe [t Ht Hk Hsv Hlow|Ht Hk]; [|rewrite drain_steps_exited by done; lia].
  pose proof (len_nonneg (claimed (sys p))) as Hw.
  assert (t = Idle ∨ t ≠ Idle) as [->|Hi] by (destruct t; (by left) || by right).
  - rewrite (drain_steps_idle _ _ p tid id b) by done.
    apply Nat.mul_le_mono_l. unfold gets_left, cursor_of.
    destruct Hsafe as (Hok & _).
    destruct (readCursors (ring (sys p)) !! Z.to_nat id) as [c|] eqn:Hc; simpl; [|lia].
    pose proof (proj1 (Forall_lookup _ _) (safe_readCursors _ _ Hok) _ _ Hc) as Hr.
    simpl in Hr. lia.
  - rewrite (drain_steps_call _ _ p tid id b t) by done.
    destruct (serving_cursor n p tid id b t Hsafe Ht Hsv Hi) as [_ Hr].
    pose proof (start_of_lower (cursor_of p id) t (proj1 Hr) Hlow) as Hst.
    pose proof (serving_bound (Z.to_nat n) b id t Hsv).
    assert (gets_left (len (claimed (sys p))) (start_of (cursor_of p id) t) - 1
              ≤ Z.to_nat (len (claimed (sys p))) + 1)%nat by (unfold gets_left; lia).
    unfold get_cost. nia.
Qed.

(** A step of another goroutine changes nothing for the consumer. *)
Lemma drain_other (k : nat) w p j tid id b :
  cursors_ok cid (sys p) → cid tid = Some (Z.to_nat id) → j ≠ tid →
  draining_at p tid id b →
  drain_steps k w (go_step p j) tid = drain_steps k w p tid ∧
  draining_at (go_step p j) tid id b.
Proof.
  intros Hcs Hc Hne Hat. destruct (go_step_other p j tid Hne) as [Hts Hks].
  destruct Hat as [t Ht Hk Hsv Hlow|Ht Hk].
  - split; [|apply (draining_running _ _ _ _ t); congruence].
    unfold drain_steps, cursor_of. by rewrite Hts, Hks, Hk, (go_step_cursor p j tid).
  - split; [|apply draining_exited; congruence].
    rewrite !drain_steps_exited; [done|done|congruence].
Qed.

End drain_pool_steps.

(** ** The goroutines of the test *)

Section test_pools.
Context {V : Type} (sz n : Z) (rb : RingBuffer V) (ks : list (task V)).
Context (Hnew : NewRingBuffer sz n = Ret rb) (Hsz : 0 < sz ≤ int64_max).
Context (Hks : Forall (task_valid n) ks) (Htot : total (spawn rb ks) < int64_max).
Context (Hshape : Forall (test_task ks) ks).
Context (Hinj : ∀ i j c, task_cid ks i = Some c → task_cid ks j = Some c → i = j).
Implicit Types (sched : list nat) (tid j : nat) (id b : Z).

(** On every lap the cursor of a consumer is the sequence before the
    [nextRead] of the goroutine that serves it. *)
Lemma test_cursors_ok sched : cursors_ok (task_cid ks) (sys (go_run sched (spawn rb ks))).
Proof.
  apply (reachable_cursors_safe (task_cid ks) Hinj n (init rb (length ks)));
    [by eapply init_pool_safe|apply init_cursors_ok| |].
  - eapply rtc_step_where_impl;
      [|apply (go_run_where ks sched (spawn rb ks)), tasks_ok_start].
    + intros tid c Hc. split; [by apply (pool_calls_own n)|by eapply pool_calls_valid].
    + eapply Forall_impl; [exact Hks|]. apply task_valid_ok.
  - pose proof (go_run_claimed sched (spawn rb ks)). lia.
Qed.

Lemma test_no_crash sched tid pn :
  threads (sys (go_run sched (spawn rb ks))) !! tid ≠ Some (Crashed pn).
Proof. by apply (go_run_safe sz n). Qed.

(** A goroutine that starts as a consumer that drains stays one. *)
Lemma draining_started sched tid id b :
  ks !! tid = Some (Draining id b) → draining_at (go_run sched (spawn rb ks)) tid id b.
Proof.
  intros Hk. induction sched as [|j sched IH] using rev_ind.
  - apply (draining_running _ _ _ _ Idle); [by eapply spawn_idle|done..].
  - rewrite go_run_app. simpl. destruct (decide (j = tid)) as [->|Hne].
    + apply (draining_own n); [by apply (go_run_safe sz n)|done|].
      intros pn. pose proof (test_no_crash (sched ++ [tid]) tid pn) as Hnc.
      rewrite go_run_app in Hnc. exact Hnc.
    + apply (drain_other (task_cid ks) Hinj 0 0); [apply test_cursors_ok| |done..].
      unfold task_cid. by rewrite Hk.
Qed.

(** A step of a goroutine that waits. *)
Lemma waiting_own (p : pool V) tid others close :
  waiting_at p tid others close → waiting_at (go_step p tid) tid others close.
Proof.
  intros [Ht [Hk|Hk]]; unfold go_step; rewrite Ht, Hk; simpl; [|by split; [|right]].
  pose proof (lookup_lt_Some _ _ _ Hk). unfold wait_next, waiting_at.
  destruct (forallb _ others); simpl; (split; [exact Ht|]); [right|by left].
  by apply list_lookup_insert_eq.
Qed.

Lemma waiting_started sched tid others close :
  ks !! tid = Some (Waiting others close) →
  waiting_at (go_run sched (spawn rb ks)) tid others close.
Proof.
  intros Hk. induction sched as [|j sched IH] using rev_ind.
  - split; [by eapply spawn_idle|by left].
  - rewrite go_run_app. simpl. destruct (decide (j = tid)) as [->|Hne].
    + by apply waiting_own.
    + destruct (go_step_other (go_run sched (spawn rb ks)) j tid Hne) as [Hts Hks'].
      unfold waiting_at. by rewrite Hts, Hks'.
Qed.

(** A producer has returned when it has taken its steps. *)
Lemma producer_exits sched tid batches close :
  ks !! tid = Some (Producing batches close) →
  (producer_steps Idle batches ≤ own_steps tid sched)%nat →
  threads (sys (go_run sched (spawn rb ks))) !! tid = Some Idle ∧
  tasks (go_run sched (spawn rb ks)) !! tid = Some Exited.
Proof.
  intros Hk Hm.
  pose proof (producer_returns sz n rb ks Hnew Hsz Hks Htot sched tid batches close Hk Hm)
    as Hat.
  inversion Hat as [t bs _ _ _ Hz|Ht Hex _]; [|done]. unfold producer_steps in Hz. lia.
Qed.

End test_pools.

(** ** When the producers have returned *)

Section test_runs.
Context {V : Type} (sz n : Z) (rb : RingBuffer V) (ks : list (task V)).
Context (Hnew : NewRingBuffer sz n = Ret rb) (Hsz : 0 < sz ≤ int64_max).
Context (Hks : Forall (task_valid n) ks) (Htot : total (spawn rb ks) < int64_max).
Context (Hshape : Forall (test_task ks) ks).
Context (Hinj : ∀ i j c, task_cid ks i = Some c → task_cid ks j = Some c → i = j).
Context (Hlap : sz ≤ total (spawn rb ks)).
Implicit Types (sched : list nat) (tid j : nat) (id b : Z).

(** Every producer has taken its steps in the schedule. *)
Definition producers_ran sched : Prop :=
  ∀ tid batches close, ks !! tid = Some (Producing batches close) →
    (producer_steps Idle batches ≤ own_steps tid sched)%nat.

(** Every consumer has taken the steps of its calls. *)
Definition consumers_ran sched : Prop :=
  ∀ tid id b, ks !! tid = Some (Draining id b) →
    (get_cost (Z.to_nat n) b * (Z.to_nat (total (spawn rb ks)) + 2)
       ≤ own_steps tid sched)%nat.

Lemma producers_ran_app sched sched' : producers_ran sched → producers_ran (sched ++ sched').
Proof.
  intros Hfair tid batches close Hk. pose proof (Hfair tid batches close Hk).
  rewrite own_steps_app. lia.
Qed.

(** No goroutine is in a call of [Put] or has one to make. *)
Lemma test_settled sched tid t :
  producers_ran sched → threads (sys (go_run sched (spawn rb ks))) !! tid = Some t →
  (∀ seq, ¬ pending t seq) ∧
  ∀ k, tasks (go_run sched (spawn rb ks)) !! tid = Some k → owed t k = 0.
Proof.
  intros Hfair Ht.
  assert (is_Some (ks !! tid)) as [k0 Hk0].
  { apply lookup_lt_is_Some_2. apply lookup_lt_Some in Ht.
    rewrite go_run_length in Ht. simpl in Ht. by rewrite length_replicate in Ht. }
  pose proof (proj1 (Forall_lookup _ _) Hshape _ _ Hk0) as Hh.
  destruct k0 as [batches close|id b|id b|id b|others close|]; try done.
  - destruct (producer_exits sz n rb ks Hnew Hsz Hks Htot sched tid batches close Hk0)
      as [Ht' Hk']; [by apply (Hfair tid batches close)|]. simplify_eq.
    split; [intros seq; by apply (serving_quiet 0 0)|]. intros k Hk. by simplify_eq.
  - destruct (draining_started sz n rb ks Hnew Hsz Hks Htot Hinj sched tid id b Hk0)
      as [t0 Ht' Hk' Hsv _|Ht' Hk']; simplify_eq.
    + split; [intros seq; by apply (serving_quiet b id)|].
      intros k Hk. simplify_eq. by rewrite (serving_owed b id).
    + split; [intros seq; by apply (serving_quiet 0 0)|]. intros k Hk. by simplify_eq.
  - destruct (waiting_started rb ks sched tid others close Hk0) as [Ht' [Hk'|Hk']];
      simplify_eq; (split; [intros seq; by apply (serving_quiet 0 0)|]); intros k Hk; by simplify_eq.
Qed.

(** Every item of the producers is claimed. *)
Lemma test_claimed sched :
  producers_ran sched → len (claimed (sys (go_run sched (spawn rb ks)))) = total (spawn rb ks).
Proof.
  intros Hfair. rewrite <- (go_run_total sched). apply settled_claimed.
  intros tid t k Ht Hk. by apply (test_settled sched tid t).
Qed.

(** With a lap of items, every flag is set. *)
Lemma test_all_set sched :
  producers_ran sched → all_set (ring (sys (go_run sched (spawn rb ks)))).
Proof.
  intros Hfair. destruct (go_run_safe sz n rb ks sched Hnew Hsz Hks Htot) as [Hsafe _].
  pose proof (go_run_valid n rb ks sched Hks) as Hreach.
  apply (quiet_all_set n); [done| | |].
  - apply (reachable_flags_ok n (init rb (length ks)));
      [by eapply init_pool_safe|apply init_flags_ok|done|].
    rewrite test_claimed by done. lia.
  - intros tid t seq Ht. by apply (test_settled sched tid t).
  - rewrite test_claimed by done.
    rewrite (reachable_size sz n rb (length ks)); [done..|]. by eapply reachable_where.
Qed.

Lemma own_steps_other tid j : j ≠ tid → own_steps tid [j] = 0%nat.
Proof. intros Hne. unfold own_steps. rewrite filter_cons. by case_decide. Qed.

Lemma own_steps_own tid : own_steps tid [tid] = 1%nat.
Proof. unfold own_steps. rewrite filter_cons. by case_decide. Qed.

(** From then on a consumer is as many steps nearer to its return as
    it moves. *)
Lemma drain_countdown sched1 sched tid id b :
  producers_ran sched1 → ks !! tid = Some (Draining id b) →
  (drain_steps (Z.to_nat n) (total (spawn rb ks)) (go_run (sched1 ++ sched) (spawn rb ks)) tid
     ≤ drain_steps (Z.to_nat n) (total (spawn rb ks)) (go_run sched1 (spawn rb ks)) tid
       - own_steps tid sched)%nat.
Proof.
  intros Hfair Hk. induction sched as [|j sched IH] using rev_ind.
  { rewrite app_nil_r. unfold own_steps. simpl. lia. }
  pose proof (producers_ran_app sched1 sched Hfair) as Hfair'.
  pose proof (draining_started sz n rb ks Hnew Hsz Hks Htot Hinj (sched1 ++ sched) tid id b Hk)
    as Hat.
  rewrite own_steps_app, app_assoc, go_run_app. simpl.
  destruct (decide (j = tid)) as [->|Hne].
  - rewrite own_steps_own.
    assert (drain_steps (Z.to_nat n) (total (spawn rb ks))
              (go_step (go_run (sched1 ++ sched) (spawn rb ks)) tid) tid
            ≤ drain_steps (Z.to_nat n) (total (spawn rb ks))
                (go_run (sched1 ++ sched) (spawn rb ks)) tid - 1)%nat; [|lia].
    apply (drain_down (task_cid ks) n _ _ tid id b);
      [by apply (go_run_safe sz n)|by apply test_claimed|by apply (test_cursors_ok sz n)
      |by apply test_all_set|done|].
    intros pn. pose proof (test_no_crash sz n rb ks Hnew Hsz Hks Htot
                             ((sched1 ++ sched) ++ [tid]) tid pn) as Hnc.
    rewrite go_run_app in Hnc. exact Hnc.
  - rewrite own_steps_other by done.
    destruct (drain_other (task_cid ks) Hinj (Z.to_nat n) (total (spawn rb ks))
                (go_run (sched1 ++ sched) (spawn rb ks)) j tid id b) as [-> _];
      [by apply (test_cursors_ok sz n)|unfold task_cid; by rewrite Hk|done..|lia].
Qed.

(** A consumer has returned when it has taken the steps of its
    calls. *)
Lemma drain_returns sched1 sched tid id b :
  producers_ran sched1 → ks !! tid = Some (Draining id b) →
  (get_cost (Z.to_nat n) b * (Z.to_nat (total (spawn rb ks)) + 2) ≤ own_steps tid sched)%nat →
  tasks (go_run (sched1 ++ sched) (spawn rb ks)) !! tid = Some Exited.
Proof.
  intros Hfair Hk Hm.
  apply (drain_done (Z.to_nat n) (total (spawn rb ks)) _ tid id b);
    [by apply (draining_started sz n)|].
  pose proof (drain_countdown sched1 sched tid id b Hfair Hk) as Hle.
  pose proof (drain_bound n (go_run sched1 (spawn rb ks)) tid id b) as Hb.
  rewrite test_claimed in Hb by done.
  specialize (Hb (proj1 (go_run_safe sz n rb ks sched1 Hnew Hsz Hks Htot))
                 (draining_started sz n rb ks Hnew Hsz Hks Htot Hinj sched1 tid id b Hk)).
  lia.
Qed.

(** A producer or a consumer has returned, and stays so. *)
Lemma worker_returns sched1 sched2 sched' tid k0 :
  producers_ran sched1 → consumers_ran sched2 → ks !! tid = Some k0 → working k0 →
  tasks (go_run (sched1 ++ sched2 ++ sched') (spawn rb ks)) !! tid = Some Exited.
Proof.
  intros Hfair1 Hfair2 Hk0 Hw. destruct k0 as [batches close|id b|id b|id b|others close|];
    try done.
  - apply (producer_exits sz n rb ks Hnew Hsz Hks Htot _ tid batches close Hk0).
    pose proof (Hfair1 tid batches close Hk0). rewrite own_steps_app. lia.
  - apply (drain_returns sched1 (sched2 ++ sched') tid id b Hfair1 Hk0).
    pose proof (Hfair2 tid id b Hk0). rewrite own_steps_app. lia.
Qed.

(** The test of [wg.Wait()] when the others have returned. *)
Lemma all_exited (ts : list (task V)) (others : list nat) :
  Forall (λ j, ts !! j = Some Exited) others →
  forallb (λ j, from_option exited false (ts !! j)) others = true.
Proof. induction 1 as [|j others Hj _ IH]; simpl; [done|]. by rewrite Hj, IH. Qed.

(** The goroutine that waits returns at its first step after the
    others. *)
Lemma waiting_returns sched12 sched3 tid others close :
  ks !! tid = Some (Waiting others close) →
  (∀ sched', Forall (λ j, tasks (go_run (sched12 ++ sched') (spawn rb ks)) !! j
                            = Some Exited) others) →
  (1 ≤ own_steps tid sched3)%nat →
  tasks (go_run (sched12 ++ sched3) (spawn rb ks)) !! tid = Some Exited.
Proof.
  intros Hk Hex. induction sched3 as [|j sched3 IH] using rev_ind.
  { unfold own_steps. simpl. lia. }
  rewrite own_steps_app, app_assoc, go_run_app. simpl.
  destruct (decide (j = tid)) as [->|Hne].
  - intros _.
    destruct (waiting_started rb ks (sched12 ++ sched3) tid others close Hk)
      as [Ht [Hk'|Hk']]; unfold go_step; rewrite Ht, Hk'; simpl; [|done].
    unfold wait_next. rewrite all_exited by apply Hex. simpl.
    apply list_lookup_insert_eq. by eapply lookup_lt_Some.
  - rewrite own_steps_other by done. intros Hm.
    rewrite (proj2 (go_step_other _ _ _ Hne)). apply IH. lia.
Qed.

End test_runs.

(** C11: the goroutines of [TestConcurrency] return.  Producers,
    consumers that call [Get] until a batch is empty, one goroutine per
    consumer, and goroutines that wait for them, on a new ring, with at
    least as many items as the ring has slots: once every producer has
    taken its steps ([sched1]), then every consumer
    [5 b + n + 7] steps for each of the items and two more calls
    ([sched2]), then every waiting goroutine one step ([sched3]),
    however the steps interleave, every goroutine has returned and none
    has panicked.  The test asserts nothing, so it passes, whatever the
    consumers have logged. *)
Theorem test_goroutines_return {V} sz n (rb : RingBuffer V) ks sched1 sched2 sched3 :
  NewRingBuffer sz n = Ret rb → 0 < sz ≤ int64_max →
  Forall (task_valid n) ks → total (spawn rb ks) < int64_max →
  Forall (test_task ks) ks →
  (∀ i j c, task_cid ks i = Some c → task_cid ks j = Some c → i = j) →
  sz ≤ total (spawn rb ks) →
  (∀ (tid : nat) batches close, ks !! tid = Some (Producing batches close) →
     (producer_steps Idle batches ≤ own_steps tid sched1)%nat) →
  (∀ (tid : nat) id b, ks !! tid = Some (Draining id b) →
     ((5 * Z.to_nat b + Z.to_nat n + 7) * (Z.to_nat (total (spawn rb ks)) + 2)
        ≤ own_steps tid sched2)%nat) →
  (∀ (tid : nat) others close, ks !! tid = Some (Waiting others close) →
     (1 ≤ own_steps tid sched3)%nat) →
  Forall (λ k, k = Exited) (tasks (go_run (sched1 ++ sched2 ++ sched3) (spawn rb ks))) ∧
  ∀ (tid : nat) pn,
    threads (sys (go_run (sched1 ++ sched2 ++ sched3) (spawn rb ks))) !! tid
      ≠ Some (Crashed pn).
Proof.
  intros Hnew Hsz Hks Htot Hshape Hinj Hlap Hfair1 Hfair2 Hfair3.
  split; [|by apply (go_run_safe sz n)].
  apply Forall_lookup. intros tid k Hk.
  destruct (lookup_lt_is_Some_2 ks tid) as [k0 Hk0].
  { apply lookup_lt_Some in Hk. by rewrite go_run_tasks_length in Hk. }
  pose proof (proj1 (Forall_lookup _ _) Hshape _ _ Hk0) as Hh.
  pose proof (worker_returns sz n rb ks Hnew Hsz Hks Htot Hshape Hinj Hlap sched1 sched2)
    as Hwork.
  assert (tasks (go_run (sched1 ++ sched2 ++ sched3) (spawn rb ks)) !! tid = Some Exited)
    as Hex; [|congruence].
  destruct k0 as [batches close|id b|id b|id b|others close|]; try done;
    try (by apply (Hwork sched3 tid _ Hfair1 Hfair2 Hk0)).
  rewrite app_assoc.
  apply (waiting_returns rb ks (sched1 ++ sched2) sched3 tid others close Hk0);
    [|by eapply Hfair3].
  intros sched'. rewrite <- app_assoc. eapply Forall_impl; [exact Hh|].
  intros j (k' & Hj & Hw). by apply (Hwork sched' j k').
Qed.

(** ** The theorem at [TestConcurrency] *)

(** The producers one after the other, then the consumers, then the
    goroutine of the test. *)
Definition sched_test1 : list nat := turns 1 601 ++ turns 2 601 ++ turns 3 601.

Definition sched_test2 : list nat :=
  turns 4 (60 * 302) ++ turns 5 (60 * 302) ++ turns 6 (60 * 302).

Definition sched_test3 : list nat := [0%nat].

Lemma test_tasks_shape : Forall (test_task test_tasks) test_tasks.
Proof.
  unfold test_tasks. simpl. repeat constructor;
    eexists; (split; [reflexivity|exact I]).
Qed.

(** [TestConcurrency] starts one goroutine per consumer. *)
Lemma test_cid_distinct (i j c : nat) :
  task_cid test_tasks i = Some c → task_cid test_tasks j = Some c → i = j.
Proof.
  destruct i as [|[|[|[|[|[|[|i]]]]]]], j as [|[|[|[|[|[|[|j]]]]]]]; intros Hi Hj;
    vm_compute in Hi, Hj; congruence.
Qed.

Lemma sched_test1_fair (tid : nat) batches close :
  test_tasks !! tid = Some (Producing batches close) →
  (producer_steps Idle batches ≤ own_steps tid sched_test1)%nat.
Proof.
  destruct tid as [|[|[|[|[|[|[|tid]]]]]]]; intros [= <- <-];
    apply Nat.leb_le; vm_compute; reflexivity.
Qed.

Lemma sched_test2_fair (tid : nat) id b :
  test_tasks !! tid = Some (Draining id b) →
  ((5 * Z.to_nat b + Z.to_nat 3 + 7) * (Z.to_nat (total (spawn ring100 test_tasks)) + 2)
     ≤ own_steps tid sched_test2)%nat.
Proof.
  destruct tid as [|[|[|[|[|[|[|tid]]]]]]]; intros [= <- <-];
    apply Nat.leb_le; vm_compute; reflexivity.
Qed.

Lemma sched_test3_fair (tid : nat) others close :
  test_tasks !! tid = Some (Waiting others close) → (1 ≤ own_steps tid sched_test3)%nat.
Proof.
  destruct tid as [|[|[|[|[|[|[|tid]]]]]]]; intros [= <- <-]. vm_compute. lia.
Qed.

Lemma test_goroutines_return_witness :
  let p := go_run (sched_test1 ++ sched_test2 ++ sched_test3) (spawn ring100 test_tasks) in
  Forall (λ k, k = Exited) (tasks p) ∧
  ∀ (tid : nat) pn, threads (sys p) !! tid ≠ Some (Crashed pn).
Proof.
  apply (test_goroutines_return 100 3 ring100 test_tasks sched_test1 sched_test2 sched_test3);
    [apply TestConcurrency_Ret_new|done|apply test_tasks_valid|apply test_total
    |apply test_tasks_shape|apply test_cid_distinct|
    |apply sched_test1_fair|apply sched_test2_fair|apply sched_test3_fair].
  apply Z.leb_le. vm_compute. reflexivity.
Defined.
